(** * D2E content creator: generation pipeline, completion adapter and
      event broadcaster

    A shallow embedding of the backend services

      - [services/openai.ts]      (error taxonomy, [callOpenAI],
                                   [parseJsonResponse], [countWords]),
      - [services/generator.ts]   ([breakdownTopic], [generateSingleLesson],
                                   [generateAllContent], [retryFailedLessons],
                                   [getGenerationStatus]),
      - [services/sse-manager.ts] (the connection registry and [sendToTopic]),
      - [routes/topics.ts]        (the [/:id/stream] handler),

    together with the properties the specification states about them.

    Conventions of the embedding.

      - Generated text (prompts' answers, file contents) is a sequence of
        UTF-16 code units, [text := list N], because [countWords],
        [String.prototype.trim] and the fence regular expression look at
        single code units.  Identifiers, messages, slugs and paths are
        [string]s.
      - The SQLite tables [topics] and [lessons] are finite maps from the
        primary key [id] to the remaining columns.  [updated_at] and
        [created_at] are not tracked.
      - Code that can throw lives in a state-and-exception monad [M]: a
        throw keeps every state change made before it, as in JavaScript.
      - The completion service, the disk and the progress callbacks are the
        environment.  The service and the disk are oracles indexed by the
        number of requests made so far; callbacks are a function saying,
        for each notification, whether the handler throws. *)

From Stdlib Require Import ZArith NArith List Ascii String Lia Bool.
From stdpp Require Import base tactics option list numbers strings gmap
  fin_maps sorting pretty.

Set Default Proof Using "Type".
Local Open Scope Z_scope.

(** ** Text as UTF-16 code units *)

Module Text.

Definition text := list N.

Definition of_ascii (a : ascii) : N := N_of_ascii a.

(** A literal: every character of an ASCII [string] is one code unit. *)
Fixpoint lit (s : string) : text :=
  match s with
  | EmptyString => []
  | String a s' => of_ascii a :: lit s'
  end.

(** The class [\s] of ECMAScript regular expressions, which is also what
    [trim] removes: WhiteSpace and LineTerminator code points. *)
Definition is_space (c : N) : bool :=
  ((9 <=? c) && (c <=? 13) || (c =? 32) || (c =? 160) || (c =? 5760)
   || ((8192 <=? c) && (c <=? 8202)) || (c =? 8232) || (c =? 8233)
   || (c =? 8239) || (c =? 8287) || (c =? 12288) || (c =? 65279))%N.

Fixpoint trimStart (t : text) : text :=
  match t with
  | [] => []
  | c :: t' => if is_space c then trimStart t' else t
  end.

Definition trimEnd (t : text) : text := rev (trimStart (rev t)).

(** [String.prototype.trim]. *)
Definition trim (t : text) : text := trimEnd (trimStart t).

(** *** [countWords] *)

(** The characters of the class [[#*_`~\[\]()]]. *)
Definition is_markdown_syntax (c : N) : bool :=
  ((c =? 35) || (c =? 42) || (c =? 95) || (c =? 96) || (c =? 126)
   || (c =? 91) || (c =? 93) || (c =? 40) || (c =? 41))%N.

(** [text.replace(/[#*_`~\[\]()]/g, '')] *)
Definition remove_markdown (t : text) : text :=
  List.filter (fun c => negb (is_markdown_syntax c)) t.

(** [s.split(/\s+/)]: the pieces between maximal runs of white space; a
    run at either end leaves an empty piece there, and the empty text
    splits into one empty piece.  [in_sep] says that the previous code
    unit belonged to a separator, [cur] is the piece being read. *)
Fixpoint split_go (in_sep : bool) (cur : text) (t : text) : list text :=
  match t with
  | [] => [cur]
  | c :: t' =>
      if is_space c
      then (if in_sep then split_go true [] t'
            else cur :: split_go true [] t')
      else split_go false (cur ++ [c]) t'
  end.

Definition split_whitespace (t : text) : list text := split_go false [] t.

Definition nonempty (w : text) : bool :=
  match w with [] => false | _ => true end.

Definition countWords (t : text) : Z :=
  Z.of_nat
    (length (List.filter nonempty (split_whitespace (remove_markdown t)))).

(** *** The fence pattern of [parseJsonResponse] *)

Definition backtick : N := 96%N.
Definition fence : text := [backtick; backtick; backtick].

Fixpoint starts_with (p t : text) : bool :=
  match p, t with
  | [], _ => true
  | a :: p', b :: t' => (a =? b)%N && starts_with p' t'
  | _ :: _, [] => false
  end.

(** Splits [t] at the leftmost occurrence of [p]: what precedes it and
    what follows it. *)
Fixpoint split_at_first (p t : text) : option (text * text) :=
  if starts_with p t then Some ([], drop (length p) t)
  else match t with
       | [] => None
       | c :: t' =>
           match split_at_first p t' with
           | Some (before, after) => Some (c :: before, after)
           | None => None
           end
       end.

Definition skip_prefix (p t : text) : text :=
  if starts_with p t then drop (length p) t else t.

(** [response.match(/```(?:json)?\s*([\s\S]*?)```/)], the first capture
    group.  The match starts at the leftmost fence; it takes the word
    [json] and the white space that follow when they are there (neither
    can hold a backtick, so giving them back never helps the match), and
    the lazy group then runs to the next fence.  Without a second fence
    after the first there is no match at any position. *)
Definition match_fenced (response : text) : option text :=
  match split_at_first fence response with
  | None => None
  | Some (_, after_open) =>
      let inner := trimStart (skip_prefix (lit "json") after_open) in
      match split_at_first fence inner with
      | Some (captured, _) => Some captured
      | None => None
      end
  end.

(** [jsonMatch ? jsonMatch[1].trim() : response.trim()] *)
Definition extract_json (response : text) : text :=
  match match_fenced response with
  | Some captured => trim captured
  | None => trim response
  end.

End Text.

Import Text.

(** ** Thrown values and the error taxonomy ([services/openai.ts]) *)

(** What a [catch] clause can receive.  The first four constructors are the
    classes the adapter declares; [SdkAPIError] is the client library's
    [OpenAI.APIError] with its HTTP status and the numeric value of its
    [retry-after] header when it has one; [OtherError] is any other
    instance of [Error] with its [name] and [message]; [NonError] is a
    thrown value that is not an [Error], given by its [String(...)]. *)
Inductive JsError :=
| OpenAIConfigError (message : string)
| OpenAIRateLimitError (message : string) (retryAfter : Z)
| OpenAITimeoutError (message : string)
| OpenAIAPIError (message : string) (statusCode : Z) (isRetryable : bool)
| SdkAPIError (message : string) (status : option Z) (retry_after : option Z)
| OtherError (name message : string)
| NonError (repr : string).

Record ErrorInfo := {
  message : string;
  isRetryable : bool;
  errorCode : string;
  retryAfter : option Z
}.

(** [hay.includes(needle)] *)
Fixpoint includes (hay needle : string) : bool :=
  String.prefix needle hay ||
  match hay with
  | EmptyString => false
  | String _ hay' => includes hay' needle
  end.

Definition status_code (st : option Z) : string :=
  match st with Some z => pretty z | None => "undefined" end.

Definition categorizeError (error : JsError) : ErrorInfo :=
  match error with
  | OpenAIConfigError m =>
      {| message := m; isRetryable := false; errorCode := "CONFIG_ERROR";
         retryAfter := None |}
  | OpenAIRateLimitError m ra =>
      {| message := m; isRetryable := true; errorCode := "RATE_LIMITED";
         retryAfter := Some ra |}
  | OpenAITimeoutError m =>
      {| message := m; isRetryable := true; errorCode := "TIMEOUT";
         retryAfter := None |}
  | OpenAIAPIError m code r =>
      {| message := m; isRetryable := r;
         errorCode := "API_ERROR_" +:+ pretty code; retryAfter := None |}
  | SdkAPIError m st _ =>
      {| message := m;
         isRetryable :=
           bool_decide (st = Some 429) || bool_decide (st = Some 500)
           || bool_decide (st = Some 502) || bool_decide (st = Some 503);
         errorCode := "OPENAI_" +:+ status_code st;
         retryAfter := if bool_decide (st = Some 429) then Some 60 else None |}
  | OtherError _ m =>
      let isNetworkError :=
        includes m "ECONNREFUSED" || includes m "ETIMEDOUT"
        || includes m "ENOTFOUND" || includes m "fetch failed" in
      {| message := m; isRetryable := isNetworkError;
         errorCode := if isNetworkError then "NETWORK_ERROR" else "UNKNOWN_ERROR";
         retryAfter := None |}
  | NonError _ =>
      {| message := "An unknown error occurred"; isRetryable := false;
         errorCode := "UNKNOWN_ERROR"; retryAfter := None |}
  end.

(** ** A state-and-exception monad *)

Inductive Res (A : Type) : Type :=
| Ok (a : A)
| Throw (e : JsError).
Arguments Ok {A} a.
Arguments Throw {A} e.

Definition M (S A : Type) : Type := S -> Res A * S.

Definition ret {S A} (a : A) : M S A := fun s => (Ok a, s).

Definition throw {S A} (e : JsError) : M S A := fun s => (Throw e, s).

Definition bind {S A B} (m : M S A) (k : A -> M S B) : M S B :=
  fun s =>
    match m s with
    | (Ok a, s') => k a s'
    | (Throw e, s') => (Throw e, s')
    end.

(** [try { m } catch (error) { h error }] *)
Definition try_catch {S A} (m : M S A) (h : JsError -> M S A) : M S A :=
  fun s =>
    match m s with
    | (Ok a, s') => (Ok a, s')
    | (Throw e, s') => h e s'
    end.

Definition gets {S A} (f : S -> A) : M S A := fun s => (Ok (f s), s).

Definition modify {S} (f : S -> S) : M S unit := fun s => (Ok tt, f s).

Declare Scope js_scope.
Delimit Scope js_scope with js.
Notation "x <- m ;; k" := (bind m (fun x => k))
  (at level 100, m at next level, right associativity) : js_scope.
Notation "m ;; k" := (bind m (fun _ => k))
  (at level 100, right associativity) : js_scope.
Open Scope js_scope.

(** ** The persisted records ([types/index.ts], [db/schema.sql]) *)

Inductive Status := pending | generating | completed | failed.

#[global] Instance Status_eq_dec : EqDecision Status.
Proof. solve_decision. Defined.

Record Topic := {
  topic_title : string;
  slug : string;
  topic_description : option string;
  lesson_count : Z;
  topic_status : Status;
  topic_last_error : option string
}.

(** A row of [lessons] without its primary key.  [retry_count] is a
    nullable column: the code reads it as [lesson.retry_count || 0] and
    the retry query tests [retry_count IS NULL]. *)
Record Lesson := {
  topic_id : Z;
  lesson_number : Z;
  title : string;
  description : option string;
  file_path : option string;
  podcast_file_path : option string;
  word_count : Z;
  podcast_word_count : Z;
  status : Status;
  retry_count : option Z;
  last_error : option string
}.

(** ** The environment *)

(** One request to the completion service: either it answers, and
    [content] is [response.choices[0]?.message?.content] ([None] when
    that is [null] or [undefined]), or the client rejects. *)
Inductive RawOutcome :=
| Responded (content : option text)
| Rejected (error : JsError).

Inductive ContentType := lesson_kind | podcast_kind.

(** The requests made to the completion service, oldest first. *)
Inductive ApiCall :=
| Completion (promptName : string)
| Expansion (contentType : ContentType).

Inductive Step := content_step | podcast_step.

(** One invocation of a member of [GenerationProgressCallback];
    [onProgress] is the legacy third argument of [generateAllContent]. *)
Inductive GenerationEvent :=
| onBreakdownStart
| onBreakdownComplete (lessonCount : Z)
| onLessonStart (lessonNumber : Z) (lessonTitle : string) (step : Step)
| onLessonContentComplete (lessonNumber wordCount : Z)
| onLessonPodcastComplete (lessonNumber wordCount : Z)
| onLessonComplete (lessonNumber : Z)
| onLessonError (lessonNumber : Z) (step : Step) (error : string)
    (retryable : bool)
| onGenerationComplete (totalLessons : Z)
| onGenerationError (error : string) (retryable : bool)
| onProgress (lessonNumber : Z) (step : Step) (totalLessons : Z).

(** The callbacks a caller passes: for each notification, whether its
    handler returns ([None], also when the handler is absent) or throws. *)
Definition Callbacks := GenerationEvent -> option JsError.

(** [createSSEProgressCallbacks]: every handler publishes through
    [sseManager.sendToTopic], which does not throw. *)
Definition createSSEProgressCallbacks : Callbacks := fun _ => None.

Record World := {
  topics : gmap Z Topic;
  lessons : gmap Z Lesson;
  next_lesson_id : Z;               (* AUTOINCREMENT of lessons.id *)
  prompts : gmap string text;       (* prompts.name -> prompts.template *)
  files : gmap string text;         (* the files written so far *)
  OPENAI_API_KEY : option string;   (* process.env.OPENAI_API_KEY *)
  openaiClient : bool;              (* the lazy client has been built *)
  service : nat -> RawOutcome;      (* outcome of the n-th request *)
  calls : list ApiCall;
  disk : nat -> option JsError;     (* outcome of the n-th use of the
                                       disk: a directory ensured, a file
                                       written *)
  writes : nat;
  notified : list GenerationEvent   (* callback invocations, oldest first *)
}.

Definition with_topics (f : gmap Z Topic -> gmap Z Topic) (w : World) : World :=
  {| topics := f (topics w); lessons := lessons w;
     next_lesson_id := next_lesson_id w; prompts := prompts w;
     files := files w; OPENAI_API_KEY := OPENAI_API_KEY w;
     openaiClient := openaiClient w; service := service w; calls := calls w;
     disk := disk w; writes := writes w; notified := notified w |}.

Definition with_lessons (f : gmap Z Lesson -> gmap Z Lesson) (w : World) : World :=
  {| topics := topics w; lessons := f (lessons w);
     next_lesson_id := next_lesson_id w; prompts := prompts w;
     files := files w; OPENAI_API_KEY := OPENAI_API_KEY w;
     openaiClient := openaiClient w; service := service w; calls := calls w;
     disk := disk w; writes := writes w; notified := notified w |}.

Definition with_next_lesson_id (n : Z) (w : World) : World :=
  {| topics := topics w; lessons := lessons w;
     next_lesson_id := n; prompts := prompts w;
     files := files w; OPENAI_API_KEY := OPENAI_API_KEY w;
     openaiClient := openaiClient w; service := service w; calls := calls w;
     disk := disk w; writes := writes w; notified := notified w |}.

Definition with_files (f : gmap string text -> gmap string text) (wr : nat)
    (w : World) : World :=
  {| topics := topics w; lessons := lessons w;
     next_lesson_id := next_lesson_id w; prompts := prompts w;
     files := f (files w); OPENAI_API_KEY := OPENAI_API_KEY w;
     openaiClient := openaiClient w; service := service w; calls := calls w;
     disk := disk w; writes := wr; notified := notified w |}.

Definition with_client (b : bool) (w : World) : World :=
  {| topics := topics w; lessons := lessons w;
     next_lesson_id := next_lesson_id w; prompts := prompts w;
     files := files w; OPENAI_API_KEY := OPENAI_API_KEY w;
     openaiClient := b; service := service w; calls := calls w;
     disk := disk w; writes := writes w; notified := notified w |}.

Definition with_call (c : ApiCall) (w : World) : World :=
  {| topics := topics w; lessons := lessons w;
     next_lesson_id := next_lesson_id w; prompts := prompts w;
     files := files w; OPENAI_API_KEY := OPENAI_API_KEY w;
     openaiClient := openaiClient w; service := service w;
     calls := calls w ++ [c];
     disk := disk w; writes := writes w; notified := notified w |}.

Definition with_notified (ev : GenerationEvent) (w : World) : World :=
  {| topics := topics w; lessons := lessons w;
     next_lesson_id := next_lesson_id w; prompts := prompts w;
     files := files w; OPENAI_API_KEY := OPENAI_API_KEY w;
     openaiClient := openaiClient w; service := service w; calls := calls w;
     disk := disk w; writes := writes w; notified := notified w ++ [ev] |}.

(** [callbacks?.handler?.(...)] *)
Definition notify (cb : Callbacks) (ev : GenerationEvent) : M World unit :=
  fun w =>
    (match cb ev with Some e => Throw e | None => Ok tt end,
     with_notified ev w).

(** JavaScript truthiness of a nullable string. *)
Definition truthy (s : option string) : bool :=
  match s with
  | Some EmptyString | None => false
  | Some _ => true
  end.

(** ** The completion adapter ([services/openai.ts]) *)

Definition getOpenAIClient : M World unit :=
  fun w =>
    if openaiClient w then (Ok tt, w)
    else if truthy (OPENAI_API_KEY w) then (Ok tt, with_client true w)
    else (Throw (OpenAIConfigError
                   "OPENAI_API_KEY environment variable is not set"), w).

(** The one-character string holding a double quote. *)
Definition dquote : string := String (ascii_of_nat 34) EmptyString.

(** [isApiKeyConfigured] *)
Definition isApiKeyConfigured (w : World) : bool :=
  truthy (OPENAI_API_KEY w)
  && negb (bool_decide (OPENAI_API_KEY w = Some "your-api-key-here")).

(** One request: the service's next outcome is consumed and the request
    is recorded.  The text of the request is not tracked, the service
    being free to answer anything. *)
Definition request (c : ApiCall) : M World (option text) :=
  fun w =>
    match service w (length (calls w)) with
    | Responded content => (Ok content, with_call c w)
    | Rejected e => (Throw e, with_call c w)
    end.

Record OpenAICallOptions := {
  maxTokens : option Z;
  jsonResponse : option bool;
  maxRetries : option Z;
  timeout : option Z;
  (* onRetry(attempt, error, nextRetryIn), by whether it throws; the
     delay is random and not tracked *)
  onRetry : option (Z -> JsError -> option JsError)
}.

Definition no_options : OpenAICallOptions :=
  {| maxTokens := None; jsonResponse := None; maxRetries := None;
     timeout := None; onRetry := None |}.

(** The body of the [try] of one attempt. *)
Definition attempt_once (promptName : string) : M World text :=
  getOpenAIClient ;;
  content <- request (Completion promptName) ;;
  match content with
  | None | Some [] =>
      throw (OpenAIAPIError "No content in OpenAI response" 500 true)
  | Some c => ret c
  end.

(** The first lines of the [catch]: what [lastError] is once the thrown
    value has been wrapped and reclassified. *)
Definition last_error_of (timeout_ms : Z) (error : JsError) : JsError :=
  match error with
  | NonError v => OtherError "Error" v
  | OtherError "AbortError" _ =>
      OpenAITimeoutError
        ("Request timed out after " +:+ pretty timeout_ms +:+ "ms")
  | SdkAPIError m (Some 429) ra =>
      OpenAIRateLimitError m (default 60 ra)
  | e => e
  end.

(** The loop [for (attempt = 0; attempt <= maxRetries; attempt++)], over
    the values [attempt] takes. *)
Fixpoint callOpenAI_loop (promptName : string) (maxRetries timeout_ms : Z)
    (observer : option (Z -> JsError -> option JsError))
    (attempts : list Z) (lastError : option JsError) : M World text :=
  match attempts with
  | [] =>
      throw (default (OtherError "Error" "Unknown error in callOpenAI")
               lastError)
  | attempt :: later =>
      try_catch (attempt_once promptName)
        (fun error =>
           let lastError := last_error_of timeout_ms error in
           let info := categorizeError lastError in
           if negb (isRetryable info) || (maxRetries <=? attempt)
           then throw lastError
           else
             match observer with
             | Some f =>
                 match f (attempt + 1) lastError with
                 | Some e => throw e
                 | None => ret tt
                 end
             | None => ret tt
             end ;;
             callOpenAI_loop promptName maxRetries timeout_ms observer later
               (Some lastError))
  end.

Definition callOpenAI (promptName : string) (options : OpenAICallOptions)
    : M World text :=
  prompt <- gets (fun w => prompts w !! promptName) ;;
  match prompt with
  | None =>
      throw (OpenAIConfigError
               ("Prompt template " +:+ dquote +:+ promptName +:+ dquote
                +:+ " not found"))
  | Some _ =>
      let maxRetries := default 3 (maxRetries options) in
      let timeout_ms := default 120000 (timeout options) in
      callOpenAI_loop promptName maxRetries timeout_ms (onRetry options)
        (seqZ 0 (maxRetries + 1)) None
  end.

(** *** [parseJsonResponse] *)

#[local] Set Warnings "-register-all".

(** The values [JSON.parse] returns.  Numbers are the integers; an
    object is the list of its members. *)
Inductive JsValue :=
| JNull
| JBool (b : bool)
| JNum (z : Z)
| JStr (s : string)
| JArr (items : list JsValue)
| JObj (members : list (string * JsValue)).

Fixpoint assoc (k : string) (l : list (string * JsValue)) : option JsValue :=
  match l with
  | [] => None
  | (k', v) :: l' => if bool_decide (k' = k) then Some v else assoc k l'
  end.

(** [parseJsonResponse].  [JSON_parse] is the built-in [JSON.parse],
    [None] when it throws a [SyntaxError]. *)
Definition parseJsonResponse (JSON_parse : text -> option JsValue)
    (response : text) : Res JsValue :=
  match JSON_parse (extract_json response) with
  | Some v => Ok v
  | None =>
      Throw (OpenAIAPIError "Failed to parse JSON response from OpenAI" 500
               false)
  end.

(** ** The job pipeline ([services/generator.ts]) *)

(** [path.join(__dirname, '../../../generated-content')], relative to the
    root of the installation. *)
Definition CONTENT_DIR : string := "generated-content".
Definition MAX_LESSON_RETRIES : Z := 3.

(** [path.join(a, b)] for the paths met here: no segment is empty or
    relative, so joining is putting a separator in between. *)
Definition path_join (a b : string) : string := a +:+ "/" +:+ b.

(** The store after the disk has been used once more, no file being
    written. *)
Definition disk_used (w : World) : World :=
  with_files (fun fs => fs) (S (writes w)) w.

(** [ensureContentDir].  Directories are not part of [files]: whether
    the directory is there already, and if not whether [mkdirSync] makes
    it or throws, is the next answer of the disk. *)
Definition ensureContentDir (topicSlug : string) : M World string :=
  fun w =>
    match disk w (writes w) with
    | Some e => (Throw e, disk_used w)
    | None => (Ok (path_join CONTENT_DIR topicSlug), disk_used w)
    end.

(** [fs.writeFileSync(path, data, 'utf-8')] *)
Definition writeFileSync (path : string) (data : text) : M World unit :=
  fun w =>
    match disk w (writes w) with
    | Some e => (Throw e, with_files (fun fs => fs) (S (writes w)) w)
    | None => (Ok tt, with_files (fun fs => <[path := data]> fs) (S (writes w)) w)
    end.

(** [UPDATE lessons SET ... WHERE id = ?] *)
Definition update_lesson (id : Z) (f : Lesson -> Lesson) : M World unit :=
  modify (with_lessons (alter f id)).

(** [UPDATE topics SET ... WHERE id = ?] *)
Definition update_topic (id : Z) (f : Topic -> Topic) : M World unit :=
  modify (with_topics (alter f id)).

Definition set_topic_status (st : Status) (err : option string) (t : Topic)
    : Topic :=
  {| topic_title := topic_title t; slug := slug t;
     topic_description := topic_description t;
     lesson_count := lesson_count t;
     topic_status := st; topic_last_error := err |}.

Definition set_topic_breakdown (d : option string) (n : Z) (t : Topic)
    : Topic :=
  {| topic_title := topic_title t; slug := slug t;
     topic_description := d; lesson_count := n;
     topic_status := topic_status t;
     topic_last_error := topic_last_error t |}.

(** [SET status = 'generating', last_error = NULL] *)
Definition mark_generating (l : Lesson) : Lesson :=
  {| topic_id := topic_id l; lesson_number := lesson_number l;
     title := title l; description := description l;
     file_path := file_path l; podcast_file_path := podcast_file_path l;
     word_count := word_count l; podcast_word_count := podcast_word_count l;
     status := generating; retry_count := retry_count l;
     last_error := None |}.

(** [SET file_path = ?, word_count = ?] *)
Definition record_content (p : string) (n : Z) (l : Lesson) : Lesson :=
  {| topic_id := topic_id l; lesson_number := lesson_number l;
     title := title l; description := description l;
     file_path := Some p; podcast_file_path := podcast_file_path l;
     word_count := n; podcast_word_count := podcast_word_count l;
     status := status l; retry_count := retry_count l;
     last_error := last_error l |}.

(** [SET podcast_file_path = ?, podcast_word_count = ?,
        status = 'completed', last_error = NULL] *)
Definition record_podcast_completed (p : string) (n : Z) (l : Lesson)
    : Lesson :=
  {| topic_id := topic_id l; lesson_number := lesson_number l;
     title := title l; description := description l;
     file_path := file_path l; podcast_file_path := Some p;
     word_count := word_count l; podcast_word_count := n;
     status := completed; retry_count := retry_count l;
     last_error := None |}.

(** [SET status = 'failed', last_error = ?, retry_count = ?] *)
Definition record_failure (err : string) (n : Z) (l : Lesson) : Lesson :=
  {| topic_id := topic_id l; lesson_number := lesson_number l;
     title := title l; description := description l;
     file_path := file_path l; podcast_file_path := podcast_file_path l;
     word_count := word_count l; podcast_word_count := podcast_word_count l;
     status := failed; retry_count := Some n;
     last_error := Some err |}.

(** [SET status = 'failed', last_error = ?] of the outer handler, applied
    to the rows [WHERE topic_id = ? AND status = 'generating']. *)
Definition fail_if_generating (tid : Z) (err : string) (l : Lesson) : Lesson :=
  if bool_decide (topic_id l = tid) && bool_decide (status l = generating)
  then
    {| topic_id := topic_id l; lesson_number := lesson_number l;
       title := title l; description := description l;
       file_path := file_path l; podcast_file_path := podcast_file_path l;
       word_count := word_count l;
       podcast_word_count := podcast_word_count l;
       status := failed; retry_count := retry_count l;
       last_error := Some err |}
  else l.

(** [ORDER BY lesson_number]: rows that have the same number come in the
    order of their keys, which is the order SQLite reads them in. *)
Definition by_lesson_number (a b : Z * Lesson) : Prop :=
  lesson_number a.2 < lesson_number b.2
  \/ (lesson_number a.2 = lesson_number b.2 /\ a.1 <= b.1).

#[global] Instance by_lesson_number_dec a b : Decision (by_lesson_number a b).
Proof. unfold by_lesson_number. apply _. Defined.

(** [SELECT * FROM lessons WHERE topic_id = ? ORDER BY lesson_number] *)
Definition select_lessons (tid : Z) (w : World) : list (Z * Lesson) :=
  merge_sort by_lesson_number
    (filter (fun r => topic_id r.2 = tid) (map_to_list (lessons w))).

(** [SELECT * FROM lessons WHERE topic_id = ?
      AND status IN ('failed', 'pending')
      AND (retry_count < ? OR retry_count IS NULL)
    ORDER BY lesson_number] *)
Definition retryable_row (tid limit : Z) (r : Z * Lesson) : Prop :=
  topic_id r.2 = tid
  /\ (status r.2 = failed \/ status r.2 = pending)
  /\ match retry_count r.2 with Some n => n < limit | None => True end.

#[global] Instance retryable_row_dec tid limit r :
  Decision (retryable_row tid limit r).
Proof. unfold retryable_row. destruct (retry_count r.2); apply _. Defined.

Definition select_retryable (tid : Z) (w : World) : list (Z * Lesson) :=
  merge_sort by_lesson_number
    (filter (retryable_row tid MAX_LESSON_RETRIES) (map_to_list (lessons w))).

Definition lift {S A} (r : Res A) : M S A := fun s => (r, s).

(** *** The word-count gate *)

(** [expandContent].  It builds a client of its own, which the client
    library refuses to do without a key, sends one request and keeps the
    existing text when the answer has no content.  The prompt is built
    from the arguments left out here. *)
Definition expandContent (existingContent : text) (contentType : ContentType)
    : M World text :=
  key <- gets OPENAI_API_KEY ;;
  match key with
  | None =>
      throw (OtherError "Error"
               "The OPENAI_API_KEY environment variable is missing or empty; either provide it, or instantiate the OpenAI client with an apiKey option, like new OpenAI({ apiKey: 'My API Key' }).")
  | Some _ =>
      answer <- request (Expansion contentType) ;;
      ret (match answer with
           | None | Some [] => existingContent
           | Some c => c
           end)
  end.

(** The loop [for (attempt = 1; attempt <= maxRetries; attempt++)] with its
    [return] inside: the flag says whether the function returned from
    within the loop; [content] and [wordCount] are the two variables. *)
Fixpoint expand_loop (contentType : ContentType) (minWords : Z)
    (attempts : list Z) (content : text) (wordCount : Z)
    : M World (bool * (text * Z)) :=
  match attempts with
  | [] => ret (false, (content, wordCount))
  | _ :: later =>
      content' <- expandContent content contentType ;;
      let wordCount' := countWords content' in
      if minWords <=? wordCount' then ret (true, (content', wordCount'))
      else expand_loop contentType minWords later content' wordCount'
  end.

(** The common body of [generateLessonContent] and
    [generatePodcastSummary], which differ in the prompt, the token
    budget and the band. *)
Definition generate_in_band (promptName : string)
    (options : OpenAICallOptions) (contentType : ContentType)
    (minWords maxWords maxRetries : Z) : M World (text * Z) :=
  content <- callOpenAI promptName options ;;
  let wordCount := countWords content in
  if (minWords <=? wordCount) && (wordCount <=? maxWords)
  then ret (content, wordCount)
  else
    r <- (if wordCount <? minWords
          then expand_loop contentType minWords (seqZ 1 maxRetries) content
                 wordCount
          else ret (false, (content, wordCount))) ;;
    if r.1 then ret r.2
    else if maxWords <? r.2.2 then ret r.2
    else ret r.2.

Definition generateLessonContent (maxRetries : Z) : M World (text * Z) :=
  generate_in_band "lesson_content"
    {| maxTokens := Some 8192; jsonResponse := None; maxRetries := None;
       timeout := None; onRetry := None |}
    lesson_kind 2700 3300 maxRetries.

Definition generatePodcastSummary (maxRetries : Z) : M World (text * Z) :=
  generate_in_band "podcast_summary"
    {| maxTokens := Some 2048; jsonResponse := None; maxRetries := None;
       timeout := None; onRetry := None |}
    podcast_kind 1000 1200 maxRetries.

(** *** One lesson *)

(** [String(n).padStart(2, '0')], for the numbers [String] prints in
    full, which are those below [10^21]. *)
Definition padStart2 (n : Z) : string :=
  let s := pretty n in
  match String.length s with
  | O => "00"
  | S O => "0" +:+ s
  | _ => s
  end.

Definition lessonFileName (l : Lesson) : string :=
  "lesson-" +:+ padStart2 (lesson_number l) +:+ ".md".

Definition podcastFileName (l : Lesson) : string :=
  "lesson-" +:+ padStart2 (lesson_number l) +:+ "-podcast.md".

(** [generateSingleLesson]; [lesson] is the row read by the caller, with
    its key.  Both generators are called with their default budget of two
    expansions. *)
Definition generateSingleLesson (topic : Topic) (lesson : Z * Lesson)
    (topicDir : string) (cb : Callbacks) : M World bool :=
  let id := lesson.1 in
  let l := lesson.2 in
  try_catch
    (update_lesson id mark_generating ;;
     notify cb (onLessonStart (lesson_number l) (title l) content_step) ;;
     body <- generateLessonContent 2 ;;
     writeFileSync (path_join topicDir (lessonFileName l)) body.1 ;;
     update_lesson id
       (record_content (slug topic +:+ "/" +:+ lessonFileName l) body.2) ;;
     notify cb (onLessonContentComplete (lesson_number l) body.2) ;;
     notify cb (onLessonStart (lesson_number l) (title l) podcast_step) ;;
     script <- generatePodcastSummary 2 ;;
     writeFileSync (path_join topicDir (podcastFileName l)) script.1 ;;
     update_lesson id
       (record_podcast_completed (slug topic +:+ "/" +:+ podcastFileName l)
          script.2) ;;
     notify cb (onLessonPodcastComplete (lesson_number l) script.2) ;;
     notify cb (onLessonComplete (lesson_number l)) ;;
     ret true)
    (fun error =>
       let errorInfo := categorizeError error in
       let currentRetryCount := default 0 (retry_count l) + 1 in
       update_lesson id (record_failure (message errorInfo) currentRetryCount) ;;
       let step := if truthy (file_path l) then podcast_step else content_step in
       notify cb (onLessonError (lesson_number l) step (message errorInfo)
                    (isRetryable errorInfo)) ;;
       ret false).

(** *** All lessons of a topic *)

Definition not_found : JsError := OtherError "Error" "Topic not found".

(** The [for ... of lessons] loop of [generateAllContent]; the result is
    [failedCount]. *)
Fixpoint generateAll_loop (topic : Topic) (total : Z) (topicDir : string)
    (cb : Callbacks) (rows : list (Z * Lesson)) (failedCount : Z)
    : M World Z :=
  match rows with
  | [] => ret failedCount
  | lesson :: later =>
      if bool_decide (status lesson.2 = completed)
      then generateAll_loop topic total topicDir cb later failedCount
      else if MAX_LESSON_RETRIES <=? default 0 (retry_count lesson.2)
      then generateAll_loop topic total topicDir cb later (failedCount + 1)
      else
        notify cb (onProgress (lesson_number lesson.2) content_step total) ;;
        success <- generateSingleLesson topic lesson topicDir cb ;;
        generateAll_loop topic total topicDir cb later
          (if success then failedCount else failedCount + 1)
  end.

Definition count_status (st : Status) (rows : list (Z * Lesson)) : Z :=
  Z.of_nat (length (filter (fun r => status r.2 = st) rows)).

Definition generate_error_message (failedCount completedCount total : Z)
    : string :=
  pretty failedCount +:+ " lesson(s) failed to generate. "
  +:+ pretty completedCount +:+ "/" +:+ pretty total +:+ " completed.".

Definition generateAllContent (topicId : Z) (cb : Callbacks) : M World unit :=
  topic <- gets (fun w => topics w !! topicId) ;;
  match topic with
  | None => throw not_found
  | Some topic =>
      rows <- gets (select_lessons topicId) ;;
      if bool_decide (rows = [])
      then throw (OtherError "Error"
                    "No lessons found. Run topic breakdown first.")
      else
        topicDir <- ensureContentDir (slug topic) ;;
        let total := Z.of_nat (length rows) in
        try_catch
          (failedCount <- generateAll_loop topic total topicDir cb rows 0 ;;
           finalLessons <- gets (select_lessons topicId) ;;
           let completedCount := count_status completed finalLessons in
           let allCompleted :=
             bool_decide (completedCount = Z.of_nat (length finalLessons)) in
           if allCompleted
           then
             update_topic topicId (set_topic_status completed None) ;;
             notify cb (onGenerationComplete total)
           else
             let errorMsg :=
               generate_error_message failedCount completedCount
                 (Z.of_nat (length finalLessons)) in
             update_topic topicId (set_topic_status failed (Some errorMsg)) ;;
             notify cb (onGenerationError errorMsg true))
          (fun error =>
             let errorInfo := categorizeError error in
             update_topic topicId
               (set_topic_status failed (Some (message errorInfo))) ;;
             modify (with_lessons
                       (fmap (fail_if_generating topicId (message errorInfo)))) ;;
             notify cb (onGenerationError (message errorInfo)
                          (isRetryable errorInfo)) ;;
             throw error)
  end.

(** *** Retrying *)

(** [{ retried, succeeded, failed }]; the last field is [failed_again]
    here, [failed] being a status. *)
Record RetryResult := { retried : Z; succeeded : Z; failed_again : Z }.

Fixpoint retry_loop (topic : Topic) (topicDir : string) (cb : Callbacks)
    (rows : list (Z * Lesson)) (succeeded failed : Z) : M World (Z * Z) :=
  match rows with
  | [] => ret (succeeded, failed)
  | lesson :: later =>
      success <- generateSingleLesson topic lesson topicDir cb ;;
      if success
      then retry_loop topic topicDir cb later (succeeded + 1) failed
      else retry_loop topic topicDir cb later succeeded (failed + 1)
  end.

Definition retry_error_message (failedLessons completedCount total : Z)
    : string :=
  pretty failedLessons +:+ " lesson(s) still failed. "
  +:+ pretty completedCount +:+ "/" +:+ pretty total +:+ " completed.".

Definition retryFailedLessons (topicId : Z) (cb : Callbacks)
    : M World RetryResult :=
  topic <- gets (fun w => topics w !! topicId) ;;
  match topic with
  | None => throw not_found
  | Some topic =>
      rows <- gets (select_retryable topicId) ;;
      if bool_decide (rows = [])
      then ret {| retried := 0; succeeded := 0; failed_again := 0 |}
      else
        update_topic topicId (set_topic_status generating None) ;;
        topicDir <- ensureContentDir (slug topic) ;;
        counts <- retry_loop topic topicDir cb rows 0 0 ;;
        finalLessons <- gets (select_lessons topicId) ;;
        let completedCount := count_status completed finalLessons in
        let total := Z.of_nat (length finalLessons) in
        (if bool_decide (completedCount = total)
         then
           update_topic topicId (set_topic_status completed None) ;;
           notify cb (onGenerationComplete total)
         else
           let failedLessons := count_status failed finalLessons in
           let errorMsg :=
             retry_error_message failedLessons completedCount total in
           update_topic topicId (set_topic_status failed (Some errorMsg)) ;;
           notify cb (onGenerationError errorMsg true)) ;;
        ret {| retried := Z.of_nat (length rows); succeeded := counts.1;
               failed_again := counts.2 |}
  end.

(** *** Breakdown *)

(** Reading a property of a parsed value: a [TypeError] on [null], the
    member of an object, [undefined] elsewhere (none of the names read
    here is a property of arrays, strings, numbers or booleans). *)
Definition js_get (v : JsValue) (k : string) : Res (option JsValue) :=
  match v with
  | JNull =>
      Throw (OtherError "TypeError"
               ("Cannot read properties of null (reading '" +:+ k +:+ "')"))
  | JObj members => Ok (assoc k members)
  | _ => Ok None
  end.

(** Binding a parameter of a prepared statement to a [TEXT] column: a
    string is stored, [null] and [undefined] are [NULL], booleans, arrays
    and objects are refused by the driver.  A number, which SQLite would
    store after conversion, is refused here too: the breakdown prompt asks
    for strings. *)
Definition bind_text (v : option JsValue) : Res (option string) :=
  match v with
  | None | Some JNull => Ok None
  | Some (JStr s) => Ok (Some s)
  | Some _ =>
      Throw (OtherError "TypeError"
               "SQLite3 can only bind numbers, strings, bigints, buffers, and null")
  end.

Definition not_null {A} (column : string) (v : Res (option A)) : Res A :=
  match v with
  | Ok (Some a) => Ok a
  | Ok None =>
      Throw (OtherError "SqliteError"
               ("NOT NULL constraint failed: lessons." +:+ column))
  | Throw e => Throw e
  end.

(** The same for the [INTEGER] column [lesson_number]. *)
Definition bind_integer (v : option JsValue) : Res (option Z) :=
  match v with
  | None | Some JNull => Ok None
  | Some (JNum z) => Ok (Some z)
  | Some _ =>
      Throw (OtherError "TypeError"
               "SQLite3 can only bind numbers, strings, bigints, buffers, and null")
  end.

(** [INSERT INTO lessons (topic_id, lesson_number, title, description,
      status, retry_count) VALUES (?, ?, ?, ?, 'pending', 0)] *)
Definition insert_lesson (tid number : Z) (ttl : string)
    (descr : option string) : M World unit :=
  modify (fun w =>
    with_next_lesson_id (next_lesson_id w + 1)
      (with_lessons
         (insert (next_lesson_id w)
            {| topic_id := tid; lesson_number := number; title := ttl;
               description := descr; file_path := None;
               podcast_file_path := None; word_count := 0;
               podcast_word_count := 0; status := pending;
               retry_count := Some 0; last_error := None |}) w)).

(** [for (const lesson of breakdown.lessons) insertLesson.run(topicId,
      lesson.number, lesson.title, lesson.description)]: the three
    properties are read, the driver binds the three values, and the
    statement then runs, where SQLite checks [NOT NULL] column by
    column. *)
Fixpoint insert_lessons (tid : Z) (entries : list JsValue) : M World unit :=
  match entries with
  | [] => ret tt
  | entry :: later =>
      number <- lift (js_get entry "number") ;;
      ttl <- lift (js_get entry "title") ;;
      descr <- lift (js_get entry "description") ;;
      number <- lift (bind_integer number) ;;
      ttl <- lift (bind_text ttl) ;;
      descr <- lift (bind_text descr) ;;
      number <- lift (not_null "lesson_number" (Ok number)) ;;
      ttl <- lift (not_null "title" (Ok ttl)) ;;
      insert_lesson tid number ttl descr ;;
      insert_lessons tid later
  end.

Definition breakdownTopic (JSON_parse : text -> option JsValue)
    (topicId : Z) (cb : Callbacks) : M World JsValue :=
  topic <- gets (fun w => topics w !! topicId) ;;
  match topic with
  | None => throw not_found
  | Some topic =>
      configured <- gets isApiKeyConfigured ;;
      if negb configured
      then throw (OtherError "Error"
             "OpenAI API key is not configured. Please add it to your .env file.")
      else
        update_topic topicId (set_topic_status generating None) ;;
        notify cb onBreakdownStart ;;
        try_catch
          (response <- callOpenAI "topic_breakdown"
                         {| maxTokens := None; jsonResponse := Some true;
                            maxRetries := None; timeout := None;
                            onRetry := None |} ;;
           breakdown <- lift (parseJsonResponse JSON_parse response) ;;
           field <- lift (js_get breakdown "lessons") ;;
           match field with
           | Some (JArr entries) =>
               let n := Z.of_nat (length entries) in
               (* outside 3..12 the count is only logged *)
               descr <- lift (match js_get breakdown "topic_description" with
                              | Ok v => bind_text v
                              | Throw e => Throw e
                              end) ;;
               update_topic topicId (set_topic_breakdown descr n) ;;
               insert_lessons topicId entries ;;
               notify cb (onBreakdownComplete n) ;;
               ret breakdown
           | _ =>
               throw (OtherError "Error"
                        "Invalid response: missing lessons array")
           end)
          (fun error =>
             let errorInfo := categorizeError error in
             update_topic topicId
               (set_topic_status failed (Some (message errorInfo))) ;;
             notify cb (onGenerationError (message errorInfo)
                          (isRetryable errorInfo)) ;;
             throw error)
  end.

(** *** Status query *)

Inductive Phase := breakdown_phase | content_phase | podcast_phase
                 | complete_phase.

Record Progress := {
  total : Z;
  completed_lessons : Z;
  failed_lessons : Z;
  current : option Z;
  step : Phase
}.

Record GenerationStatus := {
  status_topic : Topic;
  status_lessons : list (Z * Lesson);
  progress : Progress
}.

(** [lessons.find(l => l.status === 'generating')] *)
Definition find_generating (rows : list (Z * Lesson)) : option (Z * Lesson) :=
  List.find (fun r => bool_decide (status r.2 = generating)) rows.

Definition getGenerationStatus (topicId : Z) (w : World)
    : Res GenerationStatus :=
  match topics w !! topicId with
  | None => Throw not_found
  | Some topic =>
      let rows := select_lessons topicId w in
      let completedLessons := count_status completed rows in
      let failedLessons := count_status failed rows in
      let currentLesson := find_generating rows in
      let step :=
        if bool_decide (rows = []) then breakdown_phase
        else if bool_decide (completedLessons = Z.of_nat (length rows))
        then complete_phase
        else match currentLesson with
             | Some r =>
                 if truthy (file_path r.2) then podcast_phase
                 else content_phase
             | None => content_phase
             end in
      Ok {| status_topic := topic; status_lessons := rows;
            progress :=
              {| total := Z.of_nat (length rows);
                 completed_lessons := completedLessons;
                 failed_lessons := failedLessons;
                 current :=
                   match currentLesson with
                   | Some r =>
                       if bool_decide (lesson_number r.2 = 0) then None
                       else Some (lesson_number r.2)
                   | None => None
                   end;
                 step := step |} |}
  end.

(** ** The event broadcaster ([services/sse-manager.ts]) *)

Module SSE.

Inductive EventType :=
| connected | breakdown_start | breakdown_complete | lesson_start
| lesson_content_complete | lesson_podcast_complete | lesson_complete
| lesson_error | generation_complete | generation_error | heartbeat.

(** The values found in the [data] of an event. *)
Inductive DataValue :=
| DNum (z : Z)
| DStr (s : string)
| DBool (b : bool)
| DStatus (st : GenerationStatus).

Definition EventData := list (string * DataValue).

(** [Omit<SSEEvent, 'timestamp'>]; [sendToTopic] adds the time stamp,
    which is not written to the stream. *)
Record SSEEvent := { type : EventType; data : EventData }.

(** What one [res.write] puts on the stream: the text
    [event: <type>\ndata: <JSON of data>\n\n], kept as its two parts. *)
Definition frame (event : SSEEvent) : EventType * EventData :=
  (type event, data event).

(** The response object of an open stream: what has been written to it
    and whether a write to it throws. *)
Record Response := {
  written : list (EventType * EventData);
  broken : bool
}.

Record SSEConnection := {
  res : Response;
  topicId : Z;
  connectedAt : Z;
  lastEventAt : Z
}.

(** [private connections: Map<string, SSEConnection>] *)
Abbreviation Registry := (gmap string SSEConnection).

(** [res.write(eventData)] *)
Definition write (eventData : EventType * EventData) (r : Response)
    : Res Response :=
  if broken r
  then Throw (OtherError "Error" "write after end")
  else Ok {| written := written r ++ [eventData]; broken := broken r |}.

Definition removeConnection (connectionId : string) : M Registry unit :=
  modify (delete connectionId).

(** [sendToConnection]; [now] is the clock read by [new Date()]. *)
Definition sendToConnection (now : Z) (connectionId : string)
    (event : SSEEvent) : M Registry bool :=
  connection <- gets (fun reg : Registry => reg !! connectionId) ;;
  match connection with
  | None => ret false
  | Some connection =>
      try_catch
        (r <- lift (write (frame event) (res connection)) ;;
         modify (insert connectionId
                   {| res := r; topicId := topicId connection;
                      connectedAt := connectedAt connection;
                      lastEventAt := now |}) ;;
         ret true)
        (fun _ => removeConnection connectionId ;; ret false)
  end.

(** The loop of [sendToTopic] over the entries of the map.  A [Map] is
    iterated in insertion order, the finite map here in the order of its
    keys; a step only ever changes the entry it visits, so the entries
    seen are those present at the start in both. *)
Fixpoint sendToTopic_loop (now : Z) (topic : Z) (event : SSEEvent)
    (entries : list (string * SSEConnection)) : M Registry unit :=
  match entries with
  | [] => ret tt
  | (connectionId, connection) :: later =>
      (if bool_decide (topicId connection = topic)
       then sendToConnection now connectionId event ;; ret tt
       else ret tt) ;;
      sendToTopic_loop now topic event later
  end.

Definition sendToTopic (now : Z) (topic : Z) (event : SSEEvent)
    : M Registry unit :=
  entries <- gets (fun reg : Registry => map_to_list reg) ;;
  sendToTopic_loop now topic event entries.

(** [addConnection]; [connectionId] is the identifier drawn by
    [generateConnectionId] from the clock and the random generator. *)
Definition addConnection (now : Z) (connectionId : string) (topic : Z)
    (r : Response) : M Registry string :=
  modify (insert connectionId
            {| res := r; topicId := topic; connectedAt := now;
               lastEventAt := now |}) ;;
  sendToConnection now connectionId
    {| type := connected;
       data := [("connectionId", DStr connectionId); ("topicId", DNum topic)] |} ;;
  ret connectionId.

(** What the handler of [GET /api/topics/:id/stream] answers. *)
Inductive StreamReply :=
| Streaming (connectionId : string)
| NotFound
| ServerError.

(** The handler of [GET /api/topics/:id/stream] ([routes/topics.ts]) on
    the store [w]. *)
Definition stream_route (w : World) (now : Z) (connectionId : string)
    (topic : Z) (r : Response) : M Registry StreamReply :=
  try_catch
    (match topics w !! topic with
     | None => ret NotFound
     | Some _ =>
         connectionId <- addConnection now connectionId topic r ;;
         st <- lift (getGenerationStatus topic w) ;;
         sendToTopic now topic
           {| type := connected;
              data := [("connectionId", DStr connectionId);
                       ("topicId", DNum topic);
                       ("currentStatus", DStatus st)] |} ;;
         ret (Streaming connectionId)
     end)
    (fun _ => ret ServerError).

End SSE.

(** ** Notions used in the statements and proofs *)

(** *** Word counter *)

(** [inserted P t t']: [t'] is [t] with code units satisfying [P] put in
    at any places. *)
Inductive inserted (P : N -> bool) : text -> text -> Prop :=
| inserted_nil : inserted P [] []
| inserted_keep c t t' : inserted P t t' -> inserted P (c :: t) (c :: t')
| inserted_here c t t' : P c = true -> inserted P t t' -> inserted P t (c :: t').

(** The markup characters as the specification names them: emphasis
    ([*] and [_]), heading ([#]), list markers ([-], [+] and [*]) and link
    brackets. *)
Definition spec_markup_character (c : N) : bool :=
  ((c =? 42) || (c =? 95) || (c =? 35) || (c =? 45) || (c =? 43)
   || (c =? 91) || (c =? 93) || (c =? 40) || (c =? 41))%N.

(** *** Outcomes of the adapter *)

(** What the [catch] of [callOpenAI] holds in [lastError] when an attempt
    with this outcome of the service fails; [None] when the attempt
    returns. *)
Definition outcome_error (timeout_ms : Z) (o : RawOutcome) : option JsError :=
  match o with
  | Responded (Some (_ :: _)) => None
  | Responded _ => Some (OpenAIAPIError "No content in OpenAI response" 500 true)
  | Rejected e => Some (last_error_of timeout_ms e)
  end.

Definition retryable_failure (timeout_ms : Z) (o : RawOutcome) : Prop :=
  exists e, outcome_error timeout_ms o = Some e
            /\ isRetryable (categorizeError e) = true.

Definition client_available (w : World) : Prop :=
  openaiClient w = true \/ truthy (OPENAI_API_KEY w) = true.

Definition quiet_observer (f : option (Z -> JsError -> option JsError)) : Prop :=
  forall g, f = Some g -> forall a e, g a e = None.

(** What a request leaves in place: everything but the list of requests
    and the client. *)
Definition same_store (w w' : World) : Prop :=
  topics w' = topics w /\ lessons w' = lessons w /\ files w' = files w
  /\ next_lesson_id w' = next_lesson_id w /\ prompts w' = prompts w
  /\ OPENAI_API_KEY w' = OPENAI_API_KEY w /\ service w' = service w
  /\ disk w' = disk w /\ writes w' = writes w.

(** *** Word-count gate *)

Definition is_expansion (c : ApiCall) : bool :=
  match c with Expansion _ => true | Completion _ => false end.

(** The number of expansion requests among the requests made. *)
Definition expansions (w : World) : nat :=
  length (List.filter is_expansion (calls w)).

(** [w'] is [w] after some requests for the prompt [name] and nothing
    else. *)
Definition after_completions (name : string) (w w' : World) : Prop :=
  same_store w w' /\ notified w' = notified w
  /\ exists n, calls w' = calls w ++ replicate n (Completion name).

(** The contract of the word-count gate [gate] built on the prompt [name]
    with the band [minWords]..[maxWords]: what it returns, by what the
    first pass and the expansion requests give. *)
Definition gate_contract (gate : M World (text * Z)) (name : string)
    (options : OpenAICallOptions) (kind : ContentType)
    (minWords maxWords : Z) : Prop :=
  forall w,
    let first := callOpenAI name options w in
    let run := gate w in
    (expansions run.2 <= expansions w + 2)%nat
    /\ (forall e, first.1 = Throw e -> run = (Throw e, first.2))
    /\ forall content, first.1 = Ok content ->
         let n := countWords content in
         (minWords <= n -> n <= maxWords ->
            run = (Ok (content, n), first.2)
            /\ expansions run.2 = expansions w)
         /\ (minWords <= n -> maxWords < n ->
               run = (Ok (content, n), first.2)
               /\ expansions run.2 = expansions w)
         /\ (n < minWords ->
             let e1 := expandContent content kind first.2 in
             (forall e, e1.1 = Throw e -> run = (Throw e, e1.2))
             /\ forall c1, e1.1 = Ok c1 ->
                  (minWords <= countWords c1 ->
                     run = (Ok (c1, countWords c1), e1.2)
                     /\ expansions run.2 = S (expansions w))
                  /\ (countWords c1 < minWords ->
                      let e2 := expandContent c1 kind e1.2 in
                      (forall e, e2.1 = Throw e -> run = (Throw e, e2.2))
                      /\ forall c2, e2.1 = Ok c2 ->
                           run = (Ok (c2, countWords c2), e2.2)
                           /\ expansions run.2 = S (S (expansions w)))).

(** The value [generate_in_band] returns once the loop has been left. *)
Definition gate_result (r : Res (bool * (text * Z)) * World)
    : Res (text * Z) * World :=
  match r with
  | (Ok x, w) => (Ok x.2, w)
  | (Throw e, w) => (Throw e, w)
  end.

(** *** Runs of the pipeline *)

(** [wp m s Q]: running [m] from [s] ends, with a value or a throw, in a
    state that satisfies [Q]. *)
Definition wp {S A} (m : M S A) (s : S) (Q : Res A -> S -> Prop) : Prop :=
  Q (m s).1 (m s).2.

Definition files_kept (w w' : World) : Prop :=
  forall p, is_Some (files w !! p) -> is_Some (files w' !! p).

(** The columns no statement of the pipeline writes. *)
Definition keeps_identity (G : Lesson -> Lesson) : Prop :=
  forall x, topic_id (G x) = topic_id x
            /\ lesson_number (G x) = lesson_number x.

(** [wk] is [w] after statements that wrote to the row [id] only, with
    [G] for their combined effect on that row. *)
Definition tracked (w : World) (id : Z) (G : Lesson -> Lesson) (wk : World)
    : Prop :=
  topics wk = topics w /\ next_lesson_id wk = next_lesson_id w
  /\ files_kept w wk /\ keeps_identity G
  /\ lessons wk = alter G id (lessons w).

(** The row of a lesson whose generation succeeded. *)
Definition completed_row (topic : Topic) (l : Lesson) (body script : text)
    (x : Lesson) : Lesson :=
  record_podcast_completed (slug topic +:+ "/" +:+ podcastFileName l)
    (countWords script)
    (record_content (slug topic +:+ "/" +:+ lessonFileName l)
       (countWords body) (mark_generating x)).

(** What [generateSingleLesson] has done when it ends with [r] in [w'],
    [F] being its effect on the row of the lesson. *)
Definition lesson_result (topic : Topic) (l : Lesson) (dir : string)
    (r : Res bool) (w' : World) (F : Lesson -> Lesson) : Prop :=
  match r with
  | Ok true =>
      exists body script,
        files w' !! path_join dir (lessonFileName l) = Some body
        /\ files w' !! path_join dir (podcastFileName l) = Some script
        /\ forall x, F x = completed_row topic l body script x
  | _ =>
      exists msg, forall x, exists y,
        F x = record_failure msg (default 0 (retry_count l) + 1) y
  end.

Definition is_lesson_error (ev : GenerationEvent) : bool :=
  match ev with onLessonError _ _ _ _ => true | _ => false end.

(** A row the loops hand to [generateSingleLesson]. *)
Definition eligible (l : Lesson) : Prop :=
  status l <> completed /\ default 0 (retry_count l) < MAX_LESSON_RETRIES.

(** Both artifacts of the row are on disk under the recorded paths. *)
Definition has_artifacts (w : World) (b : Lesson) : Prop :=
  exists p q,
    file_path b = Some p /\ podcast_file_path b = Some q
    /\ is_Some (files w !! path_join CONTENT_DIR p)
    /\ is_Some (files w !! path_join CONTENT_DIR q).

(** How the row [j] may differ, after a pass over [rows], from what it
    was before: not at all, or it was handed to [generateSingleLesson]. *)
Definition row_evolves (w' : World) (rows : list (Z * Lesson)) (j : Z)
    (a b : Lesson) : Prop :=
  topic_id b = topic_id a /\ lesson_number b = lesson_number a
  /\ (b = a
      \/ ((exists l, (j, l) ∈ rows /\ eligible l)
          /\ (retry_count b = retry_count a
              \/ exists l, (j, l) ∈ rows /\ eligible l
                   /\ retry_count b = Some (default 0 (retry_count l) + 1))
          /\ (status b = failed
              \/ (status b = completed /\ has_artifacts w' b)))).

Definition evolves (rows : list (Z * Lesson)) (w w' : World) : Prop :=
  next_lesson_id w' = next_lesson_id w
  /\ files_kept w w'
  /\ forall j,
       match lessons w !! j with
       | None => lessons w' !! j = None
       | Some a => exists b, lessons w' !! j = Some b
                             /\ row_evolves w' rows j a b
       end.

(** The notifications whose handler is called outside the [try] of
    [generateSingleLesson]: a throw there leaves the loop. *)
Definition uncaught (ev : GenerationEvent) : bool :=
  match ev with
  | onProgress _ _ _ | onLessonError _ _ _ _
  | onGenerationComplete _ | onGenerationError _ _ => true
  | _ => false
  end.

Definition settled (b : Lesson) : Prop :=
  status b = completed \/ status b = failed.

(** What a pass guarantees when it runs to its end: every eligible row it
    was given is settled. *)
Definition all_settled (rows : list (Z * Lesson)) (w w' : World) : Prop :=
  forall j l a, (j, l) ∈ rows -> eligible l -> lessons w !! j = Some a ->
    exists b, lessons w' !! j = Some b /\ settled b.

(** The status and error text the topic gets at the end of a pass, from
    the rows read back. *)
Definition verdict (failedCount : Z) (finalLessons : list (Z * Lesson))
    : Status * option string :=
  let completedCount := count_status completed finalLessons in
  if bool_decide (completedCount = Z.of_nat (length finalLessons))
  then (completed, None)
  else (failed,
        Some (generate_error_message failedCount completedCount
                (Z.of_nat (length finalLessons)))).

Definition no_lessons : JsError :=
  OtherError "Error" "No lessons found. Run topic breakdown first.".

(** How a pass that got past its checks ends: normally, with every
    eligible row settled and the verdict written on the topic, or with a
    throw, after the handler has marked the topic and the rows still
    [generating].  [w2] is the store when the loop was left. *)
Definition pass_outcome (tid : Z) (cb : Callbacks) (rows : list (Z * Lesson))
    (w : World) (r : Res unit) (w' : World) : Prop :=
  exists w2, evolves rows w w2 /\ files w' = files w2
    /\ next_lesson_id w' = next_lesson_id w2
    /\ ((r = Ok tt /\ all_settled rows w w2
         /\ lessons w' = lessons w2
         /\ exists failedCount,
              topics w' =
                alter (set_topic_status
                         (verdict failedCount (select_lessons tid w2)).1
                         (verdict failedCount (select_lessons tid w2)).2)
                  tid (topics w))
        \/ (exists e e0 ev t',
              r = Throw e /\ uncaught ev = true /\ cb ev = Some e
              /\ lessons w' =
                   fail_if_generating tid (message (categorizeError e0))
                     <$> lessons w2
              /\ topics w' !! tid = Some t'
              /\ topic_status t' = failed
              /\ topic_last_error t' = Some (message (categorizeError e0)))).

Definition retry_verdict (finalLessons : list (Z * Lesson))
    : Status * option string :=
  let completedCount := count_status completed finalLessons in
  let total := Z.of_nat (length finalLessons) in
  if bool_decide (completedCount = total) then (completed, None)
  else (failed,
        Some (retry_error_message (count_status failed finalLessons)
                completedCount total)).

Definition retry_outcome (tid : Z) (cb : Callbacks) (rows : list (Z * Lesson))
    (w : World) (r : Res RetryResult) (w' : World) : Prop :=
  evolves rows w w'
  /\ ((exists x, r = Ok x /\ all_settled rows w w'
        /\ topics w' =
             alter (set_topic_status
                      (retry_verdict (select_lessons tid w')).1
                      (retry_verdict (select_lessons tid w')).2)
               tid (topics w))
      \/ (exists e ev, r = Throw e /\ uncaught ev = true /\ cb ev = Some e)).

(** *** Breakdown *)

(** What [breakdownTopic] does to the rows and the files: it adds rows
    that are [pending] with a retry counter of zero. *)
Definition rows_added (w w' : World) : Prop :=
  files w' = files w
  /\ forall j b, lessons w' !! j = Some b ->
       lessons w !! j = Some b
       \/ (status b = pending /\ retry_count b = Some 0).

(** What the statement of [insert_lessons] is run with for an entry, or
    what reading the entry, binding the values or the constraints
    throw. *)
Definition bound_entry (entry : JsValue) : Res (Z * string * option string) :=
  match js_get entry "number", js_get entry "title",
        js_get entry "description" with
  | Ok n, Ok t, Ok d =>
      match bind_integer n, bind_text t, bind_text d with
      | Ok n, Ok t, Ok d =>
          match not_null "lesson_number" (Ok n), not_null "title" (Ok t) with
          | Ok n, Ok t => Ok (n, t, d)
          | Throw e, _ | _, Throw e => Throw e
          end
      | Throw e, _, _ | _, Throw e, _ | _, _, Throw e => Throw e
      end
  | Throw e, _, _ | _, Throw e, _ | _, _, Throw e => Throw e
  end.

(** The row [insert_lesson] stores. *)
Definition pending_row (tid : Z) (x : Z * string * option string) : Lesson :=
  {| topic_id := tid; lesson_number := x.1.1; title := x.1.2;
     description := x.2; file_path := None; podcast_file_path := None;
     word_count := 0; podcast_word_count := 0; status := pending;
     retry_count := Some 0; last_error := None |}.

Definition breakdown_options : OpenAICallOptions :=
  {| maxTokens := None; jsonResponse := Some true; maxRetries := None;
     timeout := None; onRetry := None |}.

Definition missing_lessons : string := "Invalid response: missing lessons array".

(** The text recorded on the topic when the parsed answer [breakdown]
    has no array under [lessons]. *)
Definition rejection_message (breakdown : JsValue) : string :=
  match js_get breakdown "lessons" with
  | Throw e => message (categorizeError e)
  | Ok _ => missing_lessons
  end.

Definition has_lessons_array (breakdown : JsValue) : Prop :=
  exists entries, js_get breakdown "lessons" = Ok (Some (JArr entries)).

(** A text in which the fence does not occur. *)
Definition no_fence (s : text) : Prop := split_at_first fence s = None.

(** [s] wrapped in a fence labelled [json], each fence on its own line. *)
Definition fenced (s : text) : text :=
  fence ++ lit "json" ++ [10%N] ++ s ++ [10%N] ++ fence.

(** The second part of C5 as the specification words it: any answer,
    once wrapped in a fence, is parsed as the answer itself. *)
Definition fence_tolerant (JSON_parse : text -> option JsValue) : Prop :=
  forall s,
    parseJsonResponse JSON_parse (fenced s) = parseJsonResponse JSON_parse s.

(** *** Sequences of operations and their invariants *)

Inductive Operation :=
| Breakdown (topicId : Z) (cb : Callbacks)
| GenerateAll (topicId : Z) (cb : Callbacks)
| RetryFailed (topicId : Z) (cb : Callbacks).

(** The store after one operation, whether it returned or threw. *)
Definition perform (JSON_parse : text -> option JsValue) (w : World)
    (op : Operation) : World :=
  match op with
  | Breakdown tid cb => (breakdownTopic JSON_parse tid cb w).2
  | GenerateAll tid cb => (generateAllContent tid cb w).2
  | RetryFailed tid cb => (retryFailedLessons tid cb w).2
  end.

Definition perform_all (JSON_parse : text -> option JsValue) (w : World)
    (ops : list Operation) : World :=
  foldl (perform JSON_parse) w ops.

(** What an operation can have done to a row [b] of the store it leaves,
    [a] being the row under the same key before. *)
Definition row_step (w' : World) (a : option Lesson) (b : Lesson) : Prop :=
  a = Some b
  \/ (status b = pending /\ retry_count b = Some 0)
  \/ exists a0, a = Some a0
       /\ (retry_count b = retry_count a0
           \/ exists l, eligible l
                /\ retry_count b = Some (default 0 (retry_count l) + 1))
       /\ (status b = failed
           \/ (status b = completed /\ has_artifacts w' b)).

Definition store_step (w w' : World) : Prop :=
  files_kept w w'
  /\ forall j b, lessons w' !! j = Some b -> row_step w' (lessons w !! j) b.

Definition retry_bounded (w : World) : Prop :=
  forall j b, lessons w !! j = Some b ->
    default 0 (retry_count b) <= MAX_LESSON_RETRIES.

Definition artifacts_recorded (w : World) : Prop :=
  forall j b, lessons w !! j = Some b -> status b = completed ->
    has_artifacts w b.

(** No row is being generated with its retries used up. *)
Definition no_exhausted_generating (w : World) : Prop :=
  forall j b, lessons w !! j = Some b -> status b = generating ->
    default 0 (retry_count b) < MAX_LESSON_RETRIES.

(** C10 as the claim words it: after any call of [generateAllContent],
    no lesson of the topic is [generating]. *)
Definition never_left_generating : Prop :=
  forall tid cb w j b,
    lessons (generateAllContent tid cb w).2 !! j = Some b ->
    topic_id b = tid -> status b <> generating.

(** Every handler called outside the [try] of [generateSingleLesson]
    returns. *)
Definition handlers_return (cb : Callbacks) : Prop :=
  forall ev, uncaught ev = true -> cb ev = None.

(** *** Broadcaster and stream endpoint *)

(** The connection [c] after an event for [topic] has been published:
    gone when the write to it fails, with the event written when it
    listens to [topic], untouched otherwise. *)
Definition published (now : Z) (topic : Z) (event : SSE.SSEEvent)
    (c : SSE.SSEConnection) : option SSE.SSEConnection :=
  if bool_decide (SSE.topicId c = topic)
  then
    if SSE.broken (SSE.res c) then None
    else Some {| SSE.res :=
                   {| SSE.written :=
                        SSE.written (SSE.res c) ++ [SSE.frame event];
                      SSE.broken := false |};
                 SSE.topicId := SSE.topicId c;
                 SSE.connectedAt := SSE.connectedAt c;
                 SSE.lastEventAt := now |}
  else Some c.

Definition bare_connected (cid : string) (topic : Z)
    : SSE.EventType * SSE.EventData :=
  (SSE.connected, [("connectionId", SSE.DStr cid); ("topicId", SSE.DNum topic)]).

Definition connected_with_status (cid : string) (topic : Z)
    (st : GenerationStatus) : SSE.EventType * SSE.EventData :=
  (SSE.connected,
   [("connectionId", SSE.DStr cid); ("topicId", SSE.DNum topic);
    ("currentStatus", SSE.DStatus st)]).

(** The frame has a status snapshot in its data. *)
Definition carries_snapshot (f : SSE.EventType * SSE.EventData) : Prop :=
  exists st, ("currentStatus", SSE.DStatus st) ∈ f.2.

(** C9 as the specification words it: the first frame the new
    subscriber receives has the snapshot. *)
Definition initial_message_carries_snapshot : Prop :=
  forall w now cid topic reg reg' c,
    SSE.stream_route w now cid topic
      {| SSE.written := []; SSE.broken := false |} reg
      = (Ok (SSE.Streaming cid), reg') ->
    reg' !! cid = Some c ->
    exists f, head (SSE.written (SSE.res c)) = Some f /\ carries_snapshot f.

(** *** Example stores *)

Definition example_topic : Topic :=
  {| topic_title := "Lean Startup Methodology";
     slug := "lean-startup-methodology";
     topic_description := None; lesson_count := 5; topic_status := generating;
     topic_last_error := None |}.

Definition example_lesson (n : Z) (st : Status) (retries : Z) : Lesson :=
  {| topic_id := 1; lesson_number := n; title := "Lesson";
     description := None; file_path := None; podcast_file_path := None;
     word_count := 0; podcast_word_count := 0; status := st;
     retry_count := Some retries; last_error := None |}.

(** Every request is answered with two words, but the thirteenth, which
    is refused with an error that is not retried. *)
Definition example_service (n : nat) : RawOutcome :=
  if (n =? 12)%nat then Rejected (SdkAPIError "400 Bad Request" (Some 400) None)
  else Responded (Some (lit "hello world")).

Definition example_store (rows : list (Z * Lesson))
    (svc : nat -> RawOutcome) : World :=
  {| topics := {[ 1 := example_topic ]};
     lessons := list_to_map rows;
     next_lesson_id := 15;
     prompts := {[ "lesson_content" := lit "Write {{lesson_title}}";
                   "podcast_summary" := lit "Summarise {{lesson_title}}";
                   "topic_breakdown" := lit "Break down {{topic}}" ]};
     files := ∅;
     OPENAI_API_KEY := Some "sk-test";
     openaiClient := false;
     service := svc;
     calls := [];
     disk := fun _ => None;
     writes := 0;
     notified := [] |}.

(** Five pending lessons; the thirteenth request is the first one made
    for the third lesson. *)
Definition five_lessons : World :=
  example_store
    [(10, example_lesson 1 pending 0); (11, example_lesson 2 pending 0);
     (12, example_lesson 3 pending 0); (13, example_lesson 4 pending 0);
     (14, example_lesson 5 pending 0)]
    example_service.

(** The same topic after a crash and three failures: the third lesson was
    left [generating], the fifth has used up its retries. *)
Definition interrupted : World :=
  example_store
    [(10, example_lesson 1 pending 0); (11, example_lesson 2 pending 0);
     (12, example_lesson 3 generating 0); (13, example_lesson 4 pending 0);
     (14, example_lesson 5 failed 3)]
    example_service.

(** One lesson left [generating], with three failures on record. *)
Definition worn_out : World :=
  example_store [(10, example_lesson 1 generating 3)] example_service.

(** Two lessons that carry the same number and are both [generating];
    the body of the first is on record. *)
Definition twins : World :=
  example_store
    [(10, record_content "lean-startup-methodology/lesson-01.md" 2
            (example_lesson 1 generating 0));
     (11, example_lesson 1 generating 0)]
    example_service.

(** A service that fails once with a network error, then with a refusal. *)
Definition flaky_service (n : nat) : RawOutcome :=
  match n with
  | O => Rejected (OtherError "TypeError" "fetch failed")
  | _ => Rejected (SdkAPIError "401 Incorrect API key" (Some 401) None)
  end.

Definition flaky : World := example_store [] flaky_service.

(** A parser for one answer without lessons. *)
Definition parse_no_lessons (_ : text) : option JsValue :=
  Some (JObj [("topic_description", JStr "About lean startups")]).

(** [s] between double quotes. *)
Definition quoted (s : string) : text := [34%N] ++ lit s ++ [34%N].

(** An answer with a fence inside a string: the text
    [{ "topic_description" : "```" }], written without the spaces. *)
Definition backticks_answer : text :=
  lit "{" ++ quoted "topic_description" ++ lit ":" ++ quoted "```" ++ lit "}".

(** [JSON.parse] on the texts this answer gives rise to: the answer is an
    object, and the answer cut at its fence is not JSON. *)
Definition parse_backticks (t : text) : option JsValue :=
  if bool_decide (t = backticks_answer)
  then Some (JObj [("topic_description", JStr "```")])
  else None.

(** Two subscribers of topic 1, one of them gone, and one of topic 2. *)
Definition example_connection (topic : Z) (gone : bool) : SSE.SSEConnection :=
  {| SSE.res := {| SSE.written := []; SSE.broken := gone |};
     SSE.topicId := topic; SSE.connectedAt := 0; SSE.lastEventAt := 0 |}.

Definition example_registry : SSE.Registry :=
  {[ "1-a" := example_connection 1 false;
     "1-b" := example_connection 1 true;
     "2-c" := example_connection 2 false ]}.

Definition example_event : SSE.SSEEvent :=
  {| SSE.type := SSE.lesson_complete;
     SSE.data := [("topicId", SSE.DNum 1); ("lessonNumber", SSE.DNum 3)] |}.

(** * Further functions of the program *)

(** ** The rest of the broadcaster ([services/sse-manager.ts]) *)

(** The loop of [getConnectionCount] over [this.connections.values()]. *)
Fixpoint getConnectionCount_loop (topic : Z)
    (connections : list SSE.SSEConnection) (count : Z) : Z :=
  match connections with
  | [] => count
  | connection :: later =>
      getConnectionCount_loop topic later
        (if bool_decide (SSE.topicId connection = topic) then count + 1
         else count)
  end.

Definition getConnectionCount (topic : Z) (reg : SSE.Registry) : Z :=
  getConnectionCount_loop topic (map_to_list reg).*2 0.

(** The loop of [hasConnections], which returns at the first connection
    of the topic. *)
Fixpoint hasConnections_loop (topic : Z)
    (connections : list SSE.SSEConnection) : bool :=
  match connections with
  | [] => false
  | connection :: later =>
      if bool_decide (SSE.topicId connection = topic) then true
      else hasConnections_loop topic later
  end.

Definition hasConnections (topic : Z) (reg : SSE.Registry) : bool :=
  hasConnections_loop topic (map_to_list reg).*2.

(** [connection.res.end()], which may throw; what it does to the
    response is not seen by the registry, the connection being deleted
    next. *)
Definition end_response (r : SSE.Response) : Res unit :=
  if SSE.broken r then Throw (OtherError "Error" "write after end")
  else Ok tt.

(** The loop of [closeTopicConnections]. *)
Fixpoint closeTopicConnections_loop (topic : Z)
    (entries : list (string * SSE.SSEConnection)) : M SSE.Registry unit :=
  match entries with
  | [] => ret tt
  | (connectionId, connection) :: later =>
      (if bool_decide (SSE.topicId connection = topic)
       then
         try_catch (lift (end_response (SSE.res connection)))
           (fun _ => ret tt) ;;
         modify (delete connectionId)
       else ret tt) ;;
      closeTopicConnections_loop topic later
  end.

Definition closeTopicConnections (topic : Z) : M SSE.Registry unit :=
  entries <- gets (fun reg : SSE.Registry => map_to_list reg) ;;
  closeTopicConnections_loop topic entries.

(** [{ totalConnections, connectionsByTopic }] *)
Record Stats := {
  totalConnections : Z;
  connectionsByTopic : gmap Z Z
}.

(** The loop of [getStats]:
    [connectionsByTopic[t] = (connectionsByTopic[t] || 0) + 1]. *)
Fixpoint getStats_loop (connections : list SSE.SSEConnection)
    (connectionsByTopic : gmap Z Z) : gmap Z Z :=
  match connections with
  | [] => connectionsByTopic
  | connection :: later =>
      let t := SSE.topicId connection in
      getStats_loop later
        (<[t := default 0 (connectionsByTopic !! t) + 1]> connectionsByTopic)
  end.

Definition getStats (reg : SSE.Registry) : Stats :=
  {| totalConnections := Z.of_nat (size reg);
     connectionsByTopic := getStats_loop (map_to_list reg).*2 ∅ |}.

(** One call of [sendToTopic]: its time, its topic and its event. *)
Record Publication := {
  pub_time : Z;
  pub_topic : Z;
  pub_event : SSE.SSEEvent
}.

(** The registry after the publications [pubs], made one after the other. *)
Definition publish_all (pubs : list Publication) (reg : SSE.Registry)
    : SSE.Registry :=
  foldl (fun reg p =>
           (SSE.sendToTopic (pub_time p) (pub_topic p) (pub_event p) reg).2)
    reg pubs.

(** The frames of the events published to [topic], in the order of
    publication. *)
Definition frames_for (topic : Z) (pubs : list Publication)
    : list (SSE.EventType * SSE.EventData) :=
  SSE.frame <$> (pub_event <$> filter (fun p => pub_topic p = topic) pubs).

(** The connection [c] after [closeTopicConnections topic]. *)
Definition closed (topic : Z) (c : SSE.SSEConnection)
    : option SSE.SSEConnection :=
  if bool_decide (SSE.topicId c = topic) then None else Some c.

(** The sum of the counts of [connectionsByTopic]. *)
Definition stats_sum (m : gmap Z Z) : Z :=
  map_fold (fun _ n acc => n + acc) 0 m.

(** ** Notions for the further properties of the pipeline *)

(** [w'] is [w] after at most [k] more requests to the completion
    service. *)
Definition within_requests (k : nat) (w w' : World) : Prop :=
  (length (calls w') <= length (calls w) + k)%nat.

#[global] Instance eligible_decision l : Decision (eligible l).
Proof. unfold eligible. apply _. Defined.

(** The rows of [rows] that a pass hands to [generateSingleLesson]. *)
Definition to_generate (rows : list (Z * Lesson)) : list (Z * Lesson) :=
  filter (fun r => eligible r.2) rows.

(** The requests one lesson can take: for each of its two texts, the four
    attempts of [callOpenAI] and the two expansions. *)
Definition LESSON_REQUESTS : nat := 12.

(** The rows of [rows] whose row in the store [w] has the status [st]. *)
Definition with_status_in (w : World) (st : Status)
    (rows : list (Z * Lesson)) : list (Z * Lesson) :=
  filter (fun r => status <$> lessons w !! r.1 = Some st) rows.

(** The row [insertLesson.run] stores for an entry of
    [breakdown.lessons], when its fields can be bound: a number for
    [number], a string for [title], and for [description] a string or
    nothing. *)
Definition entry_row (tid : Z) (entry : JsValue) : option Lesson :=
  match js_get entry "number", js_get entry "title",
        js_get entry "description" with
  | Ok (Some (JNum n)), Ok (Some (JStr t)), Ok d =>
      match bind_text d with
      | Ok descr =>
          Some {| topic_id := tid; lesson_number := n; title := t;
                  description := descr; file_path := None;
                  podcast_file_path := None; word_count := 0;
                  podcast_word_count := 0; status := pending;
                  retry_count := Some 0; last_error := None |}
      | Throw _ => None
      end
  | _, _, _ => None
  end.

(** The values the driver refuses or stores as they are.  A number
    bound to a [TEXT] column and a string bound to the [INTEGER] column
    are converted by SQLite and stored in a form the rows here do not
    hold: the statements about entries that are refused leave them
    out. *)
Definition as_driver_text (v : option JsValue) : Prop :=
  match v with Some (JNum _) => False | _ => True end.

Definition as_driver_integer (v : option JsValue) : Prop :=
  match v with Some (JStr _) => False | _ => True end.

Definition entry_as_driver (entry : JsValue) : Prop :=
  match js_get entry "number", js_get entry "title",
        js_get entry "description" with
  | Ok n, Ok t, Ok d =>
      as_driver_integer n /\ as_driver_text t /\ as_driver_text d
  | _, _, _ => True
  end.

(** The same for a parsed answer: its description and the entries of
    its [lessons]. *)
Definition outline_as_driver (breakdown : JsValue) : Prop :=
  (forall v, js_get breakdown "topic_description" = Ok v -> as_driver_text v)
  /\ forall entries, js_get breakdown "lessons" = Ok (Some (JArr entries)) ->
       Forall entry_as_driver entries.

(** The table after the rows [rows] have been inserted under the keys
    [next], [next + 1], ... *)
Fixpoint add_rows (rows : list Lesson) (next : Z) (m : gmap Z Lesson)
    : gmap Z Lesson :=
  match rows with
  | [] => m
  | r :: later => add_rows later (next + 1) (<[next := r]> m)
  end.

(** Every key in use is below the next key [AUTOINCREMENT] gives. *)
Definition keys_below_next (w : World) : Prop :=
  forall j, is_Some (lessons w !! j) -> j < next_lesson_id w.

(** The state in which [breakdownTopic] sends its request. *)
Definition breakdown_started (tid : Z) (w : World) : World :=
  with_notified onBreakdownStart
    (with_topics (alter (set_topic_status generating None) tid) w).

(** The [catch] of [breakdownTopic]. *)
Definition breakdown_handler (tid : Z) (cb : Callbacks) (error : JsError)
    : M World JsValue :=
  update_topic tid
    (set_topic_status failed (Some (message (categorizeError error)))) ;;
  notify cb (onGenerationError (message (categorizeError error))
               (isRetryable (categorizeError error))) ;;
  throw error.

(** ** Further notions for the adapter *)

(** An error as [callOpenAI] hands it to its caller: an [Error], never
    an abort or a bare 429 of the client library, which the [catch]
    turns into the adapter's own classes. *)
Definition normalised (e : JsError) : Prop :=
  match e with
  | NonError _ => False
  | OtherError name _ => name <> "AbortError"
  | SdkAPIError _ st _ => st <> Some 429
  | _ => True
  end.

(** ** The routes ([routes/lessons.ts], [routes/topics.ts]) *)

(** What a handler answers: a status code with a body, or a status code
    with [{ error }]. *)
Inductive Reply (A : Type) : Type :=
| Json (code : Z) (body : A)
| Failure (code : Z) (error : string).
Arguments Json {A} code body.
Arguments Failure {A} code error.

(** [{ content, word_count }] *)
Record ContentBody := { content : text; content_word_count : Z }.

Definition is_high_surrogate (c : N) : bool :=
  ((55296 <=? c) && (c <=? 56319))%N.

Definition is_low_surrogate (c : N) : bool :=
  ((56320 <=? c) && (c <=? 57343))%N.

(** A text written with [writeFileSync(..., 'utf-8')] and read back with
    [readFileSync(..., 'utf-8')]: a surrogate without its partner cannot
    be encoded and comes back as U+FFFD. *)
Fixpoint read_back (t : text) : text :=
  match t with
  | [] => []
  | c :: t' =>
      if is_high_surrogate c
      then match t' with
           | d :: t'' =>
               if is_low_surrogate d then c :: d :: read_back t''
               else 65533%N :: read_back t'
           | [] => [65533%N]
           end
      else if is_low_surrogate c then 65533%N :: read_back t'
      else c :: read_back t'
  end.

(** The text [c] is what the completion service answered to one of the
    requests made after [w] and up to [w'], a request that is one of
    [asked]. *)
Definition answered (asked : ApiCall -> Prop) (w w' : World) (c : text)
    : Prop :=
  exists n call, (length (calls w) <= n)%nat
                 /\ calls w' !! n = Some call /\ asked call
                 /\ service w n = Responded (Some c).

(** [w'] is [w] after some more requests to the same service. *)
Definition more_requests (w w' : World) : Prop :=
  service w' = service w /\ exists later, calls w' = calls w ++ later.

(** The requests for the body of a lesson, and for its script: the first
    pass and the expansions. *)
Definition lesson_request (call : ApiCall) : Prop :=
  call = Completion "lesson_content" \/ call = Expansion lesson_kind.

Definition podcast_request (call : ApiCall) : Prop :=
  call = Completion "podcast_summary" \/ call = Expansion podcast_kind.

(** The common part of [GET /api/lessons/:id/content] and
    [GET /api/lessons/:id/podcast]: [path] and [count] are the two
    columns read, [missing] the answer when the path is not set.  [id] is
    the key the parameter of the request denotes. *)
Definition serve_file (id : Z) (path : Lesson -> option string)
    (count : Lesson -> Z) (missing not_found : string) (w : World)
    : Reply ContentBody :=
  match lessons w !! id with
  | None => Failure 404 "Lesson not found"
  | Some lesson =>
      if negb (truthy (path lesson)) then Failure 404 missing
      else
        match files w !! path_join CONTENT_DIR (default "" (path lesson)) with
        | None => Failure 404 not_found
        | Some data =>
            Json 200 {| content := read_back data;
                        content_word_count := count lesson |}
        end
  end.

Definition get_lesson_content (id : Z) (w : World) : Reply ContentBody :=
  serve_file id file_path word_count "Lesson content not yet generated"
    "Lesson file not found" w.

Definition get_lesson_podcast (id : Z) (w : World) : Reply ContentBody :=
  serve_file id podcast_file_path podcast_word_count
    "Podcast content not yet generated" "Podcast file not found" w.

(** Reading back keeps a code unit or puts U+FFFD for a surrogate:
    neither is white space or markup. *)
Inductive same_class : text -> text -> Prop :=
| same_class_nil : same_class [] []
| same_class_keep c t t' : same_class t t' -> same_class (c :: t) (c :: t')
| same_class_replace c t t' :
    is_high_surrogate c || is_low_surrogate c = true ->
    same_class t t' -> same_class (c :: t) (65533%N :: t').

(** [error instanceof Error ? error.message : fallback] *)
Definition error_message_or (fallback : string) (error : JsError) : string :=
  match error with
  | OpenAIConfigError m | OpenAIRateLimitError m _ | OpenAITimeoutError m
  | OpenAIAPIError m _ _ | SdkAPIError m _ _ | OtherError _ m => m
  | NonError _ => fallback
  end.

Definition api_key_missing : string :=
  "OpenAI API key is not configured. Please add it to your .env file.".

(** [SELECT COUNT( * ) FROM lessons WHERE topic_id = ?] *)
Definition count_lessons (tid : Z) (w : World) : Z :=
  Z.of_nat (length (filter (fun r : Z * Lesson => topic_id r.2 = tid)
                      (map_to_list (lessons w)))).

(** [SELECT COUNT( * ) FROM lessons WHERE topic_id = ?
      AND status IN ('failed', 'pending')
      AND (retry_count < 3 OR retry_count IS NULL)] *)
Definition count_retryable (tid : Z) (w : World) : Z :=
  Z.of_nat (length (filter (retryable_row tid 3) (map_to_list (lessons w)))).

(** [{ message, lessonsToRetry, status }] *)
Record RetryReply := {
  retry_message : string;
  lessonsToRetry : Z;
  retry_status : GenerationStatus
}.

(** [POST /api/topics/:id/retry]: the answer, and the store once the job
    started with [setImmediate] has run; what that job throws is logged
    and dropped. *)
Definition retry_route (tid : Z) (w : World) : Reply RetryReply * World :=
  if negb (isApiKeyConfigured w) then (Failure 400 api_key_missing, w)
  else
    match topics w !! tid with
    | None => (Failure 404 "Topic not found", w)
    | Some topic =>
        if bool_decide (topic_status topic = generating)
        then (Failure 400 "Generation already in progress", w)
        else
          let count := count_retryable tid w in
          if bool_decide (count = 0)
          then (Failure 400
                  "No lessons available to retry. All lessons either completed or exceeded retry limit.",
                w)
          else
            match getGenerationStatus tid w with
            | Throw e =>
                (Failure 500 (error_message_or "Failed to retry lessons" e), w)
            | Ok st =>
                (Json 200
                   {| retry_message :=
                        "Retrying " +:+ pretty count +:+ " lesson(s)";
                      lessonsToRetry := count;
                      retry_status := st |},
                 (retryFailedLessons tid createSSEProgressCallbacks w).2)
            end
    end.

(** [{ message, breakdown, status }]; [breakdown] is [null] when the
    topic had its lessons already, and else holds the description, the
    number of lessons and the lessons of the answer. *)
Record GenerateReply := {
  generate_message : string;
  generate_breakdown : option (option JsValue * Z * list JsValue);
  generate_status : GenerationStatus
}.

(** [breakdown ? { description, lessonCount, lessons } : null] *)
Definition breakdown_summary (breakdown : option JsValue)
    : Res (option (option JsValue * Z * list JsValue)) :=
  match breakdown with
  | None => Ok None
  | Some v =>
      match js_get v "topic_description", js_get v "lessons" with
      | Ok d, Ok (Some (JArr entries)) =>
          Ok (Some (d, Z.of_nat (length entries), entries))
      | Throw e, _ | _, Throw e => Throw e
      | _, _ =>
          Throw (OtherError "TypeError"
                   "Cannot read properties of undefined (reading 'length')")
      end
  end.

(** [POST /api/topics/:id/generate]: the answer, and the store once the
    job started with [setImmediate] has run. *)
Definition generate_route (JSON_parse : text -> option JsValue) (tid : Z)
    (w : World) : Reply GenerateReply * World :=
  if negb (isApiKeyConfigured w) then (Failure 400 api_key_missing, w)
  else
    match topics w !! tid with
    | None => (Failure 404 "Topic not found", w)
    | Some topic =>
        if bool_decide (topic_status topic = generating)
        then (Failure 400 "Generation already in progress", w)
        else if bool_decide (topic_status topic = completed)
        then (Failure 400
                "Content already generated. Delete and recreate the topic to regenerate.",
              w)
        else
          let sseCallbacks := createSSEProgressCallbacks in
          let started :=
            (breakdown <-
               (if bool_decide (count_lessons tid w = 0)
                then v <- breakdownTopic JSON_parse tid sseCallbacks ;;
                     ret (Some v)
                else ret None) ;;
             summary <- lift (breakdown_summary breakdown) ;;
             st <- gets (getGenerationStatus tid) ;;
             st <- lift st ;;
             ret {| generate_message := "Content generation started";
                    generate_breakdown := summary;
                    generate_status := st |}) w in
          match started with
          | (Throw e, w1) =>
              (Failure 500 (error_message_or "Failed to generate content" e),
               w1)
          | (Ok body, w1) =>
              (Json 200 body, (generateAllContent tid sseCallbacks w1).2)
          end
    end.

(** [DELETE /api/topics/:id]: the connections of the topic are closed,
    its lessons and the topic are deleted; the files are left. *)
Definition delete_route (tid : Z) (w : World) (reg : SSE.Registry)
    : Reply string * World * SSE.Registry :=
  match topics w !! tid with
  | None => (Failure 404 "Topic not found", w, reg)
  | Some topic =>
      let reg' := (closeTopicConnections tid reg).2 in
      let w1 :=
        with_lessons (filter (fun r : Z * Lesson => topic_id r.2 <> tid)) w in
      let w2 := with_topics (delete tid) w1 in
      (Json 200 "Topic deleted successfully", w2, reg')
  end.

(** *** [createSlug] ([routes/topics.ts]) *)

(** [toLowerCase] on one code unit, as far as the pattern [[^a-z0-9]]
    can tell.  The letters [A]-[Z] give [a]-[z]; the Kelvin sign gives
    [k]; the capital I with a dot gives [i] and a combining dot.  No
    other character has a letter or a digit of ASCII in its lower case,
    and none has an empty one: such a code unit is kept as it is, which
    gives the slug of the code although not always its intermediate
    text. *)
Definition toLowerCase_unit (c : N) : text :=
  if ((65 <=? c) && (c <=? 90))%N then [(c + 32)%N]
  else if (c =? 8490)%N then [107%N]
  else if (c =? 304)%N then [105%N; 775%N]
  else [c].

Definition toLowerCase (t : text) : text := t ≫= toLowerCase_unit.

(** The class [[a-z0-9]]. *)
Definition is_slug_letter (c : N) : bool :=
  (((97 <=? c) && (c <=? 122)) || ((48 <=? c) && (c <=? 57)))%N.

Definition hyphen : N := 45%N.

(** [s.replace(/[^a-z0-9]+/g, '-')]: every maximal run of code units
    outside the class becomes one hyphen; [in_run] says that the previous
    code unit was in such a run. *)
Fixpoint replace_runs (in_run : bool) (t : text) : text :=
  match t with
  | [] => []
  | c :: t' =>
      if is_slug_letter c then c :: replace_runs false t'
      else if in_run then replace_runs true t'
      else hyphen :: replace_runs true t'
  end.

(** The alternative [^-] of [s.replace(/^-|-$/g, '')]. *)
Definition strip_leading_hyphen (t : text) : text :=
  match t with
  | c :: t' => if (c =? hyphen)%N then t' else t
  | [] => []
  end.

(** The alternative [-$], on what the first alternative has left. *)
Definition strip_trailing_hyphen (t : text) : text :=
  rev (strip_leading_hyphen (rev t)).

Definition createSlug (title : text) : text :=
  strip_trailing_hyphen
    (strip_leading_hyphen (replace_runs false (toLowerCase title))).

(** Letters of the class and hyphens, no hyphen at either end and no two
    hyphens in a row. *)
Definition well_formed_slug (s : text) : Prop :=
  (forall c, c ∈ s -> is_slug_letter c = true \/ c = hyphen)
  /\ head s <> Some hyphen
  /\ last s <> Some hyphen
  /\ (forall i, s !! i = Some hyphen -> s !! S i <> Some hyphen).

(** Letters and hyphens, a hyphen never following a hyphen;
    [after_hyphen] forbids a hyphen in the first place as well. *)
Fixpoint runs_shape (after_hyphen : bool) (t : text) : bool :=
  match t with
  | [] => true
  | c :: t' =>
      if is_slug_letter c then runs_shape false t'
      else (c =? hyphen)%N && negb after_hyphen && runs_shape true t'
  end.

(** A run of code units outside the class, after lower-casing. *)
Definition separator (t : text) : Prop :=
  t <> [] /\ Forall (fun c => is_slug_letter c = false) (toLowerCase t).

Definition example_title : text := lit "  Intro to C++ (2nd Ed.)  ".

(** Whether the text read so far ends inside a run of code units outside
    the class. *)
Fixpoint run_after (in_run : bool) (t : text) : bool :=
  match t with
  | [] => in_run
  | c :: t' => run_after (negb (is_slug_letter c)) t'
  end.

(** The capital of an ASCII letter. *)
Definition ascii_upper (c : N) : N :=
  if ((97 <=? c) && (c <=? 122))%N then (c - 32)%N else c.

(** *** [stripMarkdownCodeFences] ([services/openai.ts]) *)

(** [(?:markdown|md)?]: a text that goes on with one of the two words
    cannot match without it, a letter being neither white space nor a
    line feed, so the choice is forced. *)
Definition skip_label (t : text) : text :=
  if starts_with (lit "markdown") t then drop 8 t
  else if starts_with (lit "md") t then drop 2 t
  else t.

(** The longest run of white space at the start of [t]. *)
Fixpoint take_space (t : text) : text :=
  match t with
  | c :: t' => if is_space c then c :: take_space t' else []
  | [] => []
  end.

(** What follows the last line feed of [t], if it has one. *)
Fixpoint after_last_newline (t : text) : option text :=
  match t with
  | [] => None
  | c :: t' =>
      match after_last_newline t' with
      | Some r => Some r
      | None => if (c =? 10)%N then Some t' else None
      end
  end.

(** What follows a match of [/^```(?:markdown|md)?\s*\n/].  The greedy
    [\s*] gives back as little as it must: the match ends with the last
    line feed of the white space that follows the label. *)
Definition after_start_fence (content : text) : option text :=
  if starts_with fence content then
    let after := skip_label (drop 3 content) in
    match after_last_newline (take_space after) with
    | Some indent => Some (indent ++ trimStart after)
    | None => None
    end
  else None.

(** What precedes the leftmost occurrence of [p] that only white space
    follows up to the end of [t]: the lazy group before [```\s*$], and the
    text that the replacement of [/\n```\s*$/] keeps. *)
Fixpoint before_closing (p t : text) : option text :=
  if starts_with p t && forallb is_space (drop (length p) t) then Some []
  else match t with
       | [] => None
       | c :: t' =>
           match before_closing p t' with
           | Some r => Some (c :: r)
           | None => None
           end
       end.

(** [content.match(/^```(?:markdown|md)?\s*\n([\s\S]*?)```\s*$/)], the
    first capture group.  Ending the white space at an earlier line feed
    only adds white space in front of the closing fences to try, so the
    first choice decides. *)
Definition markdownFenceMatch (content : text) : option text :=
  match after_start_fence content with
  | Some rest => before_closing fence rest
  | None => None
  end.

Definition stripMarkdownCodeFences (content : text) : text :=
  match markdownFenceMatch content with
  | Some captured => trim captured
  | None =>
      let result :=
        match after_start_fence content with
        | Some rest => rest
        | None => content
        end in
      match before_closing (10%N :: fence) result with
      | Some kept => kept
      | None => result
      end
  end.

(** The labels that the pattern accepts after the opening fence. *)
Inductive FenceLabel := LabelMarkdown | LabelMd | NoLabel.

Definition label_text (l : FenceLabel) : text :=
  match l with
  | LabelMarkdown => lit "markdown"
  | LabelMd => lit "md"
  | NoLabel => []
  end.

(** [body] between an opening fence on a line of its own and a closing
    fence. *)
Definition in_markdown_fence (l : FenceLabel) (body : text) : text :=
  fence ++ label_text l ++ [10%N] ++ body ++ fence.

(** The last character of [t] that is not white space is not a
    backtick. *)
Definition no_backtick_at_end (t : text) : Prop :=
  last (trimEnd t) <> Some backtick.

(** *** Further example stores *)

(** An entry of the outline a breakdown answers with. *)
Definition outline_entry (n : Z) (t : string) : JsValue :=
  JObj [("number", JNum n); ("title", JStr t);
        ("description", JStr "What the lesson covers")].

(** An outline of two lessons. *)
Definition two_lessons_outline : JsValue :=
  JObj [("topic_description", JStr "About lean startups");
        ("lessons", JArr [outline_entry 1 "The problem";
                          outline_entry 2 "The solution"])].

Definition parse_two_lessons (_ : text) : option JsValue :=
  Some two_lessons_outline.



(** A service that cannot be reached. *)
Definition offline_service (_ : nat) : RawOutcome :=
  Rejected (OtherError "TypeError" "fetch failed").

Definition offline : World := example_store [] offline_service.

(** A topic not yet broken down, and a service that answers. *)
Definition fresh_topic : Topic :=
  {| topic_title := "Lean Startup Methodology";
     slug := "lean-startup-methodology";
     topic_description := None; lesson_count := 0; topic_status := pending;
     topic_last_error := None |}.

Definition new_topic : World :=
  {| topics := {[ 1 := fresh_topic ]};
     lessons := ∅;
     next_lesson_id := 1;
     prompts := prompts five_lessons;
     files := ∅;
     OPENAI_API_KEY := Some "sk-test";
     openaiClient := false;
     service := fun _ => Responded (Some (lit "hello world"));
     calls := [];
     disk := fun _ => None;
     writes := 0;
     notified := [] |}.

(** The interrupted topic once it has been marked as failed. *)
Definition stalled : World :=
  with_topics (alter (set_topic_status failed None) 1) interrupted.

(** * Properties *)

(** ** Word counter *)

Lemma remove_markdown_inserted t t' :
  inserted is_markdown_syntax t t' -> remove_markdown t' = remove_markdown t.
Proof.
  induction 1 as [|c t t' _ IH|c t t' Hc _ IH]; simpl.
  - reflexivity.
  - rewrite IH. reflexivity.
  - rewrite Hc. simpl. exact IH.
Qed.

(** C8, as the code has it: the two examples, and the characters of the
    class [[#*_`~\[\]()]], put in anywhere, leave the count as it is. *)
Theorem countWords_markdown_syntax :
  countWords (lit "**Hello** world!") = 2
  /\ countWords (lit "") = 0
  /\ forall t t', inserted is_markdown_syntax t t' ->
       countWords t' = countWords t.
Proof.
  split; [reflexivity|]. split; [reflexivity|].
  intros t t' H. unfold countWords. rewrite (remove_markdown_inserted _ _ H).
  reflexivity.
Qed.

Lemma countWords_markdown_syntax_witness :
  inserted is_markdown_syntax (lit " a bc") (lit "# a [b](c)")
  /\ countWords (lit "# a [b](c)") = countWords (lit " a bc").
Proof.
  assert (H : inserted is_markdown_syntax (lit " a bc") (lit "# a [b](c)")).
  { simpl.
    repeat (first [ apply inserted_nil
                  | apply inserted_here; [reflexivity|]
                  | apply inserted_keep ]). }
  split; [exact H|].
  apply (proj2 (proj2 countWords_markdown_syntax)). exact H.
Defined.

(** C8 as worded fails: a hyphen is a list marker, it is not removed, and
    on its own it is a word. *)
Lemma countWords_list_marker_counts :
  ~ (forall t t', inserted spec_markup_character t t' ->
       countWords t' <= countWords t).
Proof.
  intros H.
  specialize (H (lit "") (lit "-")).
  assert (Hi : inserted spec_markup_character (lit "") (lit "-")).
  { apply inserted_here; [reflexivity | apply inserted_nil]. }
  specialize (H Hi). vm_compute in H. apply H. reflexivity.
Qed.


(** ** Adapter retry policy *)

Lemma same_store_refl w : same_store w w.
Proof. repeat split. Qed.

Lemma same_store_trans w1 w2 w3 :
  same_store w1 w2 -> same_store w2 w3 -> same_store w1 w3.
Proof.
  unfold same_store. intros H1 H2. destruct_and!.
  repeat split; congruence.
Qed.

Lemma attempt_once_run name w :
  client_available w ->
  let o := service w (length (calls w)) in
  let r := attempt_once name w in
  same_store w r.2
  /\ calls r.2 = calls w ++ [Completion name]
  /\ openaiClient r.2 = true
  /\ notified r.2 = notified w
  /\ r.1 = match o with
           | Responded (Some (c :: t)) => Ok (c :: t)
           | Responded _ =>
               Throw (OpenAIAPIError "No content in OpenAI response" 500 true)
           | Rejected e => Throw e
           end.
Proof.
  intros Hc. unfold attempt_once, bind, getOpenAIClient, request.
  destruct (openaiClient w) eqn:Ho.
  - simpl. destruct (service w (length (calls w))) as [[[|c t]|]|e]; simpl;
      rewrite ?Ho; repeat split; reflexivity.
  - destruct Hc as [Hc|Hc]; [congruence|]. rewrite Hc. simpl.
    destruct (service w (length (calls w))) as [[[|c t]|]|e]; simpl;
      repeat split; reflexivity.
Qed.

Lemma attempt_once_no_client name w :
  openaiClient w = false -> truthy (OPENAI_API_KEY w) = false ->
  attempt_once name w =
    (Throw (OpenAIConfigError
              "OPENAI_API_KEY environment variable is not set"), w).
Proof.
  intros Ho Hk. unfold attempt_once, bind, getOpenAIClient. rewrite Ho, Hk.
  reflexivity.
Qed.

Section Loop.
Context (name : string) (mr timeout_ms : Z)
        (observer : option (Z -> JsError -> option JsError)).
Hypothesis observer_quiet : quiet_observer observer.

Lemma observer_step a e (w : World) :
  match observer with
  | Some f => match f a e with Some e' => throw e' | None => ret tt end
  | None => ret tt
  end w = (Ok tt, w).
Proof using observer_quiet.
  destruct observer as [f|] eqn:E; [|reflexivity].
  rewrite (observer_quiet f eq_refl). reflexivity.
Qed.

Lemma attempt_once_fails w e :
  client_available w ->
  outcome_error timeout_ms (service w (length (calls w))) = Some e ->
  exists e0, (attempt_once name w).1 = Throw e0
             /\ last_error_of timeout_ms e0 = e.
Proof.
  intros Hc He. destruct (attempt_once_run name w Hc) as (_ & _ & _ & _ & Hr).
  simpl in Hr. rewrite Hr.
  destruct (service w (length (calls w))) as [[[|c t]|]|e0]; simpl in *;
    try discriminate; simplify_eq; eauto.
Qed.

Lemma loop_success a later le w c :
  client_available w ->
  service w (length (calls w)) = Responded (Some c) -> c <> [] ->
  callOpenAI_loop name mr timeout_ms observer (a :: later) le w
  = (Ok c, (attempt_once name w).2).
Proof.
  intros Hc Hs Hne. destruct (attempt_once_run name w Hc) as (_ & _ & _ & _ & Hr).
  simpl in Hr. rewrite Hs in Hr. cbn [callOpenAI_loop]. unfold try_catch.
  destruct (attempt_once name w) as [r w1]. simpl in *. subst r.
  destruct c; [done|reflexivity].
Qed.

Lemma loop_give_up a later le w e :
  client_available w ->
  outcome_error timeout_ms (service w (length (calls w))) = Some e ->
  isRetryable (categorizeError e) = false \/ mr <= a ->
  callOpenAI_loop name mr timeout_ms observer (a :: later) le w
  = (Throw e, (attempt_once name w).2).
Proof.
  intros Hc He Hstop. destruct (attempt_once_fails w e Hc He) as (e0 & Hr & He0).
  cbn [callOpenAI_loop]. unfold try_catch.
  destruct (attempt_once name w) as [r w1]. simpl in *. subst r. rewrite He0.
  destruct Hstop as [Hn|Hle].
  - rewrite Hn. reflexivity.
  - replace (mr <=? a) with true by (symmetry; apply Z.leb_le; lia).
    rewrite orb_true_r. reflexivity.
Qed.

Lemma loop_retry a later le w e :
  client_available w ->
  outcome_error timeout_ms (service w (length (calls w))) = Some e ->
  isRetryable (categorizeError e) = true -> a < mr ->
  callOpenAI_loop name mr timeout_ms observer (a :: later) le w
  = callOpenAI_loop name mr timeout_ms observer later (Some e)
      (attempt_once name w).2.
Proof using observer_quiet.
  intros Hc He Hre Hlt. destruct (attempt_once_fails w e Hc He) as (e0 & Hr & He0).
  cbn [callOpenAI_loop]. unfold try_catch at 1.
  destruct (attempt_once name w) as [r w1]. simpl in *. subst r. rewrite He0.
  rewrite Hre. replace (mr <=? a) with false by (symmetry; apply Z.leb_gt; lia).
  simpl. unfold bind. rewrite observer_step. reflexivity.
Qed.

(** The run of the loop that starts at attempt [a] with [n] attempts
    left, when the first [k] outcomes are retryable failures. *)
Lemma loop_after_retries k : forall n a le w,
  client_available w ->
  a + Z.of_nat n = mr + 1 -> (k < n)%nat ->
  (forall j, (j < k)%nat ->
     retryable_failure timeout_ms (service w (length (calls w) + j)%nat)) ->
  exists w1 le1,
    callOpenAI_loop name mr timeout_ms observer (seqZ a (Z.of_nat n)) le w
      = callOpenAI_loop name mr timeout_ms observer
          (seqZ (a + Z.of_nat k) (Z.of_nat (n - k))) le1 w1
    /\ same_store w w1
    /\ calls w1 = calls w ++ replicate k (Completion name)
    /\ notified w1 = notified w
    /\ client_available w1.
Proof using observer_quiet.
  induction k as [|k IH]; intros n a le w Hc Han Hk Hretry.
  - exists w, le. rewrite Z.add_0_r, Nat.sub_0_r, app_nil_r.
    split; [reflexivity|]. split; [apply same_store_refl|]. done.
  - destruct n as [|n]; [lia|].
    destruct (Hretry 0%nat ltac:(lia)) as (e & He & Hre).
    rewrite Nat.add_0_r in He.
    rewrite seqZ_cons by lia.
    rewrite (loop_retry _ _ _ _ e Hc He Hre) by lia.
    destruct (attempt_once_run name w Hc) as (Hs & Hcalls & Hcl & Hn & _).
    simpl in *. set (w1 := (attempt_once name w).2) in *.
    replace (Z.pred (Z.of_nat (S n))) with (Z.of_nat n) by lia.
    destruct (IH n (Z.succ a) (Some e) w1) as (w2 & le2 & Heq & Hs2 & Hc2 & Hn2 & Hcl2).
    + left. exact Hcl.
    + lia.
    + lia.
    + intros j Hj. specialize (Hretry (S j) ltac:(lia)).
      destruct Hs as (_ & _ & _ & _ & _ & _ & Hsvc & _). rewrite Hsvc, Hcalls.
      rewrite length_app. simpl.
      replace (length (calls w) + 1 + j)%nat with (length (calls w) + S j)%nat by lia.
      exact Hretry.
    + exists w2, le2. rewrite Heq.
      replace (Z.succ a + Z.of_nat k) with (a + Z.of_nat (S k)) by lia.
      replace (S n - S k)%nat with (n - k)%nat by lia.
      split; [reflexivity|]. split; [eapply same_store_trans; eassumption|].
      split; [|split; [congruence|exact Hcl2]].
      rewrite Hc2, Hcalls, <- app_assoc. reflexivity.
Qed.

End Loop.

Lemma attempt_once_calls name w :
  (length (calls (attempt_once name w).2) <= length (calls w) + 1)%nat.
Proof.
  unfold attempt_once, bind, getOpenAIClient, request.
  destruct (openaiClient w); [|destruct (truthy (OPENAI_API_KEY w))]; simpl;
    try lia;
    destruct (service w (length (calls w))) as [[[|c t]|]|e]; simpl;
    rewrite length_app; simpl; lia.
Qed.

Lemma callOpenAI_loop_calls name mr tmo obs attempts : forall le w,
  (length (calls (callOpenAI_loop name mr tmo obs attempts le w).2)
   <= length (calls w) + length attempts)%nat.
Proof.
  induction attempts as [|a later IH]; intros le w; simpl.
  - lia.
  - unfold try_catch. pose proof (attempt_once_calls name w) as Hc.
    destruct (attempt_once name w) as [[c|e] w1]; simpl in *; [lia|].
    destruct (negb _ || _); simpl; [lia|].
    unfold bind.
    destruct obs as [f|]; simpl.
    + destruct (f (a + 1) (last_error_of tmo e)); simpl; [lia|].
      specialize (IH (Some (last_error_of tmo e)) w1). lia.
    + specialize (IH (Some (last_error_of tmo e)) w1). lia.
Qed.

Lemma callOpenAI_unfold name options w tpl :
  prompts w !! name = Some tpl ->
  callOpenAI name options w =
    callOpenAI_loop name (default 3 (maxRetries options))
      (default 120000 (timeout options)) (onRetry options)
      (seqZ 0 (default 3 (maxRetries options) + 1)) None w.
Proof. intros H. unfold callOpenAI, bind, gets. rewrite H. reflexivity. Qed.

(** C4.  Adapter retry policy.  With the prompt template in place and an
    observer that does not throw: [callOpenAI] makes at most
    [maxRetries + 1] requests (4 by default); an attempt whose error
    [categorizeError] classifies as not retryable ends the call at once
    with that error, and the service is not called again; when every
    attempt fails with a retryable error the last error is thrown after
    [maxRetries + 1] requests; a missing credential is a configuration
    error thrown before any request. *)
Theorem callOpenAI_retry_policy (name : string) (options : OpenAICallOptions)
    (w : World) :
  let mr := default 3 (maxRetries options) in
  let tmo := default 120000 (timeout options) in
  let base := length (calls w) in
  let run := callOpenAI name options w in
  is_Some (prompts w !! name) ->
  quiet_observer (onRetry options) ->
  0 <= mr ->
  (* never more than maxRetries + 1 attempts *)
  (length (calls run.2) <= base + Z.to_nat (mr + 1))%nat
  /\ (* a non-retryable error after k retried attempts *)
  (client_available w ->
   forall (k : nat) e, Z.of_nat k <= mr ->
     (forall j, (j < k)%nat -> retryable_failure tmo (service w (base + j)%nat)) ->
     outcome_error tmo (service w (base + k)%nat) = Some e ->
     isRetryable (categorizeError e) = false ->
     run.1 = Throw e
     /\ calls run.2 = calls w ++ replicate (S k) (Completion name))
  /\ (* retryable errors all the way *)
  (client_available w ->
   (forall j, Z.of_nat j <= mr ->
      retryable_failure tmo (service w (base + j)%nat)) ->
   exists e,
     outcome_error tmo (service w (base + Z.to_nat mr)%nat) = Some e
     /\ run.1 = Throw e
     /\ calls run.2 = calls w ++ replicate (Z.to_nat (mr + 1)) (Completion name))
  /\ (* an answer after k retried attempts *)
  (client_available w ->
   forall (k : nat) c, Z.of_nat k <= mr -> c <> [] ->
     (forall j, (j < k)%nat -> retryable_failure tmo (service w (base + j)%nat)) ->
     service w (base + k)%nat = Responded (Some c) ->
     run.1 = Ok c
     /\ calls run.2 = calls w ++ replicate (S k) (Completion name))
  /\ (* no credential: a configuration error, and no request *)
  (openaiClient w = false -> truthy (OPENAI_API_KEY w) = false ->
   run = (Throw (OpenAIConfigError
                   "OPENAI_API_KEY environment variable is not set"), w)).
Proof.
  intros mr tmo base run [tpl Htpl] Hobs Hmr.
  assert (Hrun : run = callOpenAI_loop name mr tmo (onRetry options)
                         (seqZ 0 (mr + 1)) None w).
  { apply (callOpenAI_unfold _ _ _ _ Htpl). }
  assert (Hn : mr + 1 = Z.of_nat (Z.to_nat (mr + 1))) by lia.
  split; [|split; [|split; [|split]]].
  - rewrite Hrun. etransitivity; [apply callOpenAI_loop_calls|].
    rewrite length_seqZ. reflexivity.
  - intros Hc k e Hk Hretry He Hnr.
    destruct (loop_after_retries name mr tmo (onRetry options) Hobs k
                (Z.to_nat (mr + 1)) 0 None w Hc ltac:(lia) ltac:(lia) Hretry)
      as (w1 & le1 & Heq & Hs & Hcalls & _ & Hc1).
    rewrite Hrun, Hn, Heq.
    rewrite seqZ_cons by lia.
    destruct Hs as (_ & _ & _ & _ & _ & _ & Hsvc & _).
    assert (He1 : outcome_error tmo (service w1 (length (calls w1))) = Some e).
    { rewrite Hsvc, Hcalls, length_app, length_replicate. exact He. }
    rewrite (loop_give_up _ _ _ _ _ _ _ _ e Hc1 He1 (or_introl Hnr)).
    destruct (attempt_once_run name w1 Hc1) as (_ & Hc2 & _). simpl in *.
    split; [reflexivity|]. rewrite Hc2, Hcalls, <- app_assoc.
    f_equal. symmetry. apply replicate_cons_app.
  - intros Hc Hretry.
    destruct (loop_after_retries name mr tmo (onRetry options) Hobs (Z.to_nat mr)
                (Z.to_nat (mr + 1)) 0 None w Hc ltac:(lia) ltac:(lia))
      as (w1 & le1 & Heq & Hs & Hcalls & _ & Hc1).
    { intros j Hj. apply Hretry. lia. }
    destruct (Hretry (Z.to_nat mr) ltac:(lia)) as (e & He & Hre).
    exists e. split; [exact He|].
    rewrite Hrun, Hn, Heq.
    rewrite seqZ_cons by lia.
    destruct Hs as (_ & _ & _ & _ & _ & _ & Hsvc & _).
    assert (He1 : outcome_error tmo (service w1 (length (calls w1))) = Some e).
    { rewrite Hsvc, Hcalls, length_app, length_replicate. exact He. }
    rewrite (loop_give_up _ _ _ _ _ _ _ _ e Hc1 He1) by (right; lia).
    destruct (attempt_once_run name w1 Hc1) as (_ & Hc2 & _). simpl in *.
    split; [reflexivity|]. rewrite Hc2, Hcalls, <- app_assoc.
    f_equal. rewrite <- replicate_cons_app.
    change (?x :: replicate ?n ?x) with (replicate (S n) x). f_equal. lia.
  - intros Hc k c Hk Hne Hretry Hs0.
    destruct (loop_after_retries name mr tmo (onRetry options) Hobs k
                (Z.to_nat (mr + 1)) 0 None w Hc ltac:(lia) ltac:(lia) Hretry)
      as (w1 & le1 & Heq & Hs & Hcalls & _ & Hc1).
    rewrite Hrun, Hn, Heq.
    rewrite seqZ_cons by lia.
    destruct Hs as (_ & _ & _ & _ & _ & _ & Hsvc & _).
    assert (He1 : service w1 (length (calls w1)) = Responded (Some c)).
    { rewrite Hsvc, Hcalls, length_app, length_replicate. exact Hs0. }
    rewrite (loop_success _ _ _ _ _ _ _ _ c Hc1 He1 Hne).
    destruct (attempt_once_run name w1 Hc1) as (_ & Hc2 & _). simpl in *.
    split; [reflexivity|]. rewrite Hc2, Hcalls, <- app_assoc.
    f_equal. symmetry. apply replicate_cons_app.
  - intros Ho Hk. rewrite Hrun, Hn. rewrite seqZ_cons by lia.
    cbn [callOpenAI_loop]. unfold try_catch.
    rewrite (attempt_once_no_client _ _ Ho Hk). reflexivity.
Qed.

(** The classes of section 7 of the specification, as [categorizeError]
    and the [catch] of [callOpenAI] sort them. *)
Lemma categorizeError_taxonomy :
  (forall m, isRetryable (categorizeError (OpenAIConfigError m)) = false)
  /\ (forall m ra, isRetryable (categorizeError (OpenAIRateLimitError m ra)) = true)
  /\ (forall m, isRetryable (categorizeError (OpenAITimeoutError m)) = true)
  /\ (forall m c r, isRetryable (categorizeError (OpenAIAPIError m c r)) = r)
  /\ (forall m ra, isRetryable (categorizeError (SdkAPIError m (Some 503) ra)) = true)
  /\ (forall m ra, isRetryable (categorizeError (SdkAPIError m (Some 400) ra)) = false)
  /\ (forall v, isRetryable (categorizeError (NonError v)) = false)
  /\ (forall t m, exists m', last_error_of t (OtherError "AbortError" m)
                            = OpenAITimeoutError m')
  /\ (forall t m ra, exists n, last_error_of t (SdkAPIError m (Some 429) ra)
                              = OpenAIRateLimitError m n)
  /\ isRetryable (categorizeError
                    (OtherError "Error" "connect ECONNREFUSED 127.0.0.1:443"))
     = true
  /\ isRetryable (categorizeError (OtherError "SyntaxError" "Unexpected token")) = false.
Proof.
  repeat split; try reflexivity; intros; eexists; reflexivity.
Qed.

(** *** What the adapter leaves in place *)

Lemma after_completions_refl name w : after_completions name w w.
Proof.
  split; [apply same_store_refl|]. split; [reflexivity|].
  exists 0%nat. simpl. rewrite app_nil_r. reflexivity.
Qed.

Lemma after_completions_trans name w1 w2 w3 :
  after_completions name w1 w2 -> after_completions name w2 w3 ->
  after_completions name w1 w3.
Proof.
  intros (Hs1 & Hn1 & n1 & Hc1) (Hs2 & Hn2 & n2 & Hc2).
  split; [eapply same_store_trans; eassumption|]. split; [congruence|].
  exists (n1 + n2)%nat. rewrite Hc2, Hc1, <- app_assoc, replicate_add.
  reflexivity.
Qed.

Lemma attempt_once_after name w :
  after_completions name w (attempt_once name w).2.
Proof.
  unfold attempt_once, bind, getOpenAIClient, request.
  destruct (openaiClient w); [|destruct (truthy (OPENAI_API_KEY w))]; simpl;
    try apply after_completions_refl;
    destruct (service w (length (calls w))) as [[[|c t]|]|e]; simpl;
    (split; [repeat split|split; [reflexivity|exists 1%nat; reflexivity]]).
Qed.

Lemma callOpenAI_loop_after name mr tmo obs attempts : forall le w,
  after_completions name w (callOpenAI_loop name mr tmo obs attempts le w).2.
Proof.
  induction attempts as [|a later IH]; intros le w; simpl.
  - apply after_completions_refl.
  - unfold try_catch. pose proof (attempt_once_after name w) as Hc.
    destruct (attempt_once name w) as [[c|e] w1]; simpl in *; [exact Hc|].
    destruct (negb _ || _); simpl; [exact Hc|].
    unfold bind.
    destruct obs as [f|]; simpl.
    + destruct (f (a + 1) (last_error_of tmo e)); simpl; [exact Hc|].
      eapply after_completions_trans; [exact Hc|apply IH].
    + eapply after_completions_trans; [exact Hc|apply IH].
Qed.

Lemma callOpenAI_after name options w :
  after_completions name w (callOpenAI name options w).2.
Proof.
  unfold callOpenAI, bind, gets.
  destruct (prompts w !! name); simpl.
  - apply callOpenAI_loop_after.
  - apply after_completions_refl.
Qed.

Lemma after_completions_expansions name w w' :
  after_completions name w w' -> expansions w' = expansions w.
Proof.
  intros (_ & _ & n & Hc). unfold expansions. rewrite Hc, List.filter_app.
  rewrite length_app.
  assert (H : List.filter is_expansion (replicate n (Completion name)) = []).
  { clear Hc. induction n as [|n IH]; simpl; [reflexivity|exact IH]. }
  rewrite H. simpl. lia.
Qed.

(** *** The expansion loop *)

Lemma expandContent_run existing kind w :
  let r := expandContent existing kind w in
  same_store w r.2 /\ notified r.2 = notified w
  /\ (expansions r.2 <= expansions w + 1)%nat
  /\ (forall c, r.1 = Ok c -> expansions r.2 = S (expansions w)).
Proof.
  unfold expandContent, bind, gets, request, expansions.
  destruct (OPENAI_API_KEY w); simpl.
  - destruct (service w (length (calls w))) as [[[|c t]|]|e]; simpl;
      rewrite List.filter_app, length_app; simpl;
      (split; [repeat split|split; [reflexivity|split; [lia|]]]);
      intros; try discriminate; lia.
  - split; [repeat split|split; [reflexivity|split; [lia|]]].
    intros; discriminate.
Qed.

Lemma expand_loop_cons kind minWords a later content n w :
  expand_loop kind minWords (a :: later) content n w =
    match expandContent content kind w with
    | (Ok c1, w1) =>
        if minWords <=? countWords c1
        then (Ok (true, (c1, countWords c1)), w1)
        else expand_loop kind minWords later c1 (countWords c1) w1
    | (Throw e, w1) => (Throw e, w1)
    end.
Proof.
  cbn [expand_loop]. unfold bind.
  destruct (expandContent content kind w) as [[c1|e] w1]; [|reflexivity].
  destruct (minWords <=? countWords c1); reflexivity.
Qed.

Lemma expand_loop_expansions kind minWords attempts : forall content n w,
  (expansions (expand_loop kind minWords attempts content n w).2
   <= expansions w + length attempts)%nat.
Proof.
  induction attempts as [|a later IH]; intros content n w.
  - simpl. lia.
  - rewrite expand_loop_cons.
    pose proof (expandContent_run content kind w) as (_ & _ & Hx & _).
    destruct (expandContent content kind w) as [[c1|e] w1]; simpl in *; [|lia].
    destruct (minWords <=? countWords c1); simpl; [lia|].
    specialize (IH c1 (countWords c1) w1). lia.
Qed.

Section Gate.
Context (name : string) (options : OpenAICallOptions) (kind : ContentType)
        (minWords maxWords maxRetries : Z).

Lemma gate_first_throws w e :
  (callOpenAI name options w).1 = Throw e ->
  generate_in_band name options kind minWords maxWords maxRetries w
  = (Throw e, (callOpenAI name options w).2).
Proof.
  unfold generate_in_band, bind.
  destruct (callOpenAI name options w) as [[c|e0] w1]; simpl; congruence.
Qed.

Lemma gate_long_enough w content :
  (callOpenAI name options w).1 = Ok content ->
  minWords <= countWords content ->
  generate_in_band name options kind minWords maxWords maxRetries w
  = (Ok (content, countWords content), (callOpenAI name options w).2).
Proof.
  unfold generate_in_band, bind.
  destruct (callOpenAI name options w) as [[c|e0] w1]; simpl; [|congruence].
  intros [= ->] Hlo.
  replace (minWords <=? countWords content) with true
    by (symmetry; apply Z.leb_le; lia).
  replace (countWords content <? minWords) with false
    by (symmetry; apply Z.ltb_ge; lia).
  simpl. destruct (countWords content <=? maxWords); simpl; [reflexivity|].
  destruct (maxWords <? countWords content); reflexivity.
Qed.

Lemma gate_too_short w content :
  (callOpenAI name options w).1 = Ok content ->
  countWords content < minWords ->
  generate_in_band name options kind minWords maxWords maxRetries w =
    gate_result
      (expand_loop kind minWords (seqZ 1 maxRetries) content
         (countWords content) (callOpenAI name options w).2).
Proof.
  unfold generate_in_band, bind.
  destruct (callOpenAI name options w) as [[c|e0] w1]; simpl; [|congruence].
  intros [= ->] Hlo.
  replace (minWords <=? countWords content) with false
    by (symmetry; apply Z.leb_gt; lia).
  replace (countWords content <? minWords) with true
    by (symmetry; apply Z.ltb_lt; lia).
  simpl.
  destruct (expand_loop _ _ _ _ _ _) as [[[b p]|e] w2]; simpl; [|reflexivity].
  destruct b; simpl; [reflexivity|].
  destruct (maxWords <? p.2); reflexivity.
Qed.

Lemma gate_expansions w :
  (expansions
     (generate_in_band name options kind minWords maxWords maxRetries w).2
   <= expansions w + Z.to_nat maxRetries)%nat.
Proof.
  pose proof (after_completions_expansions _ _ _
                (callOpenAI_after name options w)) as Hx.
  destruct ((callOpenAI name options w).1) as [content|e] eqn:Hf.
  - destruct (Z.le_gt_cases minWords (countWords content)) as [Hlo|Hlo].
    + rewrite (gate_long_enough _ _ Hf Hlo). simpl. lia.
    + rewrite (gate_too_short _ _ Hf) by lia.
      pose proof (expand_loop_expansions kind minWords (seqZ 1 maxRetries)
                    content (countWords content)
                    (callOpenAI name options w).2) as Hb.
      rewrite length_seqZ in Hb.
      destruct (expand_loop _ _ _ _ _ _) as [[x|e] w2]; simpl in *; lia.
  - rewrite (gate_first_throws _ _ Hf). simpl. lia.
Qed.

End Gate.

Lemma generate_in_band_contract name options kind minWords maxWords :
  gate_contract (generate_in_band name options kind minWords maxWords 2)
    name options kind minWords maxWords.
Proof.
  intros w first run.
  pose proof (after_completions_expansions _ _ _
                (callOpenAI_after name options w)) as Hx0.
  fold first in Hx0.
  split; [apply (gate_expansions name options kind minWords maxWords 2 w)|].
  split; [apply gate_first_throws|].
  intros content Hf n.
  split; [|split].
  - intros Hlo _. unfold run.
    rewrite (gate_long_enough _ _ _ _ _ _ _ _ Hf Hlo). simpl. auto.
  - intros Hlo _. unfold run.
    rewrite (gate_long_enough _ _ _ _ _ _ _ _ Hf Hlo). simpl. auto.
  - intros Hshort e1. unfold run.
    rewrite (gate_too_short _ _ _ _ _ _ _ _ Hf Hshort).
    change (seqZ 1 2) with [1; 2]. rewrite expand_loop_cons.
    fold first. fold e1.
    pose proof (expandContent_run content kind first.2) as (_ & _ & _ & Hx1).
    fold e1 in Hx1.
    destruct e1 as [[c1|err] w2] eqn:He1; cbn [fst snd] in *.
    2:{ split; [intros ? [= <-]; reflexivity|intros ? [=]]. }
    split; [intros ? [=]|]. intros ? [= <-].
    specialize (Hx1 _ eq_refl).
    split.
    + intros Hc1.
      replace (minWords <=? countWords c1) with true
        by (symmetry; apply Z.leb_le; lia).
      cbn [fst snd gate_result]. split; [reflexivity|congruence].
    + intros Hc1. set (e2 := expandContent c1 kind w2).
      replace (minWords <=? countWords c1) with false
        by (symmetry; apply Z.leb_gt; lia).
      rewrite expand_loop_cons. fold e2.
      pose proof (expandContent_run c1 kind w2) as (_ & _ & _ & Hx2).
      fold e2 in Hx2.
      destruct e2 as [[c2|err] w3] eqn:He2; cbn [fst snd] in *.
      2:{ split; [intros ? [= <-]; reflexivity|intros ? [=]]. }
      split; [intros ? [=]|]. intros ? [= <-].
      specialize (Hx2 _ eq_refl).
      destruct (minWords <=? countWords c2); cbn [expand_loop]; unfold ret;
        cbn [fst snd gate_result]; (split; [reflexivity|congruence]).
Qed.

(** C3.  Word-count gate.  For the lesson body (band 2700-3300) and the
    podcast script (band 1000-1200): a first pass inside the band, or
    above it, is returned without any expansion request; a first pass
    below the minimum is expanded at most twice, the first text that
    reaches the minimum is returned at once, and after the second
    expansion the text is returned whatever its length. *)
Theorem expansion_loop_contract :
  gate_contract (generateLessonContent 2) "lesson_content"
    {| maxTokens := Some 8192; jsonResponse := None; maxRetries := None;
       timeout := None; onRetry := None |}
    lesson_kind 2700 3300
  /\ gate_contract (generatePodcastSummary 2) "podcast_summary"
       {| maxTokens := Some 2048; jsonResponse := None; maxRetries := None;
          timeout := None; onRetry := None |}
       podcast_kind 1000 1200.
Proof. split; apply generate_in_band_contract. Qed.


(** ** Reasoning about [M] *)

Lemma wp_ret {S A} (a : A) (s : S) Q : Q (Ok a) s -> wp (ret a) s Q.
Proof. exact id. Qed.

Lemma wp_throw {S A} e (s : S) (Q : Res A -> S -> Prop) :
  Q (Throw e) s -> wp (throw e) s Q.
Proof. exact id. Qed.

Lemma wp_bind {S A B} (m : M S A) (k : A -> M S B) s Q :
  wp m s (fun r s' =>
            match r with
            | Ok a => wp (k a) s' Q
            | Throw e => Q (Throw e) s'
            end) ->
  wp (bind m k) s Q.
Proof.
  unfold wp, bind. destruct (m s) as [[a|e] s']; simpl; auto.
Qed.

Lemma wp_try_catch {S A} (m : M S A) (h : JsError -> M S A) s Q :
  wp m s (fun r s' =>
            match r with
            | Ok a => Q (Ok a) s'
            | Throw e => wp (h e) s' Q
            end) ->
  wp (try_catch m h) s Q.
Proof.
  unfold wp, try_catch. destruct (m s) as [[a|e] s']; simpl; auto.
Qed.

Lemma wp_wand {S A} (m : M S A) s (Q Q' : Res A -> S -> Prop) :
  wp m s Q -> (forall r s', Q r s' -> Q' r s') -> wp m s Q'.
Proof. unfold wp. auto. Qed.

Lemma wp_gets {S A} (f : S -> A) s Q : Q (Ok (f s)) s -> wp (gets f) s Q.
Proof. exact id. Qed.

Lemma wp_modify {S} (f : S -> S) s Q : Q (Ok tt) (f s) -> wp (modify f) s Q.
Proof. exact id. Qed.

Lemma wp_lift {S A} (r : Res A) (s : S) Q : Q r s -> wp (lift r) s Q.
Proof. exact id. Qed.

Lemma wp_notify cb ev w (Q : Res unit -> World -> Prop) :
  (cb ev = None -> Q (Ok tt) (with_notified ev w)) ->
  (forall e, cb ev = Some e -> Q (Throw e) (with_notified ev w)) ->
  wp (notify cb ev) w Q.
Proof.
  intros H1 H2. unfold wp, notify. simpl. destruct (cb ev); auto.
Qed.

Lemma wp_writeFileSync path data w (Q : Res unit -> World -> Prop) :
  Q (Ok tt) (with_files (fun fs => <[path := data]> fs) (S (writes w)) w) ->
  (forall e, Q (Throw e) (with_files (fun fs => fs) (S (writes w)) w)) ->
  wp (writeFileSync path data) w Q.
Proof.
  intros H1 H2. unfold wp, writeFileSync. destruct (disk w (writes w)); simpl; auto.
Qed.

Lemma wp_ensureContentDir topicSlug w (Q : Res string -> World -> Prop) :
  Q (Ok (path_join CONTENT_DIR topicSlug)) (disk_used w) ->
  (forall e, Q (Throw e) (disk_used w)) ->
  wp (ensureContentDir topicSlug) w Q.
Proof.
  intros H1 H2. unfold wp, ensureContentDir.
  destruct (disk w (writes w)); simpl; auto.
Qed.

(** *** The gate leaves the store alone *)

Lemma expand_loop_same_store kind minWords attempts : forall content n w,
  let r := expand_loop kind minWords attempts content n w in
  same_store w r.2 /\ notified r.2 = notified w
  /\ forall b c k, r.1 = Ok (b, (c, k)) -> n = countWords content ->
       k = countWords c.
Proof.
  induction attempts as [|a later IH]; intros content n w.
  - simpl. split; [apply same_store_refl|]. split; [reflexivity|].
    intros b c k [= _ <- <-]. auto.
  - rewrite expand_loop_cons.
    pose proof (expandContent_run content kind w) as (Hs & Hn & _).
    destruct (expandContent content kind w) as [[c1|e] w1]; simpl in *.
    2:{ split; [exact Hs|]. split; [exact Hn|]. intros; discriminate. }
    destruct (minWords <=? countWords c1); simpl.
    + split; [exact Hs|]. split; [exact Hn|]. intros b c k [= _ <- <-]. auto.
    + destruct (IH c1 (countWords c1) w1) as (Hs' & Hn' & Hk).
      split; [eapply same_store_trans; eassumption|]. split; [congruence|].
      intros b c k Hr _. eapply Hk; eauto.
Qed.

Lemma generate_in_band_same_store name options kind lo hi mr w :
  let r := generate_in_band name options kind lo hi mr w in
  same_store w r.2 /\ notified r.2 = notified w
  /\ forall c k, r.1 = Ok (c, k) -> k = countWords c.
Proof.
  destruct (callOpenAI_after name options w) as (Hs & Hn & _).
  destruct ((callOpenAI name options w).1) as [content|e] eqn:Hf.
  - destruct (Z.le_gt_cases lo (countWords content)) as [Hlo|Hlo].
    + rewrite (gate_long_enough _ _ _ _ _ _ _ _ Hf Hlo). simpl.
      split; [exact Hs|]. split; [exact Hn|]. intros c k [= <- <-]. reflexivity.
    + rewrite (gate_too_short _ _ _ _ _ _ _ _ Hf) by lia.
      pose proof (expand_loop_same_store kind lo (seqZ 1 mr) content
                    (countWords content) (callOpenAI name options w).2)
        as (Hs' & Hn' & Hk).
      destruct (expand_loop _ _ _ _ _ _) as [[[b [c k]]|e] w2]; simpl in *.
      * split; [eapply same_store_trans; eassumption|]. split; [congruence|].
        intros c' k' [= <- <-]. eapply Hk; eauto.
      * split; [eapply same_store_trans; eassumption|]. split; [congruence|].
        intros; discriminate.
  - rewrite (gate_first_throws _ _ _ _ _ _ _ _ Hf). simpl.
    split; [exact Hs|]. split; [exact Hn|]. intros; discriminate.
Qed.

Lemma wp_gate name options kind lo hi mr w
    (Q : Res (text * Z) -> World -> Prop) :
  (forall r w', same_store w w' -> notified w' = notified w ->
     (forall c k, r = Ok (c, k) -> k = countWords c) -> Q r w') ->
  wp (generate_in_band name options kind lo hi mr) w Q.
Proof.
  intros H. unfold wp.
  destruct (generate_in_band_same_store name options kind lo hi mr w)
    as (Hs & Hn & Hk).
  apply H; assumption.
Qed.

(** ** One lesson *)

Lemma tracked_init w id : tracked w id (fun x => x) w.
Proof.
  split; [reflexivity|]. split; [reflexivity|].
  split; [intros p Hp; exact Hp|]. split; [intros x; split; reflexivity|].
  symmetry. apply alter_id. auto.
Qed.

Lemma tracked_update w id G wk f :
  keeps_identity f ->
  tracked w id G wk ->
  tracked w id (fun x => f (G x)) (with_lessons (alter f id) wk).
Proof.
  intros Hf (Ht & Hn & Hk & Hi & Hl).
  split; [exact Ht|]. split; [exact Hn|]. split; [exact Hk|]. split.
  - intros x. destruct (Hf (G x)) as [-> ->]. apply Hi.
  - simpl. rewrite Hl. apply (alter_alter_eq f G).
Qed.

Lemma tracked_notified w id G wk ev :
  tracked w id G wk -> tracked w id G (with_notified ev wk).
Proof. intros H. exact H. Qed.

Lemma tracked_same_store w id G wk wk' :
  tracked w id G wk -> same_store wk wk' -> tracked w id G wk'.
Proof.
  intros (Ht & Hn & Hk & Hi & Hl) (Ht' & Hl' & Hf' & Hn' & _).
  repeat split; try congruence; try apply Hi.
  intros p Hp. rewrite Hf'. auto.
Qed.

Lemma tracked_written w id G wk path data n :
  tracked w id G wk ->
  tracked w id G (with_files (fun fs => <[path := data]> fs) n wk).
Proof.
  intros (Ht & Hn & Hk & Hi & Hl).
  split; [exact Ht|]. split; [exact Hn|]. split; [|split; [exact Hi|exact Hl]].
  intros p Hp. simpl. destruct (decide (path = p)) as [->|Hne].
  - rewrite lookup_insert_eq. eauto.
  - rewrite lookup_insert_ne by done. auto.
Qed.

Lemma tracked_not_written w id G wk n :
  tracked w id G wk -> tracked w id G (with_files (fun fs => fs) n wk).
Proof. intros H. exact H. Qed.

Lemma keeps_mark_generating : keeps_identity mark_generating.
Proof. intros x. split; reflexivity. Qed.

Lemma keeps_record_content p n : keeps_identity (record_content p n).
Proof. intros x. split; reflexivity. Qed.

Lemma keeps_record_podcast_completed p n :
  keeps_identity (record_podcast_completed p n).
Proof. intros x. split; reflexivity. Qed.

Lemma keeps_record_failure m n : keeps_identity (record_failure m n).
Proof. intros x. split; reflexivity. Qed.

Lemma string_app_inv_head (s a b : string) : s +:+ a = s +:+ b -> a = b.
Proof.
  induction s as [|c s IH]; simpl; [auto|]. intros [= H]. auto.
Qed.

Lemma lesson_paths_differ dir l :
  path_join dir (lessonFileName l) <> path_join dir (podcastFileName l).
Proof.
  unfold path_join, lessonFileName, podcastFileName. intros H.
  apply string_app_inv_head in H. apply string_app_inv_head in H.
  apply string_app_inv_head in H. apply string_app_inv_head in H.
  discriminate.
Qed.

Lemma generateSingleLesson_spec topic id l dir cb w :
  let run := generateSingleLesson topic (id, l) dir cb w in
  (forall e, run.1 = Throw e ->
     exists ev, is_lesson_error ev = true /\ cb ev = Some e)
  /\ exists F, tracked w id F run.2 /\ lesson_result topic l dir run.1 run.2 F.
Proof.
  set (Q := fun (r : Res bool) (w' : World) =>
    (forall e, r = Throw e ->
       exists ev, is_lesson_error ev = true /\ cb ev = Some e)
    /\ exists F, tracked w id F w' /\ lesson_result topic l dir r w' F).
  change (wp (generateSingleLesson topic (id, l) dir cb) w Q).
  (* the handler, from any state reached by the body *)
  assert (Hhandler : forall error G wk, tracked w id G wk ->
    wp (update_lesson id
          (record_failure (message (categorizeError error))
             (default 0 (retry_count l) + 1)) ;;
        notify cb (onLessonError (lesson_number l)
                     (if truthy (file_path l) then podcast_step
                      else content_step)
                     (message (categorizeError error))
                     (isRetryable (categorizeError error))) ;;
        ret false) wk Q).
  { intros error G wk Ht. apply wp_bind, wp_modify.
    apply (tracked_update _ _ _ _ _ (keeps_record_failure
             (message (categorizeError error))
             (default 0 (retry_count l) + 1))) in Ht.
    apply wp_bind, wp_notify.
    - intros _. apply wp_ret. split; [intros ? [=]|].
      eexists. split; [exact Ht|]. simpl. eexists. intros x. eexists. reflexivity.
    - intros e He. split.
      + intros ? [= <-]. eexists. split; [|exact He]. reflexivity.
      + eexists. split; [exact Ht|]. simpl. eexists. intros x. eexists.
        reflexivity. }
  unfold generateSingleLesson. cbn [fst snd].
  apply wp_try_catch.
  pose proof (tracked_init w id) as Ht.
  apply wp_bind, wp_modify.
  apply (tracked_update _ _ _ _ _ keeps_mark_generating) in Ht.
  apply wp_bind, wp_notify; [intros _|intros e _; eapply Hhandler, Ht].
  apply tracked_notified
    with (ev := onLessonStart (lesson_number l) (title l) content_step) in Ht.
  apply wp_bind, wp_gate. intros [[body n]|e] w1 Hs _ Hk;
    [|eapply Hhandler, tracked_same_store; eassumption].
  specialize (Hk _ _ eq_refl). subst n. cbn [fst snd].
  apply (fun H => tracked_same_store _ _ _ _ _ H Hs) in Ht. clear Hs.
  apply wp_bind, wp_writeFileSync;
    [|intros e; eapply Hhandler, tracked_not_written, Ht].
  set (w2 := with_files _ _ w1).
  assert (Hf1 : files w2 !! path_join dir (lessonFileName l) = Some body)
    by apply lookup_insert_eq.
  apply (tracked_written _ _ _ _ (path_join dir (lessonFileName l)) body
           (S (writes w1))) in Ht. fold w2 in Ht.
  clearbody w2. clear w1.
  apply wp_bind, wp_modify.
  apply (tracked_update _ _ _ _ _ (keeps_record_content
           (slug topic +:+ "/" +:+ lessonFileName l) (countWords body))) in Ht.
  apply wp_bind, wp_notify; [intros _|intros e _; eapply Hhandler, Ht].
  apply wp_bind, wp_notify; [intros _|intros e _; eapply Hhandler, Ht].
  apply wp_bind, wp_gate. intros [[script n]|e] w3 Hs _ Hk;
    [|eapply Hhandler, tracked_same_store; [exact Ht|exact Hs]].
  specialize (Hk _ _ eq_refl). subst n. cbn [fst snd].
  assert (Hf1' : files w3 !! path_join dir (lessonFileName l) = Some body).
  { destruct Hs as (_ & _ & -> & _). exact Hf1. }
  apply (fun H => tracked_same_store _ _ _ _ _ H Hs) in Ht. clear Hs Hf1.
  apply wp_bind, wp_writeFileSync;
    [|intros e; eapply Hhandler, tracked_not_written, Ht].
  set (w4 := with_files _ _ w3).
  assert (Hf2 : files w4 !! path_join dir (podcastFileName l) = Some script)
    by apply lookup_insert_eq.
  assert (Hf1 : files w4 !! path_join dir (lessonFileName l) = Some body).
  { unfold w4. simpl. rewrite lookup_insert_ne; [exact Hf1'|].
    apply not_eq_sym, lesson_paths_differ. }
  apply (tracked_written _ _ _ _ (path_join dir (podcastFileName l)) script
           (S (writes w3))) in Ht. fold w4 in Ht.
  clearbody w4. clear w3 Hf1'.
  apply wp_bind, wp_modify.
  apply (tracked_update _ _ _ _ _ (keeps_record_podcast_completed
           (slug topic +:+ "/" +:+ podcastFileName l) (countWords script))) in Ht.
  apply wp_bind, wp_notify; [intros _|intros e _; eapply Hhandler, Ht].
  apply wp_bind, wp_notify; [intros _|intros e _; eapply Hhandler, Ht].
  apply wp_ret. split; [intros ? [=]|].
  eexists. split; [exact Ht|]. simpl. exists body, script.
  split; [exact Hf1|]. split; [exact Hf2|]. intros x. reflexivity.
Qed.


(** ** A pass over several lessons *)

Lemma has_artifacts_kept w w' b :
  files_kept w w' -> has_artifacts w b -> has_artifacts w' b.
Proof.
  intros Hk (p & q & Hp & Hq & H1 & H2). exists p, q. auto.
Qed.

Lemma evolves_refl rows w : evolves rows w w.
Proof.
  split; [reflexivity|]. split; [intros p Hp; exact Hp|].
  intros j. destruct (lessons w !! j) as [a|]; [|reflexivity].
  exists a. split; [reflexivity|]. split; [reflexivity|]. split; [reflexivity|].
  left. reflexivity.
Qed.

Lemma row_evolves_mono w1 w2 rows1 rows2 j a b :
  files_kept w1 w2 -> rows1 ⊆ rows2 ->
  row_evolves w1 rows1 j a b -> row_evolves w2 rows2 j a b.
Proof.
  intros Hk Hsub (Ht & Hn & H). split; [exact Ht|]. split; [exact Hn|].
  destruct H as [->|((l & Hl & He) & Hr & Hs)]; [left; reflexivity|right].
  split; [exists l; auto|]. split.
  - destruct Hr as [Hr|(l' & Hl' & He' & Hr)]; [left; exact Hr|right].
    exists l'. auto.
  - destruct Hs as [Hs|[Hs Ha]]; [left; exact Hs|right].
    split; [exact Hs|]. eapply has_artifacts_kept; eassumption.
Qed.

Lemma row_evolves_trans w' rows j a b c :
  row_evolves w' rows j a b -> row_evolves w' rows j b c ->
  row_evolves w' rows j a c.
Proof.
  intros (Ht1 & Hn1 & H1) (Ht2 & Hn2 & H2).
  split; [congruence|]. split; [congruence|].
  destruct H2 as [->|(Hin2 & Hr2 & Hs2)]; [exact H1|].
  right. split; [exact Hin2|]. split; [|exact Hs2].
  destruct Hr2 as [Hr2|Hr2]; [|right; exact Hr2].
  destruct H1 as [->|(_ & Hr1 & _)]; [left; exact Hr2|].
  destruct Hr1 as [Hr1|Hr1]; [left; congruence|right].
  destruct Hr1 as (l & Hl & He & Hr1). exists l. split; [exact Hl|].
  split; [exact He|]. congruence.
Qed.

Lemma files_kept_trans w1 w2 w3 :
  files_kept w1 w2 -> files_kept w2 w3 -> files_kept w1 w3.
Proof. intros H1 H2 p Hp. auto. Qed.

Lemma evolves_trans rows1 rows2 rows w1 w2 w3 :
  rows1 ⊆ rows -> rows2 ⊆ rows ->
  evolves rows1 w1 w2 -> evolves rows2 w2 w3 -> evolves rows w1 w3.
Proof.
  intros Hs1 Hs2 (Hn1 & Hk1 & H1) (Hn2 & Hk2 & H2).
  split; [congruence|].
  split; [eapply files_kept_trans; eassumption|].
  intros j. specialize (H1 j). specialize (H2 j).
  destruct (lessons w1 !! j) as [a|].
  - destruct H1 as (b & Hb & Hab). rewrite Hb in H2.
    destruct H2 as (c & Hc & Hbc). exists c. split; [exact Hc|].
    eapply row_evolves_trans.
    + eapply row_evolves_mono; [exact Hk2|exact Hs1|exact Hab].
    + eapply row_evolves_mono; [intros p Hp; exact Hp|exact Hs2|exact Hbc].
  - rewrite H1 in H2. exact H2.
Qed.

Lemma string_app_assoc (a b c : string) : (a +:+ b) +:+ c = a +:+ (b +:+ c).
Proof.
  induction a as [|x a IH]; [reflexivity|].
  change (String x ((a +:+ b) +:+ c) = String x (a +:+ (b +:+ c))).
  rewrite IH. reflexivity.
Qed.

Lemma recorded_path topicSlug name :
  path_join CONTENT_DIR (topicSlug +:+ "/" +:+ name)
  = path_join (path_join CONTENT_DIR topicSlug) name.
Proof.
  unfold path_join. rewrite !string_app_assoc. reflexivity.
Qed.

(** One call of [generateSingleLesson] on an eligible row. *)
Lemma generateSingleLesson_evolves topic id l cb w :
  eligible l ->
  let run := generateSingleLesson topic (id, l)
               (path_join CONTENT_DIR (slug topic)) cb w in
  evolves [(id, l)] w run.2
  /\ (forall a, lessons w !! id = Some a ->
        exists b, lessons run.2 !! id = Some b
                  /\ (status b = completed \/ status b = failed))
  /\ (forall e, run.1 = Throw e ->
        exists ev, is_lesson_error ev = true /\ cb ev = Some e)
  /\ topics run.2 = topics w.
Proof.
  intros He run.
  destruct (generateSingleLesson_spec topic id l
              (path_join CONTENT_DIR (slug topic)) cb w)
    as (Hthrow & F & (Ht & Hn & Hk & Hi & Hl) & Hres).
  fold run in Hthrow, Ht, Hn, Hk, Hl, Hres.
  assert (Hrow : forall a, row_evolves run.2 [(id, l)] id a (F a)
                           /\ (status (F a) = completed \/ status (F a) = failed)).
  { intros a. destruct (Hi a) as [Hti Hni].
    destruct run.1 as [[|]|e].
    - destruct Hres as (body & script & Hf1 & Hf2 & HF).
      split; [|left; rewrite HF; reflexivity].
      split; [exact Hti|]. split; [exact Hni|]. right.
      split; [exists l; split; [apply list_elem_of_singleton; reflexivity|exact He]|].
      split; [left; rewrite HF; reflexivity|]. right.
      split; [rewrite HF; reflexivity|].
      exists (slug topic +:+ "/" +:+ lessonFileName l),
             (slug topic +:+ "/" +:+ podcastFileName l).
      rewrite HF. split; [reflexivity|]. split; [reflexivity|].
      rewrite !recorded_path, Hf1, Hf2. eauto.
    - destruct Hres as (msg & HF). destruct (HF a) as (y & Hy).
      split; [|right; rewrite Hy; reflexivity].
      split; [exact Hti|]. split; [exact Hni|]. right.
      split; [exists l; split; [apply list_elem_of_singleton; reflexivity|exact He]|].
      split; [|left; rewrite Hy; reflexivity].
      right. exists l. split; [apply list_elem_of_singleton; reflexivity|].
      split; [exact He|]. rewrite Hy. reflexivity.
    - destruct Hres as (msg & HF). destruct (HF a) as (y & Hy).
      split; [|right; rewrite Hy; reflexivity].
      split; [exact Hti|]. split; [exact Hni|]. right.
      split; [exists l; split; [apply list_elem_of_singleton; reflexivity|exact He]|].
      split; [|left; rewrite Hy; reflexivity].
      right. exists l. split; [apply list_elem_of_singleton; reflexivity|].
      split; [exact He|]. rewrite Hy. reflexivity. }
  split; [|split; [|split; [exact Hthrow|exact Ht]]].
  - split; [exact Hn|]. split; [exact Hk|].
    intros j. rewrite Hl. destruct (decide (id = j)) as [<-|Hne].
    + rewrite lookup_alter_eq. destruct (lessons w !! id) as [a|]; simpl; [|reflexivity].
      exists (F a). split; [reflexivity|]. apply Hrow.
    + rewrite lookup_alter_ne by done.
      destruct (lessons w !! j) as [a|]; [|reflexivity].
      exists a. split; [reflexivity|]. split; [reflexivity|].
      split; [reflexivity|]. left. reflexivity.
  - intros a Ha. rewrite Hl, lookup_alter_eq, Ha. simpl.
    exists (F a). split; [reflexivity|]. apply Hrow.
Qed.

Lemma evolves_subset rows1 rows2 w w' :
  rows1 ⊆ rows2 -> evolves rows1 w w' -> evolves rows2 w w'.
Proof.
  intros Hsub H. eapply evolves_trans; [exact Hsub|reflexivity|exact H|].
  apply evolves_refl.
Qed.

Lemma evolves_step rows id l later w1 w2 w3 :
  rows = (id, l) :: later ->
  evolves [(id, l)] w1 w2 -> evolves later w2 w3 -> evolves rows w1 w3.
Proof.
  intros -> H1 H2. eapply evolves_trans; [| |exact H1|exact H2].
  - intros x Hx. apply list_elem_of_singleton in Hx as ->. left.
  - intros x Hx. right. exact Hx.
Qed.

Lemma is_lesson_error_uncaught ev : is_lesson_error ev = true -> uncaught ev = true.
Proof. destruct ev; simpl; auto. Qed.

Lemma row_evolves_settled w' rows j a b :
  settled a -> row_evolves w' rows j a b -> settled b.
Proof.
  intros Ha (_ & _ & [->|(_ & _ & Hs)]); [exact Ha|].
  destruct Hs as [Hs|[Hs _]]; [right|left]; exact Hs.
Qed.

Lemma all_settled_step id l later w1 w2 w3 :
  evolves [(id, l)] w1 w2 ->
  (forall a, lessons w1 !! id = Some a ->
     exists b, lessons w2 !! id = Some b /\ settled b) ->
  evolves later w2 w3 -> all_settled later w2 w3 ->
  all_settled ((id, l) :: later) w1 w3.
Proof.
  intros H12 Hid H23 Hlater j l' a Hin He Ha.
  destruct (decide (j = id)) as [->|Hne].
  - destruct (Hid a Ha) as (b & Hb & Hsb).
    destruct H23 as (_ & _ & H23). specialize (H23 id). rewrite Hb in H23.
    destruct H23 as (c & Hc & Hbc). exists c. split; [exact Hc|].
    eapply row_evolves_settled; eassumption.
  - apply elem_of_cons in Hin as [[= ? ?]|Hin]; [congruence|].
    destruct H12 as (_ & _ & H12). specialize (H12 j). rewrite Ha in H12.
    destruct H12 as (b & Hb & _).
    exact (Hlater j l' b Hin He Hb).
Qed.

Lemma evolves_same rows w w' :
  next_lesson_id w' = next_lesson_id w ->
  files w' = files w -> lessons w' = lessons w -> evolves rows w w'.
Proof.
  intros Hn Hf Hl. split; [exact Hn|].
  split; [intros p Hp; rewrite Hf; exact Hp|].
  intros j. rewrite Hl. destruct (lessons w !! j) as [a|]; [|reflexivity].
  exists a. split; [reflexivity|]. split; [reflexivity|]. split; [reflexivity|].
  left. reflexivity.
Qed.

Section AllContent.
Context (topic : Topic) (total : Z) (cb : Callbacks).

Lemma generateAll_loop_cons id l later fc w :
  let dir := path_join CONTENT_DIR (slug topic) in
  let ev := onProgress (lesson_number l) content_step total in
  generateAll_loop topic total dir cb ((id, l) :: later) fc w =
    if bool_decide (status l = completed)
    then generateAll_loop topic total dir cb later fc w
    else if MAX_LESSON_RETRIES <=? default 0 (retry_count l)
    then generateAll_loop topic total dir cb later (fc + 1) w
    else
      let w0 := with_notified ev w in
      match cb ev with
      | Some e => (Throw e, w0)
      | None =>
          match generateSingleLesson topic (id, l) dir cb w0 with
          | (Ok success, w1) =>
              generateAll_loop topic total dir cb later
                (if success then fc else fc + 1) w1
          | (Throw e, w1) => (Throw e, w1)
          end
      end.
Proof.
  cbv zeta. cbn [generateAll_loop snd].
  destruct (bool_decide (status l = completed)); [reflexivity|].
  destruct (MAX_LESSON_RETRIES <=? default 0 (retry_count l)); [reflexivity|].
  unfold bind at 1. unfold notify at 1.
  destruct (cb (onProgress (lesson_number l) content_step total));
    [reflexivity|].
  unfold bind at 1.
  destruct (generateSingleLesson topic (id, l) _ cb _) as [[success|e] w1];
    reflexivity.
Qed.

Lemma generateAll_loop_spec rows : forall fc w,
  let run :=
    generateAll_loop topic total (path_join CONTENT_DIR (slug topic)) cb rows
      fc w in
  evolves rows w run.2
  /\ topics run.2 = topics w
  /\ (forall fc', run.1 = Ok fc' -> all_settled rows w run.2)
  /\ (forall e, run.1 = Throw e ->
        exists ev, uncaught ev = true /\ cb ev = Some e).
Proof.
  induction rows as [|[id l] later IH]; intros fc w.
  - simpl. split; [apply evolves_refl|]. split; [reflexivity|].
    split; [|intros ? [=]].
    intros fc' _ j l a Hin. apply elem_of_nil in Hin. destruct Hin.
  - rewrite generateAll_loop_cons.
    destruct (bool_decide (status l = completed)) eqn:Hdone.
    { apply bool_decide_eq_true in Hdone.
      destruct (IH fc w) as (Hev & Htop & Hset & Hthrow).
      split; [eapply evolves_subset; [|exact Hev]; intros x Hx; right; exact Hx|].
      split; [exact Htop|].
      split; [|exact Hthrow]. intros fc' Hr j l' a Hin He Ha.
      apply elem_of_cons in Hin as [[= -> ->]|Hin].
      - destruct He as [He _]. contradiction.
      - exact (Hset fc' Hr j l' a Hin He Ha). }
    destruct (MAX_LESSON_RETRIES <=? default 0 (retry_count l)) eqn:Hmax.
    { apply Z.leb_le in Hmax.
      destruct (IH (fc + 1) w) as (Hev & Htop & Hset & Hthrow).
      split; [eapply evolves_subset; [|exact Hev]; intros x Hx; right; exact Hx|].
      split; [exact Htop|].
      split; [|exact Hthrow]. intros fc' Hr j l' a Hin He Ha.
      apply elem_of_cons in Hin as [[= -> ->]|Hin].
      - destruct He as [_ He]. lia.
      - exact (Hset fc' Hr j l' a Hin He Ha). }
    apply bool_decide_eq_false in Hdone. apply Z.leb_gt in Hmax.
    assert (He : eligible l) by (split; assumption).
    cbv zeta.
    set (w0 := with_notified _ w).
    assert (H0 : evolves ((id, l) :: later) w w0)
      by (apply evolves_same; reflexivity).
    destruct (cb (onProgress (lesson_number l) content_step total))
      as [e|] eqn:Hcb.
    { cbn [fst snd]. split; [exact H0|]. split; [reflexivity|].
      split; [intros ? [=]|].
      intros ? [= <-]. eexists. split; [|exact Hcb]. reflexivity. }
    destruct (generateSingleLesson_evolves topic id l cb w0 He)
      as (H1 & Hid & Hthrow1 & Htop1).
    destruct (generateSingleLesson topic (id, l) _ cb w0)
      as [[success|e] w1]; cbn [fst snd] in *.
    2:{ split; [eapply evolves_trans; [| |exact H0|];
                [reflexivity|reflexivity|];
                eapply evolves_subset; [|exact H1];
                intros x Hx; apply list_elem_of_singleton in Hx as ->; left|].
        split; [exact Htop1|].
        split; [intros ? [=]|]. intros ? [= <-].
        destruct (Hthrow1 _ eq_refl) as (ev & Hev & Hc).
        exists ev. split; [apply is_lesson_error_uncaught, Hev|exact Hc]. }
    destruct (IH (if success then fc else fc + 1) w1)
      as (H2 & Htop2 & Hset & Hthrow).
    split; [eapply evolves_trans; [| |exact H0|];
            [reflexivity|reflexivity|];
            eapply evolves_step; [reflexivity|exact H1|exact H2]|].
    split; [rewrite Htop2, Htop1; reflexivity|].
    split; [|exact Hthrow].
    intros fc' Hr. eapply all_settled_step; [exact H1|exact Hid|exact H2|].
    exact (Hset fc' Hr).
Qed.

End AllContent.


(** ** The queries *)

Lemma elem_of_select_lessons tid w j l :
  (j, l) ∈ select_lessons tid w <-> lessons w !! j = Some l /\ topic_id l = tid.
Proof.
  unfold select_lessons. rewrite merge_sort_Permutation.
  rewrite list_elem_of_filter, elem_of_map_to_list. simpl. tauto.
Qed.

Lemma elem_of_select_retryable tid w j l :
  (j, l) ∈ select_retryable tid w <->
  lessons w !! j = Some l /\ retryable_row tid MAX_LESSON_RETRIES (j, l).
Proof.
  unfold select_retryable. rewrite merge_sort_Permutation.
  rewrite list_elem_of_filter, elem_of_map_to_list. simpl. tauto.
Qed.

Lemma retryable_row_eligible tid j l :
  retryable_row tid MAX_LESSON_RETRIES (j, l) -> eligible l.
Proof.
  intros (_ & Hs & Hr). simpl in *. split.
  - destruct Hs as [-> | ->]; discriminate.
  - destruct (retry_count l); simpl; [exact Hr|]. unfold MAX_LESSON_RETRIES. lia.
Qed.

Lemma select_lessons_same tid w w' :
  lessons w' = lessons w -> select_lessons tid w' = select_lessons tid w.
Proof. unfold select_lessons. intros ->. reflexivity. Qed.

(** ** [generateAllContent] *)

Lemma wp_generateAll_loop topic total cb rows fc w
    (Q : Res Z -> World -> Prop) :
  (forall r w', evolves rows w w' -> topics w' = topics w ->
     (forall fc', r = Ok fc' -> all_settled rows w w') ->
     (forall e, r = Throw e -> exists ev, uncaught ev = true /\ cb ev = Some e) ->
     Q r w') ->
  wp (generateAll_loop topic total (path_join CONTENT_DIR (slug topic)) cb
        rows fc) w Q.
Proof.
  intros H. destruct (generateAll_loop_spec topic total cb rows fc w)
    as (H1 & H2 & H3 & H4).
  apply H; assumption.
Qed.

Lemma generateAllContent_spec tid cb w :
  wp (generateAllContent tid cb) w
    (fun r w' =>
       match topics w !! tid with
       | None => r = Throw not_found /\ w' = w
       | Some topic =>
           let rows := select_lessons tid w in
           if bool_decide (rows = []) then r = Throw no_lessons /\ w' = w
           else match disk w (writes w) with
                | Some e => r = Throw e /\ w' = disk_used w
                | None => pass_outcome tid cb rows w r w'
                end
       end).
Proof.
  unfold generateAllContent. apply wp_bind, wp_gets.
  destruct (topics w !! tid) as [topic|] eqn:Htopic;
    [|apply wp_throw; split; reflexivity].
  apply wp_bind, wp_gets. cbv zeta.
  destruct (bool_decide (select_lessons tid w = []));
    [apply wp_throw; split; reflexivity|].
  apply wp_bind.
  destruct (disk w (writes w)) as [e|] eqn:Hdisk;
    unfold wp at 1, ensureContentDir; rewrite Hdisk; cbn [fst snd];
    [split; reflexivity|].
  (* the pass starts from the store with the disk used once *)
  change (select_lessons tid w) with (select_lessons tid (disk_used w)).
  change (pass_outcome tid cb (select_lessons tid (disk_used w)) w)
    with (pass_outcome tid cb (select_lessons tid (disk_used w))
            (disk_used w)).
  change (topics w) with (topics (disk_used w)) in Htopic.
  clear Hdisk. generalize dependent (disk_used w). clear w. intros w Htopic.
  set (rows := select_lessons tid w) in *.
  set (total := Z.of_nat (length rows)) in *.
  (* the handler *)
  assert (Hhandler : forall e0 ev wk w2,
    uncaught ev = true -> cb ev = Some e0 -> evolves rows w w2 ->
    files wk = files w2 -> next_lesson_id wk = next_lesson_id w2 ->
    lessons wk = lessons w2 ->
    (exists f, topics wk = alter f tid (topics w)) ->
    wp (update_topic tid
           (set_topic_status failed (Some (message (categorizeError e0)))) ;;
         modify (with_lessons
                   (fmap (fail_if_generating tid (message (categorizeError e0))))) ;;
         notify cb (onGenerationError (message (categorizeError e0))
                      (isRetryable (categorizeError e0))) ;;
         throw e0) wk (pass_outcome tid cb rows w)).
  { intros e0 ev wk w2 Hev Hcb Hevol Hf Hn Hl (f & Htop).
    apply wp_bind, wp_modify, wp_bind, wp_modify.
    assert (Ht' : alter (set_topic_status failed
                           (Some (message (categorizeError e0)))) tid (topics wk)
                    !! tid
                  = Some (set_topic_status failed
                            (Some (message (categorizeError e0))) (f topic))).
    { rewrite lookup_alter_eq, Htop, lookup_alter_eq, Htopic. reflexivity. }
    apply wp_bind, wp_notify.
    - intros _. apply wp_throw. exists w2. split; [exact Hevol|].
      split; [exact Hf|]. split; [exact Hn|]. right.
      exists e0, e0, ev. eexists. split; [reflexivity|].
      split; [exact Hev|]. split; [exact Hcb|].
      split; [simpl; rewrite Hl; reflexivity|].
      split; [exact Ht'|]. split; reflexivity.
    - intros e He. exists w2. split; [exact Hevol|].
      split; [exact Hf|]. split; [exact Hn|]. right.
      exists e, e0, (onGenerationError (message (categorizeError e0))
                       (isRetryable (categorizeError e0))).
      eexists. split; [reflexivity|].
      split; [reflexivity|]. split; [exact He|].
      split; [simpl; rewrite Hl; reflexivity|].
      split; [exact Ht'|]. split; reflexivity. }
  apply wp_try_catch, wp_bind, wp_generateAll_loop.
  intros [fc|e] w2 Hevol Htop Hset Hthrow.
  2:{ destruct (Hthrow e eq_refl) as (ev & Hev & Hcb).
      eapply (Hhandler e ev w2 w2); try reflexivity; try assumption.
      exists (fun x => x). rewrite Htop. symmetry. apply alter_id. auto. }
  specialize (Hset fc eq_refl).
  apply wp_bind, wp_gets.
  set (final := select_lessons tid w2).
  destruct (bool_decide (count_status completed final = Z.of_nat (length final)))
    eqn:Hall.
  - apply wp_bind, wp_modify, wp_notify.
    + intros _. exists w2. split; [exact Hevol|]. split; [reflexivity|].
      split; [reflexivity|]. left. split; [reflexivity|]. split; [exact Hset|].
      split; [reflexivity|]. exists fc. unfold verdict. fold final.
      rewrite Hall. simpl. rewrite Htop. reflexivity.
    + intros e He.
      eapply (Hhandler e _ _ w2) with (2 := He);
        [reflexivity|exact Hevol|reflexivity|reflexivity|reflexivity|].
      eexists. simpl. rewrite Htop. reflexivity.
  - apply wp_bind, wp_modify, wp_notify.
    + intros _. exists w2. split; [exact Hevol|]. split; [reflexivity|].
      split; [reflexivity|]. left. split; [reflexivity|]. split; [exact Hset|].
      split; [reflexivity|]. exists fc. unfold verdict. fold final.
      rewrite Hall. simpl. rewrite Htop. reflexivity.
    + intros e He.
      eapply (Hhandler e _ _ w2) with (2 := He);
        [reflexivity|exact Hevol|reflexivity|reflexivity|reflexivity|].
      eexists. simpl. rewrite Htop. reflexivity.
Qed.

(** ** [retryFailedLessons] *)

Lemma retry_loop_cons topic cb id l later s f w :
  retry_loop topic (path_join CONTENT_DIR (slug topic)) cb ((id, l) :: later)
    s f w =
    match generateSingleLesson topic (id, l)
            (path_join CONTENT_DIR (slug topic)) cb w with
    | (Ok true, w1) =>
        retry_loop topic (path_join CONTENT_DIR (slug topic)) cb later
          (s + 1) f w1
    | (Ok false, w1) =>
        retry_loop topic (path_join CONTENT_DIR (slug topic)) cb later
          s (f + 1) w1
    | (Throw e, w1) => (Throw e, w1)
    end.
Proof.
  cbn [retry_loop]. unfold bind at 1.
  destruct (generateSingleLesson _ _ _ _ _) as [[[|]|e] w1]; reflexivity.
Qed.

Lemma retry_loop_spec topic cb rows :
  (forall j l, (j, l) ∈ rows -> eligible l) ->
  forall s f w,
  let run := retry_loop topic (path_join CONTENT_DIR (slug topic)) cb rows
               s f w in
  evolves rows w run.2
  /\ topics run.2 = topics w
  /\ (forall x, run.1 = Ok x -> all_settled rows w run.2)
  /\ (forall e, run.1 = Throw e ->
        exists ev, uncaught ev = true /\ cb ev = Some e).
Proof.
  induction rows as [|[id l] later IH]; intros Hel s f w.
  - simpl. split; [apply evolves_refl|]. split; [reflexivity|].
    split; [|intros ? [=]].
    intros x _ j l a Hin. apply elem_of_nil in Hin. destruct Hin.
  - rewrite retry_loop_cons.
    assert (He : eligible l) by (apply (Hel id); left).
    assert (Hel' : forall j l', (j, l') ∈ later -> eligible l')
      by (intros j l' Hin; apply (Hel j); right; exact Hin).
    destruct (generateSingleLesson_evolves topic id l cb w He)
      as (H1 & Hid & Hthrow1 & Htop1).
    destruct (generateSingleLesson topic (id, l) _ cb w) as [[success|e] w1];
      cbn [fst snd] in *.
    2:{ split; [eapply evolves_subset; [|exact H1];
                intros x Hx; apply list_elem_of_singleton in Hx as ->; left|].
        split; [exact Htop1|].
        split; [intros ? [=]|]. intros ? [= <-].
        destruct (Hthrow1 _ eq_refl) as (ev & Hev & Hc).
        exists ev. split; [apply is_lesson_error_uncaught, Hev|exact Hc]. }
    assert (Hboth : forall s' f',
      let run := retry_loop topic (path_join CONTENT_DIR (slug topic)) cb later
                   s' f' w1 in
      evolves ((id, l) :: later) w run.2
      /\ topics run.2 = topics w
      /\ (forall x, run.1 = Ok x -> all_settled ((id, l) :: later) w run.2)
      /\ (forall e, run.1 = Throw e ->
            exists ev, uncaught ev = true /\ cb ev = Some e)).
    { intros s' f'. destruct (IH Hel' s' f' w1) as (H2 & Htop2 & Hset & Hthrow).
      split; [eapply evolves_step; [reflexivity|exact H1|exact H2]|].
      split; [congruence|]. split; [|exact Hthrow].
      intros x Hr. eapply all_settled_step; [exact H1|exact Hid|exact H2|].
      exact (Hset x Hr). }
    destruct success; apply Hboth.
Qed.

Lemma retryFailedLessons_spec tid cb w :
  wp (retryFailedLessons tid cb) w
    (fun r w' =>
       match topics w !! tid with
       | None => r = Throw not_found /\ w' = w
       | Some topic =>
           let rows := select_retryable tid w in
           if bool_decide (rows = [])
           then r = Ok {| retried := 0; succeeded := 0; failed_again := 0 |}
                /\ w' = w
           else match disk w (writes w) with
                | Some e =>
                    r = Throw e
                    /\ w' = disk_used
                              (with_topics
                                 (alter (set_topic_status generating None)
                                    tid) w)
                | None => retry_outcome tid cb rows w r w'
                end
       end).
Proof.
  unfold retryFailedLessons. apply wp_bind, wp_gets.
  destruct (topics w !! tid) as [topic|] eqn:Htopic;
    [|apply wp_throw; split; reflexivity].
  apply wp_bind, wp_gets. cbv zeta.
  destruct (bool_decide (select_retryable tid w = []));
    [apply wp_ret; split; reflexivity|].
  set (rows := select_retryable tid w) in *.
  assert (Hel : forall j l, (j, l) ∈ rows -> eligible l).
  { intros j l Hin. apply elem_of_select_retryable in Hin as [_ Hr].
    eapply retryable_row_eligible, Hr. }
  apply wp_bind, wp_modify, wp_bind.
  destruct (disk w (writes w)) as [e|] eqn:Hdisk;
    unfold wp at 1, ensureContentDir; cbn [disk writes with_topics];
    rewrite Hdisk; cbn [fst snd]; [split; reflexivity|].
  set (w0 := disk_used _).
  apply wp_bind. unfold wp at 1.
  destruct (retry_loop_spec topic cb rows Hel 0 0 w0)
    as (H1 & Htop & Hset & Hthrow).
  destruct (retry_loop topic _ cb rows 0 0 w0) as [[counts|e] w1];
    cbn [fst snd] in *.
  2:{ split; [exact H1|]. right. destruct (Hthrow e eq_refl) as (ev & Hev & Hc).
      exists e, ev. auto. }
  specialize (Hset counts eq_refl).
  apply wp_bind, wp_gets.
  set (final := select_lessons tid w1).
  assert (Htopics : forall st err,
    alter (set_topic_status st err) tid (topics w1)
    = alter (set_topic_status st err) tid (topics w)).
  { intros st err. rewrite Htop. unfold w0. simpl.
    rewrite alter_alter_eq. apply alter_ext. intros x _. reflexivity. }
  destruct (bool_decide (count_status completed final = Z.of_nat (length final)))
    eqn:Hall.
  - apply wp_bind, wp_bind, wp_modify, wp_notify.
    + intros _. apply wp_ret. split; [exact H1|]. left. eexists.
      split; [reflexivity|]. split; [exact Hset|].
      rewrite (select_lessons_same tid w1 _) by reflexivity. fold final.
      unfold retry_verdict. rewrite Hall. apply Htopics.
    + intros e He. split; [exact H1|]. right. exists e. eexists.
      split; [reflexivity|]. split; [|exact He]. reflexivity.
  - apply wp_bind, wp_bind, wp_modify, wp_notify.
    + intros _. apply wp_ret. split; [exact H1|]. left. eexists.
      split; [reflexivity|]. split; [exact Hset|].
      rewrite (select_lessons_same tid w1 _) by reflexivity. fold final.
      unfold retry_verdict. rewrite Hall. apply Htopics.
    + intros e He. split; [exact H1|]. right. exists e. eexists.
      split; [reflexivity|]. split; [|exact He]. reflexivity.
Qed.


(** ** Breakdown *)

Lemma rows_added_refl w : rows_added w w.
Proof. split; [reflexivity|]. intros j b H. left. exact H. Qed.

Lemma rows_added_trans w1 w2 w3 :
  rows_added w1 w2 -> rows_added w2 w3 -> rows_added w1 w3.
Proof.
  intros (Hf1 & H1) (Hf2 & H2). split; [congruence|].
  intros j b Hb. destruct (H2 j b Hb) as [Hb2|Hnew]; [|right; exact Hnew].
  exact (H1 j b Hb2).
Qed.

Lemma rows_added_same w w' :
  files w' = files w -> lessons w' = lessons w -> rows_added w w'.
Proof. intros Hf Hl. split; [exact Hf|]. intros j b. rewrite Hl. auto. Qed.

Lemma insert_lessons_cons tid entry later w :
  insert_lessons tid (entry :: later) w
  = match bound_entry entry with
    | Ok x =>
        insert_lessons tid later
          (with_next_lesson_id (next_lesson_id w + 1)
             (with_lessons (insert (next_lesson_id w) (pending_row tid x)) w))
    | Throw e => (Throw e, w)
    end.
Proof.
  cbn [insert_lessons]. unfold bound_entry, bind, lift.
  destruct (js_get entry "number") as [n|e]; [|reflexivity].
  destruct (js_get entry "title") as [t|e]; [|reflexivity].
  destruct (js_get entry "description") as [d|e]; [|reflexivity].
  destruct (bind_integer n) as [[n'|]|e]; destruct (bind_text t) as [[t'|]|e'];
    destruct (bind_text d) as [d'|e'']; reflexivity.
Qed.

Lemma insert_lessons_added tid entries : forall w,
  rows_added w (insert_lessons tid entries w).2.
Proof.
  induction entries as [|entry later IH]; intros w.
  - apply rows_added_refl.
  - rewrite insert_lessons_cons.
    destruct (bound_entry entry) as [x|e]; [|apply rows_added_refl].
    eapply rows_added_trans; [|apply IH].
    split; [reflexivity|]. intros j b. simpl.
    destruct (decide (next_lesson_id w = j)) as [<-|Hne].
    + rewrite lookup_insert_eq. intros [= <-]. right. split; reflexivity.
    + rewrite lookup_insert_ne by done. auto.
Qed.

Lemma breakdownTopic_added JSON_parse tid cb w :
  rows_added w (breakdownTopic JSON_parse tid cb w).2.
Proof.
  change (wp (breakdownTopic JSON_parse tid cb) w (fun _ w' => rows_added w w')).
  unfold breakdownTopic. apply wp_bind, wp_gets.
  destruct (topics w !! tid) as [topic|]; [|apply wp_throw, rows_added_refl].
  apply wp_bind, wp_gets.
  destruct (negb (isApiKeyConfigured w)); [apply wp_throw, rows_added_refl|].
  apply wp_bind, wp_modify.
  apply wp_bind, wp_notify;
    [intros _|intros e _; apply rows_added_same; reflexivity].
  assert (Hhandler : forall error wk, rows_added w wk ->
    wp (update_topic tid
          (set_topic_status failed (Some (message (categorizeError error)))) ;;
        notify cb (onGenerationError (message (categorizeError error))
                     (isRetryable (categorizeError error))) ;;
        throw error) wk (fun (_ : Res JsValue) w' => rows_added w w')).
  { intros error wk Hwk. apply wp_bind, wp_modify, wp_bind, wp_notify.
    - intros _. apply wp_throw. exact Hwk.
    - intros e _. exact Hwk. }
  apply wp_try_catch, wp_bind. unfold wp at 1.
  set (w0 := with_notified _ _).
  destruct (callOpenAI_after "topic_breakdown"
              {| maxTokens := None; jsonResponse := Some true;
                 maxRetries := None; timeout := None; onRetry := None |} w0)
    as ((Ht & Hl & Hf & _) & _ & _).
  destruct (callOpenAI _ _ w0) as [[response|e] w1]; cbn [fst snd] in *.
  2:{ apply Hhandler. apply rows_added_same; assumption. }
  assert (H1 : rows_added w w1) by (apply rows_added_same; assumption).
  apply wp_bind, wp_lift.
  destruct (parseJsonResponse JSON_parse response) as [breakdown|e];
    [|apply Hhandler, H1].
  apply wp_bind, wp_lift.
  destruct (js_get breakdown "lessons") as [field|e]; [|apply Hhandler, H1].
  destruct field as [[| | | |entries|]|];
    try (apply wp_throw, Hhandler, H1).
  apply wp_bind, wp_lift.
  destruct (match js_get breakdown "topic_description" with Ok v => bind_text v
            | Throw e => Throw e end) as [descr|e]; [|apply Hhandler, H1].
  apply wp_bind, wp_modify, wp_bind. unfold wp at 1.
  set (w2 := with_topics _ w1).
  pose proof (insert_lessons_added tid entries w2) as H2.
  assert (H12 : rows_added w w2) by exact H1.
  destruct (insert_lessons tid entries w2) as [[[]|e] w3]; cbn [fst snd] in *.
  2:{ apply Hhandler. eapply rows_added_trans; eassumption. }
  assert (H3 : rows_added w w3) by (eapply rows_added_trans; eassumption).
  apply wp_bind, wp_notify.
  - intros _. apply wp_ret. exact H3.
  - intros e _. apply Hhandler. exact H3.
Qed.

Lemma breakdown_rejected JSON_parse tid cb w topic response breakdown :
  topics w !! tid = Some topic ->
  isApiKeyConfigured w = true ->
  cb onBreakdownStart = None ->
  let w0 := with_notified onBreakdownStart
              (with_topics (alter (set_topic_status generating None) tid) w) in
  (callOpenAI "topic_breakdown" breakdown_options w0).1 = Ok response ->
  parseJsonResponse JSON_parse response = Ok breakdown ->
  ~ has_lessons_array breakdown ->
  let run := breakdownTopic JSON_parse tid cb w in
  (exists e, run.1 = Throw e)
  /\ lessons run.2 = lessons w
  /\ next_lesson_id run.2 = next_lesson_id w
  /\ exists t', topics run.2 !! tid = Some t'
       /\ topic_status t' = failed
       /\ topic_last_error t' = Some (rejection_message breakdown).
Proof.
  intros Htopic Hkey Hcb w0 Hcall Hparse Hno run.
  set (Q := fun (r : Res JsValue) (w' : World) =>
    (exists e, r = Throw e)
    /\ lessons w' = lessons w
    /\ next_lesson_id w' = next_lesson_id w
    /\ exists t', topics w' !! tid = Some t'
         /\ topic_status t' = failed
         /\ topic_last_error t' = Some (rejection_message breakdown)).
  change (wp (breakdownTopic JSON_parse tid cb) w Q).
  unfold breakdownTopic. apply wp_bind, wp_gets. rewrite Htopic.
  apply wp_bind, wp_gets. rewrite Hkey. cbn [negb].
  apply wp_bind, wp_modify, wp_bind, wp_notify; [intros _|congruence].
  fold w0. fold breakdown_options.
  apply wp_try_catch, wp_bind. unfold wp at 1.
  destruct (callOpenAI_after "topic_breakdown" breakdown_options w0)
    as ((Ht & Hl & Hf & Hn & _) & _ & _).
  destruct (callOpenAI "topic_breakdown" breakdown_options w0)
    as [[r|e] w1]; cbn [fst snd] in *; [|discriminate].
  injection Hcall as ->.
  apply wp_bind, wp_lift. rewrite Hparse.
  apply wp_bind, wp_lift.
  assert (Hlookup : forall f,
    alter f tid (topics w1) !! tid
    = Some (f (set_topic_status generating None topic))).
  { intros f. rewrite lookup_alter_eq, Ht. unfold w0. simpl.
    rewrite lookup_alter_eq, Htopic. reflexivity. }
  assert (Hend : forall error,
    message (categorizeError error) = rejection_message breakdown ->
    wp (update_topic tid
          (set_topic_status failed (Some (message (categorizeError error)))) ;;
        notify cb (onGenerationError (message (categorizeError error))
                     (isRetryable (categorizeError error))) ;;
        throw error) w1 Q).
  { intros error Hmsg. apply wp_bind, wp_modify, wp_bind, wp_notify.
    - intros _. apply wp_throw. split; [eexists; reflexivity|].
      split; [exact Hl|]. split; [exact Hn|]. eexists.
      split; [apply Hlookup|]. rewrite Hmsg. split; reflexivity.
    - intros e' _. split; [eexists; reflexivity|].
      split; [exact Hl|]. split; [exact Hn|]. eexists.
      split; [apply Hlookup|]. rewrite Hmsg. split; reflexivity. }
  unfold rejection_message in Hend.
  destruct (js_get breakdown "lessons") as [field|e] eqn:Hget.
  - destruct field as [[| | | |entries|]|];
      try (apply wp_throw, Hend; reflexivity).
    exfalso. apply Hno. exists entries. exact Hget.
  - apply Hend. reflexivity.
Qed.

(** *** The fence *)

Lemma split_at_first_tail p c t :
  split_at_first p (c :: t) = None -> split_at_first p t = None.
Proof.
  cbn [split_at_first]. destruct (starts_with p (c :: t)); [discriminate|].
  destruct (split_at_first p t) as [[? ?]|]; [discriminate|reflexivity].
Qed.

Lemma no_fence_head c t : no_fence (c :: t) -> starts_with fence (c :: t) = false.
Proof.
  unfold no_fence. cbn [split_at_first].
  destruct (starts_with fence (c :: t)); [discriminate|reflexivity].
Qed.

Lemma no_fence_trimStart s : no_fence s -> no_fence (trimStart s).
Proof.
  induction s as [|c s IH]; intros H; simpl; [exact H|].
  destruct (is_space c); [|exact H].
  apply IH. eapply split_at_first_tail, H.
Qed.

(** A text that precedes the closing line is exactly what the lazy group
    captures. *)
Lemma split_at_closing x :
  no_fence x ->
  split_at_first fence (x ++ [10%N] ++ fence) = Some (x ++ [10%N], []).
Proof.
  induction x as [|c x IH]; intros Hx; [reflexivity|].
  pose proof (no_fence_head _ _ Hx) as Hh.
  assert (Hs : starts_with fence ((c :: x) ++ [10%N] ++ fence) = false).
  { destruct x as [|c2 [|c3 x]]; simpl in *.
    - rewrite andb_false_r. reflexivity.
    - rewrite !andb_false_r. reflexivity.
    - exact Hh. }
  change (split_at_first fence ((c :: x) ++ [10%N] ++ fence))
    with (if starts_with fence ((c :: x) ++ [10%N] ++ fence)
          then Some ([], drop (length fence) ((c :: x) ++ [10%N] ++ fence))
          else match split_at_first fence (x ++ [10%N] ++ fence) with
               | Some (before, after) => Some (c :: before, after)
               | None => None
               end).
  rewrite Hs, IH; [reflexivity|].
  eapply split_at_first_tail, Hx.
Qed.

Lemma trimStart_app_fence s :
  trimStart (s ++ [10%N] ++ fence) = trimStart (s ++ [10%N]) ++ fence.
Proof.
  induction s as [|c s IH]; [reflexivity|].
  simpl. destruct (is_space c); [exact IH|].
  simpl. rewrite <- app_assoc. reflexivity.
Qed.

Lemma trimStart_snoc_newline s :
  trimStart (s ++ [10%N]) = [] /\ trimStart s = []
  \/ trimStart (s ++ [10%N]) = trimStart s ++ [10%N] /\ trimStart s <> [].
Proof.
  induction s as [|c s IH]; [left; split; reflexivity|].
  simpl. destruct (is_space c); [exact IH|right]. split; [reflexivity|discriminate].
Qed.

Lemma trimStart_idem s : trimStart (trimStart s) = trimStart s.
Proof.
  induction s as [|c s IH]; [reflexivity|].
  simpl. destruct (is_space c) eqn:E; [exact IH|]. simpl. rewrite E. reflexivity.
Qed.

Lemma trimEnd_snoc_newline x : trimEnd (x ++ [10%N]) = trimEnd x.
Proof. unfold trimEnd. rewrite rev_app_distr. reflexivity. Qed.

Lemma split_at_first_here rest :
  split_at_first fence (fence ++ rest) = Some ([], rest).
Proof. reflexivity. Qed.

Lemma skip_json rest : skip_prefix (lit "json") (lit "json" ++ rest) = rest.
Proof. reflexivity. Qed.

Lemma trimStart_newline rest : trimStart ([10%N] ++ rest) = trimStart rest.
Proof. reflexivity. Qed.

Lemma match_fenced_fenced s :
  no_fence s -> match_fenced (fenced s) = Some (trimStart (s ++ [10%N])).
Proof.
  intros Hs. unfold match_fenced, fenced.
  rewrite split_at_first_here, skip_json, trimStart_newline, trimStart_app_fence.
  destruct (trimStart_snoc_newline s) as [[H1 H2]|[H1 H2]]; rewrite H1.
  - reflexivity.
  - rewrite <- app_assoc.
    rewrite (split_at_closing (trimStart s) (no_fence_trimStart s Hs)).
    reflexivity.
Qed.

Lemma extract_json_fenced s : no_fence s -> extract_json (fenced s) = extract_json s.
Proof.
  intros Hs. unfold extract_json at 2, match_fenced. rewrite Hs.
  unfold extract_json. rewrite (match_fenced_fenced s Hs).
  unfold trim. rewrite trimStart_idem.
  destruct (trimStart_snoc_newline s) as [[H1 H2]|[H1 H2]]; rewrite H1.
  - rewrite H2. reflexivity.
  - apply trimEnd_snoc_newline.
Qed.

Lemma parseJsonResponse_fenced JSON_parse s :
  no_fence s ->
  parseJsonResponse JSON_parse (fenced s) = parseJsonResponse JSON_parse s.
Proof.
  intros Hs. unfold parseJsonResponse. rewrite (extract_json_fenced s Hs).
  reflexivity.
Qed.

Lemma rejection_message_object members :
  ~ has_lessons_array (JObj members) ->
  rejection_message (JObj members) = missing_lessons.
Proof. reflexivity. Qed.

(** C5, as the code has it.  Breakdown rejection.  When the answer of the
    completion service parses to a value without an array under
    [lessons], [breakdownTopic] throws, the topic is [failed] with the
    error as its [last_error], and the table of lessons is what it was:
    no row is inserted.  A text without a fence inside, wrapped in a
    [json] fence, is parsed as the text itself. *)
Theorem breakdown_rejection_atomic (JSON_parse : text -> option JsValue) :
  (* an answer without an array of lessons: the call throws, the topic is
     failed with the error recorded, and no row is inserted *)
  (forall tid cb w topic response breakdown,
     topics w !! tid = Some topic ->
     isApiKeyConfigured w = true ->
     cb onBreakdownStart = None ->
     (callOpenAI "topic_breakdown" breakdown_options
        (with_notified onBreakdownStart
           (with_topics (alter (set_topic_status generating None) tid) w))).1
       = Ok response ->
     parseJsonResponse JSON_parse response = Ok breakdown ->
     ~ has_lessons_array breakdown ->
     let run := breakdownTopic JSON_parse tid cb w in
     (exists e, run.1 = Throw e)
     /\ lessons run.2 = lessons w
     /\ next_lesson_id run.2 = next_lesson_id w
     /\ exists t', topics run.2 !! tid = Some t'
          /\ topic_status t' = failed
          /\ topic_last_error t' = Some (rejection_message breakdown))
  (* for an object the error is the one [breakdownTopic] raises *)
  /\ (forall members, rejection_message (JObj members) = missing_lessons)
  (* a fenced answer is parsed as the answer itself *)
  /\ (forall s, no_fence s ->
        parseJsonResponse JSON_parse (fenced s)
        = parseJsonResponse JSON_parse s).
Proof.
  split; [|split].
  - intros tid cb w topic response breakdown.
    apply breakdown_rejected.
  - reflexivity.
  - intros s. apply parseJsonResponse_fenced.
Qed.


(** ** Sequences of operations *)

Lemma row_evolves_step w' rows j a b :
  row_evolves w' rows j a b -> row_step w' (Some a) b.
Proof.
  intros (_ & _ & [->|(_ & Hr & Hs)]); [left; reflexivity|right; right].
  exists a. split; [reflexivity|]. split; [|exact Hs].
  destruct Hr as [Hr|(l & _ & He & Hr)]; [left; exact Hr|right].
  exists l. auto.
Qed.

Lemma evolves_store_step rows w w' : evolves rows w w' -> store_step w w'.
Proof.
  intros (_ & Hk & H). split; [exact Hk|]. intros j b Hb.
  specialize (H j). destruct (lessons w !! j) as [a|].
  - destruct H as (b' & Hb' & Hev). rewrite Hb in Hb'. injection Hb' as <-.
    eapply row_evolves_step, Hev.
  - congruence.
Qed.

Lemma rows_added_store_step w w' : rows_added w w' -> store_step w w'.
Proof.
  intros (Hf & H). split; [intros p Hp; rewrite Hf; exact Hp|].
  intros j b Hb. destruct (H j b Hb) as [Ha|Hn]; [left; exact Ha|right; left; exact Hn].
Qed.

Lemma fail_if_generating_cases tid msg a :
  fail_if_generating tid msg a = a
  \/ (status a = generating /\ topic_id a = tid
      /\ status (fail_if_generating tid msg a) = failed
      /\ retry_count (fail_if_generating tid msg a) = retry_count a).
Proof.
  unfold fail_if_generating.
  destruct (bool_decide (topic_id a = tid)) eqn:Ht; [|left; reflexivity].
  destruct (bool_decide (status a = generating)) eqn:Hs; [|left; reflexivity].
  right. apply bool_decide_eq_true in Ht, Hs. simpl. auto.
Qed.

(** The store left by the handler of [generateAllContent]. *)
Lemma handled_store_step rows tid msg w w2 w' :
  evolves rows w w2 -> files w' = files w2 ->
  lessons w' = fail_if_generating tid msg <$> lessons w2 ->
  store_step w w'.
Proof.
  intros Hev Hf Hl. destruct (evolves_store_step _ _ _ Hev) as (Hk & H).
  assert (Hk' : files_kept w2 w') by (intros p Hp; rewrite Hf; exact Hp).
  split; [intros p Hp; rewrite Hf; apply Hk, Hp|].
  intros j b Hb. rewrite Hl, lookup_fmap in Hb.
  destruct (lessons w2 !! j) as [b2|] eqn:Hb2; [|discriminate].
  injection Hb as <-. specialize (H j b2 Hb2).
  destruct (fail_if_generating_cases tid msg b2) as [->|(Hg & _ & Hs & Hr)].
  - destruct H as [H|[H|(a0 & Ha & Hr & Hs)]]; [left; exact H|right; left; exact H|].
    right; right. exists a0. split; [exact Ha|]. split; [exact Hr|].
    destruct Hs as [Hs|[Hs Ha']]; [left; exact Hs|right].
    split; [exact Hs|]. eapply has_artifacts_kept; eassumption.
  - destruct H as [H|[[H _]|(a0 & Ha & Hr' & Hs')]].
    + right; right. exists b2. split; [exact H|]. split; [left; exact Hr|].
      left; exact Hs.
    + congruence.
    + destruct Hs' as [Hs'|[Hs' _]]; congruence.
Qed.

Lemma generateAllContent_store_step tid cb w :
  store_step w (generateAllContent tid cb w).2.
Proof.
  pose proof (generateAllContent_spec tid cb w) as H. unfold wp in H.
  destruct (generateAllContent tid cb w) as [r w']. cbn [fst snd] in *.
  destruct (topics w !! tid) as [topic|].
  2:{ destruct H as [_ ->]. apply (evolves_store_step []), evolves_refl. }
  cbv zeta in H. destruct (bool_decide (select_lessons tid w = [])).
  { destruct H as [_ ->]. apply (evolves_store_step []), evolves_refl. }
  destruct (disk w (writes w)) as [e|].
  { destruct H as [_ ->]. apply (evolves_store_step []).
    exact (evolves_refl [] w). }
  destruct H as (w2 & Hev & Hf & Hn & H).
  destruct H as [(_ & _ & Hl & _)|(e & e0 & ev & t' & _ & _ & _ & Hl & _)].
  - eapply (evolves_store_step (select_lessons tid w)).
    eapply evolves_trans; [reflexivity|reflexivity|exact Hev|].
    apply evolves_same; assumption.
  - eapply handled_store_step; eassumption.
Qed.

Lemma retryFailedLessons_store_step tid cb w :
  store_step w (retryFailedLessons tid cb w).2.
Proof.
  pose proof (retryFailedLessons_spec tid cb w) as H. unfold wp in H.
  destruct (retryFailedLessons tid cb w) as [r w']. cbn [fst snd] in *.
  destruct (topics w !! tid) as [topic|].
  2:{ destruct H as [_ ->]. apply (evolves_store_step []), evolves_refl. }
  cbv zeta in H. destruct (bool_decide (select_retryable tid w = [])).
  { destruct H as [_ ->]. apply (evolves_store_step []), evolves_refl. }
  destruct (disk w (writes w)) as [e|].
  { destruct H as [_ ->]. apply (evolves_store_step []).
    exact (evolves_refl [] w). }
  destruct H as (Hev & _). eapply evolves_store_step, Hev.
Qed.

Lemma perform_store_step JSON_parse w op : store_step w (perform JSON_parse w op).
Proof.
  destruct op as [tid cb|tid cb|tid cb]; simpl.
  - apply rows_added_store_step, breakdownTopic_added.
  - apply generateAllContent_store_step.
  - apply retryFailedLessons_store_step.
Qed.

(** *** Three invariants of the store *)

Lemma retry_bounded_step w w' :
  store_step w w' -> retry_bounded w -> retry_bounded w'.
Proof.
  intros (_ & H) Hw j b Hb.
  destruct (H j b Hb) as [Ha|[[_ Hr]|(a0 & Ha & Hr & _)]].
  - exact (Hw j b Ha).
  - rewrite Hr. unfold MAX_LESSON_RETRIES. simpl. lia.
  - destruct Hr as [Hr|(l & [_ Hl] & Hr)].
    + rewrite Hr. exact (Hw j a0 Ha).
    + rewrite Hr. simpl. lia.
Qed.

Lemma artifacts_recorded_step w w' :
  store_step w w' -> artifacts_recorded w -> artifacts_recorded w'.
Proof.
  intros (Hk & H) Hw j b Hb Hdone.
  destruct (H j b Hb) as [Ha|[[Hp _]|(a0 & Ha & _ & Hs)]].
  - eapply has_artifacts_kept; [exact Hk|]. exact (Hw j b Ha Hdone).
  - congruence.
  - destruct Hs as [Hs|[_ Hs]]; [congruence|exact Hs].
Qed.

Lemma no_exhausted_generating_step w w' :
  store_step w w' -> no_exhausted_generating w -> no_exhausted_generating w'.
Proof.
  intros (_ & H) Hw j b Hb Hgen.
  destruct (H j b Hb) as [Ha|[[Hp _]|(a0 & Ha & _ & Hs)]].
  - exact (Hw j b Ha Hgen).
  - congruence.
  - destruct Hs as [Hs|[Hs _]]; congruence.
Qed.

Lemma perform_all_invariant JSON_parse (I : World -> Prop) :
  (forall w w', store_step w w' -> I w -> I w') ->
  forall ops w, I w -> I (perform_all JSON_parse w ops).
Proof.
  intros Hstep ops. induction ops as [|op ops IH]; intros w Hw; [exact Hw|].
  simpl. apply IH. eapply Hstep; [apply perform_store_step|exact Hw].
Qed.


(** ** Partial failure *)

Lemma count_status_all st rows :
  count_status st rows = Z.of_nat (length rows)
  <-> forall r, r ∈ rows -> status r.2 = st.
Proof.
  unfold count_status. split.
  - intros H r Hr. destruct (decide (status r.2 = st)) as [Hs|Hs]; [exact Hs|].
    pose proof (length_filter_lt (fun r => status r.2 = st) rows r Hr Hs). lia.
  - intros H. f_equal. induction rows as [|r rows IH]; [reflexivity|].
    rewrite filter_cons_True by (apply H; left). simpl. f_equal.
    apply IH. intros r' Hr'. apply H. right. exact Hr'.
Qed.

(** A row that the pass was not given as eligible is left as it was. *)
Lemma evolves_unselected rows w w' j a :
  evolves rows w w' -> lessons w !! j = Some a ->
  (forall l, (j, l) ∈ rows -> ~ eligible l) ->
  lessons w' !! j = Some a.
Proof.
  intros (_ & _ & H) Ha Hno. specialize (H j). rewrite Ha in H.
  destruct H as (b & Hb & _ & _ & [->|((l & Hl & He) & _)]); [exact Hb|].
  destruct (Hno l Hl He).
Qed.

Lemma generateAllContent_keeps tid cb w j a :
  lessons w !! j = Some a ->
  ~ eligible a -> status a <> generating ->
  lessons (generateAllContent tid cb w).2 !! j = Some a.
Proof.
  intros Ha Hne Hng.
  pose proof (generateAllContent_spec tid cb w) as H. unfold wp in H.
  destruct (generateAllContent tid cb w) as [r w']. cbn [fst snd] in *.
  destruct (topics w !! tid) as [topic|]; [|destruct H as [_ ->]; exact Ha].
  cbv zeta in H. destruct (bool_decide (select_lessons tid w = []));
    [destruct H as [_ ->]; exact Ha|].
  destruct (disk w (writes w)) as [e|]; [destruct H as [_ ->]; exact Ha|].
  destruct H as (w2 & Hev & _ & _ & H).
  assert (Ha2 : lessons w2 !! j = Some a).
  { eapply evolves_unselected; [exact Hev|exact Ha|].
    intros l Hl He. apply elem_of_select_lessons in Hl as [Hl _].
    rewrite Ha in Hl. injection Hl as <-. contradiction. }
  destruct H as [(_ & _ & Hl & _)|(e & e0 & ev & t' & _ & _ & _ & Hl & _)].
  - rewrite Hl. exact Ha2.
  - rewrite Hl, lookup_fmap, Ha2. simpl. f_equal.
    destruct (fail_if_generating_cases tid (message (categorizeError e0)) a)
      as [H|(H & _)]; [exact H|contradiction].
Qed.

Lemma retryFailedLessons_keeps tid cb w j a :
  lessons w !! j = Some a -> ~ eligible a ->
  lessons (retryFailedLessons tid cb w).2 !! j = Some a.
Proof.
  intros Ha Hne.
  pose proof (retryFailedLessons_spec tid cb w) as H. unfold wp in H.
  destruct (retryFailedLessons tid cb w) as [r w']. cbn [fst snd] in *.
  destruct (topics w !! tid) as [topic|]; [|destruct H as [_ ->]; exact Ha].
  cbv zeta in H. destruct (bool_decide (select_retryable tid w = []));
    [destruct H as [_ ->]; exact Ha|].
  destruct (disk w (writes w)) as [e|]; [destruct H as [_ ->]; exact Ha|].
  destruct H as (Hev & _).
  eapply evolves_unselected; [exact Hev|exact Ha|].
  intros l Hl He. apply elem_of_select_retryable in Hl as [Hl _].
  rewrite Ha in Hl. injection Hl as <-. contradiction.
Qed.

(** A retry leaves the rows it does not select as they are. *)
Lemma retryFailedLessons_unselected tid cb w j a :
  lessons w !! j = Some a -> (j, a) ∉ select_retryable tid w ->
  lessons (retryFailedLessons tid cb w).2 !! j = Some a.
Proof.
  intros Ha Hne.
  pose proof (retryFailedLessons_spec tid cb w) as H. unfold wp in H.
  destruct (retryFailedLessons tid cb w) as [r w']. cbn [fst snd] in *.
  destruct (topics w !! tid) as [topic|]; [|destruct H as [_ ->]; exact Ha].
  cbv zeta in H. destruct (bool_decide (select_retryable tid w = []));
    [destruct H as [_ ->]; exact Ha|].
  destruct (disk w (writes w)) as [e|]; [destruct H as [_ ->]; exact Ha|].
  destruct H as (Hev & _).
  eapply evolves_unselected; [exact Hev|exact Ha|].
  intros l Hl He. apply Hne.
  pose proof Hl as Hl'. apply elem_of_select_retryable in Hl' as [Hl' _].
  rewrite Ha in Hl'. injection Hl' as <-. exact Hl.
Qed.

Lemma completed_not_eligible a : status a = completed -> ~ eligible a.
Proof. intros H [Hn _]. contradiction. Qed.

Lemma exhausted_not_eligible a :
  MAX_LESSON_RETRIES <= default 0 (retry_count a) -> ~ eligible a.
Proof. intros H [_ Hn]. lia. Qed.

(** ** Retry ceiling *)

Lemma generateSingleLesson_row topic id l dir cb w a :
  lessons w !! id = Some a ->
  let run := generateSingleLesson topic (id, l) dir cb w in
  exists b, lessons run.2 !! id = Some b
    /\ ((run.1 = Ok true
         /\ exists body script,
              files run.2 !! path_join dir (lessonFileName l) = Some body
              /\ files run.2 !! path_join dir (podcastFileName l) = Some script
              /\ b = completed_row topic l body script a)
        \/ (run.1 <> Ok true
            /\ status b = failed
            /\ retry_count b = Some (default 0 (retry_count l) + 1))).
Proof.
  intros Ha run.
  destruct (generateSingleLesson_spec topic id l dir cb w)
    as (_ & F & (_ & _ & _ & _ & Hl) & Hres).
  fold run in Hl, Hres. exists (F a).
  split; [rewrite Hl, lookup_alter_eq, Ha; reflexivity|].
  destruct run.1 as [[|]|e]; simpl in Hres.
  - left. split; [reflexivity|]. destruct Hres as (body & script & H1 & H2 & HF).
    exists body, script. auto.
  - right. split; [discriminate|]. destruct Hres as (msg & HF).
    destruct (HF a) as (y & ->). split; reflexivity.
  - right. split; [discriminate|]. destruct Hres as (msg & HF).
    destruct (HF a) as (y & ->). split; reflexivity.
Qed.

(** C2.  Retry ceiling.  Along any sequence of breakdown, generate-all
    and retry operations the retry counter of a lesson stays at most 3;
    one call of [generateSingleLesson] leaves the counter alone or, when
    the lesson fails, sets it to one more than the value it was picked
    with; a lesson whose counter is 3 or more is skipped by the loop of
    [generateAllContent] and counted as failed, is not among the rows
    [retryFailedLessons] selects, and keeps its row through both. *)
Theorem retry_ceiling (JSON_parse : text -> option JsValue) :
  (* the counter stays within the ceiling along any operations *)
  (forall ops w, retry_bounded w ->
     retry_bounded (perform_all JSON_parse w ops))
  (* it moves only when a lesson picked below the ceiling fails *)
  /\ (forall topic id l dir cb w a b,
        lessons w !! id = Some a ->
        lessons (generateSingleLesson topic (id, l) dir cb w).2 !! id = Some b ->
        retry_count b = retry_count a
        \/ (status b = failed
            /\ retry_count b = Some (default 0 (retry_count l) + 1)))
  (* generate all: a lesson at the ceiling is skipped and counted failed *)
  /\ (forall topic total dir cb id l later failedCount w,
        status l <> completed ->
        MAX_LESSON_RETRIES <= default 0 (retry_count l) ->
        generateAll_loop topic total dir cb ((id, l) :: later) failedCount w
        = generateAll_loop topic total dir cb later (failedCount + 1) w)
  /\ (forall tid cb w j a,
        lessons w !! j = Some a ->
        MAX_LESSON_RETRIES <= default 0 (retry_count a) ->
        status a <> generating ->
        lessons (generateAllContent tid cb w).2 !! j = Some a)
  (* retry failed: it is not selected, and its row is left alone *)
  /\ (forall tid w j l,
        (j, l) ∈ select_retryable tid w ->
        default 0 (retry_count l) < MAX_LESSON_RETRIES)
  /\ (forall tid cb w j a,
        lessons w !! j = Some a ->
        MAX_LESSON_RETRIES <= default 0 (retry_count a) ->
        lessons (retryFailedLessons tid cb w).2 !! j = Some a).
Proof.
  split; [|split; [|split; [|split; [|split]]]].
  - apply perform_all_invariant. exact retry_bounded_step.
  - intros topic id l dir cb w a b Ha Hb.
    destruct (generateSingleLesson_row topic id l dir cb w a Ha)
      as (b' & Hb' & H). rewrite Hb in Hb'. injection Hb' as <-.
    destruct H as [(_ & body & script & _ & _ & ->)|(_ & Hs & Hr)];
      [left; reflexivity|right; auto].
  - intros topic total dir cb id l later fc w Hs Hr.
    cbn [generateAll_loop snd].
    rewrite bool_decide_eq_false_2 by exact Hs.
    replace (MAX_LESSON_RETRIES <=? default 0 (retry_count l)) with true
      by (symmetry; apply Z.leb_le; exact Hr).
    reflexivity.
  - intros tid cb w j a Ha Hr Hg.
    apply generateAllContent_keeps; [exact Ha| |exact Hg].
    apply exhausted_not_eligible, Hr.
  - intros tid w j l Hin.
    apply elem_of_select_retryable in Hin as [_ Hr].
    apply (retryable_row_eligible tid j l Hr).
  - intros tid cb w j a Ha Hr.
    apply retryFailedLessons_keeps; [exact Ha|].
    apply exhausted_not_eligible, Hr.
Qed.

(** ** Completed lessons *)

(** C7.  Completed-lesson invariant.  When a call of
    [generateSingleLesson] leaves the lesson [completed], it returned
    [true], both files are on disk with the texts it generated, and the
    row holds both paths and the word counts of these texts.  Hence,
    along any sequence of operations, every [completed] lesson has both
    paths set, and the files under them exist. *)
Theorem completed_lesson_has_both_artifacts
    (JSON_parse : text -> option JsValue) :
  (* a run that leaves the lesson completed has written both files and
     recorded both paths and counts *)
  (forall topic id l dir cb w a b,
     let run := generateSingleLesson topic (id, l) dir cb w in
     lessons w !! id = Some a ->
     lessons run.2 !! id = Some b ->
     status b = completed ->
     exists body script,
       run.1 = Ok true
       /\ files run.2 !! path_join dir (lessonFileName l) = Some body
       /\ files run.2 !! path_join dir (podcastFileName l) = Some script
       /\ file_path b = Some (slug topic +:+ "/" +:+ lessonFileName l)
       /\ word_count b = countWords body
       /\ podcast_file_path b = Some (slug topic +:+ "/" +:+ podcastFileName l)
       /\ podcast_word_count b = countWords script)
  (* hence, along any operations, a completed lesson has both paths, and
     the files are there *)
  /\ (forall ops w, artifacts_recorded w ->
        artifacts_recorded (perform_all JSON_parse w ops)).
Proof.
  split.
  - intros topic id l dir cb w a b run Ha Hb Hdone.
    destruct (generateSingleLesson_row topic id l dir cb w a Ha)
      as (b' & Hb' & H). fold run in Hb', H.
    rewrite Hb in Hb'. injection Hb' as <-.
    destruct H as [(Hr & body & script & H1 & H2 & ->)|(_ & Hs & _)];
      [|congruence].
    exists body, script. repeat split; assumption.
  - apply perform_all_invariant. exact artifacts_recorded_step.
Qed.

(** ** No lesson left generating *)

Lemma fail_if_generating_not_generating tid msg a :
  topic_id (fail_if_generating tid msg a) = tid ->
  status (fail_if_generating tid msg a) <> generating.
Proof.
  unfold fail_if_generating.
  destruct (bool_decide (topic_id a = tid)) eqn:Ht; simpl.
  - destruct (bool_decide (status a = generating)) eqn:Hs; simpl.
    + discriminate.
    + intros _. apply bool_decide_eq_false in Hs. exact Hs.
  - apply bool_decide_eq_false in Ht. intros H. contradiction.
Qed.

Lemma eligible_dec a : eligible a \/ ~ eligible a.
Proof.
  unfold eligible.
  destruct (decide (status a = completed)) as [H|H]; [right; tauto|].
  destruct (decide (default 0 (retry_count a) < MAX_LESSON_RETRIES));
    [left|right]; tauto.
Qed.

(** The pipeline never leaves a lesson generating with its retries used
    up: the second premise of the theorem below holds of every store the
    operations reach from one where it holds, the empty one for instance. *)
Lemma no_exhausted_generating_kept JSON_parse ops w :
  no_exhausted_generating w ->
  no_exhausted_generating (perform_all JSON_parse w ops).
Proof. apply perform_all_invariant. exact no_exhausted_generating_step. Qed.

(** C10, as the code has it.  Take an existing topic and a store in
    which no lesson is [generating] with its retries used up, which the
    pipeline never produces.  When the content directory is there or can
    be made, no lesson of the topic is [generating] after
    [generateAllContent], whether it returned or threw.  When the
    directory cannot be made, the call throws before its [try]: the
    handler does not run and every row and the topic are left as they
    were, the rows that were [generating] included.  Any call of
    [generateSingleLesson] leaves its lesson [completed] or [failed]. *)
Theorem no_lesson_left_generating (tid : Z) (cb : Callbacks) (w : World) :
  is_Some (topics w !! tid) ->
  no_exhausted_generating w ->
  let run := generateAllContent tid cb w in
  (disk w (writes w) = None ->
   forall j b, lessons run.2 !! j = Some b -> topic_id b = tid ->
     status b <> generating)
  /\ (forall e, disk w (writes w) = Some e -> select_lessons tid w <> [] ->
        run.1 = Throw e /\ lessons run.2 = lessons w
        /\ topics run.2 = topics w)
  /\ (forall topic id l dir a,
        lessons w !! id = Some a ->
        exists b,
          lessons (generateSingleLesson topic (id, l) dir cb w).2 !! id = Some b
          /\ settled b).
Proof.
  intros [topic Htopic] Hinv run.
  pose proof (generateAllContent_spec tid cb w) as H. unfold wp in H.
  fold run in H. rewrite Htopic in H. cbv zeta in H.
  split; [|split].
  3:{ intros topic' id l dir a Ha.
      destruct (generateSingleLesson_row topic' id l dir cb w a Ha)
        as (b & Hb & H'). exists b. split; [exact Hb|].
      destruct H' as [(_ & body & script & _ & _ & ->)|(_ & Hs & _)];
        [left; reflexivity|right; exact Hs]. }
  2:{ intros e Hdisk Hrows.
      rewrite bool_decide_eq_false_2, Hdisk in H by exact Hrows.
      destruct H as [-> ->]. repeat split. }
  intros Hdisk j b Hb Htid. rewrite Hdisk in H.
  destruct (bool_decide (select_lessons tid w = [])) eqn:Hrows.
  { apply bool_decide_eq_true in Hrows. destruct H as [_ Hw].
    rewrite Hw in Hb.
    assert (Hin : (j, b) ∈ select_lessons tid w)
      by (apply elem_of_select_lessons; auto).
    rewrite Hrows in Hin. apply elem_of_nil in Hin. destruct Hin. }
  destruct H as (w2 & Hev & _ & _ & H).
  assert (Hw2 : all_settled (select_lessons tid w) w w2 ->
                forall b2, lessons w2 !! j = Some b2 -> topic_id b2 = tid ->
                  status b2 <> generating).
  { intros Hset b2 Hb2 Ht2.
    destruct Hev as (_ & _ & Hrow). specialize (Hrow j).
    destruct (lessons w !! j) as [a|] eqn:Ha; [|congruence].
    destruct Hrow as (b' & Hb' & Hta & _ & Hcase).
    rewrite Hb2 in Hb'. injection Hb' as <-.
    destruct (eligible_dec a) as [He|Hne].
    - destruct (Hset j a a) as (b' & Hb' & Hs);
        [apply elem_of_select_lessons; split; [exact Ha|congruence]
        |exact He|exact Ha|].
      rewrite Hb2 in Hb'. injection Hb' as <-.
      destruct Hs as [Hs|Hs]; congruence.
    - destruct Hcase as [->|(_ & _ & Hs)].
      + intros Hg. apply Hne. split; [congruence|]. exact (Hinv j a Ha Hg).
      + destruct Hs as [Hs|[Hs _]]; congruence. }
  destruct H as [(_ & Hset & Hl & _)|(e & e0 & ev & t' & _ & _ & _ & Hl & _)].
  - rewrite Hl in Hb. exact (Hw2 Hset b Hb Htid).
  - rewrite Hl, lookup_fmap in Hb.
    destruct (lessons w2 !! j) as [b2|]; [|discriminate].
    injection Hb as <-. apply fail_if_generating_not_generating, Htid.
Qed.


(** ** The broadcaster *)

Lemma sendToConnection_run now cid event (reg : SSE.Registry) c :
  reg !! cid = Some c ->
  SSE.sendToConnection now cid event reg =
    if SSE.broken (SSE.res c)
    then (Ok false, delete cid reg)
    else (Ok true,
          <[cid := {| SSE.res :=
                        {| SSE.written :=
                             SSE.written (SSE.res c) ++ [SSE.frame event];
                           SSE.broken := false |};
                      SSE.topicId := SSE.topicId c;
                      SSE.connectedAt := SSE.connectedAt c;
                      SSE.lastEventAt := now |}]> reg).
Proof.
  intros Hc. unfold SSE.sendToConnection, bind, gets. rewrite Hc.
  unfold try_catch, bind, lift, SSE.write.
  destruct (SSE.broken (SSE.res c)) eqn:Hb; reflexivity.
Qed.

Lemma sendToTopic_loop_cons now topic event cid0 c0 later (reg : SSE.Registry) :
  SSE.sendToTopic_loop now topic event ((cid0, c0) :: later) reg =
    match (if bool_decide (SSE.topicId c0 = topic)
           then SSE.sendToConnection now cid0 event;; ret tt
           else ret tt) reg with
    | (Ok _, reg1) => SSE.sendToTopic_loop now topic event later reg1
    | (Throw e, reg1) => (Throw e, reg1)
    end.
Proof. reflexivity. Qed.

Lemma sendToTopic_loop_spec now topic event entries : forall reg : SSE.Registry,
  NoDup entries.*1 ->
  (forall cid c, (cid, c) ∈ entries -> reg !! cid = Some c) ->
  let run := SSE.sendToTopic_loop now topic event entries reg in
  run.1 = Ok tt
  /\ (forall cid, cid ∉ entries.*1 -> run.2 !! cid = reg !! cid)
  /\ (forall cid c, (cid, c) ∈ entries ->
        run.2 !! cid = published now topic event c).
Proof.
  induction entries as [|[cid0 c0] later IH]; intros reg Hnd Hin.
  - simpl. split; [reflexivity|]. split; [reflexivity|].
    intros cid c H. apply elem_of_nil in H. destruct H.
  - apply NoDup_cons in Hnd as [Hfresh Hnd].
    assert (Hc0 : reg !! cid0 = Some c0) by (apply Hin; left).
    rewrite sendToTopic_loop_cons.
    set (step := (if bool_decide (SSE.topicId c0 = topic)
                  then SSE.sendToConnection now cid0 event;; ret tt
                  else ret tt) reg).
    assert (Hstep : step.1 = Ok tt
                    /\ step.2 !! cid0 = published now topic event c0
                    /\ forall cid, cid <> cid0 -> step.2 !! cid = reg !! cid).
    { unfold step, published.
      destruct (bool_decide (SSE.topicId c0 = topic)).
      - unfold bind. rewrite (sendToConnection_run now cid0 event reg c0 Hc0).
        destruct (SSE.broken (SSE.res c0)) eqn:Hb; cbn [fst snd].
        + split; [reflexivity|]. split; [apply lookup_delete_eq|].
          intros cid Hne. apply lookup_delete_ne. congruence.
        + split; [reflexivity|]. split; [apply lookup_insert_eq|].
          intros cid Hne. apply lookup_insert_ne. congruence.
      - split; [reflexivity|]. split; [exact Hc0|]. reflexivity. }
    destruct step as [r1 reg1]. cbn [fst snd] in Hstep.
    destruct Hstep as (-> & H0 & Hother). cbv beta iota zeta.
    destruct (IH reg1 Hnd) as (Hr & Hout & Hin').
    { intros cid c Hc. rewrite Hother.
      - apply Hin. right. exact Hc.
      - intros ->. apply Hfresh. apply list_elem_of_fmap. exists (cid0, c). auto. }
    split; [exact Hr|]. split.
    + intros cid Hcid. rewrite Hout.
      * apply Hother. intros ->. apply Hcid. simpl. left.
      * intros H. apply Hcid. simpl. right. exact H.
    + intros cid c Hc. apply elem_of_cons in Hc as [[= -> ->]|Hc].
      * rewrite Hout; [exact H0|exact Hfresh].
      * apply Hin'. exact Hc.
Qed.

Lemma sendToTopic_spec now topic event (reg : SSE.Registry) :
  let run := SSE.sendToTopic now topic event reg in
  run.1 = Ok tt
  /\ forall cid,
       run.2 !! cid =
         match reg !! cid with
         | Some c => published now topic event c
         | None => None
         end.
Proof.
  unfold SSE.sendToTopic, bind, gets.
  destruct (sendToTopic_loop_spec now topic event (map_to_list reg) reg)
    as (Hr & Hout & Hin).
  - apply NoDup_fst_map_to_list.
  - intros cid c H. apply elem_of_map_to_list in H. exact H.
  - split; [exact Hr|]. intros cid.
    destruct (reg !! cid) as [c|] eqn:Hc.
    + apply Hin. apply elem_of_map_to_list. exact Hc.
    + rewrite Hout; [exact Hc|].
      intros H. apply list_elem_of_fmap in H as ([cid' c] & Heq & H).
      simpl in Heq. subst cid'. apply elem_of_map_to_list in H. simpl in H.
      rewrite Hc in H. discriminate.
Qed.

(** C6.  Broadcaster.  [sendToTopic] never throws; a connection of the
    job to which the write succeeds has the event appended to its stream
    and stays registered; a connection of the job to which the write
    fails is deregistered, and no other is; connections of other jobs are
    left as they were and receive nothing. *)
Theorem publish_delivery_and_isolation (now topic : Z) (event : SSE.SSEEvent)
    (reg : SSE.Registry) :
  let run := SSE.sendToTopic now topic event reg in
  (* no error reaches the publisher *)
  run.1 = Ok tt
  (* a connection of the job on which the write succeeds gets the event
     and stays *)
  /\ (forall cid c, reg !! cid = Some c -> SSE.topicId c = topic ->
        SSE.broken (SSE.res c) = false ->
        exists c', run.2 !! cid = Some c'
          /\ SSE.written (SSE.res c')
             = SSE.written (SSE.res c) ++ [SSE.frame event]
          /\ SSE.topicId c' = topic)
  (* the connection on which the write fails is dropped, and only it *)
  /\ (forall cid c, reg !! cid = Some c -> SSE.topicId c = topic ->
        SSE.broken (SSE.res c) = true -> run.2 !! cid = None)
  (* a connection of another job is left as it was *)
  /\ (forall cid c, reg !! cid = Some c -> SSE.topicId c <> topic ->
        run.2 !! cid = Some c)
  (* and nothing is registered by publishing *)
  /\ (forall cid, reg !! cid = None -> run.2 !! cid = None).
Proof.
  intros run. destruct (sendToTopic_spec now topic event reg) as (Hr & H).
  fold run in Hr, H.
  split; [exact Hr|]. split; [|split; [|split]].
  - intros cid c Hc Ht Hb. rewrite H, Hc. unfold published.
    rewrite bool_decide_eq_true_2 by exact Ht. rewrite Hb.
    eexists. split; [reflexivity|]. split; [reflexivity|exact Ht].
  - intros cid c Hc Ht Hb. rewrite H, Hc. unfold published.
    rewrite bool_decide_eq_true_2 by exact Ht. rewrite Hb. reflexivity.
  - intros cid c Hc Ht. rewrite H, Hc. unfold published.
    rewrite bool_decide_eq_false_2 by exact Ht. reflexivity.
  - intros cid Hc. rewrite H, Hc. reflexivity.
Qed.

(** ** The stream endpoint *)

Lemma getGenerationStatus_found topic w t :
  topics w !! topic = Some t -> exists st, getGenerationStatus topic w = Ok st.
Proof. intros H. unfold getGenerationStatus. rewrite H. eexists. reflexivity. Qed.

(** The run of the handler for a topic that exists and a response that
    can be written to. *)
Lemma stream_route_run w now cid topic r (reg : SSE.Registry) st :
  getGenerationStatus topic w = Ok st ->
  SSE.broken r = false ->
  SSE.stream_route w now cid topic r reg =
    (Ok (SSE.Streaming cid),
     (SSE.sendToTopic now topic
        {| SSE.type := SSE.connected;
           SSE.data := (connected_with_status cid topic st).2 |}
        (<[cid := {| SSE.res :=
                       {| SSE.written := SSE.written r ++ [bare_connected cid topic];
                          SSE.broken := false |};
                     SSE.topicId := topic; SSE.connectedAt := now;
                     SSE.lastEventAt := now |}]>
           (<[cid := {| SSE.res := r; SSE.topicId := topic;
                        SSE.connectedAt := now; SSE.lastEventAt := now |}]>
              reg))).2).
Proof.
  intros Hst Hb.
  assert (Ht : is_Some (topics w !! topic)).
  { unfold getGenerationStatus in Hst.
    destruct (topics w !! topic); [eauto|discriminate]. }
  destruct Ht as [t Ht].
  unfold SSE.stream_route, try_catch. rewrite Ht.
  unfold bind at 1. unfold SSE.addConnection. unfold bind at 1, modify at 1.
  unfold bind at 1.
  set (reg1 := <[cid := _]> reg).
  assert (H1 : reg1 !! cid = Some {| SSE.res := r; SSE.topicId := topic;
                                     SSE.connectedAt := now;
                                     SSE.lastEventAt := now |})
    by apply lookup_insert_eq.
  rewrite (sendToConnection_run now cid _ reg1 _ H1). cbn [SSE.res].
  rewrite Hb. unfold ret at 1. unfold bind at 1, lift at 1. rewrite Hst.
  unfold bind at 1.
  set (reg2 := <[cid := _]> reg1).
  set (ev2 := {| SSE.type := SSE.connected; SSE.data := _ |}).
  destruct (sendToTopic_spec now topic ev2 reg2) as (Hr & _).
  change (SSE.data ev2) with (connected_with_status cid topic st).2.
  destruct (SSE.sendToTopic now topic ev2 reg2) as [r3 reg3] eqn:E.
  cbn [fst snd] in *. subst r3. reflexivity.
Qed.

Lemma stream_route_frames w now cid topic r (reg : SSE.Registry) t :
  topics w !! topic = Some t ->
  SSE.broken r = false ->
  exists st c,
    getGenerationStatus topic w = Ok st
    /\ SSE.stream_route w now cid topic r reg
       = (Ok (SSE.Streaming cid), (SSE.stream_route w now cid topic r reg).2)
    /\ (SSE.stream_route w now cid topic r reg).2 !! cid = Some c
    /\ SSE.topicId c = topic
    /\ SSE.written (SSE.res c)
       = SSE.written r
         ++ [bare_connected cid topic; connected_with_status cid topic st].
Proof.
  intros Ht Hb.
  destruct (getGenerationStatus_found topic w t Ht) as (st & Hst).
  exists st.
  rewrite (stream_route_run w now cid topic r reg st Hst Hb).
  cbn [fst snd].
  match goal with |- context [SSE.sendToTopic now topic ?ev ?reg2] =>
    destruct (sendToTopic_spec now topic ev reg2) as (_ & H) end.
  rewrite H, lookup_insert_eq. unfold published.
  cbn [SSE.topicId SSE.res SSE.broken SSE.written].
  rewrite bool_decide_eq_true_2 by reflexivity.
  eexists. split; [exact Hst|]. split; [reflexivity|]. split; [reflexivity|].
  split; [reflexivity|].
  cbn [SSE.res SSE.written]. rewrite <- app_assoc. reflexivity.
Qed.

(** What the second event of the stream route does to the connections
    that were registered before. *)
Lemma stream_route_others w now cid topic r (reg : SSE.Registry) st :
  getGenerationStatus topic w = Ok st ->
  SSE.broken r = false ->
  forall cid', cid' <> cid ->
    (SSE.stream_route w now cid topic r reg).2 !! cid'
    = match reg !! cid' with
      | Some c' =>
          published now topic
            {| SSE.type := SSE.connected;
               SSE.data := (connected_with_status cid topic st).2 |} c'
      | None => None
      end.
Proof.
  intros Hst Hb cid' Hne.
  rewrite (stream_route_run w now cid topic r reg st Hst Hb). cbn [snd].
  match goal with |- context [SSE.sendToTopic now topic ?ev ?reg2] =>
    destruct (sendToTopic_spec now topic ev reg2) as (_ & H) end.
  rewrite H, !lookup_insert_ne by congruence. reflexivity.
Qed.

(** C9, as the code has it.  On a connection to the stream of an
    existing topic the new subscriber first receives a [connected] event
    with the connection and topic identifiers only, and next a second
    [connected] event that carries the status snapshot of
    [getGenerationStatus].  The second event is published to the topic:
    every other connection of the topic that can be written to receives
    it too, one that cannot is deregistered, and the connections of other
    topics are left as they were. *)
Theorem stream_connect_snapshot_second (w : World) (now : Z) (cid : string)
    (topic : Z) (r : SSE.Response) (reg : SSE.Registry) (t : Topic) :
  topics w !! topic = Some t ->
  SSE.broken r = false ->
  let run := SSE.stream_route w now cid topic r reg in
  run.1 = Ok (SSE.Streaming cid)
  /\ exists st c,
       getGenerationStatus topic w = Ok st
       /\ run.2 !! cid = Some c
       /\ SSE.topicId c = topic
       /\ SSE.written (SSE.res c)
          = SSE.written r
            ++ [bare_connected cid topic; connected_with_status cid topic st]
       /\ forall cid' c', cid' <> cid -> reg !! cid' = Some c' ->
            (SSE.topicId c' = topic -> SSE.broken (SSE.res c') = false ->
             exists c'', run.2 !! cid' = Some c''
               /\ SSE.topicId c'' = topic
               /\ SSE.written (SSE.res c'')
                  = SSE.written (SSE.res c')
                    ++ [connected_with_status cid topic st])
            /\ (SSE.topicId c' = topic -> SSE.broken (SSE.res c') = true ->
                run.2 !! cid' = None)
            /\ (SSE.topicId c' <> topic -> run.2 !! cid' = Some c').
Proof.
  intros Ht Hb run.
  destruct (stream_route_frames w now cid topic r reg t Ht Hb)
    as (st & c & Hst & Hrun & Hc & Htc & Hw).
  fold run in Hrun, Hc. split; [rewrite Hrun; reflexivity|].
  exists st, c. do 4 (split; [assumption|]).
  intros cid' c' Hne Hc'.
  pose proof (stream_route_others w now cid topic r reg st Hst Hb cid' Hne)
    as H.
  fold run in H. rewrite Hc' in H. unfold published in H.
  split; [|split].
  - intros Htop Hbr.
    rewrite bool_decide_eq_true_2, Hbr in H by exact Htop.
    eexists. split; [exact H|]. split; [exact Htop|reflexivity].
  - intros Htop Hbr.
    rewrite bool_decide_eq_true_2, Hbr in H by exact Htop. exact H.
  - intros Htop. rewrite bool_decide_eq_false_2 in H by exact Htop. exact H.
Qed.


(** ** The scenario of the specification, and instances *)

(** The scenario of the specification: lesson 3 fails, the others
    succeed. *)
Example five_lessons_third_fails :
  let run := generateAllContent 1 createSSEProgressCallbacks five_lessons in
  run.1 = Ok tt
  /\ (fun r => (r.1, status r.2, retry_count r.2)) <$> select_lessons 1 run.2
     = [(10, completed, Some 0); (11, completed, Some 0); (12, failed, Some 1);
        (13, completed, Some 0); (14, completed, Some 0)]
  /\ (fun t => (topic_status t, topic_last_error t)) <$> topics run.2 !! 1
     = Some (failed, Some "1 lesson(s) failed to generate. 4/5 completed.")
  /\ (fun r => r.1) <$> select_retryable 1 run.2 = [12].
Proof. vm_compute. repeat split. Qed.

Lemma retry_ceiling_witness :
  retry_bounded interrupted
  /\ retry_bounded
       (perform_all parse_no_lessons interrupted
          [GenerateAll 1 createSSEProgressCallbacks;
           RetryFailed 1 createSSEProgressCallbacks]).
Proof.
  assert (H : retry_bounded interrupted).
  { apply (bool_decide_unpack
             (map_Forall (fun _ b => default 0 (retry_count b)
                                     <= MAX_LESSON_RETRIES)
                (lessons interrupted))).
    vm_compute. exact I. }
  split; [exact H|].
  apply (proj1 (retry_ceiling parse_no_lessons)). exact H.
Defined.

Lemma expansion_loop_contract_witness :
  (callOpenAI "lesson_content"
     {| maxTokens := Some 8192; jsonResponse := None; maxRetries := None;
        timeout := None; onRetry := None |} five_lessons).1
    = Ok (lit "hello world")
  /\ countWords (lit "hello world") < 2700
  /\ (generateLessonContent 2 five_lessons).1 = Ok (lit "hello world", 2)
  /\ expansions (generateLessonContent 2 five_lessons).2 = 2%nat.
Proof.
  assert (H1 : (callOpenAI "lesson_content"
     {| maxTokens := Some 8192; jsonResponse := None; maxRetries := None;
        timeout := None; onRetry := None |} five_lessons).1
    = Ok (lit "hello world")) by (vm_compute; reflexivity).
  assert (H2 : countWords (lit "hello world") < 2700) by (vm_compute; reflexivity).
  split; [exact H1|]. split; [exact H2|].
  destruct (proj1 expansion_loop_contract five_lessons) as (_ & _ & H).
  destruct (H _ H1) as (_ & _ & Hshort).
  destruct (Hshort H2) as (_ & Hfirst).
  destruct (Hfirst (lit "hello world") ltac:(vm_compute; reflexivity))
    as (_ & Hsecond).
  destruct (Hsecond H2) as (_ & Hlast).
  destruct (Hlast (lit "hello world") ltac:(vm_compute; reflexivity))
    as (Hrun & Hx).
  split; [rewrite Hrun; reflexivity|exact Hx].
Defined.

Lemma callOpenAI_retry_policy_witness :
  is_Some (prompts flaky !! "lesson_content")
  /\ client_available flaky
  /\ retryable_failure 120000 (service flaky 0%nat)
  /\ (callOpenAI "lesson_content" no_options flaky).1
     = Throw (SdkAPIError "401 Incorrect API key" (Some 401) None)
  /\ calls (callOpenAI "lesson_content" no_options flaky).2
     = [Completion "lesson_content"; Completion "lesson_content"].
Proof.
  assert (H1 : is_Some (prompts flaky !! "lesson_content"))
    by (eexists; reflexivity).
  assert (H2 : client_available flaky) by (right; reflexivity).
  assert (H3 : retryable_failure 120000 (service flaky 0%nat))
    by (eexists; split; reflexivity).
  split; [exact H1|]. split; [exact H2|]. split; [exact H3|].
  destruct (callOpenAI_retry_policy "lesson_content" no_options flaky H1)
    as (_ & H & _).
  - intros g Hg. discriminate.
  - simpl. lia.
  - apply (H H2 1%nat (SdkAPIError "401 Incorrect API key" (Some 401) None)).
    + simpl. lia.
    + intros j Hj. assert (j = 0%nat) as -> by lia. exact H3.
    + reflexivity.
    + reflexivity.
Defined.

Lemma breakdown_rejection_atomic_witness :
  topics five_lessons !! 1 = Some example_topic
  /\ isApiKeyConfigured five_lessons = true
  /\ ~ has_lessons_array (JObj [("topic_description", JStr "About lean startups")])
  /\ no_fence (lit "{}")
  /\ lessons (breakdownTopic parse_no_lessons 1 createSSEProgressCallbacks
                five_lessons).2
     = lessons five_lessons
  /\ parseJsonResponse parse_no_lessons (fenced (lit "{}"))
     = parseJsonResponse parse_no_lessons (lit "{}").
Proof.
  assert (H1 : topics five_lessons !! 1 = Some example_topic) by reflexivity.
  assert (H2 : isApiKeyConfigured five_lessons = true) by reflexivity.
  assert (H3 : ~ has_lessons_array
                 (JObj [("topic_description", JStr "About lean startups")])).
  { intros [entries H]. vm_compute in H. discriminate. }
  assert (H4 : no_fence (lit "{}")) by reflexivity.
  split; [exact H1|]. split; [exact H2|]. split; [exact H3|]. split; [exact H4|].
  destruct (breakdown_rejection_atomic parse_no_lessons) as (Hreject & _ & Hfence).
  split; [|exact (Hfence _ H4)].
  destruct (Hreject 1 createSSEProgressCallbacks five_lessons example_topic
              (lit "hello world")
              (JObj [("topic_description", JStr "About lean startups")])
              H1 H2 eq_refl ltac:(vm_compute; reflexivity) eq_refl H3)
    as (_ & Hl & _).
  exact Hl.
Defined.

(** What reaches [JSON.parse] from [backticks_answer]: the whole text
    when it comes bare, its part before the inner fence when it comes
    wrapped. *)
Example backticks_answer_extracted :
  extract_json backticks_answer = backticks_answer
  /\ extract_json (fenced backticks_answer)
     = lit "{" ++ quoted "topic_description" ++ lit ":" ++ [34%N].
Proof. split; reflexivity. Qed.

(** C5 as worded fails in its second part: an answer that holds a fence
    of its own is cut at that fence once it is wrapped, and is refused,
    while the bare answer is parsed. *)
Lemma fenced_answer_cut_at_inner_fence : ~ fence_tolerant parse_backticks.
Proof.
  intros H. specialize (H backticks_answer). vm_compute in H. discriminate.
Qed.

Lemma publish_delivery_and_isolation_witness :
  let run := SSE.sendToTopic 7 1 example_event example_registry in
  run.1 = Ok tt
  /\ (exists c', run.2 !! "1-a" = Some c'
        /\ SSE.written (SSE.res c') = [SSE.frame example_event]
        /\ SSE.topicId c' = 1)
  /\ run.2 !! "1-b" = None
  /\ run.2 !! "2-c" = Some (example_connection 2 false).
Proof.
  intros run.
  destruct (publish_delivery_and_isolation 7 1 example_event example_registry)
    as (Hr & Hok & Hgone & Hother & _).
  split; [exact Hr|]. split; [|split].
  - exact (Hok "1-a" (example_connection 1 false) eq_refl eq_refl eq_refl).
  - exact (Hgone "1-b" (example_connection 1 true) eq_refl eq_refl eq_refl).
  - apply (Hother "2-c" (example_connection 2 false) eq_refl). discriminate.
Defined.

Lemma completed_lesson_has_both_artifacts_witness :
  artifacts_recorded interrupted
  /\ artifacts_recorded
       (perform_all parse_no_lessons interrupted
          [GenerateAll 1 createSSEProgressCallbacks;
           RetryFailed 1 createSSEProgressCallbacks])
  /\ exists body script,
       files (generateSingleLesson example_topic (10, example_lesson 1 pending 0)
                (path_join CONTENT_DIR (slug example_topic))
                createSSEProgressCallbacks five_lessons).2
         !! path_join (path_join CONTENT_DIR (slug example_topic))
              (lessonFileName (example_lesson 1 pending 0)) = Some body
       /\ files (generateSingleLesson example_topic (10, example_lesson 1 pending 0)
                (path_join CONTENT_DIR (slug example_topic))
                createSSEProgressCallbacks five_lessons).2
         !! path_join (path_join CONTENT_DIR (slug example_topic))
              (podcastFileName (example_lesson 1 pending 0)) = Some script.
Proof.
  assert (H : artifacts_recorded interrupted).
  { intros j b Hb Hdone. exfalso. revert j b Hb Hdone.
    apply (bool_decide_unpack
             (map_Forall (fun _ b => status b <> completed)
                (lessons interrupted))).
    vm_compute. exact I. }
  destruct (completed_lesson_has_both_artifacts parse_no_lessons) as (Hrun & Hinv).
  split; [exact H|]. split; [apply Hinv, H|].
  destruct (Hrun example_topic 10 (example_lesson 1 pending 0)
              (path_join CONTENT_DIR (slug example_topic))
              createSSEProgressCallbacks five_lessons
              (example_lesson 1 pending 0)
              (completed_row example_topic (example_lesson 1 pending 0)
                 (lit "hello world") (lit "hello world")
                 (example_lesson 1 pending 0))
              eq_refl ltac:(vm_compute; reflexivity) eq_refl)
    as (body & script & _ & H1 & H2 & _).
  exists body, script. split; assumption.
Defined.

Lemma stream_connect_snapshot_second_witness :
  topics five_lessons !! 1 = Some example_topic
  /\ (SSE.stream_route five_lessons 7 "1-x" 1
        {| SSE.written := []; SSE.broken := false |} example_registry).1
     = Ok (SSE.Streaming "1-x")
  /\ (exists c st,
        (SSE.stream_route five_lessons 7 "1-x" 1
           {| SSE.written := []; SSE.broken := false |} example_registry).2
          !! "1-a" = Some c
        /\ SSE.written (SSE.res c) = [connected_with_status "1-x" 1 st])
  /\ (SSE.stream_route five_lessons 7 "1-x" 1
        {| SSE.written := []; SSE.broken := false |} example_registry).2
       !! "1-b" = None.
Proof.
  split; [reflexivity|].
  destruct (stream_connect_snapshot_second five_lessons 7 "1-x" 1
              {| SSE.written := []; SSE.broken := false |} example_registry
              example_topic eq_refl eq_refl)
    as (Hr & st & c & _ & _ & _ & _ & Hothers).
  split; [exact Hr|]. split.
  - destruct (Hothers "1-a" (example_connection 1 false)
                ltac:(discriminate) ltac:(vm_compute; reflexivity))
      as (Hw & _).
    destruct (Hw eq_refl eq_refl) as (c'' & Hc'' & _ & Hf).
    exists c'', st. split; [exact Hc''|exact Hf].
  - destruct (Hothers "1-b" (example_connection 1 true)
                ltac:(discriminate) ltac:(vm_compute; reflexivity))
      as (_ & Hb & _).
    exact (Hb eq_refl eq_refl).
Defined.

(** C9 as worded fails: the first frame written to a new subscriber is
    the bare [connected] event of [addConnection]. *)
Lemma initial_message_is_bare : ~ initial_message_carries_snapshot.
Proof.
  intros H.
  destruct (stream_route_frames five_lessons 7 "1-x" 1
              {| SSE.written := []; SSE.broken := false |} ∅ example_topic
              eq_refl eq_refl)
    as (st & c & _ & Hrun & Hc & _ & Hw).
  destruct (H _ _ _ _ _ _ c Hrun Hc) as (f & Hf & st' & Hin).
  rewrite Hw in Hf. simpl in Hf. injection Hf as <-.
  simpl in Hin.
  apply elem_of_cons in Hin as [Heq|Hin]; [discriminate|].
  apply elem_of_cons in Hin as [Heq|Hin]; [discriminate|].
  apply elem_of_nil in Hin. exact Hin.
Qed.

Lemma no_lesson_left_generating_witness :
  is_Some (topics interrupted !! 1)
  /\ no_exhausted_generating interrupted
  /\ status (example_lesson 3 generating 0) = generating
  /\ forall j b,
       lessons (generateAllContent 1 createSSEProgressCallbacks interrupted).2
         !! j = Some b ->
       topic_id b = 1 -> status b <> generating.
Proof.
  assert (H1 : is_Some (topics interrupted !! 1)) by (eexists; reflexivity).
  assert (H2 : no_exhausted_generating interrupted).
  { apply (bool_decide_unpack
             (map_Forall (fun _ b => status b = generating ->
                                     default 0 (retry_count b)
                                     < MAX_LESSON_RETRIES)
                (lessons interrupted))).
    vm_compute. exact I. }
  split; [exact H1|]. split; [exact H2|]. split; [reflexivity|].
  exact (proj1 (no_lesson_left_generating 1 createSSEProgressCallbacks
                  interrupted H1 H2) eq_refl).
Defined.

(** C10 as worded fails: a lesson that is [generating] with its three
    retries used up is passed over, and the pass returns with the lesson
    as it was. *)
Lemma exhausted_lesson_stays_generating : ~ never_left_generating.
Proof.
  intros H.
  apply (H 1 createSSEProgressCallbacks worn_out 10
           (example_lesson 1 generating 3)); reflexivity.
Qed.

(** The pass over that store returns, and marks the topic as failed. *)
Example worn_out_pass_returns :
  let run := generateAllContent 1 createSSEProgressCallbacks worn_out in
  run.1 = Ok tt
  /\ status <$> lessons run.2 !! 10 = Some generating
  /\ (fun t => (topic_status t, topic_last_error t)) <$> topics run.2 !! 1
     = Some (failed, Some "1 lesson(s) failed to generate. 0/1 completed.").
Proof. vm_compute. repeat split. Qed.

(** * Properties of the further functions *)

(** ** The rest of the broadcaster *)

Lemma getConnectionCount_loop_acc topic conns : forall count,
  getConnectionCount_loop topic conns count
  = count + Z.of_nat (length (filter (fun c => SSE.topicId c = topic) conns)).
Proof.
  induction conns as [|c later IH]; intros count; simpl.
  - lia.
  - rewrite IH, filter_cons.
    destruct (decide (SSE.topicId c = topic)) as [H|H].
    + rewrite bool_decide_eq_true_2 by exact H. simpl. lia.
    + rewrite bool_decide_eq_false_2 by exact H. reflexivity.
Qed.

Lemma hasConnections_loop_spec topic conns :
  hasConnections_loop topic conns = true
  <-> exists c, c ∈ conns /\ SSE.topicId c = topic.
Proof.
  induction conns as [|c later IH]; simpl.
  - split; [discriminate|]. intros (c & H & _). apply elem_of_nil in H.
    destruct H.
  - destruct (decide (SSE.topicId c = topic)) as [H|H].
    + rewrite bool_decide_eq_true_2 by exact H. split; [|reflexivity].
      intros _. exists c. split; [left|exact H].
    + rewrite bool_decide_eq_false_2 by exact H. rewrite IH. split.
      * intros (c' & Hin & Ht). exists c'. split; [right; exact Hin|exact Ht].
      * intros (c' & Hin & Ht). apply elem_of_cons in Hin as [->|Hin];
          [contradiction|]. exists c'. auto.
Qed.

Lemma filter_length_pos {A} (P : A -> Prop) `{forall x, Decision (P x)}
    (l : list A) :
  (0 < length (filter P l))%nat <-> exists x, x ∈ l /\ P x.
Proof.
  split.
  - intros Hl. destruct (filter P l) as [|x l'] eqn:E; [simpl in Hl; lia|].
    assert (Hx : x ∈ filter P l) by (rewrite E; left).
    apply list_elem_of_filter in Hx as [HP Hin]. exists x. auto.
  - intros (x & Hin & HP).
    assert (Hx : x ∈ filter P l) by (apply list_elem_of_filter; auto).
    destruct (filter P l); [apply elem_of_nil in Hx; destruct Hx|simpl; lia].
Qed.

Lemma elem_of_registry_values (reg : SSE.Registry) c :
  c ∈ (map_to_list reg).*2 <-> exists cid, reg !! cid = Some c.
Proof.
  rewrite list_elem_of_fmap. split.
  - intros ([cid c'] & -> & H). exists cid. apply elem_of_map_to_list in H.
    exact H.
  - intros (cid & H). exists (cid, c). split; [reflexivity|].
    apply elem_of_map_to_list. exact H.
Qed.

Lemma filter_values_length topic (l : list (string * SSE.SSEConnection)) :
  length (filter (fun c => SSE.topicId c = topic) l.*2)
  = length (filter (fun e => SSE.topicId e.2 = topic) l).
Proof.
  induction l as [|[cid c] l IH]; [reflexivity|].
  rewrite fmap_cons, !filter_cons. cbn [snd].
  destruct (decide (SSE.topicId c = topic)); simpl; rewrite IH; reflexivity.
Qed.

Lemma has_connection_iff topic (reg : SSE.Registry) :
  hasConnections topic reg = true
  <-> exists cid c, reg !! cid = Some c /\ SSE.topicId c = topic.
Proof.
  unfold hasConnections. rewrite hasConnections_loop_spec. split.
  - intros (c & Hin & Ht). apply elem_of_registry_values in Hin as (cid & H).
    eauto.
  - intros (cid & c & H & Ht). exists c. split; [|exact Ht].
    apply elem_of_registry_values. eauto.
Qed.

Lemma connection_count_pos topic (reg : SSE.Registry) :
  hasConnections topic reg = true <-> 0 < getConnectionCount topic reg.
Proof.
  rewrite has_connection_iff. unfold getConnectionCount.
  rewrite getConnectionCount_loop_acc, Z.add_0_l.
  rewrite <- (Nat2Z.inj_lt 0), filter_length_pos. split.
  - intros (cid & c & H & Ht). exists c. split; [|exact Ht].
    apply elem_of_registry_values. eauto.
  - intros (c & Hin & Ht). apply elem_of_registry_values in Hin as (cid & H).
    eauto.
Qed.

(** X1.  [hasConnections] and [getConnectionCount] agree, and both say what
    the registry holds: the count is the number of registered connections
    of the topic, and [hasConnections] is true exactly when there is
    one. *)
Theorem connection_count_agrees (topic : Z) (reg : SSE.Registry) :
  getConnectionCount topic reg
  = Z.of_nat (length (filter (fun e => SSE.topicId e.2 = topic)
                        (map_to_list reg)))
  /\ (hasConnections topic reg = true <-> 0 < getConnectionCount topic reg)
  /\ (hasConnections topic reg = true
      <-> exists cid c, reg !! cid = Some c /\ SSE.topicId c = topic).
Proof.
  split; [|split; [apply connection_count_pos|apply has_connection_iff]].
  unfold getConnectionCount.
  rewrite getConnectionCount_loop_acc, filter_values_length. lia.
Qed.

Lemma map_to_list_filter_perm (P : string * SSE.SSEConnection -> Prop)
    `{!forall x, Decision (P x)} (m : SSE.Registry) :
  map_to_list (filter P m) ≡ₚ filter P (map_to_list m).
Proof.
  apply NoDup_Permutation.
  - apply NoDup_map_to_list.
  - apply NoDup_filter, NoDup_map_to_list.
  - intros [cid c]. rewrite elem_of_map_to_list, map_lookup_filter_Some.
    rewrite list_elem_of_filter, elem_of_map_to_list. tauto.
Qed.

Lemma getConnectionCount_filter topic (reg : SSE.Registry) :
  getConnectionCount topic reg
  = Z.of_nat (size (filter (fun e => SSE.topicId e.2 = topic) reg)).
Proof.
  unfold getConnectionCount. rewrite getConnectionCount_loop_acc.
  rewrite <- length_map_to_list, map_to_list_filter_perm.
  rewrite filter_values_length. lia.
Qed.

(** The count of a topic is decided by the connections of that topic. *)
Lemma getConnectionCount_ext topic (reg reg' : SSE.Registry) :
  (forall cid c, SSE.topicId c = topic ->
     reg !! cid = Some c <-> reg' !! cid = Some c) ->
  getConnectionCount topic reg = getConnectionCount topic reg'.
Proof.
  intros H. rewrite !getConnectionCount_filter. do 2 f_equal.
  apply map_eq. intros cid. apply option_eq. intros c.
  rewrite !map_lookup_filter_Some. simpl. split; intros [Hc Ht];
    (split; [apply (H cid c Ht); exact Hc|exact Ht]).
Qed.

Lemma getConnectionCount_insert topic (reg : SSE.Registry) cid c :
  reg !! cid = None ->
  getConnectionCount topic (<[cid := c]> reg)
  = getConnectionCount topic reg
    + (if bool_decide (SSE.topicId c = topic) then 1 else 0).
Proof.
  intros Hfresh. rewrite !getConnectionCount_filter, map_filter_insert.
  cbn [snd]. destruct (decide (SSE.topicId c = topic)) as [H|H].
  - rewrite bool_decide_eq_true_2 by exact H.
    rewrite map_size_insert_None; [lia|].
    apply map_lookup_filter_None. left. exact Hfresh.
  - rewrite bool_decide_eq_false_2 by exact H.
    rewrite delete_id by exact Hfresh. lia.
Qed.

Lemma getConnectionCount_nonneg topic (reg : SSE.Registry) :
  0 <= getConnectionCount topic reg.
Proof. rewrite getConnectionCount_filter. lia. Qed.

Lemma closeTopicConnections_loop_cons topic cid0 c0 later
    (reg : SSE.Registry) :
  closeTopicConnections_loop topic ((cid0, c0) :: later) reg =
    match (if bool_decide (SSE.topicId c0 = topic)
           then
             try_catch (lift (end_response (SSE.res c0)))
               (fun _ => ret tt) ;;
             modify (delete cid0)
           else ret tt) reg with
    | (Ok _, reg1) => closeTopicConnections_loop topic later reg1
    | (Throw e, reg1) => (Throw e, reg1)
    end.
Proof. reflexivity. Qed.

Lemma closeTopicConnections_loop_spec topic entries :
  forall reg : SSE.Registry,
  NoDup entries.*1 ->
  (forall cid c, (cid, c) ∈ entries -> reg !! cid = Some c) ->
  let run := closeTopicConnections_loop topic entries reg in
  run.1 = Ok tt
  /\ (forall cid, cid ∉ entries.*1 -> run.2 !! cid = reg !! cid)
  /\ (forall cid c, (cid, c) ∈ entries -> run.2 !! cid = closed topic c).
Proof.
  induction entries as [|[cid0 c0] later IH]; intros reg Hnd Hin.
  - simpl. split; [reflexivity|]. split; [reflexivity|].
    intros cid c H. apply elem_of_nil in H. destruct H.
  - apply NoDup_cons in Hnd as [Hfresh Hnd].
    assert (Hc0 : reg !! cid0 = Some c0) by (apply Hin; left).
    rewrite closeTopicConnections_loop_cons.
    set (step := (if bool_decide (SSE.topicId c0 = topic)
                  then _ else ret tt) reg).
    assert (Hstep : step.1 = Ok tt
                    /\ step.2 !! cid0 = closed topic c0
                    /\ forall cid, cid <> cid0 -> step.2 !! cid = reg !! cid).
    { unfold step, closed.
      destruct (bool_decide (SSE.topicId c0 = topic)).
      - unfold bind, try_catch, lift, end_response, modify, ret.
        destruct (SSE.broken (SSE.res c0)); cbn [fst snd];
          (split; [reflexivity|]; split; [apply lookup_delete_eq|];
           intros cid Hne; apply lookup_delete_ne; congruence).
      - split; [reflexivity|]. split; [exact Hc0|]. reflexivity. }
    destruct step as [r1 reg1]. cbn [fst snd] in Hstep.
    destruct Hstep as (-> & H0 & Hother). cbv beta iota zeta.
    destruct (IH reg1 Hnd) as (Hr & Hout & Hin').
    { intros cid c Hc. rewrite Hother.
      - apply Hin. right. exact Hc.
      - intros ->. apply Hfresh. apply list_elem_of_fmap. exists (cid0, c).
        auto. }
    split; [exact Hr|]. split.
    + intros cid Hcid. rewrite Hout.
      * apply Hother. intros ->. apply Hcid. simpl. left.
      * intros H. apply Hcid. simpl. right. exact H.
    + intros cid c Hc. apply elem_of_cons in Hc as [[= -> ->]|Hc].
      * rewrite Hout; [exact H0|exact Hfresh].
      * apply Hin'. exact Hc.
Qed.

Lemma closeTopicConnections_run topic (reg : SSE.Registry) :
  let run := closeTopicConnections topic reg in
  run.1 = Ok tt
  /\ forall cid, run.2 !! cid = reg !! cid ≫= closed topic.
Proof.
  unfold closeTopicConnections, bind, gets.
  destruct (closeTopicConnections_loop_spec topic (map_to_list reg) reg)
    as (Hr & Hout & Hin).
  - apply NoDup_fst_map_to_list.
  - intros cid c H. apply elem_of_map_to_list in H. exact H.
  - split; [exact Hr|]. intros cid.
    destruct (reg !! cid) as [c|] eqn:Hc; simpl.
    + apply Hin. apply elem_of_map_to_list. exact Hc.
    + rewrite Hout; [exact Hc|].
      intros H. apply list_elem_of_fmap in H as ([cid' c] & Heq & H).
      simpl in Heq. subst cid'. apply elem_of_map_to_list in H. simpl in H.
      rewrite Hc in H. discriminate.
Qed.

(** X2.  [closeTopicConnections] never throws, also when ending a response
    does; it deregisters every connection of the topic and no other, so
    that the topic has no connection left and the count of every other
    topic is what it was. *)
Theorem closeTopicConnections_closes (topic : Z) (reg : SSE.Registry) :
  let run := closeTopicConnections topic reg in
  run.1 = Ok tt
  /\ (forall cid c, reg !! cid = Some c -> SSE.topicId c = topic ->
        run.2 !! cid = None)
  /\ (forall cid c, reg !! cid = Some c -> SSE.topicId c <> topic ->
        run.2 !! cid = Some c)
  /\ (forall cid, reg !! cid = None -> run.2 !! cid = None)
  /\ getConnectionCount topic run.2 = 0
  /\ hasConnections topic run.2 = false
  /\ (forall t, t <> topic ->
        getConnectionCount t run.2 = getConnectionCount t reg).
Proof.
  intros run. destruct (closeTopicConnections_run topic reg) as (Hr & H).
  fold run in Hr, H.
  assert (Hnone : ~ exists c, c ∈ (map_to_list run.2).*2
                              /\ SSE.topicId c = topic).
  { intros (c & Hin & Ht). apply elem_of_registry_values in Hin as (cid & Hc).
    rewrite H in Hc. destruct (reg !! cid) as [c0|]; [|discriminate].
    simpl in Hc. unfold closed in Hc.
    destruct (bool_decide (SSE.topicId c0 = topic)) eqn:E; [discriminate|].
    apply bool_decide_eq_false in E. congruence. }
  split; [exact Hr|]. split; [|split; [|split; [|split; [|split]]]].
  - intros cid c Hc Ht. rewrite H, Hc. simpl. unfold closed.
    rewrite bool_decide_eq_true_2 by exact Ht. reflexivity.
  - intros cid c Hc Ht. rewrite H, Hc. simpl. unfold closed.
    rewrite bool_decide_eq_false_2 by exact Ht. reflexivity.
  - intros cid Hc. rewrite H, Hc. reflexivity.
  - unfold getConnectionCount. rewrite getConnectionCount_loop_acc.
    destruct (filter _ _) as [|c l] eqn:E; [reflexivity|].
    exfalso. apply Hnone. exists c.
    assert (Hc : c ∈ filter (fun c => SSE.topicId c = topic)
                       (map_to_list run.2).*2) by (rewrite E; left).
    apply list_elem_of_filter in Hc as [Ht Hin]. auto.
  - destruct (hasConnections topic run.2) eqn:E; [|reflexivity].
    exfalso. apply Hnone. apply hasConnections_loop_spec. exact E.
  - intros t Ht. apply getConnectionCount_ext. intros cid c Hc.
    rewrite H. destruct (reg !! cid) as [c0|]; simpl; [|tauto].
    unfold closed. destruct (bool_decide (SSE.topicId c0 = topic)) eqn:E.
    + apply bool_decide_eq_true in E. split; [discriminate|].
      intros [= ->]. congruence.
    + tauto.
Qed.

Lemma getStats_loop_lookup conns : forall (m : gmap Z Z) t,
  getStats_loop conns m !! t =
    if bool_decide
         (length (filter (fun c => SSE.topicId c = t) conns) = 0%nat)
    then m !! t
    else Some (default 0 (m !! t)
               + Z.of_nat
                   (length (filter (fun c => SSE.topicId c = t) conns))).
Proof.
  induction conns as [|c later IH]; intros m t.
  - reflexivity.
  - cbn [getStats_loop]. rewrite IH, filter_cons.
    destruct (decide (SSE.topicId c = t)) as [Ht|Ht].
    + subst t. rewrite lookup_insert_eq. cbn [length default].
      rewrite (bool_decide_eq_false_2 (S _ = 0%nat)) by discriminate.
      case_bool_decide as Hk; [rewrite Hk|]; f_equal; unfold id; lia.
    + rewrite lookup_insert_ne by exact Ht. reflexivity.
Qed.

Lemma stats_sum_step (m : gmap Z Z) t :
  stats_sum (<[t := default 0 (m !! t) + 1]> m) = stats_sum m + 1.
Proof.
  unfold stats_sum. destruct (m !! t) as [n|] eqn:E; cbn [default].
  - rewrite <- insert_delete_eq.
    rewrite map_fold_insert_L; [|intros; lia|apply lookup_delete_eq].
    rewrite (map_fold_delete_L _ _ t n m); [|intros; lia|exact E].
    unfold id. lia.
  - rewrite map_fold_insert_L; [|intros; lia|exact E].
    lia.
Qed.

Lemma stats_sum_loop conns : forall m : gmap Z Z,
  stats_sum (getStats_loop conns m) = stats_sum m + Z.of_nat (length conns).
Proof.
  induction conns as [|c later IH]; intros m; cbn [getStats_loop length].
  - lia.
  - rewrite IH, stats_sum_step. lia.
Qed.

(** X3.  [getStats] is consistent with the registry and with
    [getConnectionCount]: the total is the number of connections, a topic
    is listed exactly when it has a connection, its entry is its count,
    and the entries add up to the total. *)
Theorem getStats_consistent (reg : SSE.Registry) :
  let stats := getStats reg in
  totalConnections stats = Z.of_nat (size reg)
  /\ (forall t, connectionsByTopic stats !! t =
        if hasConnections t reg then Some (getConnectionCount t reg)
        else None)
  /\ (forall t n, connectionsByTopic stats !! t = Some n -> 0 < n)
  /\ stats_sum (connectionsByTopic stats) = totalConnections stats.
Proof.
  intros stats.
  assert (Hlook : forall t, connectionsByTopic stats !! t =
            if hasConnections t reg then Some (getConnectionCount t reg)
            else None).
  { intros t. unfold stats, getStats. cbn [connectionsByTopic].
    rewrite getStats_loop_lookup, lookup_empty. cbn [default].
    pose proof (connection_count_pos t reg) as Hpos.
    unfold getConnectionCount in *. rewrite getConnectionCount_loop_acc in *.
    destruct (hasConnections t reg).
    - rewrite bool_decide_eq_false_2; [reflexivity|]. intros E.
      rewrite E in Hpos. destruct Hpos as [Hpos _].
      specialize (Hpos eq_refl). simpl in Hpos. lia.
    - rewrite bool_decide_eq_true_2; [reflexivity|].
      destruct (length _) eqn:E; [reflexivity|].
      destruct Hpos as [_ Hpos]. discriminate Hpos. lia. }
  split; [reflexivity|]. split; [exact Hlook|]. split.
  - intros t n. rewrite Hlook.
    destruct (hasConnections t reg) eqn:E; [|discriminate].
    intros [= <-]. apply connection_count_pos. exact E.
  - unfold stats, getStats. cbn [connectionsByTopic totalConnections].
    rewrite stats_sum_loop. unfold stats_sum. rewrite map_fold_empty.
    rewrite length_fmap, length_map_to_list. lia.
Qed.

Lemma publish_all_cons p pubs (reg : SSE.Registry) :
  publish_all (p :: pubs) reg
  = publish_all pubs
      (SSE.sendToTopic (pub_time p) (pub_topic p) (pub_event p) reg).2.
Proof. reflexivity. Qed.

Lemma frames_for_cons topic p pubs :
  frames_for topic (p :: pubs)
  = if bool_decide (pub_topic p = topic)
    then SSE.frame (pub_event p) :: frames_for topic pubs
    else frames_for topic pubs.
Proof.
  unfold frames_for. rewrite filter_cons.
  destruct (decide (pub_topic p = topic)) as [H|H].
  - rewrite bool_decide_eq_true_2 by exact H. reflexivity.
  - rewrite bool_decide_eq_false_2 by exact H. reflexivity.
Qed.

Lemma publish_all_absent pubs : forall (reg : SSE.Registry) cid,
  reg !! cid = None -> publish_all pubs reg !! cid = None.
Proof.
  induction pubs as [|p pubs IH]; intros reg cid Hc; [exact Hc|].
  rewrite publish_all_cons. apply IH.
  destruct (sendToTopic_spec (pub_time p) (pub_topic p) (pub_event p) reg)
    as (_ & H).
  rewrite H, Hc. reflexivity.
Qed.

(** X4.  Delivery is in order and per topic.  After any sequence of
    publications, a connection that can be written to is still
    registered and has received, after what it had, the frames of the
    events published to its topic, in the order of publication, and
    nothing else; a connection that cannot be written to is deregistered
    by the first publication to its topic and stays as it is when there
    is none; and publishing registers nothing. *)
Theorem publications_arrive_in_order (pubs : list Publication)
    (reg : SSE.Registry) :
  (forall cid c, reg !! cid = Some c -> SSE.broken (SSE.res c) = false ->
     exists c', publish_all pubs reg !! cid = Some c'
       /\ SSE.written (SSE.res c')
          = SSE.written (SSE.res c) ++ frames_for (SSE.topicId c) pubs
       /\ SSE.topicId c' = SSE.topicId c
       /\ SSE.connectedAt c' = SSE.connectedAt c)
  /\ (forall cid c, reg !! cid = Some c -> SSE.broken (SSE.res c) = true ->
        publish_all pubs reg !! cid
        = match frames_for (SSE.topicId c) pubs with
          | [] => Some c
          | _ :: _ => None
          end)
  /\ (forall cid, reg !! cid = None -> publish_all pubs reg !! cid = None).
Proof.
  split; [|split; [|intros cid; apply publish_all_absent]].
  - revert reg. induction pubs as [|p pubs IH]; intros reg cid c Hc Hb.
    + exists c. unfold frames_for. simpl. rewrite app_nil_r. auto.
    + rewrite publish_all_cons, frames_for_cons.
      destruct (sendToTopic_spec (pub_time p) (pub_topic p) (pub_event p)
                  reg) as (_ & H).
      specialize (H cid). rewrite Hc in H. unfold published in H.
      rewrite (bool_decide_ext (SSE.topicId c = pub_topic p)
                 (pub_topic p = SSE.topicId c)) in H by (split; congruence).
      destruct (bool_decide (pub_topic p = SSE.topicId c)).
      * rewrite Hb in H.
        destruct (IH _ cid _ H eq_refl) as (c' & Hc' & Hw & Ht & Hca).
        exists c'. cbn [SSE.res SSE.written SSE.topicId SSE.connectedAt] in *.
        split; [exact Hc'|]. split; [|auto].
        rewrite Hw, <- app_assoc. reflexivity.
      * exact (IH _ cid c H Hb).
  - revert reg. induction pubs as [|p pubs IH]; intros reg cid c Hc Hb.
    + exact Hc.
    + rewrite publish_all_cons, frames_for_cons.
      destruct (sendToTopic_spec (pub_time p) (pub_topic p) (pub_event p)
                  reg) as (_ & H).
      specialize (H cid). rewrite Hc in H. unfold published in H.
      rewrite (bool_decide_ext (SSE.topicId c = pub_topic p)
                 (pub_topic p = SSE.topicId c)) in H by (split; congruence).
      destruct (bool_decide (pub_topic p = SSE.topicId c)).
      * rewrite Hb in H. apply publish_all_absent. exact H.
      * exact (IH _ cid c H Hb).
Qed.

Lemma addConnection_run now cid topic r (reg : SSE.Registry) :
  SSE.addConnection now cid topic r reg =
    if SSE.broken r then (Ok cid, delete cid reg)
    else (Ok cid,
          <[cid := {| SSE.res :=
                        {| SSE.written :=
                             SSE.written r ++ [bare_connected cid topic];
                           SSE.broken := false |};
                      SSE.topicId := topic; SSE.connectedAt := now;
                      SSE.lastEventAt := now |}]> reg).
Proof.
  unfold SSE.addConnection, bind at 1, modify. unfold bind at 1.
  rewrite (sendToConnection_run now cid _ _ _ (lookup_insert_eq _ _ _)).
  cbn [SSE.res SSE.topicId SSE.connectedAt].
  destruct (SSE.broken r); cbn [fst snd]; unfold ret.
  - rewrite delete_insert_eq. reflexivity.
  - rewrite insert_insert_eq. reflexivity.
Qed.

(** X5.  [addConnection] registers the connection under its identifier after
    the first [connected] frame, and the topic has one connection more;
    when that first write fails it still returns the identifier, but
    nothing is registered.  In both cases [removeConnection] of the
    identifier gives back the registry as it was before, and removing an
    identifier that is not registered changes nothing. *)
Theorem addConnection_removeConnection (now : Z) (cid : string) (topic : Z)
    (r : SSE.Response) (reg : SSE.Registry) :
  reg !! cid = None ->
  let run := SSE.addConnection now cid topic r reg in
  run.1 = Ok cid
  /\ (SSE.broken r = false ->
      (exists c, run.2 !! cid = Some c
         /\ SSE.topicId c = topic
         /\ SSE.written (SSE.res c)
            = SSE.written r ++ [bare_connected cid topic])
      /\ getConnectionCount topic run.2 = getConnectionCount topic reg + 1)
  /\ (SSE.broken r = true -> run.2 = reg)
  /\ (forall cid', cid' <> cid -> run.2 !! cid' = reg !! cid')
  /\ (SSE.removeConnection cid run.2).2 = reg
  /\ (SSE.removeConnection cid reg).2 = reg.
Proof.
  intros Hfresh run. unfold run. rewrite addConnection_run.
  unfold SSE.removeConnection, modify.
  destruct (SSE.broken r); cbn [fst snd].
  - rewrite !delete_id by (rewrite ?lookup_delete_eq; auto).
    split; [reflexivity|]. split; [discriminate|]. split; [reflexivity|].
    split; [reflexivity|]. split; reflexivity.
  - split; [reflexivity|]. split; [|split; [discriminate|split; [|split]]].
    + intros _. split.
      * eexists. rewrite lookup_insert_eq. split; [reflexivity|].
        split; reflexivity.
      * rewrite getConnectionCount_insert by exact Hfresh.
        cbn [SSE.topicId]. rewrite bool_decide_eq_true_2 by reflexivity.
        reflexivity.
    + intros cid' Hne. apply lookup_insert_ne. congruence.
    + rewrite delete_insert_eq. apply delete_id. exact Hfresh.
    + apply delete_id. exact Hfresh.
Qed.

(** ** The cost of the pipeline in requests *)

Lemma within_requests_refl k w : within_requests k w w.
Proof. unfold within_requests. lia. Qed.

Lemma within_requests_trans k1 k2 w1 w2 w3 :
  within_requests k1 w1 w2 -> within_requests k2 w2 w3 ->
  within_requests (k1 + k2) w1 w3.
Proof. unfold within_requests. lia. Qed.

Lemma within_requests_weaken k k' w w' :
  (k <= k')%nat -> within_requests k w w' -> within_requests k' w w'.
Proof. unfold within_requests. lia. Qed.

Lemma within_requests_same k w w1 w' :
  calls w1 = calls w -> within_requests k w1 w' -> within_requests k w w'.
Proof. unfold within_requests. intros ->. auto. Qed.

Lemma callOpenAI_requests name options w :
  within_requests (Z.to_nat (default 3 (maxRetries options) + 1)) w
    (callOpenAI name options w).2.
Proof.
  unfold within_requests, callOpenAI, bind, gets.
  destruct (prompts w !! name); cbn [fst snd throw]; [|lia].
  etransitivity; [apply callOpenAI_loop_calls|]. rewrite length_seqZ. lia.
Qed.

Lemma expandContent_requests existing kind w :
  within_requests 1 w (expandContent existing kind w).2.
Proof.
  unfold within_requests, expandContent, bind, gets, request.
  destruct (OPENAI_API_KEY w); simpl; [|lia].
  destruct (service w (length (calls w))) as [[[|c t]|]|e]; simpl;
    rewrite length_app; simpl; lia.
Qed.

Lemma expand_loop_requests kind minWords attempts : forall content n w,
  within_requests (length attempts) w
    (expand_loop kind minWords attempts content n w).2.
Proof.
  induction attempts as [|a later IH]; intros content n w.
  - apply within_requests_refl.
  - rewrite expand_loop_cons.
    pose proof (expandContent_requests content kind w) as Hx.
    destruct (expandContent content kind w) as [[c1|e] w1]; cbn [fst snd] in *.
    + destruct (minWords <=? countWords c1); cbn [fst snd length].
      * eapply within_requests_weaken; [|exact Hx]. lia.
      * apply (within_requests_trans 1 _ _ _ _ Hx (IH _ _ _)).
    + eapply within_requests_weaken; [|exact Hx]. simpl. lia.
Qed.

Lemma generate_in_band_requests name options kind lo hi mr w :
  within_requests
    (Z.to_nat (default 3 (maxRetries options) + 1) + Z.to_nat mr) w
    (generate_in_band name options kind lo hi mr w).2.
Proof.
  pose proof (callOpenAI_requests name options w) as Hc.
  destruct ((callOpenAI name options w).1) as [content|e] eqn:Hf.
  - destruct (Z.le_gt_cases lo (countWords content)) as [Hlo|Hlo].
    + rewrite (gate_long_enough _ _ _ _ _ _ _ _ Hf Hlo). cbn [snd].
      eapply within_requests_weaken; [|exact Hc]. lia.
    + rewrite (gate_too_short _ _ _ _ _ _ _ _ Hf) by lia.
      pose proof (expand_loop_requests kind lo (seqZ 1 mr) content
                    (countWords content) (callOpenAI name options w).2)
        as Hx.
      rewrite length_seqZ in Hx.
      destruct (expand_loop _ _ _ _ _ _) as [[x|e] w2]; cbn [gate_result snd];
        exact (within_requests_trans _ _ _ _ _ Hc Hx).
  - rewrite (gate_first_throws _ _ _ _ _ _ _ _ Hf). cbn [snd].
    eapply within_requests_weaken; [|exact Hc]. lia.
Qed.

Lemma wp_gate_requests name options kind lo hi mr w
    (Q : Res (text * Z) -> World -> Prop) :
  (forall r w',
     within_requests
       (Z.to_nat (default 3 (maxRetries options) + 1) + Z.to_nat mr) w w' ->
     Q r w') ->
  wp (generate_in_band name options kind lo hi mr) w Q.
Proof.
  intros H. apply H, generate_in_band_requests.
Qed.

Lemma generateSingleLesson_requests topic lesson dir cb w :
  within_requests LESSON_REQUESTS w
    (generateSingleLesson topic lesson dir cb w).2.
Proof.
  set (Q := fun k (_ : Res bool) (w' : World) => within_requests k w w').
  change (wp (generateSingleLesson topic lesson dir cb) w
            (Q LESSON_REQUESTS)).
  assert (Hhandler : forall error k wk,
    (k <= LESSON_REQUESTS)%nat -> within_requests k w wk ->
    wp (update_lesson lesson.1
          (record_failure (message (categorizeError error))
             (default 0 (retry_count lesson.2) + 1)) ;;
        notify cb (onLessonError (lesson_number lesson.2)
                     (if truthy (file_path lesson.2) then podcast_step
                      else content_step)
                     (message (categorizeError error))
                     (isRetryable (categorizeError error))) ;;
        ret false) wk (Q LESSON_REQUESTS)).
  { intros error k wk Hk Hw. apply wp_bind, wp_modify.
    apply wp_bind, wp_notify; [intros _; apply wp_ret|intros e _];
      exact (within_requests_weaken _ _ _ _ Hk Hw). }
  assert (Hle : forall k, (k <= 12)%nat -> (k <= LESSON_REQUESTS)%nat)
    by (unfold LESSON_REQUESTS; auto).
  unfold generateSingleLesson. apply wp_try_catch.
  pose proof (within_requests_refl 0 w) as H0.
  apply wp_bind, wp_modify.
  apply wp_bind, wp_notify;
    [intros _|intros e _; apply (Hhandler e 0%nat); [apply Hle; lia|exact H0]].
  apply wp_bind, wp_gate_requests. intros [[body n]|e] w1 H1;
    apply (within_requests_trans _ _ w _ _ H0) in H1; simpl in H1;
    [|apply (Hhandler e 6%nat); [apply Hle; lia|exact H1]].
  clear H0. cbn [fst snd].
  apply wp_bind, wp_writeFileSync;
    [|intros e; apply (Hhandler e 6%nat); [apply Hle; lia|exact H1]].
  apply wp_bind, wp_modify.
  apply wp_bind, wp_notify;
    [intros _|intros e _; apply (Hhandler e 6%nat); [apply Hle; lia|exact H1]].
  apply wp_bind, wp_notify;
    [intros _|intros e _; apply (Hhandler e 6%nat); [apply Hle; lia|exact H1]].
  apply wp_bind, wp_gate_requests. intros [[script n2]|e] w3 H3;
    apply (within_requests_trans _ _ w _ _ H1) in H3; simpl in H3;
    [|apply (Hhandler e 12%nat); [apply Hle; lia|exact H3]].
  clear H1. cbn [fst snd].
  apply wp_bind, wp_writeFileSync;
    [|intros e; apply (Hhandler e 12%nat); [apply Hle; lia|exact H3]].
  apply wp_bind, wp_modify.
  apply wp_bind, wp_notify;
    [intros _|intros e _; apply (Hhandler e 12%nat); [apply Hle; lia|exact H3]].
  apply wp_bind, wp_notify;
    [intros _|intros e _; apply (Hhandler e 12%nat); [apply Hle; lia|exact H3]].
  apply wp_ret. exact H3.
Qed.

Lemma to_generate_cons id l later :
  to_generate ((id, l) :: later)
  = if bool_decide (eligible l) then (id, l) :: to_generate later
    else to_generate later.
Proof.
  unfold to_generate. rewrite filter_cons. cbn [snd].
  destruct (decide (eligible l)) as [H|H].
  - rewrite bool_decide_eq_true_2 by exact H. reflexivity.
  - rewrite bool_decide_eq_false_2 by exact H. reflexivity.
Qed.

Lemma generateAll_loop_requests topic total cb rows : forall fc w,
  within_requests (LESSON_REQUESTS * length (to_generate rows)) w
    (generateAll_loop topic total (path_join CONTENT_DIR (slug topic)) cb
       rows fc w).2.
Proof.
  induction rows as [|[id l] later IH]; intros fc w.
  - apply within_requests_refl.
  - rewrite generateAll_loop_cons, to_generate_cons. cbv zeta.
    destruct (bool_decide (status l = completed)) eqn:Hdone.
    { apply bool_decide_eq_true in Hdone.
      rewrite bool_decide_eq_false_2 by (intros [H _]; contradiction).
      apply IH. }
    destruct (MAX_LESSON_RETRIES <=? default 0 (retry_count l)) eqn:Hmax.
    { apply Z.leb_le in Hmax.
      rewrite bool_decide_eq_false_2 by (intros [_ H]; lia).
      apply IH. }
    apply bool_decide_eq_false in Hdone. apply Z.leb_gt in Hmax.
    rewrite bool_decide_eq_true_2 by (split; assumption).
    cbn [length]. set (w0 := with_notified _ w).
    destruct (cb (onProgress (lesson_number l) content_step total)).
    { cbn [snd]. apply (within_requests_weaken 0); [lia|].
      exact (within_requests_refl 0 w). }
    pose proof (generateSingleLesson_requests topic (id, l)
                  (path_join CONTENT_DIR (slug topic)) cb w0) as H1.
    destruct (generateSingleLesson topic (id, l) _ cb w0)
      as [[success|e] w1]; cbn [fst snd] in *.
    + eapply within_requests_weaken;
        [|exact (within_requests_trans _ _ w _ _ H1 (IH _ w1))]. lia.
    + eapply within_requests_weaken; [|exact H1]. lia.
Qed.

Lemma retry_loop_requests topic cb rows : forall s f w,
  within_requests (LESSON_REQUESTS * length rows) w
    (retry_loop topic (path_join CONTENT_DIR (slug topic)) cb rows s f w).2.
Proof.
  induction rows as [|[id l] later IH]; intros s f w.
  - apply within_requests_refl.
  - rewrite retry_loop_cons. cbn [length].
    pose proof (generateSingleLesson_requests topic (id, l)
                  (path_join CONTENT_DIR (slug topic)) cb w) as H1.
    destruct (generateSingleLesson topic (id, l) _ cb w)
      as [[[|]|e] w1]; cbn [fst snd] in *.
    + eapply within_requests_weaken;
        [|exact (within_requests_trans _ _ w _ _ H1 (IH _ _ w1))]. lia.
    + eapply within_requests_weaken;
        [|exact (within_requests_trans _ _ w _ _ H1 (IH _ _ w1))]. lia.
    + eapply within_requests_weaken; [|exact H1]. lia.
Qed.

Lemma generateAllContent_requests tid cb w :
  within_requests
    (LESSON_REQUESTS * length (to_generate (select_lessons tid w))) w
    (generateAllContent tid cb w).2.
Proof.
  set (k := (LESSON_REQUESTS * length (to_generate (select_lessons tid w)))%nat).
  change (wp (generateAllContent tid cb) w
            (fun _ w' => within_requests k w w')).
  assert (H0 : within_requests k w w)
    by (apply (within_requests_weaken 0); [lia|apply within_requests_refl]).
  unfold generateAllContent. apply wp_bind, wp_gets.
  destruct (topics w !! tid) as [topic|]; [|apply wp_throw; exact H0].
  apply wp_bind, wp_gets. cbv zeta.
  destruct (bool_decide (select_lessons tid w = []));
    [apply wp_throw; exact H0|].
  apply wp_bind, wp_ensureContentDir; [|intros e; exact H0].
  assert (Hhandler : forall error wk, within_requests k w wk ->
    wp (update_topic tid
          (set_topic_status failed (Some (message (categorizeError error)))) ;;
        modify (with_lessons
                  (fmap (fail_if_generating tid
                           (message (categorizeError error))))) ;;
        notify cb (onGenerationError (message (categorizeError error))
                     (isRetryable (categorizeError error))) ;;
        throw error) wk (fun (_ : Res unit) w' => within_requests k w w')).
  { intros error wk Hk. apply wp_bind, wp_modify. apply wp_bind, wp_modify.
    apply wp_bind, wp_notify; [intros _; apply wp_throw|intros e _];
      exact Hk. }
  apply wp_try_catch, wp_bind.
  pose proof (generateAll_loop_requests topic
                (Z.of_nat (length (select_lessons tid w))) cb
                (select_lessons tid w) 0 (disk_used w)) as H1.
  fold k in H1. change (within_requests k w
    (generateAll_loop topic (Z.of_nat (length (select_lessons tid w)))
       (path_join CONTENT_DIR (slug topic)) cb (select_lessons tid w) 0
       (disk_used w)).2) in H1.
  unfold wp at 1.
  destruct (generateAll_loop _ _ _ _ _ _ _) as [[fc|e] w1]; cbn [fst snd] in *;
    [|apply Hhandler; exact H1].
  apply wp_bind, wp_gets. cbv zeta.
  destruct (bool_decide _).
  - apply wp_bind, wp_modify.
    apply wp_notify; [intros _; exact H1|intros e _; apply Hhandler; exact H1].
  - apply wp_bind, wp_modify.
    apply wp_notify; [intros _; exact H1|intros e _; apply Hhandler; exact H1].
Qed.

Lemma retryFailedLessons_requests tid cb w :
  within_requests (LESSON_REQUESTS * length (select_retryable tid w)) w
    (retryFailedLessons tid cb w).2.
Proof.
  set (k := (LESSON_REQUESTS * length (select_retryable tid w))%nat).
  change (wp (retryFailedLessons tid cb) w
            (fun _ w' => within_requests k w w')).
  assert (H0 : within_requests k w w)
    by (apply (within_requests_weaken 0); [lia|apply within_requests_refl]).
  unfold retryFailedLessons. apply wp_bind, wp_gets.
  destruct (topics w !! tid) as [topic|]; [|apply wp_throw; exact H0].
  apply wp_bind, wp_gets.
  destruct (bool_decide (select_retryable tid w = []));
    [apply wp_ret; exact H0|].
  apply wp_bind, wp_modify.
  apply wp_bind, wp_ensureContentDir; [|intros e; exact H0].
  apply wp_bind.
  set (w0 := disk_used _).
  pose proof (retry_loop_requests topic cb (select_retryable tid w) 0 0 w0)
    as H1. fold k in H1.
  change (within_requests k w
            (retry_loop topic (path_join CONTENT_DIR (slug topic)) cb
               (select_retryable tid w) 0 0 w0).2) in H1.
  unfold wp at 1.
  destruct (retry_loop _ _ _ _ _ _ _) as [[counts|e] w1]; cbn [fst snd] in *;
    [|exact H1].
  apply wp_bind, wp_gets. cbv zeta. apply wp_bind.
  destruct (bool_decide _).
  - apply wp_bind, wp_modify.
    apply wp_notify; [intros _; apply wp_ret|intros e _]; exact H1.
  - apply wp_bind, wp_modify.
    apply wp_notify; [intros _; apply wp_ret|intros e _]; exact H1.
Qed.

Lemma insert_lessons_requests tid entries : forall w,
  calls (insert_lessons tid entries w).2 = calls w.
Proof.
  induction entries as [|entry later IH]; intros w; [reflexivity|].
  rewrite insert_lessons_cons.
  destruct (bound_entry entry) as [x|e]; [|reflexivity].
  rewrite IH. reflexivity.
Qed.

Lemma breakdownTopic_requests JSON_parse tid cb w :
  within_requests 4 w (breakdownTopic JSON_parse tid cb w).2.
Proof.
  change (wp (breakdownTopic JSON_parse tid cb) w
            (fun _ w' => within_requests 4 w w')).
  assert (H0 : within_requests 4 w w)
    by (apply (within_requests_weaken 0); [lia|apply within_requests_refl]).
  unfold breakdownTopic. apply wp_bind, wp_gets.
  destruct (topics w !! tid) as [topic|]; [|apply wp_throw; exact H0].
  apply wp_bind, wp_gets.
  destruct (negb (isApiKeyConfigured w)); [apply wp_throw; exact H0|].
  apply wp_bind, wp_modify.
  apply wp_bind, wp_notify; [intros _|intros e _; exact H0].
  assert (Hhandler : forall error wk, within_requests 4 w wk ->
    wp (update_topic tid
          (set_topic_status failed (Some (message (categorizeError error)))) ;;
        notify cb (onGenerationError (message (categorizeError error))
                     (isRetryable (categorizeError error))) ;;
        throw error) wk (fun (_ : Res JsValue) w' => within_requests 4 w w')).
  { intros error wk Hk. apply wp_bind, wp_modify.
    apply wp_bind, wp_notify; [intros _; apply wp_throw|intros e _];
      exact Hk. }
  apply wp_try_catch, wp_bind.
  set (w0 := with_notified _ _).
  pose proof (callOpenAI_requests "topic_breakdown"
                {| maxTokens := None; jsonResponse := Some true;
                   maxRetries := None; timeout := None; onRetry := None |}
                w0) as H1.
  change (within_requests 4 w
            (callOpenAI "topic_breakdown"
               {| maxTokens := None; jsonResponse := Some true;
                  maxRetries := None; timeout := None; onRetry := None |}
               w0).2) in H1.
  unfold wp at 1.
  destruct (callOpenAI _ _ w0) as [[response|e] w1]; cbn [fst snd] in *;
    [|apply Hhandler; exact H1].
  apply wp_bind, wp_lift.
  destruct (parseJsonResponse JSON_parse response) as [breakdown|e];
    [|apply Hhandler; exact H1].
  apply wp_bind, wp_lift.
  destruct (js_get breakdown "lessons") as [field|e];
    [|apply Hhandler; exact H1].
  destruct field as [[| | | |entries|]|];
    try (apply wp_throw, Hhandler; exact H1).
  apply wp_bind, wp_lift.
  destruct (match js_get breakdown "topic_description" with
            | Ok v => bind_text v | Throw e => Throw e end) as [descr|e];
    [|apply Hhandler; exact H1].
  apply wp_bind, wp_modify. apply wp_bind.
  set (w2 := with_topics _ w1).
  pose proof (insert_lessons_requests tid entries w2) as H2.
  unfold wp at 1.
  destruct (insert_lessons tid entries w2) as [[[]|e] w3]; cbn [fst snd] in *.
  - apply wp_bind, wp_notify; [intros _; apply wp_ret|intros e _; apply Hhandler];
      unfold within_requests in *; cbn [calls with_notified]; rewrite H2;
      exact H1.
  - apply Hhandler. unfold within_requests in *. rewrite H2. exact H1.
Qed.

(** X6.  The cost in requests.  A breakdown takes at most 4 requests to the
    completion service; one lesson takes at most 12; a generate-all pass
    takes at most 12 for each lesson of the topic that is neither
    completed nor out of retries, the others costing nothing; and a retry
    takes at most 12 for each lesson it selects.  This holds whether the
    operation returns or throws. *)
Theorem requests_are_bounded (JSON_parse : text -> option JsValue) (tid : Z)
    (cb : Callbacks) (w : World) :
  within_requests 4 w (breakdownTopic JSON_parse tid cb w).2
  /\ (forall topic lesson dir,
        within_requests LESSON_REQUESTS w
          (generateSingleLesson topic lesson dir cb w).2)
  /\ within_requests
       (LESSON_REQUESTS * length (to_generate (select_lessons tid w))) w
       (generateAllContent tid cb w).2
  /\ within_requests (LESSON_REQUESTS * length (select_retryable tid w)) w
       (retryFailedLessons tid cb w).2.
Proof.
  split; [apply breakdownTopic_requests|].
  split; [intros; apply generateSingleLesson_requests|].
  split; [apply generateAllContent_requests|apply retryFailedLessons_requests].
Qed.

(** ** The status query *)

Lemma count_status_nonneg st rows : 0 <= count_status st rows.
Proof. unfold count_status. lia. Qed.

Lemma count_status_disjoint (rows : list (Z * Lesson)) :
  count_status completed rows + count_status failed rows
  <= Z.of_nat (length rows).
Proof.
  unfold count_status. induction rows as [|r rows IH]; [simpl; lia|].
  rewrite !filter_cons.
  destruct (decide (status r.2 = completed)) as [Hc|Hc];
    destruct (decide (status r.2 = failed)) as [Hf|Hf]; cbn [length];
    try lia.
  rewrite Hc in Hf. discriminate.
Qed.

Lemma find_generating_Some rows r :
  find_generating rows = Some r -> r ∈ rows /\ status r.2 = generating.
Proof.
  unfold find_generating. intros H. apply find_some in H as [Hin Hs].
  split; [apply list_elem_of_In; exact Hin|].
  apply bool_decide_eq_true in Hs. exact Hs.
Qed.

#[global] Instance by_lesson_number_total : Total by_lesson_number.
Proof. intros a b. unfold by_lesson_number. lia. Qed.

#[global] Instance by_lesson_number_trans : Transitive by_lesson_number.
Proof. intros a b c. unfold by_lesson_number. lia. Qed.

Lemma select_lessons_sorted tid w :
  StronglySorted by_lesson_number (select_lessons tid w).
Proof. apply (StronglySorted_merge_sort by_lesson_number). Qed.

Lemma NoDup_select_lessons tid w : NoDup (select_lessons tid w).*1.
Proof.
  unfold select_lessons. rewrite merge_sort_Permutation.
  apply (NoDup_fmap_fst (filter _ (map_to_list (lessons w)))).
  - intros j l1 l2 H1 H2. apply list_elem_of_filter in H1 as [_ H1].
    apply list_elem_of_filter in H2 as [_ H2].
    apply elem_of_map_to_list in H1, H2. congruence.
  - apply NoDup_filter, NoDup_map_to_list.
Qed.

(** Lessons that carry the same number are listed in the order of their
    keys, and the first of them that is being generated is the current
    one. *)
Example equal_numbers_come_by_key :
  exists st, getGenerationStatus 1 twins = Ok st
    /\ (status_lessons st).*1 = [10; 11]
    /\ step (progress st) = podcast_phase.
Proof. eexists. vm_compute. repeat split. Qed.

(** X7.  [getGenerationStatus] throws exactly when the topic does not exist.
    Otherwise its snapshot holds the topic and its lessons, which are the
    rows of the topic, each once, by lesson number and, among equal
    numbers, by key; the
    total is their number, the completed and failed counts are disjoint
    parts of it; the step is [breakdown] exactly when there is no lesson
    and [complete] exactly when there are lessons and all are completed;
    [podcast] is reported only for a lesson being generated whose body
    is on record; and the current lesson, when given, is the number of a
    lesson being generated, a number 0 being reported as none. *)
Theorem getGenerationStatus_consistent (tid : Z) (w : World) :
  match topics w !! tid with
  | None => getGenerationStatus tid w = Throw not_found
  | Some topic =>
      exists st, getGenerationStatus tid w = Ok st
        /\ status_topic st = topic
        /\ status_lessons st = select_lessons tid w
        /\ (forall j l, (j, l) ∈ status_lessons st
                        <-> lessons w !! j = Some l /\ topic_id l = tid)
        /\ NoDup (status_lessons st).*1
        /\ StronglySorted
             (fun a b =>
                lesson_number a.2 < lesson_number b.2
                \/ (lesson_number a.2 = lesson_number b.2 /\ a.1 <= b.1))
             (status_lessons st)
        /\ let rows := select_lessons tid w in
           let p := progress st in
           total p = Z.of_nat (length rows)
           /\ 0 <= completed_lessons p /\ 0 <= failed_lessons p
           /\ completed_lessons p + failed_lessons p <= total p
           /\ (step p = breakdown_phase <-> rows = [])
           /\ (step p = complete_phase
               <-> rows <> [] /\ forall r, r ∈ rows -> status r.2 = completed)
           /\ (step p = podcast_phase ->
               exists r, r ∈ rows /\ status r.2 = generating
                         /\ truthy (file_path r.2) = true)
           /\ (forall n, current p = Some n ->
                 n <> 0 /\ exists r, r ∈ rows /\ status r.2 = generating
                                     /\ lesson_number r.2 = n)
  end.
Proof.
  unfold getGenerationStatus.
  destruct (topics w !! tid) as [topic|]; [|reflexivity].
  eexists. split; [reflexivity|]. cbn [status_topic status_lessons progress].
  split; [reflexivity|]. split; [reflexivity|].
  split; [intros j l; apply elem_of_select_lessons|].
  split; [apply NoDup_select_lessons|].
  split; [exact (select_lessons_sorted tid w)|].
  set (rows := select_lessons tid w). cbv zeta.
  cbn [total completed_lessons failed_lessons step current].
  split; [reflexivity|]. split; [apply count_status_nonneg|].
  split; [apply count_status_nonneg|]. split; [apply count_status_disjoint|].
  split; [|split; [|split]].
  - destruct (decide (rows = [])) as [He|He].
    + rewrite bool_decide_eq_true_2 by exact He. tauto.
    + rewrite bool_decide_eq_false_2 by exact He.
      split; [|contradiction]. case_bool_decide; [discriminate|].
      destruct (find_generating rows) as [r|]; [|discriminate].
      destruct (truthy (file_path r.2)); discriminate.
  - destruct (decide (rows = [])) as [He|He].
    + rewrite bool_decide_eq_true_2 by exact He.
      split; [discriminate|]. intros [H _]. contradiction.
    + rewrite bool_decide_eq_false_2 by exact He.
      rewrite <- count_status_all. case_bool_decide as Hall.
      * tauto.
      * split; [|intros [_ H]; contradiction].
        destruct (find_generating rows) as [r|]; [|discriminate].
        destruct (truthy (file_path r.2)); discriminate.
  - case_bool_decide; [discriminate|]. case_bool_decide; [discriminate|].
    destruct (find_generating rows) as [r|] eqn:Hf; [|discriminate].
    apply find_generating_Some in Hf as [Hin Hs].
    destruct (truthy (file_path r.2)) eqn:Ht; [|discriminate].
    intros _. exists r. auto.
  - intros n. destruct (find_generating rows) as [r|] eqn:Hf; [|discriminate].
    apply find_generating_Some in Hf as [Hin Hs].
    case_bool_decide as Hz; [discriminate|]. intros [= <-].
    split; [exact Hz|]. exists r. auto.
Qed.

(** ** The counts of a retry *)

Lemma with_status_in_cons w st id l later :
  with_status_in w st ((id, l) :: later)
  = if bool_decide (status <$> lessons w !! id = Some st)
    then (id, l) :: with_status_in w st later
    else with_status_in w st later.
Proof.
  unfold with_status_in. rewrite filter_cons. cbn [fst].
  destruct (decide (status <$> lessons w !! id = Some st)) as [H|H].
  - rewrite bool_decide_eq_true_2 by exact H. reflexivity.
  - rewrite bool_decide_eq_false_2 by exact H. reflexivity.
Qed.

(** A pass of [retry_loop] leaves the rows it was not given as they
    were. *)
Lemma retry_loop_other_rows topic cb rows s f w j :
  (forall j l, (j, l) ∈ rows -> eligible l) ->
  j ∉ rows.*1 ->
  lessons (retry_loop topic (path_join CONTENT_DIR (slug topic)) cb rows
             s f w).2 !! j
  = lessons w !! j.
Proof.
  intros Hel Hj.
  destruct (retry_loop_spec topic cb rows Hel s f w) as ((_ & _ & H) & _).
  specialize (H j). destruct (lessons w !! j) as [a|]; [|exact H].
  destruct H as (b & Hb & _ & _ & [->|((l & Hl & _) & _)]); [exact Hb|].
  exfalso. apply Hj. apply list_elem_of_fmap. exists (j, l). auto.
Qed.

Lemma retry_loop_counts topic cb rows :
  NoDup rows.*1 ->
  (forall j l, (j, l) ∈ rows -> eligible l) ->
  forall s f w,
  (forall j l, (j, l) ∈ rows -> is_Some (lessons w !! j)) ->
  let run := retry_loop topic (path_join CONTENT_DIR (slug topic)) cb rows
               s f w in
  forall x y, run.1 = Ok (x, y) ->
    x = s + Z.of_nat (length (with_status_in run.2 completed rows))
    /\ y = f + Z.of_nat (length (with_status_in run.2 failed rows)).
Proof.
  induction rows as [|[id l] later IH]; intros Hnd Hel s f w Hrows.
  - simpl. intros x y [= <- <-]. split; lia.
  - apply NoDup_cons in Hnd as [Hfresh Hnd]. cbn [fst] in Hfresh.
    assert (Hel' : forall j l, (j, l) ∈ later -> eligible l)
      by (intros j l' H; apply (Hel j l'); right; exact H).
    destruct (Hrows id l) as [a Ha]; [left|].
    rewrite retry_loop_cons.
    pose proof (generateSingleLesson_row topic id l
                  (path_join CONTENT_DIR (slug topic)) cb w a Ha)
      as (b & Hb & Hcase).
    destruct (generateSingleLesson_spec topic id l
                (path_join CONTENT_DIR (slug topic)) cb w)
      as (_ & F & (_ & _ & _ & _ & Hl) & _).
    destruct (generateSingleLesson topic (id, l) _ cb w)
      as [[success|e] w1]; cbn [fst snd] in *; [|intros x y [=]].
    assert (Hrows1 : forall j l', (j, l') ∈ later -> is_Some (lessons w1 !! j)).
    { intros j l' H. rewrite Hl. apply lookup_alter_is_Some.
      apply (Hrows j l'). right. exact H. }
    assert (Hkept : forall s' f',
      lessons (retry_loop topic (path_join CONTENT_DIR (slug topic)) cb later
                 s' f' w1).2 !! id = Some b).
    { intros s' f'. rewrite retry_loop_other_rows by assumption. exact Hb. }
    destruct success.
    + destruct Hcase as [(_ & body & script & _ & _ & Hbb)|(Hne & _)];
        [|contradiction].
      assert (Hs : status b = completed) by (rewrite Hbb; reflexivity).
      intros x y Hr.
      destruct (IH Hnd Hel' (s + 1) f w1 Hrows1 x y Hr) as (Hx & Hy).
      rewrite !with_status_in_cons, Hkept. cbn [fmap option_fmap option_map].
      rewrite Hs.
      rewrite bool_decide_eq_true_2 by reflexivity.
      rewrite bool_decide_eq_false_2 by discriminate.
      cbn [length]. split; lia.
    + destruct Hcase as [(Hr & _)|(_ & Hs & _)]; [discriminate|].
      intros x y Hr.
      destruct (IH Hnd Hel' s (f + 1) w1 Hrows1 x y Hr) as (Hx & Hy).
      rewrite !with_status_in_cons, Hkept. cbn [fmap option_fmap option_map].
      rewrite Hs.
      rewrite bool_decide_eq_false_2 by discriminate.
      rewrite bool_decide_eq_true_2 by reflexivity.
      cbn [length]. split; lia.
Qed.

Lemma with_status_in_disjoint w rows :
  (forall j l, (j, l) ∈ rows ->
     exists b, lessons w !! j = Some b /\ settled b) ->
  (length (with_status_in w completed rows)
   + length (with_status_in w failed rows) = length rows)%nat.
Proof.
  induction rows as [|[j l] later IH]; intros H; [reflexivity|].
  rewrite !with_status_in_cons.
  destruct (H j l) as (b & Hb & Hs); [left|].
  rewrite Hb. cbn [fmap option_fmap option_map].
  specialize (IH (fun j l Hin => H j l (list_elem_of_further _ _ _ Hin))).
  destruct Hs as [Hs|Hs]; rewrite Hs.
  - rewrite bool_decide_eq_true_2 by reflexivity.
    rewrite bool_decide_eq_false_2 by discriminate. cbn [length]. lia.
  - rewrite bool_decide_eq_false_2 by discriminate.
    rewrite bool_decide_eq_true_2 by reflexivity. cbn [length]. lia.
Qed.

Lemma NoDup_select_retryable tid w : NoDup (select_retryable tid w).*1.
Proof.
  unfold select_retryable. rewrite merge_sort_Permutation.
  apply (NoDup_fmap_fst (filter _ (map_to_list (lessons w)))).
  - intros j l1 l2 H1 H2. apply list_elem_of_filter in H1 as [_ H1].
    apply list_elem_of_filter in H2 as [_ H2].
    apply elem_of_map_to_list in H1, H2. congruence.
  - apply NoDup_filter, NoDup_map_to_list.
Qed.

Lemma retryFailedLessons_counts tid cb w :
  wp (retryFailedLessons tid cb) w
    (fun r w' => forall x, r = Ok x ->
       let rows := select_retryable tid w in
       retried x = Z.of_nat (length rows)
       /\ succeeded x = Z.of_nat (length (with_status_in w' completed rows))
       /\ failed_again x = Z.of_nat (length (with_status_in w' failed rows))
       /\ retried x = succeeded x + failed_again x
       /\ (rows = [] -> w' = w)).
Proof.
  unfold retryFailedLessons. apply wp_bind, wp_gets.
  destruct (topics w !! tid) as [topic|]; [|apply wp_throw; intros x [=]].
  apply wp_bind, wp_gets.
  destruct (decide (select_retryable tid w = [])) as [He|He].
  { rewrite bool_decide_eq_true_2 by exact He. apply wp_ret.
    intros x [= <-]. cbv zeta. rewrite He. simpl. auto. }
  rewrite bool_decide_eq_false_2 by exact He.
  apply wp_bind, wp_modify.
  apply wp_bind, wp_ensureContentDir; [|intros e x [=]].
  apply wp_bind. set (w0 := disk_used _).
  set (rows := select_retryable tid w).
  assert (Hel : forall j l, (j, l) ∈ rows -> eligible l).
  { intros j l H. apply elem_of_select_retryable in H as [_ H].
    exact (retryable_row_eligible tid j l H). }
  assert (Hrows : forall j l, (j, l) ∈ rows -> is_Some (lessons w0 !! j)).
  { intros j l H. apply elem_of_select_retryable in H as [H _]. eauto. }
  pose proof (retry_loop_counts topic cb rows (NoDup_select_retryable tid w)
                Hel 0 0 w0 Hrows) as Hcount.
  destruct (retry_loop_spec topic cb rows Hel 0 0 w0) as (_ & _ & Hset & _).
  unfold wp at 1.
  destruct (retry_loop _ _ _ _ _ _ _) as [[[s f]|e] w1]; cbn [fst snd] in *;
    [|intros x [=]].
  destruct (Hcount s f eq_refl) as (Hs & Hf). specialize (Hset _ eq_refl).
  assert (Hsum : (length (with_status_in w1 completed rows)
                  + length (with_status_in w1 failed rows)
                  = length rows)%nat).
  { apply with_status_in_disjoint. intros j l Hin.
    destruct (Hrows j l Hin) as [a Ha]. exact (Hset j l a Hin (Hel j l Hin) Ha). }
  assert (Hdone : forall w2, lessons w2 = lessons w1 ->
            forall x, Ok {| retried := Z.of_nat (length rows); succeeded := s;
                            failed_again := f |} = Ok x ->
            retried x = Z.of_nat (length rows)
            /\ succeeded x = Z.of_nat (length (with_status_in w2 completed rows))
            /\ failed_again x = Z.of_nat (length (with_status_in w2 failed rows))
            /\ retried x = succeeded x + failed_again x
            /\ (rows = [] -> w2 = w)).
  { intros w2 Hl x [= <-]. cbn [retried succeeded failed_again].
    unfold with_status_in in *. rewrite Hl.
    split; [reflexivity|]. split; [lia|]. split; [lia|]. split; [lia|].
    intros H. contradiction. }
  apply wp_bind, wp_gets. cbv zeta. apply wp_bind.
  destruct (bool_decide _).
  - apply wp_bind, wp_modify.
    apply wp_notify; [intros _; apply wp_ret|intros e _ x [=]].
    apply Hdone. reflexivity.
  - apply wp_bind, wp_modify.
    apply wp_notify; [intros _; apply wp_ret|intros e _ x [=]].
    apply Hdone. reflexivity.
Qed.

Lemma retry_counts_of tid cb w x :
  (retryFailedLessons tid cb w).1 = Ok x ->
  retried x = Z.of_nat (length (select_retryable tid w))
  /\ retried x = succeeded x + failed_again x.
Proof.
  intros H. destruct (retryFailedLessons_counts tid cb w x H)
    as (H1 & _ & _ & H2 & _). auto.
Qed.

(** X8.  The counts [retryFailedLessons] returns agree with the store it
    leaves: [retried] is the number of lessons it selected, [succeeded]
    the number of those that are now completed, [failed] the number of
    those that are now failed, and the two add up to [retried].  When
    nothing can be retried the store, the status of the topic included,
    is left as it was. *)
Theorem retry_counts_agree (tid : Z) (cb : Callbacks) (w : World)
    (x : RetryResult) :
  (retryFailedLessons tid cb w).1 = Ok x ->
  let rows := select_retryable tid w in
  let w' := (retryFailedLessons tid cb w).2 in
  retried x = Z.of_nat (length rows)
  /\ succeeded x = Z.of_nat (length (with_status_in w' completed rows))
  /\ failed_again x = Z.of_nat (length (with_status_in w' failed rows))
  /\ retried x = succeeded x + failed_again x
  /\ (rows = [] -> w' = w).
Proof.
  intros H. exact (retryFailedLessons_counts tid cb w x H).
Qed.

(** Every row given to [retry_loop] is run: when the loop returns, the
    row is [completed], or [failed] with one more failure on record than
    it was selected with. *)
Lemma retry_loop_reruns topic cb rows :
  NoDup rows.*1 ->
  (forall j l, (j, l) ∈ rows -> eligible l) ->
  forall s f w,
  (forall j l, (j, l) ∈ rows -> is_Some (lessons w !! j)) ->
  let run := retry_loop topic (path_join CONTENT_DIR (slug topic)) cb rows
               s f w in
  forall x, run.1 = Ok x ->
  forall j l, (j, l) ∈ rows ->
    exists b, lessons run.2 !! j = Some b
      /\ (status b = completed
          \/ (status b = failed
              /\ retry_count b = Some (default 0 (retry_count l) + 1))).
Proof.
  induction rows as [|[id l0] later IH]; intros Hnd Hel s f w Hrows.
  - intros run x _ j l Hin. apply elem_of_nil in Hin. contradiction.
  - apply NoDup_cons in Hnd as [Hfresh Hnd]. cbn [fst] in Hfresh.
    assert (Hel' : forall j l, (j, l) ∈ later -> eligible l)
      by (intros j l' H; apply (Hel j l'); right; exact H).
    destruct (Hrows id l0) as [a Ha]; [left|].
    rewrite retry_loop_cons.
    pose proof (generateSingleLesson_row topic id l0
                  (path_join CONTENT_DIR (slug topic)) cb w a Ha)
      as (b & Hb & Hcase).
    destruct (generateSingleLesson_spec topic id l0
                (path_join CONTENT_DIR (slug topic)) cb w)
      as (_ & F & (_ & _ & _ & _ & Hl) & _).
    destruct (generateSingleLesson topic (id, l0) _ cb w)
      as [[success|e] w1]; cbn [fst snd] in *; [|intros x [=]].
    assert (Hrows1 : forall j l', (j, l') ∈ later -> is_Some (lessons w1 !! j)).
    { intros j l' H. rewrite Hl. apply lookup_alter_is_Some.
      apply (Hrows j l'). right. exact H. }
    assert (Hkept : forall s' f',
      lessons (retry_loop topic (path_join CONTENT_DIR (slug topic)) cb later
                 s' f' w1).2 !! id = Some b).
    { intros s' f'. rewrite retry_loop_other_rows by assumption. exact Hb. }
    assert (Hhead : status b = completed
                    \/ (status b = failed
                        /\ retry_count b
                           = Some (default 0 (retry_count l0) + 1))).
    { destruct Hcase as [(_ & body & script & _ & _ & ->)|(_ & Hs & Hr)];
        [left; reflexivity|right; auto]. }
    destruct success; intros x Hx j l Hin;
      apply elem_of_cons in Hin as [[= -> ->]|Hin];
      try (exists b; split; [apply Hkept|exact Hhead]).
    + exact (IH Hnd Hel' (s + 1) f w1 Hrows1 x Hx j l Hin).
    + exact (IH Hnd Hel' s (f + 1) w1 Hrows1 x Hx j l Hin).
Qed.

Lemma retryFailedLessons_reruns tid cb w :
  wp (retryFailedLessons tid cb) w
    (fun r w' => forall x, r = Ok x ->
       forall j l, (j, l) ∈ select_retryable tid w ->
         exists b, lessons w' !! j = Some b
           /\ (status b = completed
               \/ (status b = failed
                   /\ retry_count b = Some (default 0 (retry_count l) + 1)))).
Proof.
  unfold retryFailedLessons. apply wp_bind, wp_gets.
  destruct (topics w !! tid) as [topic|]; [|apply wp_throw; intros x [=]].
  apply wp_bind, wp_gets.
  destruct (decide (select_retryable tid w = [])) as [He|He].
  { rewrite bool_decide_eq_true_2 by exact He. apply wp_ret.
    intros x _ j l Hin. rewrite He in Hin. apply elem_of_nil in Hin.
    contradiction. }
  rewrite bool_decide_eq_false_2 by exact He.
  apply wp_bind, wp_modify.
  apply wp_bind, wp_ensureContentDir; [|intros e x [=]].
  apply wp_bind. set (w0 := disk_used _).
  set (rows := select_retryable tid w).
  assert (Hel : forall j l, (j, l) ∈ rows -> eligible l).
  { intros j l H. apply elem_of_select_retryable in H as [_ H].
    exact (retryable_row_eligible tid j l H). }
  assert (Hrows : forall j l, (j, l) ∈ rows -> is_Some (lessons w0 !! j)).
  { intros j l H. apply elem_of_select_retryable in H as [H _]. eauto. }
  pose proof (retry_loop_reruns topic cb rows (NoDup_select_retryable tid w)
                Hel 0 0 w0 Hrows) as Hrun.
  unfold wp at 1.
  destruct (retry_loop _ _ _ _ _ _ _) as [[c|e] w1]; cbn [fst snd] in *;
    [|intros x [=]].
  specialize (Hrun c eq_refl).
  apply wp_bind, wp_gets. cbv zeta. apply wp_bind.
  destruct (bool_decide _).
  - apply wp_bind, wp_modify.
    apply wp_notify; [intros _; apply wp_ret|intros e _ x [=]].
    intros x _. exact Hrun.
  - apply wp_bind, wp_modify.
    apply wp_notify; [intros _; apply wp_ret|intros e _ x [=]].
    intros x _. exact Hrun.
Qed.

(** When the directory of the topic is there or can be made and the
    handlers return, a retry returns. *)
Lemma retryFailedLessons_runs tid cb w topic :
  topics w !! tid = Some topic ->
  disk w (writes w) = None ->
  handlers_return cb ->
  exists x, (retryFailedLessons tid cb w).1 = Ok x.
Proof.
  intros Ht Hdisk Hret.
  pose proof (retryFailedLessons_spec tid cb w) as H.
  unfold wp in H. rewrite Ht, Hdisk in H. cbv zeta in H.
  destruct (bool_decide (select_retryable tid w = [])).
  - destruct H as [-> _]. eauto.
  - destruct H as (_ & [(x & -> & _)|(e & ev & _ & Hev & Hcb)]); [eauto|].
    rewrite (Hret ev Hev) in Hcb. discriminate.
Qed.

(** C1.  Partial-failure preservation.  For a topic that has lessons,
    [generateAllContent] leaves every lesson that is already [completed]
    as it was, with its status, file paths and word counts, whatever the
    outcome of the pass, and removes no file.  When the directory of the
    topic is there or can be made and the handlers return, the pass runs
    to its end whichever lessons fail; when the directory cannot be made
    the call throws before its first lesson.  After a pass that returned,
    every lesson it had to generate is [completed] or [failed], and the
    topic is marked [completed] only if every lesson is; otherwise it is
    marked [failed], with a text that gives the number of completed
    lessons over the number of lessons.
    [retryFailedLessons] then selects exactly the lessons of the topic
    that are [failed] or [pending] with fewer than three failures on
    record, leaves the completed ones and every other lesson it did not
    select as they are, returns under the same two conditions, and when
    it returns it has run every lesson it selected: the lesson is
    [completed], or [failed] with one more failure on record. *)
Theorem generate_all_preserves_progress (tid : Z) (cb : Callbacks)
    (w : World) (topic : Topic) :
  topics w !! tid = Some topic ->
  select_lessons tid w <> [] ->
  let run := generateAllContent tid cb w in
  let final := select_lessons tid run.2 in
  (* completed lessons are skipped: their rows are what they were *)
  (forall j a, lessons w !! j = Some a -> status a = completed ->
     lessons run.2 !! j = Some a)
  (* no file is removed *)
  /\ files_kept w run.2
  (* a failed lesson does not stop the pass *)
  /\ (disk w (writes w) = None -> handlers_return cb -> run.1 = Ok tt)
  (* without its directory the pass does not start *)
  /\ (forall e, disk w (writes w) = Some e ->
        run.1 = Throw e /\ lessons run.2 = lessons w
        /\ topics run.2 = topics w)
  /\ (run.1 = Ok tt ->
      (forall j a, lessons w !! j = Some a -> topic_id a = tid ->
         eligible a ->
         exists b, lessons run.2 !! j = Some b /\ settled b)
      (* the topic is completed only if every lesson is, and failed with
         the ratio otherwise *)
      /\ exists t', topics run.2 !! tid = Some t'
           /\ ((forall r, r ∈ final -> status r.2 = completed) ->
               topic_status t' = completed /\ topic_last_error t' = None)
           /\ (~ (forall r, r ∈ final -> status r.2 = completed) ->
               topic_status t' = failed
               /\ exists failedCount : Z,
                    topic_last_error t' =
                      Some (pretty failedCount
                            +:+ " lesson(s) failed to generate. "
                            +:+ pretty (count_status completed final)
                            +:+ "/" +:+ pretty (Z.of_nat (length final))
                            +:+ " completed.")))
  (* a retry selects the lessons that can be retried, all of them and no
     other, and runs each of them *)
  /\ (forall cb',
        let retry := retryFailedLessons tid cb' run.2 in
        (forall j l, (j, l) ∈ select_retryable tid run.2 <->
           lessons run.2 !! j = Some l /\ topic_id l = tid
           /\ (status l = failed \/ status l = pending)
           /\ match retry_count l with
              | Some n => n < MAX_LESSON_RETRIES
              | None => True
              end)
        /\ (forall j a, lessons run.2 !! j = Some a -> status a = completed ->
              lessons retry.2 !! j = Some a)
        /\ (forall j a, lessons run.2 !! j = Some a ->
              (j, a) ∉ select_retryable tid run.2 ->
              lessons retry.2 !! j = Some a)
        /\ (disk run.2 (writes run.2) = None -> handlers_return cb' ->
            exists x, retry.1 = Ok x)
        /\ (forall x, retry.1 = Ok x ->
              retried x = Z.of_nat (length (select_retryable tid run.2))
              /\ forall j l, (j, l) ∈ select_retryable tid run.2 ->
                   exists b, lessons retry.2 !! j = Some b
                     /\ (status b = completed
                         \/ (status b = failed
                             /\ retry_count b
                                = Some (default 0 (retry_count l) + 1))))).
Proof.
  intros Htopic Hrows run final.
  assert (Hspec : if disk w (writes w) is Some e
                  then run = (Throw e, disk_used w)
                  else pass_outcome tid cb (select_lessons tid w) w
                         run.1 run.2).
  { pose proof (generateAllContent_spec tid cb w) as H. unfold wp in H.
    fold run in H. rewrite Htopic in H. cbv zeta in H.
    rewrite bool_decide_eq_false_2 in H by exact Hrows.
    destruct (disk w (writes w)) as [e|]; [|exact H].
    destruct run as [r w']. cbn [fst snd] in H. destruct H as [-> ->].
    reflexivity. }
  split; [|split; [|split; [|split; [|split]]]].
  - intros j a Ha Hdone.
    apply generateAllContent_keeps; [exact Ha| |congruence].
    apply completed_not_eligible, Hdone.
  - intros p Hp. destruct (disk w (writes w)) as [e|].
    + rewrite Hspec. exact Hp.
    + destruct Hspec as (w2 & (_ & Hk & _) & Hf & _). rewrite Hf.
      exact (Hk p Hp).
  - intros Hdisk Hret. rewrite Hdisk in Hspec.
    destruct Hspec as (w2 & _ & _ & _ & H).
    destruct H as [(Hr & _)|(e & e0 & ev & t' & _ & Hev & Hcb & _)];
      [exact Hr|].
    rewrite (Hret ev Hev) in Hcb. discriminate.
  - intros e Hdisk. rewrite Hdisk in Hspec. rewrite Hspec. auto.
  - intros Hok. destruct (disk w (writes w)) as [e|].
    { rewrite Hspec in Hok. discriminate. }
    destruct Hspec as (w2 & Hev & _ & _ & H).
    destruct H as [(_ & Hset & Hl & fc & Ht)|(e & e0 & ev & t' & Hr & _)];
      [|congruence].
    split.
    + intros j a Ha Hta He. rewrite Hl.
      apply (Hset j a a); [apply elem_of_select_lessons; auto|exact He|exact Ha].
    + assert (Hfinal : select_lessons tid w2 = final)
        by (symmetry; apply select_lessons_same, Hl).
      rewrite Hfinal in Ht.
      eexists. split; [rewrite Ht, lookup_alter_eq, Htopic; reflexivity|].
      unfold verdict. split.
      * intros Hall. apply count_status_all in Hall.
        rewrite bool_decide_eq_true_2 by exact Hall. split; reflexivity.
      * intros Hnot.
        rewrite bool_decide_eq_false_2
          by (intros Hc; apply Hnot, count_status_all, Hc).
        split; [reflexivity|]. exists fc. reflexivity.
  - intros cb' retry. split; [|split; [|split; [|split]]].
    + intros j l. rewrite elem_of_select_retryable. unfold retryable_row.
      cbn [snd]. tauto.
    + intros j a Ha Hdone. apply retryFailedLessons_keeps; [exact Ha|].
      apply completed_not_eligible, Hdone.
    + intros j a Ha Hne. apply retryFailedLessons_unselected; assumption.
    + intros Hdisk Hret.
      assert (Hthere : exists t', topics run.2 !! tid = Some t').
      { destruct (disk w (writes w)) as [e|].
        - rewrite Hspec. exists topic. exact Htopic.
        - destruct Hspec as (w2 & _ & _ & _ & H).
          destruct H as [(_ & _ & _ & fc & Ht)
                        |(e & e0 & ev & t' & _ & _ & _ & _ & Ht & _)].
          + rewrite Ht, lookup_alter_eq, Htopic. eauto.
          + eauto. }
      destruct Hthere as [t' Ht'].
      exact (retryFailedLessons_runs tid cb' run.2 t' Ht' Hdisk Hret).
    + intros x Hx. split; [apply (retry_counts_of tid cb' run.2 x Hx)|].
      exact (retryFailedLessons_reruns tid cb' run.2 x Hx).
Qed.

Lemma generate_all_preserves_progress_witness :
  topics five_lessons !! 1 = Some example_topic
  /\ select_lessons 1 five_lessons <> []
  /\ (let run := generateAllContent 1 createSSEProgressCallbacks
                   five_lessons in
      run.1 = Ok tt
      /\ (exists l, (12, l) ∈ select_retryable 1 run.2)
      /\ exists x b,
           (retryFailedLessons 1 createSSEProgressCallbacks run.2).1 = Ok x
           /\ retried x = 1
           /\ lessons (retryFailedLessons 1 createSSEProgressCallbacks
                         run.2).2 !! 12 = Some b
           /\ status b = completed).
Proof.
  assert (H1 : topics five_lessons !! 1 = Some example_topic) by reflexivity.
  assert (H2 : select_lessons 1 five_lessons <> [])
    by (vm_compute; discriminate).
  split; [exact H1|]. split; [exact H2|].
  pose proof (generate_all_preserves_progress 1 createSSEProgressCallbacks
                five_lessons example_topic H1 H2) as H.
  cbv zeta in H |- *.
  destruct H as (_ & _ & Hrun & _ & _ & Hretry).
  assert (Hret : handlers_return createSSEProgressCallbacks)
    by (intros ev _; reflexivity).
  split; [exact (Hrun eq_refl Hret)|].
  destruct (Hretry createSSEProgressCallbacks)
    as (Hsel & _ & _ & Hreturns & Hreruns).
  assert (Hrow : exists l,
            lessons (generateAllContent 1 createSSEProgressCallbacks
                       five_lessons).2 !! 12 = Some l
            /\ topic_id l = 1 /\ status l = failed
            /\ retry_count l = Some 1).
  { eexists. vm_compute. repeat split. }
  destruct Hrow as (l & Hl & Ht & Hs & Hc).
  assert (Hin : (12, l)
                ∈ select_retryable 1
                    (generateAllContent 1 createSSEProgressCallbacks
                       five_lessons).2).
  { apply Hsel. rewrite Hc. unfold MAX_LESSON_RETRIES.
    split; [exact Hl|]. split; [exact Ht|]. split; [left; exact Hs|lia]. }
  split; [exists l; exact Hin|].
  destruct (Hreturns ltac:(vm_compute; reflexivity) Hret) as (x & Hx).
  destruct (Hreruns x Hx) as (Hn & Hb).
  destruct (Hb 12 l Hin) as (b & Hb1 & Hb2).
  exists x, b. split; [exact Hx|]. split.
  - rewrite Hn. vm_compute. reflexivity.
  - split; [exact Hb1|]. destruct Hb2 as [Hb2|[Hb2 _]]; [exact Hb2|].
    exfalso. vm_compute in Hb1. injection Hb1 as <-. discriminate Hb2.
Defined.

(** ** Breakdown: the rows it inserts *)

Lemma add_rows_lookup_old rows : forall next (m : gmap Z Lesson) j,
  j < next -> add_rows rows next m !! j = m !! j.
Proof.
  induction rows as [|r later IH]; intros next m j Hj; [reflexivity|].
  cbn [add_rows]. rewrite IH by lia. apply lookup_insert_ne. lia.
Qed.

Lemma add_rows_lookup_new rows : forall next (m : gmap Z Lesson) (k : nat),
  add_rows rows next m !! (next + Z.of_nat k)
  = match rows !! k with
    | Some r => Some r
    | None => m !! (next + Z.of_nat k)
    end.
Proof.
  induction rows as [|r later IH]; intros next m k; [reflexivity|].
  cbn [add_rows]. destruct k as [|k].
  - rewrite Z.add_0_r, add_rows_lookup_old by lia.
    rewrite lookup_insert_eq. reflexivity.
  - replace (next + Z.of_nat (S k)) with (next + 1 + Z.of_nat k) by lia.
    rewrite IH. cbn [lookup list_lookup].
    destruct (later !! k); [reflexivity|].
    apply lookup_insert_ne. lia.
Qed.

Lemma add_rows_lookup_beyond rows : forall next (m : gmap Z Lesson) j,
  next + Z.of_nat (length rows) <= j -> add_rows rows next m !! j = m !! j.
Proof.
  induction rows as [|r later IH]; intros next m j Hj; [reflexivity|].
  cbn [add_rows length] in *. rewrite IH by lia. apply lookup_insert_ne. lia.
Qed.

(** [entry_row] in terms of what the statement is run with. *)
Lemma entry_row_bound tid entry :
  match entry_row tid entry with
  | Some row => exists x, bound_entry entry = Ok x /\ row = pending_row tid x
  | None => exists e, bound_entry entry = Throw e
  end.
Proof.
  unfold entry_row, bound_entry.
  destruct (js_get entry "number") as [n|e]; [|eauto].
  destruct (js_get entry "title") as [t|e];
    [|destruct n as [[]|]; eauto].
  destruct (js_get entry "description") as [d|e];
    [|destruct n as [[]|], t as [[]|]; eauto].
  destruct n as [[]|], t as [[]|]; cbn [bind_integer bind_text not_null];
    destruct (bind_text d); eauto.
Qed.

Lemma entry_row_inserts tid entry row later w :
  entry_row tid entry = Some row ->
  insert_lessons tid (entry :: later) w
  = insert_lessons tid later
      (with_next_lesson_id (next_lesson_id w + 1)
         (with_lessons (insert (next_lesson_id w) row) w)).
Proof.
  intros H. rewrite insert_lessons_cons.
  pose proof (entry_row_bound tid entry) as Hb. rewrite H in Hb.
  destruct Hb as (x & -> & ->). reflexivity.
Qed.


(** [insert_lessons] on entries of which the first [length rows] can be
    bound: the rows are inserted one by one, and the first entry that
    cannot be bound stops the loop with the rows before it in place. *)
Lemma insert_lessons_run tid good : forall rows rest w,
  mapM (entry_row tid) good = Some rows ->
  exists w',
    insert_lessons tid (good ++ rest) w = insert_lessons tid rest w'
    /\ lessons w' = add_rows rows (next_lesson_id w) (lessons w)
    /\ next_lesson_id w' = next_lesson_id w + Z.of_nat (length rows)
    /\ topics w' = topics w /\ files w' = files w /\ calls w' = calls w
    /\ notified w' = notified w.
Proof.
  induction good as [|entry good IH]; intros rows rest w Hrows.
  - injection Hrows as <-. exists w. simpl. rewrite Z.add_0_r. auto 10.
  - cbn [mapM] in Hrows. destruct (entry_row tid entry) as [row|] eqn:He;
      [|discriminate]. cbn [mbind option_bind] in Hrows.
    destruct (mapM (entry_row tid) good) as [rows'|] eqn:Hg; [|discriminate].
    injection Hrows as <-.
    rewrite <- app_comm_cons, (entry_row_inserts _ _ _ _ _ He).
    set (w1 := with_next_lesson_id _ _).
    destruct (IH rows' rest w1 eq_refl)
      as (w' & Hrun & Hl & Hn & Ht & Hf & Hc & Hno).
    exists w'. split; [exact Hrun|]. cbn [add_rows length].
    split; [exact Hl|]. split; [rewrite Hn; simpl; lia|]. auto.
Qed.

Lemma breakdownTopic_run JSON_parse tid cb w topic response w1 breakdown
    entries descr :
  topics w !! tid = Some topic ->
  isApiKeyConfigured w = true ->
  cb onBreakdownStart = None ->
  callOpenAI "topic_breakdown" breakdown_options (breakdown_started tid w)
  = (Ok response, w1) ->
  parseJsonResponse JSON_parse response = Ok breakdown ->
  js_get breakdown "lessons" = Ok (Some (JArr entries)) ->
  match js_get breakdown "topic_description" with
  | Ok v => bind_text v
  | Throw e => Throw e
  end = Ok descr ->
  breakdownTopic JSON_parse tid cb w =
    match insert_lessons tid entries
            (with_topics
               (alter (set_topic_breakdown descr (Z.of_nat (length entries)))
                  tid) w1) with
    | (Ok _, w3) =>
        match cb (onBreakdownComplete (Z.of_nat (length entries))) with
        | None =>
            (Ok breakdown,
             with_notified (onBreakdownComplete (Z.of_nat (length entries)))
               w3)
        | Some e =>
            breakdown_handler tid cb e
              (with_notified (onBreakdownComplete (Z.of_nat (length entries)))
                 w3)
        end
    | (Throw e, w3) => breakdown_handler tid cb e w3
    end.
Proof.
  intros Htopic Hkey Hstart Hcall Hparse Hfield Hdescr.
  unfold breakdownTopic. unfold bind at 1, gets at 1. rewrite Htopic.
  unfold bind at 1, gets at 1. rewrite Hkey. cbn [negb].
  unfold bind at 1, update_topic at 1, modify at 1.
  unfold bind at 1, notify at 1. rewrite Hstart.
  unfold try_catch. unfold bind at 1.
  change (callOpenAI "topic_breakdown" _ _)
    with (callOpenAI "topic_breakdown" breakdown_options
            (breakdown_started tid w)).
  rewrite Hcall. unfold bind at 1, lift at 1. rewrite Hparse.
  unfold bind at 1, lift at 1. rewrite Hfield.
  unfold bind at 1, lift at 1. rewrite Hdescr.
  unfold bind at 1, update_topic at 1, modify at 1.
  unfold bind at 1.
  destruct (insert_lessons tid entries _) as [[[]|e] w3]; [|reflexivity].
  unfold bind at 1, notify at 1.
  destruct (cb (onBreakdownComplete _)); reflexivity.
Qed.


Lemma entry_row_shape tid entry row :
  entry_row tid entry = Some row ->
  topic_id row = tid /\ status row = pending /\ retry_count row = Some 0
  /\ file_path row = None /\ podcast_file_path row = None.
Proof.
  unfold entry_row.
  destruct (js_get entry "number") as [[[]|]|]; try discriminate.
  destruct (js_get entry "title") as [[[]|]|]; try discriminate.
  destruct (js_get entry "description") as [d|]; try discriminate.
  destruct (bind_text d); try discriminate.
  intros [= <-]. auto.
Qed.

Lemma mapM_entry_rows tid entries rows :
  mapM (entry_row tid) entries = Some rows ->
  length rows = length entries
  /\ forall row, row ∈ rows -> topic_id row = tid.
Proof.
  revert rows. induction entries as [|entry later IH]; intros rows H.
  - injection H as <-. split; [reflexivity|].
    intros row Hr. apply elem_of_nil in Hr. destruct Hr.
  - cbn [mapM] in H. destruct (entry_row tid entry) as [row|] eqn:He;
      [|discriminate]. cbn [mbind option_bind] in H.
    destruct (mapM (entry_row tid) later) as [rows'|]; [|discriminate].
    injection H as <-. destruct (IH rows' eq_refl) as (Hlen & Hall).
    split; [simpl; congruence|].
    intros r Hr. apply elem_of_cons in Hr as [->|Hr]; [|auto].
    apply (entry_row_shape _ _ _ He).
Qed.

Lemma add_rows_count (P : Z * Lesson -> Prop) `{!forall x, Decision (P x)}
    rows : forall next (m : gmap Z Lesson),
  (forall j, is_Some (m !! j) -> j < next) ->
  (forall k row, rows !! k = Some row -> P (next + Z.of_nat k, row)) ->
  length (filter P (map_to_list (add_rows rows next m)))
  = (length (filter P (map_to_list m)) + length rows)%nat.
Proof.
  induction rows as [|r later IH]; intros next m Hbelow HP.
  - simpl. lia.
  - cbn [add_rows length]. rewrite IH.
    + rewrite map_to_list_insert.
      * rewrite filter_cons_True; [simpl; lia|].
        specialize (HP 0%nat r eq_refl). rewrite Z.add_0_r in HP. exact HP.
      * destruct (m !! next) eqn:E; [|reflexivity].
        specialize (Hbelow next ltac:(eauto)). lia.
    + intros j [x Hj]. destruct (decide (j = next)) as [->|Hne]; [lia|].
      rewrite lookup_insert_ne in Hj by congruence.
      specialize (Hbelow j ltac:(eauto)). lia.
    + intros k row Hk. specialize (HP (S k) row Hk).
      replace (next + 1 + Z.of_nat k) with (next + Z.of_nat (S k)) by lia.
      exact HP.
Qed.

(** X9.  A breakdown that goes through.  When the answer parses to an object
    whose [lessons] is an array of entries that can all be bound,
    [breakdownTopic] returns the parsed answer and inserts one row per
    entry, in order, under the next keys: each row is [pending] with a
    retry counter of 0 and no file; the rows that were there are left as
    they were, so the topic has as many lessons more as there are
    entries; the topic gets the description and the number of entries,
    and its status stays [generating]; no file is written. *)
Theorem breakdown_inserts_pending_rows (JSON_parse : text -> option JsValue)
    (tid : Z) (cb : Callbacks) (w w1 : World) (topic : Topic)
    (response : text) (breakdown : JsValue) (entries : list JsValue)
    (descr : option string) (rows : list Lesson) :
  topics w !! tid = Some topic ->
  isApiKeyConfigured w = true ->
  cb onBreakdownStart = None ->
  cb (onBreakdownComplete (Z.of_nat (length entries))) = None ->
  keys_below_next w ->
  callOpenAI "topic_breakdown" breakdown_options (breakdown_started tid w)
  = (Ok response, w1) ->
  parseJsonResponse JSON_parse response = Ok breakdown ->
  js_get breakdown "lessons" = Ok (Some (JArr entries)) ->
  match js_get breakdown "topic_description" with
  | Ok v => bind_text v
  | Throw e => Throw e
  end = Ok descr ->
  mapM (entry_row tid) entries = Some rows ->
  let run := breakdownTopic JSON_parse tid cb w in
  let next := next_lesson_id w in
  run.1 = Ok breakdown
  /\ length rows = length entries
  /\ (forall (k : nat) row, rows !! k = Some row ->
        lessons run.2 !! (next + Z.of_nat k) = Some row
        /\ topic_id row = tid /\ status row = pending
        /\ retry_count row = Some 0 /\ file_path row = None
        /\ podcast_file_path row = None)
  /\ (forall j a, lessons w !! j = Some a -> lessons run.2 !! j = Some a)
  /\ next_lesson_id run.2 = next + Z.of_nat (length entries)
  /\ keys_below_next run.2
  /\ length (select_lessons tid run.2)
     = (length (select_lessons tid w) + length entries)%nat
  /\ topics run.2 !! tid
     = Some (set_topic_breakdown descr (Z.of_nat (length entries))
               (set_topic_status generating None topic))
  /\ files run.2 = files w.
Proof.
  intros Htopic Hkey Hstart Hdone Hbelow Hcall Hparse Hfield Hdescr Hrows
    run next.
  unfold run.
  rewrite (breakdownTopic_run _ _ _ _ _ _ _ _ _ _ Htopic Hkey Hstart Hcall
             Hparse Hfield Hdescr).
  pose proof (callOpenAI_after "topic_breakdown" breakdown_options
                (breakdown_started tid w)) as ((Ht1 & Hl1 & Hf1 & Hn1 & _) & _).
  rewrite Hcall in Ht1, Hl1, Hf1, Hn1. cbn [snd] in Ht1, Hl1, Hf1, Hn1.
  cbn [breakdown_started topics lessons files next_lesson_id with_notified
       with_topics] in Ht1, Hl1, Hf1, Hn1.
  set (w2 := with_topics _ w1).
  destruct (insert_lessons_run tid entries rows [] w2 Hrows)
    as (w' & Hrun & Hl & Hn & Ht & Hf & _).
  rewrite app_nil_r in Hrun. rewrite Hrun. cbn [insert_lessons ret].
  rewrite Hdone. cbn [fst snd lessons next_lesson_id topics files
                      with_notified].
  destruct (mapM_entry_rows tid entries rows Hrows) as (Hlen & Htid).
  cbn [w2 lessons next_lesson_id topics files with_topics] in Hl, Hn, Ht, Hf.
  rewrite Hl1, Hn1 in Hl. rewrite Hn1, Hlen in Hn. rewrite Ht1 in Ht.
  rewrite Hf1 in Hf. fold next in Hl, Hn.
  split; [reflexivity|]. split; [exact Hlen|].
  split; [|split; [|split; [exact Hn|split; [|split; [|split]]]]].
  - intros k row Hk. rewrite Hl, add_rows_lookup_new, Hk.
    split; [reflexivity|].
    assert (Hin : row ∈ rows) by (eapply list_elem_of_lookup_2; exact Hk).
    revert Hrows Hk. clear. revert rows k.
    induction entries as [|entry later IH]; intros rows k Hrows Hk.
    + injection Hrows as <-. discriminate.
    + cbn [mapM] in Hrows. destruct (entry_row tid entry) as [r|] eqn:He;
        [|discriminate]. cbn [mbind option_bind] in Hrows.
      destruct (mapM (entry_row tid) later) as [rows'|]; [|discriminate].
      injection Hrows as <-. destruct k as [|k].
      * injection Hk as <-. apply (entry_row_shape _ _ _ He).
      * exact (IH rows' k eq_refl Hk).
  - intros j a Ha. rewrite Hl, add_rows_lookup_old; [exact Ha|].
    apply Hbelow. eauto.
  - intros j [b Hb]. change (lessons w' !! j = Some b) in Hb.
    change (j < next_lesson_id w'). rewrite Hn. rewrite Hl in Hb.
    destruct (decide (j < next)) as [Hj|Hj]; [lia|].
    destruct (decide (j < next + Z.of_nat (length rows))) as [Hj2|Hj2];
      [lia|].
    rewrite add_rows_lookup_beyond in Hb by lia.
    specialize (Hbelow j ltac:(eauto)). unfold next in Hj. lia.
  - unfold select_lessons. rewrite !merge_sort_Permutation.
    cbn [lessons with_notified]. rewrite Hl, <- Hlen.
    apply (add_rows_count (fun r => topic_id r.2 = tid)).
    + exact Hbelow.
    + intros k row Hk. cbn [snd]. apply Htid.
      eapply list_elem_of_lookup_2. exact Hk.
  - rewrite Ht, !lookup_alter_eq, Htopic. reflexivity.
  - exact Hf.
Qed.


(** ** What the adapter throws *)

Ltac next_character n :=
  destruct n as [|[[] [] [] [] [] [] [] []] n];
  try (left; split; [reflexivity|discriminate]).

Lemma last_error_of_other tmo n m :
  (last_error_of tmo (OtherError n m) = OtherError n m /\ n <> "AbortError")
  \/ exists m', last_error_of tmo (OtherError n m) = OpenAITimeoutError m'.
Proof.
  next_character n. next_character n. next_character n. next_character n.
  next_character n. next_character n. next_character n. next_character n.
  next_character n. next_character n.
  destruct n; [right; eexists; reflexivity|].
  left; split; [reflexivity|discriminate].
Qed.

Lemma last_error_of_normalised tmo e : normalised (last_error_of tmo e).
Proof.
  destruct e as [m|m ra|m|m c r|m st ra|n m|v]; try exact I.
  - destruct st as [z|]; [|simpl; discriminate].
    destruct (decide (z = 429)) as [->|Hne]; [exact I|].
    assert (H : last_error_of tmo (SdkAPIError m (Some z) ra)
                = SdkAPIError m (Some z) ra).
    { unfold last_error_of.
      destruct z as [|p|p]; try reflexivity.
      repeat (destruct p as [p|p|]; try reflexivity). contradiction. }
    rewrite H. simpl. congruence.
  - destruct (last_error_of_other tmo n m) as [[-> Hn]|[m' ->]];
      [exact Hn|exact I].
  - simpl. discriminate.
Qed.

Lemma unknown_error_not_retryable :
  isRetryable (categorizeError
                 (OtherError "Error" "Unknown error in callOpenAI")) = false.
Proof. reflexivity. Qed.

Lemma attempt_once_throw name w e :
  (attempt_once name w).1 = Throw e ->
  (e = OpenAIConfigError "OPENAI_API_KEY environment variable is not set"
   /\ (attempt_once name w).2 = w)
  \/ length (calls (attempt_once name w).2) = S (length (calls w)).
Proof.
  unfold attempt_once, bind, getOpenAIClient, request.
  destruct (openaiClient w); [|destruct (truthy (OPENAI_API_KEY w))];
    simpl.
  3:{ intros [= <-]. left. split; reflexivity. }
  all: destruct (service w (length (calls w))) as [[[|c t]|]|e0]; simpl;
    intros H; right; rewrite length_app; simpl; lia.
Qed.

(** The loop from attempt [a] on, with [n] attempts left of the
    [maxRetries + 1]: what it throws, and what a retryable error at the
    caller says about the requests made. *)
Lemma callOpenAI_loop_throws name mr tmo obs (Hobs : quiet_observer obs) n :
  forall a le w e,
  a + Z.of_nat n = mr + 1 -> (0 < n)%nat ->
  (callOpenAI_loop name mr tmo obs (seqZ a (Z.of_nat n)) le w).1 = Throw e ->
  normalised e
  /\ (isRetryable (categorizeError e) = true ->
      length (calls (callOpenAI_loop name mr tmo obs (seqZ a (Z.of_nat n))
                       le w).2)
      = (length (calls w) + n)%nat).
Proof.
  induction n as [|n IH]; intros a le w e Han Hn; [lia|].
  rewrite Nat2Z.inj_succ, seqZ_cons by lia.
  replace (Z.pred (Z.succ (Z.of_nat n))) with (Z.of_nat n) by lia.
  cbn [callOpenAI_loop]. unfold try_catch.
  pose proof (attempt_once_throw name w) as Hthrow.
  destruct (attempt_once name w) as [[c|e0] w1]; cbn [fst snd] in *;
    [intros [=]|].
  specialize (Hthrow e0 eq_refl).
  destruct (negb (isRetryable (categorizeError (last_error_of tmo e0)))
            || (mr <=? a)) eqn:Hstop.
  - cbn [throw fst snd]. intros [= <-].
    split; [apply last_error_of_normalised|]. intros Hre.
    rewrite Hre in Hstop. cbn [negb orb] in Hstop.
    apply Z.leb_le in Hstop. assert (n = 0%nat) by lia. subst n.
    destruct Hthrow as [[-> _]|Hc]; [discriminate Hre|]. lia.
  - apply orb_false_iff in Hstop as [Hre Hlt].
    apply negb_false_iff in Hre. apply Z.leb_gt in Hlt.
    unfold bind.
    assert (Hq : (match obs with
                  | Some f =>
                      match f (a + 1) (last_error_of tmo e0) with
                      | Some e1 => throw e1
                      | None => ret tt
                      end
                  | None => ret tt
                  end) w1 = (Ok tt, w1)).
    { destruct obs as [f|]; [|reflexivity].
      rewrite (Hobs f eq_refl). reflexivity. }
    rewrite Hq. intros He.
    destruct Hthrow as [[-> _]|Hc]; [discriminate Hre|].
    destruct (IH (Z.succ a) (Some (last_error_of tmo e0)) w1 e
                ltac:(lia) ltac:(lia) He) as (Hnorm & Hcalls).
    split; [exact Hnorm|]. intros Hr. rewrite (Hcalls Hr). lia.
Qed.

(** X11.  What [callOpenAI] throws is always an [Error] of the adapter's
    classes or an error it could not reclassify, never a value that is
    not an [Error], an abort or a bare 429; and an error that
    [categorizeError] calls retryable reaches the caller only when the
    whole budget of [maxRetries + 1] requests is spent. *)
Theorem callOpenAI_throws_after_budget (name : string)
    (options : OpenAICallOptions) (w : World) (e : JsError) :
  quiet_observer (onRetry options) ->
  (callOpenAI name options w).1 = Throw e ->
  normalised e
  /\ (isRetryable (categorizeError e) = true ->
      length (calls (callOpenAI name options w).2)
      = (length (calls w)
         + Z.to_nat (default 3 (maxRetries options) + 1)%Z)%nat).
Proof.
  intros Hobs. unfold callOpenAI, bind, gets.
  destruct (prompts w !! name) as [tpl|]; cbn [fst snd throw].
  2:{ intros [= <-]. split; [exact I|discriminate]. }
  set (mr := default 3 (maxRetries options)).
  destruct (Z.to_nat (mr + 1)) as [|n] eqn:Hn.
    assert (Hnil : seqZ 0 (mr + 1) = []).
    { unfold seqZ. rewrite Hn. reflexivity. }
    rewrite Hnil. cbn [callOpenAI_loop throw default fst snd].
    intros [= <-]. split; [simpl; discriminate|].
    rewrite unknown_error_not_retryable. discriminate.
  - assert (Hmr : mr + 1 = Z.of_nat (S n)) by lia.
    rewrite Hmr. intros He.
    exact (callOpenAI_loop_throws name mr _ _ Hobs (S n) 0 None w e
             ltac:(lia) ltac:(lia) He).
Qed.

(** ** Serving what was generated *)

Lemma surrogate_not_space c :
  is_high_surrogate c || is_low_surrogate c = true ->
  is_space c = false /\ is_markdown_syntax c = false.
Proof.
  unfold is_high_surrogate, is_low_surrogate. intros H.
  assert (Hc : (55296 <= c <= 57343)%N).
  { apply orb_true_iff in H as [H|H]; apply andb_true_iff in H as [H1 H2];
      apply N.leb_le in H1, H2; lia. }
  clear H. split.
  - destruct (is_space c) eqn:E; [exfalso|reflexivity].
    unfold is_space in E.
    repeat (apply orb_true_iff in E as [E|E]);
      try (apply andb_true_iff in E as [E1 E2]; apply N.leb_le in E1, E2; lia);
      apply N.eqb_eq in E; lia.
  - destruct (is_markdown_syntax c) eqn:E; [exfalso|reflexivity].
    unfold is_markdown_syntax in E.
    repeat (apply orb_true_iff in E as [E|E]); apply N.eqb_eq in E; lia.
Qed.

Lemma replacement_not_space :
  is_space 65533 = false /\ is_markdown_syntax 65533 = false.
Proof. split; reflexivity. Qed.

Lemma read_back_same_class t : same_class t (read_back t).
Proof.
  induction t as [t IH] using (induction_ltof1 _ (@length N)).
  unfold ltof in IH. destruct t as [|c t]; [constructor|].
  cbn [read_back]. destruct (is_high_surrogate c) eqn:Hh.
  - destruct t as [|d t].
    + apply same_class_replace; [rewrite Hh; reflexivity|constructor].
    + destruct (is_low_surrogate d).
      * apply same_class_keep, same_class_keep, IH. simpl. lia.
      * apply same_class_replace; [rewrite Hh; reflexivity|].
        apply IH. simpl. lia.
  - destruct (is_low_surrogate c) eqn:Hl.
    + apply same_class_replace; [rewrite Hh, Hl; reflexivity|].
      apply IH. simpl. lia.
    + apply same_class_keep, IH. simpl. lia.
Qed.

Lemma same_class_remove_markdown t t' :
  same_class t t' -> same_class (remove_markdown t) (remove_markdown t').
Proof.
  induction 1 as [|c t t' _ IH|c t t' Hc _ IH]; simpl.
  - constructor.
  - destruct (is_markdown_syntax c); simpl; [exact IH|].
    apply same_class_keep, IH.
  - destruct (surrogate_not_space c Hc) as (_ & ->). simpl.
    apply same_class_replace; assumption.
Qed.

Lemma same_class_split t t' : same_class t t' ->
  forall in_sep cur cur', same_class cur cur' ->
  Forall2 same_class (split_go in_sep cur t) (split_go in_sep cur' t').
Proof.
  induction 1 as [|c t t' _ IH|c t t' Hc _ IH]; intros in_sep cur cur' Hcur;
    cbn [split_go].
  - constructor; [exact Hcur|constructor].
  - destruct (is_space c).
    + destruct in_sep; [apply IH; constructor|].
      constructor; [exact Hcur|apply IH; constructor].
    + apply IH. clear IH. induction Hcur; simpl.
      * apply same_class_keep; constructor.
      * apply same_class_keep; assumption.
      * apply same_class_replace; assumption.
  - destruct (surrogate_not_space c Hc) as (-> & _).
    destruct replacement_not_space as (-> & _).
    apply IH. clear IH. induction Hcur; simpl.
    + apply same_class_replace; [exact Hc|constructor].
    + apply same_class_keep; assumption.
    + apply same_class_replace; assumption.
Qed.

Lemma same_class_nonempty t t' :
  same_class t t' -> nonempty t = nonempty t'.
Proof. destruct 1; reflexivity. Qed.

Lemma countWords_read_back t : countWords (read_back t) = countWords t.
Proof.
  unfold countWords, split_whitespace. f_equal.
  pose proof (same_class_split _ _
                (same_class_remove_markdown _ _ (read_back_same_class t))
                false [] [] same_class_nil) as H.
  induction H as [|x y l l' Hxy _ IH]; [reflexivity|].
  simpl. rewrite <- (same_class_nonempty _ _ Hxy).
  destruct (nonempty x); simpl; rewrite IH; reflexivity.
Qed.

Lemma read_back_no_surrogate t :
  Forall (fun c => is_high_surrogate c || is_low_surrogate c = false) t ->
  read_back t = t.
Proof.
  induction 1 as [|c t Hc _ IH]; [reflexivity|].
  apply orb_false_iff in Hc as [Hh Hl]. cbn [read_back].
  rewrite Hh, Hl, IH. reflexivity.
Qed.

Lemma recorded_path_truthy topicSlug name :
  truthy (Some (topicSlug +:+ "/" +:+ name)) = true.
Proof. destruct topicSlug; reflexivity. Qed.

(** *** The texts a lesson is made of are answers of the service *)

Lemma more_requests_refl w : more_requests w w.
Proof. split; [reflexivity|]. exists []. symmetry. apply app_nil_r. Qed.

Lemma more_requests_trans w1 w2 w3 :
  more_requests w1 w2 -> more_requests w2 w3 -> more_requests w1 w3.
Proof.
  intros [H1 [l1 H2]] [H3 [l2 H4]]. split; [congruence|].
  exists (l1 ++ l2). rewrite H4, H2, app_assoc. reflexivity.
Qed.

Lemma more_requests_call c w : more_requests w (with_call c w).
Proof. split; [reflexivity|]. exists [c]. reflexivity. Qed.

Lemma answered_within asked w w1 w2 w3 c :
  more_requests w w1 -> answered asked w1 w2 c -> more_requests w2 w3 ->
  answered asked w w3 c.
Proof.
  intros [Hs1 [l1 Hc1]] (n & call & Hn & Hcall & Has & Ha) [_ [l3 Hc3]].
  exists n, call. rewrite Hc1, length_app in Hn.
  split; [lia|]. split; [|split; [exact Has|rewrite <- Hs1; exact Ha]].
  rewrite Hc3. apply lookup_app_l_Some. exact Hcall.
Qed.

Lemma answered_weaken (asked asked' : ApiCall -> Prop) w w' c :
  (forall call, asked call -> asked' call) ->
  answered asked w w' c -> answered asked' w w' c.
Proof.
  intros H (n & call & Hn & Hcall & Has & Ha). exists n, call. auto.
Qed.

Lemma request_answered call w c :
  service w (length (calls w)) = Responded (Some c) ->
  answered (fun x => x = call) w (with_call call w) c.
Proof.
  intros H. exists (length (calls w)), call.
  split; [lia|]. split; [|split; [reflexivity|exact H]].
  cbn [calls with_call]. apply list_lookup_middle. reflexivity.
Qed.

Lemma attempt_once_answered name w :
  let r := attempt_once name w in
  more_requests w r.2
  /\ forall c, r.1 = Ok c -> answered (fun x => x = Completion name) w r.2 c.
Proof.
  unfold attempt_once, bind, getOpenAIClient, request.
  destruct (openaiClient w) eqn:Ho;
    [|destruct (truthy (OPENAI_API_KEY w))]; cbn [fst snd service calls
                                                  with_client].
  3:{ split; [apply more_requests_refl|intros c [=]]. }
  all: destruct (service w (length (calls w))) as [[[|c t]|]|e] eqn:Hsvc;
    cbn [fst snd throw ret];
    (split; [split; [reflexivity|eexists; reflexivity]|]);
    intros c' Hc'; try discriminate; injection Hc' as <-;
    exists (length (calls w)), (Completion name);
    (split; [cbn [calls with_client]; lia|]);
    (split; [cbn [calls with_call with_client];
             apply list_lookup_middle; reflexivity|]);
    (split; [reflexivity|exact Hsvc]).
Qed.

Lemma callOpenAI_loop_answered name mr tmo obs attempts : forall last w,
  let r := callOpenAI_loop name mr tmo obs attempts last w in
  more_requests w r.2
  /\ forall c, r.1 = Ok c -> answered (fun x => x = Completion name) w r.2 c.
Proof.
  induction attempts as [|a later IH]; intros last w.
  - split; [apply more_requests_refl|intros c [=]].
  - cbn [callOpenAI_loop]. unfold try_catch.
    destruct (attempt_once_answered name w) as (Hm & Ha).
    destruct (attempt_once name w) as [[c|e] w1]; cbn [fst snd] in *.
    { split; [exact Hm|]. intros c' [= <-]. apply Ha. reflexivity. }
    cbv zeta.
    destruct (negb (isRetryable (categorizeError (last_error_of tmo e)))
              || (mr <=? a)).
    { split; [exact Hm|intros c [=]]. }
    set (ob := match obs with
               | Some f =>
                   match f (a + 1) (last_error_of tmo e) with
                   | Some e1 => throw e1
                   | None => ret tt
                   end
               | None => ret tt
               end).
    assert (Hob : forall v, (ob v).2 = v).
    { intros v. subst ob. destruct obs as [f|]; [destruct (f _ _)|];
        reflexivity. }
    unfold bind. specialize (Hob w1).
    destruct (ob w1) as [[[]|e1] w1']; cbn [snd] in Hob; subst w1'.
    2:{ cbn [fst snd]. split; [exact Hm|intros c Hc; discriminate Hc]. }
    destruct (IH (Some (last_error_of tmo e)) w1) as (Hm' & Ha').
    split; [eapply more_requests_trans; eassumption|].
    intros c Hc. eapply answered_within;
      [exact Hm|exact (Ha' c Hc)|apply more_requests_refl].
Qed.

Lemma callOpenAI_answered name options w :
  let r := callOpenAI name options w in
  more_requests w r.2
  /\ forall c, r.1 = Ok c -> answered (fun x => x = Completion name) w r.2 c.
Proof.
  unfold callOpenAI, bind, gets.
  destruct (prompts w !! name); cbn [fst snd].
  - apply callOpenAI_loop_answered.
  - split; [apply more_requests_refl|intros c [=]].
Qed.

Lemma expandContent_answered content kind w :
  let r := expandContent content kind w in
  more_requests w r.2
  /\ forall c, r.1 = Ok c ->
       c = content \/ answered (fun x => x = Expansion kind) w r.2 c.
Proof.
  unfold expandContent, bind, gets, request.
  destruct (OPENAI_API_KEY w); cbn [fst snd].
  2:{ split; [apply more_requests_refl|intros c [=]]. }
  destruct (service w (length (calls w))) as [[[|c t]|]|e] eqn:Hsvc;
    cbn [fst snd ret];
    (split; [apply more_requests_call|]);
    intros c' Hc'; try discriminate; injection Hc' as <-; auto.
  right. apply request_answered. exact Hsvc.
Qed.

Lemma expand_loop_answered kind minWords attempts : forall content n w,
  let r := expand_loop kind minWords attempts content n w in
  more_requests w r.2
  /\ forall b c k, r.1 = Ok (b, (c, k)) ->
       c = content \/ answered (fun x => x = Expansion kind) w r.2 c.
Proof.
  induction attempts as [|a later IH]; intros content n w.
  - split; [apply more_requests_refl|]. intros b c k [= _ <- _]. auto.
  - rewrite expand_loop_cons.
    destruct (expandContent_answered content kind w) as (Hm & Ha).
    destruct (expandContent content kind w) as [[c1|e] w1]; cbn [fst snd] in *.
    2:{ split; [exact Hm|intros b c k [=]]. }
    specialize (Ha c1 eq_refl).
    destruct (minWords <=? countWords c1); cbn [fst snd].
    { split; [exact Hm|]. intros b c k [= _ <- _]. exact Ha. }
    destruct (IH c1 (countWords c1) w1) as (Hm' & Ha').
    split; [eapply more_requests_trans; eassumption|].
    intros b c k Hr. destruct (Ha' b c k Hr) as [->|Hc].
    + destruct Ha as [Ha|Ha]; [left; exact Ha|right].
      eapply answered_within;
        [apply more_requests_refl|exact Ha|exact Hm'].
    + right. eapply answered_within;
        [exact Hm|exact Hc|apply more_requests_refl].
Qed.

Lemma generate_in_band_answered name options kind lo hi mr w :
  let r := generate_in_band name options kind lo hi mr w in
  more_requests w r.2
  /\ forall c k, r.1 = Ok (c, k) ->
       answered (fun x => x = Completion name \/ x = Expansion kind)
         w r.2 c.
Proof.
  destruct (callOpenAI_answered name options w) as (Hm & Ha).
  destruct ((callOpenAI name options w).1) as [content|e] eqn:Hf.
  - specialize (Ha content eq_refl).
    apply (answered_weaken _
             (fun x => x = Completion name \/ x = Expansion kind)) in Ha;
      [|intros call; auto].
    destruct (Z.le_gt_cases lo (countWords content)) as [Hlo|Hlo].
    + rewrite (gate_long_enough _ _ _ _ _ _ _ _ Hf Hlo). cbn [fst snd].
      split; [exact Hm|]. intros c k [= <- _]. exact Ha.
    + rewrite (gate_too_short _ _ _ _ _ _ _ _ Hf) by lia.
      pose proof (expand_loop_answered kind lo (seqZ 1 mr) content
                    (countWords content) (callOpenAI name options w).2)
        as (Hm' & Ha').
      destruct (expand_loop _ _ _ _ _ _) as [[[b [c k]]|e] w2];
        cbn [fst snd gate_result] in *.
      * split; [eapply more_requests_trans; eassumption|].
        intros c' k' [= <- _]. destruct (Ha' b c k eq_refl) as [->|Hc].
        -- eapply answered_within;
             [apply more_requests_refl|exact Ha|exact Hm'].
        -- eapply answered_within;
             [exact Hm| |apply more_requests_refl].
           eapply answered_weaken; [|exact Hc]. intros call; auto.
      * split; [eapply more_requests_trans; eassumption|intros c k [=]].
  - rewrite (gate_first_throws _ _ _ _ _ _ _ _ Hf). cbn [fst snd].
    split; [exact Hm|intros c k [=]].
Qed.

Lemma wp_gate_answered name options kind lo hi mr w
    (Q : Res (text * Z) -> World -> Prop) :
  (forall r w', same_store w w' -> more_requests w w' ->
     (forall c k, r = Ok (c, k) ->
        answered (fun x => x = Completion name \/ x = Expansion kind)
          w w' c) ->
     Q r w') ->
  wp (generate_in_band name options kind lo hi mr) w Q.
Proof.
  intros H. unfold wp.
  destruct (generate_in_band_same_store name options kind lo hi mr w)
    as (Hs & _).
  destruct (generate_in_band_answered name options kind lo hi mr w)
    as (Hm & Ha).
  apply H; assumption.
Qed.

(** The two files of a lesson that was generated hold answers of the
    service to requests of this call: the body an answer to a request
    for the body, the script an answer to a request for the script. *)
Lemma generateSingleLesson_texts topic id l dir cb w :
  let run := generateSingleLesson topic (id, l) dir cb w in
  run.1 = Ok true ->
  exists body script,
    files run.2 !! path_join dir (lessonFileName l) = Some body
    /\ files run.2 !! path_join dir (podcastFileName l) = Some script
    /\ answered lesson_request w run.2 body
    /\ answered podcast_request w run.2 script.
Proof.
  set (Q := fun (r : Res bool) (w' : World) =>
    r = Ok true ->
    exists body script,
      files w' !! path_join dir (lessonFileName l) = Some body
      /\ files w' !! path_join dir (podcastFileName l) = Some script
      /\ answered lesson_request w w' body
      /\ answered podcast_request w w' script).
  change (wp (generateSingleLesson topic (id, l) dir cb) w Q).
  assert (Hh : forall error wk,
    wp (update_lesson id
          (record_failure (message (categorizeError error))
             (default 0 (retry_count l) + 1)) ;;
        notify cb (onLessonError (lesson_number l)
                     (if truthy (file_path l) then podcast_step
                      else content_step)
                     (message (categorizeError error))
                     (isRetryable (categorizeError error))) ;;
        ret false) wk Q).
  { intros error wk. apply wp_bind, wp_modify.
    apply wp_bind, wp_notify; [intros _; apply wp_ret|intros e _];
      intros [=]. }
  unfold generateSingleLesson. cbn [fst snd]. apply wp_try_catch.
  apply wp_bind, wp_modify.
  apply wp_bind, wp_notify; [intros _|intros e _; apply Hh].
  apply wp_bind, wp_gate_answered.
  intros [[body n]|e] w3 Hs3 Hm3 Ha3; [|apply Hh].
  specialize (Ha3 body n eq_refl). cbn [fst snd].
  apply wp_bind, wp_writeFileSync; [|intros e; apply Hh].
  apply wp_bind, wp_modify.
  apply wp_bind, wp_notify; [intros _|intros e _; apply Hh].
  apply wp_bind, wp_notify; [intros _|intros e _; apply Hh].
  apply wp_bind, wp_gate_answered.
  intros [[script m]|e] w8 Hs8 Hm8 Ha8; [|apply Hh].
  specialize (Ha8 script m eq_refl). cbn [fst snd].
  apply wp_bind, wp_writeFileSync; [|intros e; apply Hh].
  apply wp_bind, wp_modify.
  apply wp_bind, wp_notify; [intros _|intros e _; apply Hh].
  apply wp_bind, wp_notify; [intros _|intros e _; apply Hh].
  apply wp_ret. intros _. exists body, script.
  destruct Hs8 as (_ & _ & Hf8 & _).
  cbn [files with_files with_lessons with_notified] in *.
  split; [|split; [|split]].
  - rewrite lookup_insert_ne by (apply not_eq_sym, lesson_paths_differ).
    rewrite Hf8. apply lookup_insert_eq.
  - apply lookup_insert_eq.
  - change (answered lesson_request w w3 body) in Ha3.
    change (more_requests w3 w8) in Hm8.
    eapply answered_within; [apply more_requests_refl|exact Ha3|exact Hm8].
  - change (more_requests w w3) in Hm3.
    change (answered podcast_request w3 w8 script) in Ha8.
    eapply answered_within; [exact Hm3|exact Ha8|].
    exact (more_requests_refl w8).
Qed.

(** X12.  What is generated is what is served.  After [generateSingleLesson]
    has returned [true] for a lesson in the directory of its topic, the
    two files of the lesson hold a body and a script that the completion
    service answered to requests of this call, the body to a request for
    the body of a lesson (the first pass or an expansion) and the script
    to a request for a script; the content route answers
    200 with that body and the podcast route with that script, both as
    they read back from the disk, each with a word count that is the
    count of the text served. *)
Theorem generated_lesson_is_served (topic : Topic) (id : Z) (l a : Lesson)
    (cb : Callbacks) (w : World) :
  lessons w !! id = Some a ->
  let dir := path_join CONTENT_DIR (slug topic) in
  let run := generateSingleLesson topic (id, l) dir cb w in
  run.1 = Ok true ->
  exists body script,
    answered lesson_request w run.2 body
    /\ answered podcast_request w run.2 script
    /\ files run.2 !! path_join dir (lessonFileName l) = Some body
    /\ files run.2 !! path_join dir (podcastFileName l) = Some script
    /\ get_lesson_content id run.2
       = Json 200 {| content := read_back body;
                     content_word_count := countWords body |}
    /\ get_lesson_podcast id run.2
       = Json 200 {| content := read_back script;
                     content_word_count := countWords script |}
    /\ countWords (read_back body) = countWords body
    /\ countWords (read_back script) = countWords script
    /\ forall t,
         Forall (fun c => is_high_surrogate c || is_low_surrogate c = false)
           t ->
         read_back t = t.
Proof.
  intros Ha dir run Hok.
  destruct (generateSingleLesson_texts topic id l dir cb w Hok)
    as (body & script & Hf1 & Hf2 & Ha1 & Ha2).
  fold run in Hf1, Hf2, Ha1, Ha2.
  destruct (generateSingleLesson_row topic id l dir cb w a Ha)
    as (b & Hb & Hcase).
  fold run in Hb, Hcase.
  destruct Hcase as [(_ & body' & script' & Hf1' & Hf2' & ->)|(Hne & _)];
    [|contradiction].
  assert (body' = body) as -> by congruence.
  assert (script' = script) as -> by congruence.
  exists body, script.
  split; [exact Ha1|]. split; [exact Ha2|].
  split; [exact Hf1|]. split; [exact Hf2|].
  unfold get_lesson_content, get_lesson_podcast, serve_file. rewrite Hb.
  cbn [completed_row file_path podcast_file_path word_count
       podcast_word_count record_podcast_completed record_content
       mark_generating].
  rewrite !recorded_path_truthy. cbn [negb default]. unfold Datatypes.id.
  rewrite !recorded_path. fold dir. rewrite Hf1, Hf2.
  split; [reflexivity|]. split; [reflexivity|].
  split; [apply countWords_read_back|]. split; [apply countWords_read_back|].
  apply read_back_no_surrogate.
Qed.

(** ** The routes that start a job *)

Lemma count_retryable_select tid w :
  count_retryable tid w = Z.of_nat (length (select_retryable tid w)).
Proof.
  unfold count_retryable, select_retryable.
  rewrite merge_sort_Permutation. reflexivity.
Qed.

Lemma count_lessons_select tid w :
  count_lessons tid w = Z.of_nat (length (select_lessons tid w)).
Proof.
  unfold count_lessons, select_lessons.
  rewrite merge_sort_Permutation. reflexivity.
Qed.

Lemma retryFailedLessons_returns tid w topic :
  topics w !! tid = Some topic ->
  disk w (writes w) = None ->
  exists x, (retryFailedLessons tid createSSEProgressCallbacks w).1 = Ok x.
Proof.
  intros Ht Hdisk.
  pose proof (retryFailedLessons_spec tid createSSEProgressCallbacks w) as H.
  unfold wp in H. rewrite Ht, Hdisk in H. cbv zeta in H.
  destruct (bool_decide (select_retryable tid w = [])).
  - destruct H as [-> _]. eauto.
  - destruct H as (_ & [(x & -> & _)|(e & ev & _ & _ & Hcb)]); [eauto|].
    discriminate Hcb.
Qed.

(** When the directory cannot be made, a retry that has selected lessons
    throws with the topic marked as being generated and nothing else
    done. *)
Lemma retryFailedLessons_refused tid cb w topic e :
  topics w !! tid = Some topic ->
  select_retryable tid w <> [] ->
  disk w (writes w) = Some e ->
  retryFailedLessons tid cb w
  = (Throw e,
     disk_used
       (with_topics (alter (set_topic_status generating None) tid) w)).
Proof.
  intros Ht Hsel Hdisk.
  pose proof (retryFailedLessons_spec tid cb w) as H.
  unfold wp in H. rewrite Ht, Hdisk in H. cbv zeta in H.
  rewrite bool_decide_eq_false_2 in H by exact Hsel.
  destruct (retryFailedLessons tid cb w) as [r w']. cbn [fst snd] in H.
  destruct H as [-> ->]. reflexivity.
Qed.

(** X13.  The retry route and [retryFailedLessons] agree.  The route answers
    200 exactly when the key is configured, the topic exists, is not
    being generated and has a lesson that [retryFailedLessons] selects;
    the number it announces is the number of lessons selected.  When the
    content directory is there or can be made, the job returns and has
    retried that many lessons.  When it cannot be made, the job throws
    having run no lesson: the rows are as they were and the topic is left
    [generating], so that the route refuses it from then on.  With any
    answer other than 200 the store is left as it was. *)
Theorem retry_route_announces_what_is_retried (tid : Z) (w : World) :
  let run := retry_route tid w in
  let job := retryFailedLessons tid createSSEProgressCallbacks w in
  (forall body, run.1 = Json 200 body ->
     0 < lessonsToRetry body
     /\ lessonsToRetry body = Z.of_nat (length (select_retryable tid w))
     /\ getGenerationStatus tid w = Ok (retry_status body)
     /\ run.2 = job.2
     /\ (disk w (writes w) = None ->
         exists x, job.1 = Ok x /\ retried x = lessonsToRetry body)
     /\ (forall e, disk w (writes w) = Some e ->
         job.1 = Throw e
         /\ lessons run.2 = lessons w
         /\ (exists topic, topics w !! tid = Some topic
               /\ topics run.2 !! tid
                  = Some (set_topic_status generating None topic))
         /\ retry_route tid run.2
            = (Failure 400 "Generation already in progress", run.2)))
  /\ (forall code error, run.1 = Failure code error ->
        run.2 = w /\ code <> 500)
  /\ ((exists body, run.1 = Json 200 body)
      <-> isApiKeyConfigured w = true
          /\ (exists topic, topics w !! tid = Some topic
                /\ topic_status topic <> generating)
          /\ select_retryable tid w <> []).
Proof.
  intros run job. unfold run, job, retry_route. clear run job.
  destruct (isApiKeyConfigured w) eqn:Hkey; cbn [negb].
  2:{ split; [intros ? [=]|].
      split; [intros ? ? [= <- <-]; split; [reflexivity|lia]|].
      split; [intros (? & [=])|intros ([=] & _)]. }
  destruct (topics w !! tid) as [topic|] eqn:Ht.
  2:{ split; [intros ? [=]|].
      split; [intros ? ? [= <- <-]; split; [reflexivity|lia]|].
      split; [intros (? & [=])|intros (_ & (? & [=] & _) & _)]. }
  destruct (decide (topic_status topic = generating)) as [Hg|Hg].
  { rewrite bool_decide_eq_true_2 by exact Hg.
    split; [intros ? [=]|].
    split; [intros ? ? [= <- <-]; split; [reflexivity|lia]|].
    split; [intros (? & [=])|].
    intros (_ & (t & [= <-] & Hn) & _). contradiction. }
  rewrite bool_decide_eq_false_2 by exact Hg. cbv zeta.
  rewrite count_retryable_select.
  destruct (select_retryable tid w) as [|r rows] eqn:Hsel.
  { simpl. split; [intros ? [=]|].
    split; [intros ? ? [= <- <-]; split; [reflexivity|lia]|].
    split; [intros (? & [=])|intros (_ & _ & H); contradiction]. }
  rewrite bool_decide_eq_false_2 by (simpl; lia).
  destruct (getGenerationStatus_found tid w topic Ht) as (st & Hst).
  rewrite Hst. cbn [fst snd].
  split; [|split].
  - intros body [= <-]. cbn [lessonsToRetry retry_status].
    split; [simpl; lia|]. split; [reflexivity|]. split; [reflexivity|].
    split; [reflexivity|]. split.
    + intros Hdisk.
      destruct (retryFailedLessons_returns tid w topic Ht Hdisk) as (x & Hx).
      exists x. split; [exact Hx|].
      destruct (retry_counts_of tid createSSEProgressCallbacks w x Hx)
        as (Hr & _). rewrite Hr, Hsel. reflexivity.
    + intros e Hdisk.
      rewrite (retryFailedLessons_refused tid _ w topic e Ht
                 ltac:(rewrite Hsel; discriminate) Hdisk).
      cbn [fst snd]. split; [reflexivity|]. split; [reflexivity|]. split.
      * exists topic. split; [reflexivity|].
        cbn [disk_used topics with_files with_topics].
        rewrite lookup_alter_eq, Ht. reflexivity.
      * unfold retry_route.
        change (isApiKeyConfigured (disk_used _)) with (isApiKeyConfigured w).
        rewrite Hkey. cbn [negb disk_used topics with_files with_topics].
        rewrite lookup_alter_eq, Ht. cbn [fmap option_fmap option_map].
        rewrite bool_decide_eq_true_2 by reflexivity. reflexivity.
  - intros code error [=].
  - split; [|eauto]. intros _. split; [reflexivity|].
    split; [eauto|discriminate].
Qed.

Lemma insert_lessons_topics tid entries : forall w,
  topics (insert_lessons tid entries w).2 = topics w.
Proof.
  induction entries as [|entry later IH]; intros w; [reflexivity|].
  rewrite insert_lessons_cons.
  destruct (bound_entry entry) as [x|e]; [|reflexivity].
  rewrite IH. reflexivity.
Qed.

(** How [breakdownTopic] leaves the topic when no handler throws: still
    [generating] when it returns, [failed] when it throws. *)
Lemma breakdownTopic_outcome JSON_parse tid cb w topic :
  topics w !! tid = Some topic ->
  isApiKeyConfigured w = true ->
  (forall ev, cb ev = None) ->
  wp (breakdownTopic JSON_parse tid cb) w
    (fun r w' =>
       exists t', topics w' !! tid = Some t'
         /\ match r with
            | Ok v =>
                topic_status t' = generating
                /\ exists entries d,
                     js_get v "lessons" = Ok (Some (JArr entries))
                     /\ js_get v "topic_description" = Ok d
            | Throw _ => topic_status t' = failed
            end).
Proof.
  intros Htopic Hkey Hcb.
  unfold breakdownTopic. apply wp_bind, wp_gets. rewrite Htopic.
  apply wp_bind, wp_gets. rewrite Hkey. cbn [negb].
  apply wp_bind, wp_modify.
  apply wp_bind, wp_notify; [intros _|intros e He; rewrite Hcb in He;
                                      discriminate].
  set (w0 := with_notified _ _).
  assert (H0 : exists t0, topics w0 !! tid = Some t0).
  { cbn [w0 topics with_notified with_topics]. rewrite lookup_alter_eq, Htopic.
    eauto. }
  assert (Hhandler : forall error wk, (exists t, topics wk !! tid = Some t) ->
    wp (update_topic tid
          (set_topic_status failed (Some (message (categorizeError error)))) ;;
        notify cb (onGenerationError (message (categorizeError error))
                     (isRetryable (categorizeError error))) ;;
        throw error) wk
      (fun (r : Res JsValue) w' =>
         exists t', topics w' !! tid = Some t'
           /\ match r with
              | Ok v =>
                  topic_status t' = generating
                  /\ exists entries d,
                       js_get v "lessons" = Ok (Some (JArr entries))
                       /\ js_get v "topic_description" = Ok d
              | Throw _ => topic_status t' = failed
              end)).
  { intros error wk (t & Hwk). apply wp_bind, wp_modify.
    apply wp_bind, wp_notify;
      [intros _; apply wp_throw|intros e He; rewrite Hcb in He; discriminate].
    cbn [topics with_notified with_topics]. rewrite lookup_alter_eq, Hwk.
    eexists. split; [reflexivity|reflexivity]. }
  apply wp_try_catch, wp_bind.
  pose proof (callOpenAI_after "topic_breakdown"
                {| maxTokens := None; jsonResponse := Some true;
                   maxRetries := None; timeout := None; onRetry := None |}
                w0) as ((Ht1 & _) & _).
  unfold wp at 1.
  destruct (callOpenAI _ _ w0) as [[response|e] w1]; cbn [fst snd] in *.
  2:{ apply Hhandler. rewrite Ht1. exact H0. }
  assert (H1 : topics w1 !! tid
               = Some (set_topic_status generating None topic)).
  { rewrite Ht1. cbn [w0 topics with_notified with_topics].
    rewrite lookup_alter_eq, Htopic. reflexivity. }
  apply wp_bind, wp_lift.
  destruct (parseJsonResponse JSON_parse response) as [breakdown|e];
    [|apply Hhandler; eauto].
  apply wp_bind, wp_lift.
  destruct (js_get breakdown "lessons") as [field|e] eqn:Hfield;
    [|apply Hhandler; eauto].
  destruct field as [[| | | |entries|]|];
    try (apply wp_throw, Hhandler; eauto).
  apply wp_bind, wp_lift.
  destruct (js_get breakdown "topic_description") as [d|e] eqn:Hd;
    [|apply Hhandler; eauto].
  destruct (bind_text d) as [descr|e]; [|apply Hhandler; eauto].
  apply wp_bind, wp_modify. apply wp_bind.
  set (w2 := with_topics _ w1).
  pose proof (insert_lessons_topics tid entries w2) as H2.
  assert (Hw2 : topics w2 !! tid
                = Some (set_topic_breakdown descr
                          (Z.of_nat (length entries))
                          (set_topic_status generating None topic))).
  { cbn [w2 topics with_topics]. rewrite lookup_alter_eq, H1. reflexivity. }
  unfold wp at 1.
  destruct (insert_lessons tid entries w2) as [[[]|e] w3]; cbn [fst snd] in *.
  - apply wp_bind, wp_notify;
      [intros _; apply wp_ret|intros e He; rewrite Hcb in He; discriminate].
    cbn [topics with_notified]. rewrite H2, Hw2.
    eexists. split; [reflexivity|]. split; [reflexivity|]. eauto.
  - apply Hhandler. rewrite H2. eauto.
Qed.

Lemma insert_lessons_disk tid entries : forall w,
  disk (insert_lessons tid entries w).2 = disk w
  /\ writes (insert_lessons tid entries w).2 = writes w.
Proof.
  induction entries as [|entry later IH]; intros w; [split; reflexivity|].
  rewrite insert_lessons_cons.
  destruct (bound_entry entry) as [x|e]; [|split; reflexivity].
  destruct (IH (with_next_lesson_id (next_lesson_id w + 1)
                  (with_lessons
                     (insert (next_lesson_id w) (pending_row tid x)) w)))
    as [-> ->].
  split; reflexivity.
Qed.

(** A breakdown does not use the disk. *)
Lemma breakdownTopic_disk JSON_parse tid cb w :
  disk (breakdownTopic JSON_parse tid cb w).2 = disk w
  /\ writes (breakdownTopic JSON_parse tid cb w).2 = writes w.
Proof.
  change (wp (breakdownTopic JSON_parse tid cb) w
            (fun _ w' => disk w' = disk w /\ writes w' = writes w)).
  assert (H0 : disk w = disk w /\ writes w = writes w) by (split; reflexivity).
  unfold breakdownTopic. apply wp_bind, wp_gets.
  destruct (topics w !! tid) as [topic|]; [|apply wp_throw; exact H0].
  apply wp_bind, wp_gets.
  destruct (negb (isApiKeyConfigured w)); [apply wp_throw; exact H0|].
  apply wp_bind, wp_modify.
  apply wp_bind, wp_notify; [intros _|intros e _; exact H0].
  assert (Hhandler : forall error wk,
    disk wk = disk w /\ writes wk = writes w ->
    wp (update_topic tid
          (set_topic_status failed (Some (message (categorizeError error)))) ;;
        notify cb (onGenerationError (message (categorizeError error))
                     (isRetryable (categorizeError error))) ;;
        throw error) wk
      (fun (_ : Res JsValue) w' => disk w' = disk w /\ writes w' = writes w)).
  { intros error wk Hk. apply wp_bind, wp_modify.
    apply wp_bind, wp_notify; [intros _; apply wp_throw|intros e _];
      exact Hk. }
  apply wp_try_catch, wp_bind.
  set (w0 := with_notified _ _).
  pose proof (callOpenAI_after "topic_breakdown"
                {| maxTokens := None; jsonResponse := Some true;
                   maxRetries := None; timeout := None; onRetry := None |}
                w0) as ((_ & _ & _ & _ & _ & _ & _ & Hd & Hw) & _).
  assert (H1 : disk (callOpenAI "topic_breakdown"
                       {| maxTokens := None; jsonResponse := Some true;
                          maxRetries := None; timeout := None;
                          onRetry := None |} w0).2 = disk w
               /\ writes (callOpenAI "topic_breakdown"
                            {| maxTokens := None; jsonResponse := Some true;
                               maxRetries := None; timeout := None;
                               onRetry := None |} w0).2 = writes w)
    by (split; [exact Hd|exact Hw]).
  clear Hd Hw. unfold wp at 1.
  destruct (callOpenAI _ _ w0) as [[response|e] w1]; cbn [fst snd] in *;
    [|apply Hhandler; exact H1].
  apply wp_bind, wp_lift.
  destruct (parseJsonResponse JSON_parse response) as [breakdown|e];
    [|apply Hhandler; exact H1].
  apply wp_bind, wp_lift.
  destruct (js_get breakdown "lessons") as [field|e];
    [|apply Hhandler; exact H1].
  destruct field as [[| | | |entries|]|];
    try (apply wp_throw, Hhandler; exact H1).
  apply wp_bind, wp_lift.
  destruct (match js_get breakdown "topic_description" with
            | Ok v => bind_text v | Throw e => Throw e end) as [descr|e];
    [|apply Hhandler; exact H1].
  apply wp_bind, wp_modify. apply wp_bind.
  set (w2 := with_topics _ w1).
  destruct (insert_lessons_disk tid entries w2) as [Hd2 Hw2].
  assert (H2 : disk (insert_lessons tid entries w2).2 = disk w
               /\ writes (insert_lessons tid entries w2).2 = writes w).
  { rewrite Hd2, Hw2. exact H1. }
  clear Hd2 Hw2. unfold wp at 1.
  destruct (insert_lessons tid entries w2) as [[[]|e] w3]; cbn [fst snd] in *;
    [|apply Hhandler; exact H2].
  apply wp_bind, wp_notify; [intros _; apply wp_ret|intros e _; apply Hhandler];
    exact H2.
Qed.

Lemma verdict_settled failedCount rows :
  (verdict failedCount rows).1 = completed
  \/ (verdict failedCount rows).1 = failed.
Proof. unfold verdict. destruct (bool_decide _); auto. Qed.

(** [generateAllContent] with the callbacks of the broadcaster on a topic
    that has lessons.  When the directory is there or can be made it
    returns, and the topic is then [completed] or [failed] and still has
    lessons; when it cannot be made it throws with nothing done. *)
Lemma generateAllContent_settles tid w topic :
  topics w !! tid = Some topic ->
  select_lessons tid w <> [] ->
  let run := generateAllContent tid createSSEProgressCallbacks w in
  match disk w (writes w) with
  | None =>
      run.1 = Ok tt
      /\ select_lessons tid run.2 <> []
      /\ exists t', topics run.2 !! tid = Some t'
           /\ (topic_status t' = completed \/ topic_status t' = failed)
  | Some e => run = (Throw e, disk_used w)
  end.
Proof.
  intros Ht Hrows run.
  pose proof (generateAllContent_spec tid createSSEProgressCallbacks w) as H.
  unfold wp in H. fold run in H. rewrite Ht in H. cbv zeta in H.
  rewrite bool_decide_eq_false_2 in H by exact Hrows.
  destruct (disk w (writes w)) as [e|].
  { destruct run as [r w']. cbn [fst snd] in H. destruct H as [-> ->].
    reflexivity. }
  destruct H as (w2 & Hev & _ & _ & H).
  destruct H as [(Hr & _ & Hl & fc & Htop)|(e & e0 & ev & t' & _ & _ & Hcb & _)];
    [|discriminate Hcb].
  split; [exact Hr|]. split.
  - destruct (select_lessons tid w) as [|[j l] rows] eqn:Hsel; [contradiction|].
    assert (Hin : (j, l) ∈ select_lessons tid w) by (rewrite Hsel; left).
    apply elem_of_select_lessons in Hin as [Hj Htid].
    destruct Hev as (_ & _ & Hrow). specialize (Hrow j). rewrite Hj in Hrow.
    destruct Hrow as (b & Hb & Htb & _).
    intros Hnil.
    assert (Hin : (j, b) ∈ select_lessons tid run.2).
    { apply elem_of_select_lessons. rewrite Hl. split; [exact Hb|congruence]. }
    rewrite Hnil in Hin. apply elem_of_nil in Hin. exact Hin.
  - rewrite Htop, lookup_alter_eq, Ht. eexists. split; [reflexivity|].
    cbn [topic_status set_topic_status]. apply verdict_settled.
Qed.

Lemma generateAllContent_no_lessons tid cb w topic :
  topics w !! tid = Some topic ->
  select_lessons tid w = [] ->
  generateAllContent tid cb w = (Throw no_lessons, w).
Proof.
  intros Ht Hrows.
  pose proof (generateAllContent_spec tid cb w) as H.
  unfold wp in H. rewrite Ht in H. cbv zeta in H.
  rewrite bool_decide_eq_true_2 in H by exact Hrows.
  destruct (generateAllContent tid cb w) as [r w']. cbn [fst snd] in H.
  destruct H as [-> ->]. reflexivity.
Qed.

(** X14.  The generate route, for answers of the service whose values
    the driver stores as they are.  It refuses, with the store untouched,
    a topic that is being generated or is completed.  When it answers 200
    the job has run.  When the content directory is there or can be made,
    a topic that has lessons is then [completed] or [failed].  When it
    cannot be made the job throws with no lesson run: after a fresh
    breakdown the topic is left [generating] with its lessons [pending],
    and the route refuses it from then on; a topic that had its lessons
    is left as it was.  When the breakdown gave no lesson the job stops
    at once and the topic is left [generating] as well.  When the route
    answers 500 the breakdown has thrown and the topic is [failed].
    Every other answer leaves the store as it was. *)
Theorem generate_route_outcomes (JSON_parse : text -> option JsValue)
    (tid : Z) (w : World) :
  (forall t v, JSON_parse t = Some v -> outline_as_driver v) ->
  let run := generate_route JSON_parse tid w in
  (forall body, run.1 = Json 200 body ->
     exists t', topics run.2 !! tid = Some t'
       /\ ((select_lessons tid run.2 <> []
            /\ disk w (writes w) = None
            /\ (topic_status t' = completed \/ topic_status t' = failed))
           \/ (select_lessons tid run.2 <> []
               /\ is_Some (disk w (writes w))
               /\ count_lessons tid w = 0
               /\ topic_status t' = generating
               /\ exists error,
                    generate_route JSON_parse tid run.2
                    = (Failure 400 error, run.2))
           \/ (select_lessons tid run.2 <> []
               /\ is_Some (disk w (writes w))
               /\ count_lessons tid w <> 0
               /\ run.2 = disk_used w)
           \/ (select_lessons tid run.2 = []
               /\ topic_status t' = generating
               /\ count_lessons tid w = 0
               /\ exists error,
                    generate_route JSON_parse tid run.2
                    = (Failure 400 error, run.2))))
  /\ (forall error, run.1 = Failure 500 error ->
        count_lessons tid w = 0
        /\ exists t', topics run.2 !! tid = Some t'
                      /\ topic_status t' = failed)
  /\ (forall code error, run.1 = Failure code error -> code <> 500 ->
        run.2 = w)
  /\ (forall topic, topics w !! tid = Some topic ->
        topic_status topic = generating \/ topic_status topic = completed ->
        exists error, run = (Failure 400 error, w)).
Proof.
  intros _ run. unfold run. clear run.
  remember (generate_route JSON_parse tid w) as run eqn:Hrun.
  unfold generate_route in Hrun.
  destruct (isApiKeyConfigured w) eqn:Hkey; cbn [negb] in Hrun.
  2:{ subst run. cbn [fst snd]. split; [intros ? [=]|]. split; [intros ? [=]|].
      split; [reflexivity|]. intros; eauto. }
  destruct (topics w !! tid) as [topic|] eqn:Ht.
  2:{ subst run. cbn [fst snd]. split; [intros ? [=]|]. split; [intros ? [=]|].
      split; [reflexivity|]. intros ? [=]. }
  destruct (decide (topic_status topic = generating)) as [Hg|Hg].
  { rewrite bool_decide_eq_true_2 in Hrun by exact Hg. subst run.
    cbn [fst snd]. split; [intros ? [=]|]. split; [intros ? [=]|].
    split; [reflexivity|]. intros; eauto. }
  rewrite bool_decide_eq_false_2 in Hrun by exact Hg.
  destruct (decide (topic_status topic = completed)) as [Hc|Hc].
  { rewrite bool_decide_eq_true_2 in Hrun by exact Hc. subst run.
    cbn [fst snd]. split; [intros ? [=]|]. split; [intros ? [=]|].
    split; [reflexivity|]. intros; eauto. }
  rewrite bool_decide_eq_false_2 in Hrun by exact Hc. cbv zeta in Hrun.
  assert (Hlast : forall topic0 : Topic, Some topic = Some topic0 ->
            topic_status topic0 = generating
            \/ topic_status topic0 = completed ->
            exists error, run = (Failure 400 error, w)).
  { intros t [= <-] [H|H]; contradiction. }
  assert (Hrefused : forall w1 t1, topics w1 !! tid = Some t1 ->
            topic_status t1 = generating ->
            exists error,
              generate_route JSON_parse tid w1 = (Failure 400 error, w1)).
  { intros w1 t1 Ht1 Hs1. unfold generate_route.
    destruct (isApiKeyConfigured w1); cbn [negb]; [|eexists; reflexivity].
    rewrite Ht1, bool_decide_eq_true_2 by exact Hs1. eexists; reflexivity. }
  destruct (decide (count_lessons tid w = 0)) as [Hzero|Hsome].
  - rewrite bool_decide_eq_true_2 in Hrun by exact Hzero.
    unfold bind at 1 in Hrun. unfold bind at 1 in Hrun.
    pose proof (breakdownTopic_outcome JSON_parse tid
                  createSSEProgressCallbacks w topic Ht Hkey
                  (fun _ => eq_refl)) as Hout.
    unfold wp in Hout.
    destruct (breakdownTopic_disk JSON_parse tid createSSEProgressCallbacks w)
      as [Hd1 Hw1].
    destruct (breakdownTopic JSON_parse tid createSSEProgressCallbacks w)
      as [[v|e] w1]; cbn [fst snd] in *.
    + destruct Hout as (t1 & Ht1 & Hs1 & entries & d & Hl & Hd).
      cbn [ret] in Hrun. unfold bind at 1, lift at 1 in Hrun.
      cbn [breakdown_summary] in Hrun. rewrite Hd, Hl in Hrun.
      unfold bind at 1, gets at 1 in Hrun.
      destruct (getGenerationStatus_found tid w1 t1 Ht1) as (st & Hst).
      rewrite Hst in Hrun. unfold bind at 1, lift at 1 in Hrun.
      cbn [ret] in Hrun. clear Hlast. subst run. cbn [fst snd].
      split; [|split; [intros ? [=]|split; [intros ? ? [=]|]]].
      2:{ intros t [= <-] [H|H]; contradiction. }
      intros body _.
      destruct (decide (select_lessons tid w1 = [])) as [Hnil|Hrows].
      * rewrite (generateAllContent_no_lessons _ _ _ _ Ht1 Hnil). cbn [snd].
        exists t1. split; [exact Ht1|]. right; right; right.
        split; [exact Hnil|]. split; [exact Hs1|]. split; [exact Hzero|].
        exact (Hrefused w1 t1 Ht1 Hs1).
      * pose proof (generateAllContent_settles tid w1 t1 Ht1 Hrows) as Hset.
        cbv zeta in Hset. rewrite Hd1, Hw1 in Hset.
        destruct (disk w (writes w)) as [e|].
        -- rewrite Hset. cbn [snd]. exists t1. split; [exact Ht1|].
           right; left. split; [exact Hrows|]. split; [eauto|].
           split; [exact Hzero|]. split; [exact Hs1|].
           exact (Hrefused (disk_used w1) t1 Ht1 Hs1).
        -- destruct Hset as (_ & Hne & t' & Ht' & Hst').
           exists t'. split; [exact Ht'|]. left. auto.
    + destruct Hout as (t1 & Ht1 & Hs1). clear Hlast. subst run.
      cbn [fst snd].
      split; [intros ? [=]|]. split; [|split].
      * intros error _. split; [exact Hzero|]. eauto.
      * intros code error [= <- _] Hcode. contradiction.
      * intros t [= <-] [H|H]; contradiction.
  - rewrite bool_decide_eq_false_2 in Hrun by exact Hsome.
    unfold bind at 1 in Hrun. cbn [ret] in Hrun.
    unfold bind at 1, lift at 1 in Hrun.
    cbn [breakdown_summary] in Hrun. unfold bind at 1, gets at 1 in Hrun.
    destruct (getGenerationStatus_found tid w topic Ht) as (st & Hst).
    rewrite Hst in Hrun. unfold bind at 1, lift at 1 in Hrun.
    cbn [ret] in Hrun. clear Hlast. subst run. cbn [fst snd].
    split; [|split; [intros ? [=]|split; [intros ? ? [=]|]]].
    2:{ intros t [= <-] [H|H]; contradiction. }
    intros body _.
    assert (Hrows : select_lessons tid w <> []).
    { intros Hnil. apply Hsome. rewrite count_lessons_select, Hnil.
      reflexivity. }
    pose proof (generateAllContent_settles tid w topic Ht Hrows) as Hset.
    cbv zeta in Hset.
    destruct (disk w (writes w)) as [e|].
    + rewrite Hset. cbn [snd]. exists topic. split; [exact Ht|].
      right; right; left. split; [exact Hrows|]. split; [eauto|].
      split; [exact Hsome|reflexivity].
    + destruct Hset as (_ & Hne & t' & Ht' & Hst').
      exists t'. split; [exact Ht'|]. left. auto.
Qed.

Lemma closeTopicConnections_lookups topic (reg : SSE.Registry) :
  let run := closeTopicConnections topic reg in
  (forall cid c, reg !! cid = Some c -> SSE.topicId c = topic ->
     run.2 !! cid = None)
  /\ (forall cid c, reg !! cid = Some c -> SSE.topicId c <> topic ->
        run.2 !! cid = Some c)
  /\ (forall cid, reg !! cid = None -> run.2 !! cid = None)
  /\ hasConnections topic run.2 = false.
Proof.
  intros run. destruct (closeTopicConnections_run topic reg) as (_ & H).
  fold run in H.
  split; [|split; [|split]].
  - intros cid c Hc Ht. rewrite H, Hc. simpl. unfold closed.
    rewrite bool_decide_eq_true_2 by exact Ht. reflexivity.
  - intros cid c Hc Ht. rewrite H, Hc. simpl. unfold closed.
    rewrite bool_decide_eq_false_2 by exact Ht. reflexivity.
  - intros cid Hc. rewrite H, Hc. reflexivity.
  - destruct (hasConnections topic run.2) eqn:E; [|reflexivity].
    exfalso. apply has_connection_iff in E as (cid & c & Hc & Ht).
    rewrite H in Hc. destruct (reg !! cid) as [c0|]; [|discriminate].
    simpl in Hc. unfold closed in Hc.
    destruct (bool_decide (SSE.topicId c0 = topic)) eqn:E; [discriminate|].
    apply bool_decide_eq_false in E. congruence.
Qed.

(** ** Deleting a topic *)

(** X15.  The delete route answers 404 for a topic that does not exist and
    changes nothing.  For a topic that exists it answers 200; the topic
    and all its lessons are gone, so that the status query throws and a
    second delete answers 404; the other topics and their lessons are as
    they were; no connection of the topic is left registered and the
    others stay; the keys given to lessons are not reused; and the files
    that were generated stay on disk. *)
Theorem delete_route_removes_topic (tid : Z) (w : World)
    (reg : SSE.Registry) :
  let run := delete_route tid w reg in
  match topics w !! tid with
  | None => run = (Failure 404 "Topic not found", w, reg)
  | Some _ =>
      run.1.1 = Json 200 "Topic deleted successfully"
      /\ topics run.1.2 !! tid = None
      /\ (forall t, t <> tid -> topics run.1.2 !! t = topics w !! t)
      /\ select_lessons tid run.1.2 = []
      /\ (forall j a, lessons run.1.2 !! j = Some a
            <-> lessons w !! j = Some a /\ topic_id a <> tid)
      /\ next_lesson_id run.1.2 = next_lesson_id w
      /\ files run.1.2 = files w
      /\ getGenerationStatus tid run.1.2 = Throw not_found
      /\ (delete_route tid run.1.2 run.2).1.1
         = Failure 404 "Topic not found"
      /\ hasConnections tid run.2 = false
      /\ (forall cid c, reg !! cid = Some c -> SSE.topicId c <> tid ->
            run.2 !! cid = Some c)
      /\ (forall cid c, run.2 !! cid = Some c -> reg !! cid = Some c)
  end.
Proof.
  intros run. unfold run, delete_route.
  destruct (topics w !! tid) as [topic|] eqn:Ht; [|reflexivity].
  cbv zeta. cbn [fst snd topics lessons files next_lesson_id with_topics
                 with_lessons].
  destruct (closeTopicConnections_lookups tid reg)
    as (Hgone & Hkept & Hnone & Hhas).
  split; [reflexivity|]. split; [apply lookup_delete_eq|].
  split; [intros t Hne; apply lookup_delete_ne; congruence|].
  assert (Hrows : forall j a,
            filter (fun r : Z * Lesson => topic_id r.2 <> tid) (lessons w)
              !! j = Some a
            <-> lessons w !! j = Some a /\ topic_id a <> tid).
  { intros j a. apply map_lookup_filter_Some. }
  split; [|split; [exact Hrows|]].
  - destruct (select_lessons tid _) as [|[j a] rows] eqn:Hsel; [reflexivity|].
    assert (Hin : (j, a) ∈ select_lessons tid
              (with_topics (delete tid)
                 (with_lessons
                    (filter (fun r : Z * Lesson => topic_id r.2 <> tid)) w)))
      by (rewrite Hsel; left).
    apply elem_of_select_lessons in Hin as [Hj Htid].
    cbn [lessons with_topics with_lessons] in Hj.
    apply Hrows in Hj as [_ Hne]. contradiction.
  - split; [reflexivity|]. split; [reflexivity|].
    split.
    { unfold getGenerationStatus. cbn [topics with_topics with_lessons].
      rewrite lookup_delete_eq. reflexivity. }
    split.
    { cbn [topics with_topics with_lessons]. rewrite lookup_delete_eq.
      reflexivity. }
    split; [exact Hhas|]. split; [exact Hkept|].
    intros cid c Hc. destruct (reg !! cid) as [c0|] eqn:E.
    + destruct (decide (SSE.topicId c0 = tid)) as [Heq|Hne].
      * rewrite (Hgone cid c0 E Heq) in Hc. discriminate.
      * rewrite (Hkept cid c0 E Hne) in Hc. exact Hc.
    + rewrite (Hnone cid E) in Hc. discriminate.
Qed.

(** ** Slugs *)

Lemma hyphen_not_letter : is_slug_letter hyphen = false.
Proof. reflexivity. Qed.

Lemma letter_not_hyphen c : is_slug_letter c = true -> (c =? hyphen)%N = false.
Proof. intros H. apply N.eqb_neq. intros ->. discriminate. Qed.

Lemma toLowerCase_letter c :
  is_slug_letter c = true -> toLowerCase_unit c = [c].
Proof.
  unfold is_slug_letter, toLowerCase_unit. intros H.
  assert (Hc : (48 <= c <= 57 \/ 97 <= c <= 122)%N).
  { apply orb_true_iff in H as [H|H]; apply andb_true_iff in H as [H1 H2];
      apply N.leb_le in H1, H2; lia. }
  replace ((65 <=? c) && (c <=? 90))%N with false.
  2:{ symmetry. apply andb_false_iff.
      destruct Hc; [left|right]; apply N.leb_gt; lia. }
  replace (c =? 8490)%N with false by (symmetry; apply N.eqb_neq; lia).
  replace (c =? 304)%N with false by (symmetry; apply N.eqb_neq; lia).
  reflexivity.
Qed.

Lemma replace_runs_shape t : forall in_run,
  runs_shape in_run (replace_runs in_run t) = true.
Proof.
  induction t as [|c t IH]; intros in_run; [reflexivity|].
  cbn [replace_runs]. destruct (is_slug_letter c) eqn:Hc.
  - cbn [runs_shape]. rewrite Hc. apply IH.
  - destruct in_run; [apply IH|].
    cbn [runs_shape]. rewrite hyphen_not_letter, N.eqb_refl. apply IH.
Qed.

Lemma runs_shape_weaken t : runs_shape true t = true -> runs_shape false t = true.
Proof.
  destruct t as [|c t]; [reflexivity|]. cbn [runs_shape].
  destruct (is_slug_letter c); [auto|].
  rewrite andb_false_r. discriminate.
Qed.

Lemma runs_shape_strip_leading t b :
  runs_shape b t = true -> runs_shape true (strip_leading_hyphen t) = true.
Proof.
  destruct t as [|c t]; [auto|]. cbn [runs_shape strip_leading_hyphen].
  destruct (is_slug_letter c) eqn:Hc.
  - intros H. rewrite (letter_not_hyphen _ Hc). cbn [runs_shape]. rewrite Hc.
    exact H.
  - intros H. apply andb_true_iff in H as [H Ht].
    apply andb_true_iff in H as [Hh _]. rewrite Hh. exact Ht.
Qed.

Lemma runs_shape_prefix t u : forall b,
  runs_shape b (t ++ u) = true -> runs_shape b t = true.
Proof.
  induction t as [|c t IH]; intros b; [reflexivity|].
  cbn [app runs_shape]. destruct (is_slug_letter c); [apply IH|].
  intros H. apply andb_true_iff in H as [H Ht]. rewrite H. apply (IH _ Ht).
Qed.

Lemma runs_shape_before_hyphen t : forall b,
  runs_shape b (t ++ [hyphen]) = true -> last t <> Some hyphen.
Proof.
  induction t as [|c t IH]; intros b; [discriminate|].
  cbn [app runs_shape]. destruct (is_slug_letter c) eqn:Hc.
  - intros H. destruct t as [|d t].
    + cbn. intros [= ->]. discriminate.
    + exact (IH _ H).
  - intros H. apply andb_true_iff in H as [_ Ht]. destruct t as [|d t].
    + cbn in Ht. discriminate.
    + exact (IH _ Ht).
Qed.

Lemma strip_trailing_snoc t c :
  strip_trailing_hyphen (t ++ [c])
  = if (c =? hyphen)%N then t else t ++ [c].
Proof.
  unfold strip_trailing_hyphen. rewrite rev_unit. cbn [strip_leading_hyphen].
  destruct (c =? hyphen)%N; [apply rev_involutive|].
  change (c :: rev t) with (rev [c] ++ rev t).
  rewrite <- rev_app_distr. apply rev_involutive.
Qed.

Lemma last_snoc' (t : text) c : last (t ++ [c]) = Some c.
Proof. apply last_snoc. Qed.

Lemma runs_shape_strip_trailing t b :
  runs_shape b t = true ->
  runs_shape b (strip_trailing_hyphen t) = true
  /\ last (strip_trailing_hyphen t) <> Some hyphen.
Proof.
  destruct t as [|c t _] using rev_ind; [split; [reflexivity|discriminate]|].
  intros H. rewrite strip_trailing_snoc.
  destruct (c =? hyphen)%N eqn:Hc.
  - apply N.eqb_eq in Hc. subst c. split.
    + exact (runs_shape_prefix _ _ _ H).
    + exact (runs_shape_before_hyphen _ _ H).
  - split; [exact H|]. rewrite last_snoc'. intros [= ->].
    rewrite N.eqb_refl in Hc. discriminate.
Qed.

Lemma runs_shape_charset t : forall b c,
  runs_shape b t = true -> c ∈ t -> is_slug_letter c = true \/ c = hyphen.
Proof.
  induction t as [|d t IH]; intros b c H Hin; [inversion Hin|].
  cbn [runs_shape] in H. destruct (is_slug_letter d) eqn:Hd.
  - apply elem_of_cons in Hin as [->|Hin]; [auto|exact (IH _ _ H Hin)].
  - apply andb_true_iff in H as [H Ht]. apply andb_true_iff in H as [Hh _].
    apply N.eqb_eq in Hh.
    apply elem_of_cons in Hin as [->|Hin]; [auto|exact (IH _ _ Ht Hin)].
Qed.

Lemma runs_shape_no_double t : forall b i,
  runs_shape b t = true -> t !! i = Some hyphen -> t !! S i <> Some hyphen.
Proof.
  induction t as [|d t IH]; intros b i H Hi; [discriminate|].
  cbn [runs_shape] in H. destruct i as [|i].
  - cbn in Hi. injection Hi as ->. rewrite hyphen_not_letter in H.
    apply andb_true_iff in H as [_ Ht]. destruct t as [|e t]; [discriminate|].
    cbn. intros [= ->]. cbn in Ht. discriminate.
  - cbn in Hi. change ((d :: t) !! S (S i)) with (t !! S i).
    destruct (is_slug_letter d); [exact (IH _ _ H Hi)|].
    apply andb_true_iff in H as [_ Ht]. exact (IH _ _ Ht Hi).
Qed.

Lemma runs_shape_head t : runs_shape true t = true -> head t <> Some hyphen.
Proof.
  destruct t as [|c t]; [discriminate|]. cbn. intros H [= ->].
  cbn in H. discriminate.
Qed.

Lemma well_formed_of_shape s :
  runs_shape true s = true -> last s <> Some hyphen -> well_formed_slug s.
Proof.
  intros H Hl. split; [|split; [|split]].
  - intros c. exact (runs_shape_charset _ _ _ H).
  - exact (runs_shape_head _ H).
  - exact Hl.
  - intros i. exact (runs_shape_no_double _ _ _ H).
Qed.

Lemma shape_of_well_formed s : well_formed_slug s -> runs_shape true s = true.
Proof.
  intros (Hc & Hh & _ & Hd).
  assert (G : forall t b,
    (forall c, c ∈ t -> is_slug_letter c = true \/ c = hyphen) ->
    (b = true -> head t <> Some hyphen) ->
    (forall i, t !! i = Some hyphen -> t !! S i <> Some hyphen) ->
    runs_shape b t = true).
  { clear. induction t as [|c t IH]; intros b Hc Hh Hd; [reflexivity|].
    cbn [runs_shape]. destruct (is_slug_letter c) eqn:Ec.
    - apply IH.
      + intros d Hin. apply Hc. now apply list_elem_of_further.
      + discriminate.
      + intros i. exact (Hd (S i)).
    - destruct (Hc c) as [E| ->]; [apply list_elem_of_here|congruence|].
      rewrite N.eqb_refl. destruct b; [exfalso; now apply Hh|]. cbn.
      apply IH.
      + intros d Hin. apply Hc. now apply list_elem_of_further.
      + intros _ E. apply (Hd 0%nat eq_refl).
        destruct t; [discriminate|exact E].
      + intros i. exact (Hd (S i)). }
  apply G; auto.
Qed.

Lemma toLowerCase_shape t : forall b,
  runs_shape b t = true -> toLowerCase t = t.
Proof.
  induction t as [|c t IH]; intros b H; [reflexivity|].
  cbn [runs_shape] in H. change (toLowerCase (c :: t))
    with (toLowerCase_unit c ++ toLowerCase t).
  destruct (is_slug_letter c) eqn:Hc.
  - rewrite (toLowerCase_letter _ Hc), (IH _ H). reflexivity.
  - apply andb_true_iff in H as [H Ht]. apply andb_true_iff in H as [Hh _].
    apply N.eqb_eq in Hh. subst c. rewrite (IH _ Ht). reflexivity.
Qed.

Lemma replace_runs_fixed t : forall b,
  runs_shape b t = true -> replace_runs b t = t.
Proof.
  induction t as [|c t IH]; intros b H; [reflexivity|].
  cbn [runs_shape] in H. cbn [replace_runs].
  destruct (is_slug_letter c) eqn:Hc.
  - now rewrite (IH _ H).
  - apply andb_true_iff in H as [H Ht]. apply andb_true_iff in H as [Hh Hb].
    apply N.eqb_eq in Hh. subst c. destruct b; [discriminate|].
    now rewrite (IH _ Ht).
Qed.

Lemma strip_leading_fixed t : head t <> Some hyphen -> strip_leading_hyphen t = t.
Proof.
  destruct t as [|c t]; [reflexivity|]. cbn. intros H.
  destruct (c =? hyphen)%N eqn:E; [|reflexivity].
  apply N.eqb_eq in E. congruence.
Qed.

Lemma strip_trailing_fixed t : last t <> Some hyphen -> strip_trailing_hyphen t = t.
Proof.
  destruct t as [|c t _] using rev_ind; [reflexivity|].
  rewrite last_snoc', strip_trailing_snoc. intros H.
  destruct (c =? hyphen)%N eqn:E; [|reflexivity].
  apply N.eqb_eq in E. congruence.
Qed.

Lemma createSlug_shape t :
  runs_shape true (createSlug t) = true /\ last (createSlug t) <> Some hyphen.
Proof.
  unfold createSlug. apply runs_shape_strip_trailing.
  apply (runs_shape_strip_leading _ false), replace_runs_shape.
Qed.

Lemma createSlug_fixed s :
  runs_shape true s = true -> last s <> Some hyphen -> createSlug s = s.
Proof.
  intros H Hl. unfold createSlug.
  rewrite (toLowerCase_shape _ _ H).
  rewrite (replace_runs_fixed _ _ (runs_shape_weaken _ H)).
  rewrite (strip_leading_fixed _ (runs_shape_head _ H)).
  exact (strip_trailing_fixed _ Hl).
Qed.

(** X16.  Whatever the title, its slug is made of the letters [a]-[z], the
    digits and hyphens, neither begins nor ends with a hyphen and has no
    two hyphens in a row. *)
Theorem createSlug_well_formed (title : text) :
  well_formed_slug (createSlug title).
Proof.
  destruct (createSlug_shape title) as [H Hl].
  exact (well_formed_of_shape _ H Hl).
Qed.

(** X17.  A text of that form is its own slug; so the slug of a slug is
    that slug. *)
Theorem createSlug_idempotent :
  (forall s, well_formed_slug s -> createSlug s = s)
  /\ (forall title, createSlug (createSlug title) = createSlug title).
Proof.
  split.
  - intros s H. apply createSlug_fixed; [exact (shape_of_well_formed _ H)|].
    exact (proj1 (proj2 (proj2 H))).
  - intros title. destruct (createSlug_shape title) as [H Hl].
    exact (createSlug_fixed _ H Hl).
Qed.

Lemma replace_runs_app x y : forall b,
  replace_runs b (x ++ y) = replace_runs b x ++ replace_runs (run_after b x) y.
Proof.
  induction x as [|c x IH]; intros b; [reflexivity|].
  cbn [app replace_runs run_after].
  destruct (is_slug_letter c); cbn [negb]; [now rewrite IH|].
  destruct b; now rewrite IH.
Qed.

Lemma replace_runs_separator x b :
  Forall (fun c => is_slug_letter c = false) x ->
  replace_runs b x = (if b then [] else match x with [] => [] | _ => [hyphen] end)
  /\ run_after b x = match x with [] => b | _ => true end.
Proof.
  intros H. revert b. induction H as [|c x Hc _ IH]; intros b.
  - destruct b; auto.
  - cbn [replace_runs run_after]. rewrite Hc. cbn [negb].
    destruct (IH true) as [-> ->]. destruct b; split; try reflexivity;
      now destruct x.
Qed.

Lemma toLowerCase_app x y : toLowerCase (x ++ y) = toLowerCase x ++ toLowerCase y.
Proof. unfold toLowerCase. apply bind_app. Qed.

Lemma toLowerCase_nonempty x : x <> [] -> toLowerCase x <> [].
Proof.
  destruct x as [|c x]; [congruence|]. intros _.
  change (toLowerCase (c :: x)) with (toLowerCase_unit c ++ toLowerCase x).
  unfold toLowerCase_unit.
  repeat match goal with |- context [if ?b then _ else _] => destruct b end;
    discriminate.
Qed.

Lemma replace_runs_around a sep b :
  separator sep ->
  replace_runs false (toLowerCase (a ++ sep ++ b))
  = replace_runs false (toLowerCase a)
    ++ (if run_after false (toLowerCase a) then [] else [hyphen])
    ++ replace_runs true (toLowerCase b).
Proof.
  intros [Hne Hsep]. rewrite !toLowerCase_app, !replace_runs_app.
  destruct (replace_runs_separator _ (run_after false (toLowerCase a)) Hsep)
    as [-> ->].
  pose proof (toLowerCase_nonempty _ Hne) as Hn.
  destruct (toLowerCase sep); [congruence|]. reflexivity.
Qed.

Lemma toLowerCase_ascii_upper c :
  toLowerCase_unit (ascii_upper c) = toLowerCase_unit c.
Proof.
  unfold ascii_upper. destruct ((97 <=? c) && (c <=? 122))%N eqn:E;
    [|reflexivity].
  assert (Hl : is_slug_letter c = true) by (unfold is_slug_letter; now rewrite E).
  rewrite (toLowerCase_letter _ Hl).
  apply andb_true_iff in E as [E1 E2]. apply N.leb_le in E1, E2.
  unfold toLowerCase_unit.
  replace ((65 <=? c - 32) && (c - 32 <=? 90))%N with true.
  - f_equal. lia.
  - symmetry. apply andb_true_iff. split; apply N.leb_le; lia.
Qed.

(** X18.  The slug of a title does not depend on which characters other
    than letters and digits separate its parts, nor on the case of its
    ASCII letters. *)
Theorem createSlug_ignores_separators_and_case :
  (forall a sep sep' b, separator sep -> separator sep' ->
     createSlug (a ++ sep ++ b) = createSlug (a ++ sep' ++ b))
  /\ (forall title, createSlug (ascii_upper <$> title) = createSlug title).
Proof.
  split.
  - intros a sep sep' b H H'. unfold createSlug.
    now rewrite (replace_runs_around a sep b H), (replace_runs_around a sep' b H').
  - intros title. unfold createSlug. do 3 f_equal.
    induction title as [|c t IH]; [reflexivity|].
    change (toLowerCase (ascii_upper <$> c :: t))
      with (toLowerCase_unit (ascii_upper c) ++ toLowerCase (ascii_upper <$> t)).
    now rewrite toLowerCase_ascii_upper, IH.
Qed.

Lemma strip_leading_keeps c t :
  c ∈ t -> c <> hyphen -> c ∈ strip_leading_hyphen t.
Proof.
  destruct t as [|d t]; [auto|]. cbn. intros Hin Hc.
  destruct (d =? hyphen)%N eqn:E; [|exact Hin].
  apply N.eqb_eq in E. subst d.
  apply elem_of_cons in Hin as [->|Hin]; [congruence|exact Hin].
Qed.

Lemma elem_of_rev' (c : N) t : c ∈ rev t <-> c ∈ t.
Proof. rewrite !list_elem_of_In. symmetry. apply in_rev. Qed.

Lemma strip_trailing_keeps c t :
  c ∈ t -> c <> hyphen -> c ∈ strip_trailing_hyphen t.
Proof.
  intros Hin Hc. unfold strip_trailing_hyphen.
  apply elem_of_rev', strip_leading_keeps; [now apply elem_of_rev'|exact Hc].
Qed.

Lemma replace_runs_keeps c t : forall b,
  c ∈ t -> is_slug_letter c = true -> c ∈ replace_runs b t.
Proof.
  induction t as [|d t IH]; intros b Hin Hc; [inversion Hin|].
  cbn [replace_runs]. apply elem_of_cons in Hin as [<-|Hin].
  - rewrite Hc. apply list_elem_of_here.
  - destruct (is_slug_letter d); [apply list_elem_of_further, IH; auto|].
    destruct b; [|apply list_elem_of_further]; apply IH; auto.
Qed.

(** X19.  The slug is empty exactly when the title, in lower case, has no
    letter [a]-[z] and no digit. *)
Theorem createSlug_empty_iff (title : text) :
  createSlug title = []
  <-> Forall (fun c => is_slug_letter c = false) (toLowerCase title).
Proof.
  split.
  - intros H. apply Forall_forall. intros c Hin.
    destruct (is_slug_letter c) eqn:Hc; [exfalso|reflexivity].
    assert (Hh : c <> hyphen) by (intros ->; discriminate).
    assert (Hs : c ∈ createSlug title).
    { unfold createSlug. apply strip_trailing_keeps, Hh.
      apply strip_leading_keeps, Hh. apply replace_runs_keeps; auto. }
    rewrite H in Hs. inversion Hs.
  - intros H. unfold createSlug.
    destruct (replace_runs_separator _ false H) as [-> _].
    now destruct (toLowerCase title).
Qed.

(** ** Fences around generated text *)

Lemma backtick_not_space : is_space backtick = false.
Proof. reflexivity. Qed.

Lemma trimStart_spaces ws x :
  forallb is_space ws = true -> trimStart (ws ++ x) = trimStart x.
Proof.
  induction ws as [|c ws IH]; [reflexivity|]. cbn [forallb app trimStart].
  intros H. apply andb_true_iff in H as [-> H]. exact (IH H).
Qed.

Lemma trimStart_app_fence' x : trimStart (x ++ fence) = trimStart x ++ fence.
Proof.
  induction x as [|c x IH]; [reflexivity|]. cbn [app trimStart].
  destruct (is_space c); [exact IH|reflexivity].
Qed.

Lemma take_space_spaces t : forallb is_space (take_space t) = true.
Proof.
  induction t as [|c t IH]; [reflexivity|]. cbn [take_space].
  destruct (is_space c) eqn:E; [|reflexivity]. cbn [forallb]. now rewrite E.
Qed.

Lemma after_last_newline_spaces t : forall r,
  forallb is_space t = true -> after_last_newline t = Some r ->
  forallb is_space r = true.
Proof.
  induction t as [|c t IH]; intros r H; [discriminate|].
  cbn [forallb] in H. apply andb_true_iff in H as [_ H].
  cbn [after_last_newline]. destruct (after_last_newline t) as [r'|].
  - intros [= <-]. exact (IH _ H eq_refl).
  - destruct (c =? 10)%N; [|discriminate]. now intros [= <-].
Qed.

Lemma after_last_newline_cons t :
  exists r, after_last_newline (10%N :: t) = Some r.
Proof.
  cbn [after_last_newline]. destruct (after_last_newline t) as [r|]; eauto.
Qed.

Lemma forallb_space_last (l : text) c :
  last l = Some c -> is_space c = false -> forallb is_space l = false.
Proof.
  intros Hl Hc. destruct (forallb is_space l) eqn:E; [|reflexivity].
  rewrite forallb_forall in E. rewrite <- Hc. symmetry. apply E.
  apply list_elem_of_In. apply last_Some in Hl as [l' ->].
  apply elem_of_app. right. apply list_elem_of_here.
Qed.

Lemma last_drop_lt (l : text) : forall n,
  (n < length l)%nat -> last (drop n l) = last l.
Proof.
  induction l as [|c l IH]; intros n Hn; [cbn in Hn; lia|].
  destruct n as [|n]; [reflexivity|]. cbn [drop]. cbn [length] in Hn.
  rewrite IH by lia. destruct l; [cbn in Hn; lia|reflexivity].
Qed.

(** Nothing but the fence at the very end can close the match. *)
Lemma before_closing_at_end p e x :
  last p = Some e -> is_space e = false ->
  before_closing p (x ++ p) = Some x.
Proof.
  intros Hp He. induction x as [|c x IH].
  - cbn [app]. destruct p as [|a p]; [discriminate|].
    cbn [before_closing].
    replace (starts_with (a :: p) (a :: p)) with true.
    + now rewrite drop_all.
    + symmetry. clear. generalize (a :: p). intros l.
      induction l as [|b l IH]; [reflexivity|]. cbn. now rewrite N.eqb_refl.
  - change ((c :: x) ++ p) with (c :: (x ++ p)).
    assert (Hf : forallb is_space (drop (length p) (c :: (x ++ p))) = false).
    { apply (forallb_space_last _ e); [|exact He].
      rewrite last_drop_lt; [rewrite last_cons, last_app, Hp; reflexivity|].
      cbn [length]. rewrite length_app. lia. }
    cbn [before_closing]. rewrite Hf, andb_false_r, IH. reflexivity.
Qed.

Lemma starts_with_split p : forall t,
  starts_with p t = true -> t = p ++ drop (length p) t.
Proof.
  induction p as [|a p IH]; intros t H; [reflexivity|].
  destruct t as [|b t]; [discriminate|]. cbn [starts_with] in H.
  apply andb_true_iff in H as [Hab H]. apply N.eqb_eq in Hab. subst b.
  cbn [length drop app]. f_equal. exact (IH _ H).
Qed.

Lemma before_closing_split p : forall t x,
  before_closing p t = Some x ->
  exists ws, t = x ++ p ++ ws /\ forallb is_space ws = true.
Proof.
  induction t as [|c t IH]; intros x.
  - cbn [before_closing].
    destruct (starts_with p [] && forallb is_space (drop (length p) []))
      eqn:E; [|discriminate].
    intros [= <-]. apply andb_true_iff in E as [E1 E2].
    exists (drop (length p) []). split; [exact (starts_with_split _ _ E1)|exact E2].
  - cbn [before_closing].
    destruct (starts_with p (c :: t)
              && forallb is_space (drop (length p) (c :: t))) eqn:E.
    + intros [= <-]. apply andb_true_iff in E as [E1 E2].
      exists (drop (length p) (c :: t)).
      split; [exact (starts_with_split _ _ E1)|exact E2].
    + destruct (before_closing p t) as [r|]; [|discriminate].
      intros [= <-]. destruct (IH r eq_refl) as (ws & -> & Hws).
      exists ws. split; [reflexivity|exact Hws].
Qed.

Lemma forallb_space_rev ws :
  forallb is_space ws = true -> forallb is_space (rev ws) = true.
Proof.
  rewrite !forallb_forall. intros H c Hin. apply H. now apply in_rev.
Qed.

Lemma trimEnd_closing x p e ws :
  last p = Some e -> is_space e = false -> forallb is_space ws = true ->
  trimEnd (x ++ p ++ ws) = x ++ p.
Proof.
  intros Hp He Hws. unfold trimEnd. rewrite !rev_app_distr, <- app_assoc.
  rewrite (trimStart_spaces _ _ (forallb_space_rev _ Hws)).
  apply last_Some in Hp as [p' ->]. rewrite rev_unit.
  cbn [app trimStart]. rewrite He.
  change (e :: rev p' ++ rev x) with (rev [e] ++ rev p' ++ rev x).
  rewrite app_assoc, <- !rev_app_distr. apply rev_involutive.
Qed.

Lemma before_closing_none p t :
  last p = Some backtick -> no_backtick_at_end t -> before_closing p t = None.
Proof.
  intros Hp Hno. destruct (before_closing p t) as [x|] eqn:E; [|reflexivity].
  destruct (before_closing_split _ _ _ E) as (ws & -> & Hws). exfalso.
  apply Hno. rewrite (trimEnd_closing _ _ _ _ Hp backtick_not_space Hws).
  rewrite last_app, Hp. reflexivity.
Qed.

Lemma skip_label_text l rest :
  skip_label (label_text l ++ [10%N] ++ rest) = 10%N :: rest.
Proof. destruct l; reflexivity. Qed.

Lemma after_start_fence_labelled l rest :
  exists indent,
    forallb is_space indent = true
    /\ after_last_newline (10%N :: take_space rest) = Some indent
    /\ after_start_fence (fence ++ label_text l ++ [10%N] ++ rest)
       = Some (indent ++ trimStart rest).
Proof.
  destruct (after_last_newline_cons (take_space rest)) as [indent Hi].
  exists indent. split; [|split; [exact Hi|]].
  - apply (after_last_newline_spaces (10%N :: take_space rest)); [|exact Hi].
    cbn [forallb]. now rewrite take_space_spaces.
  - unfold after_start_fence.
    change (starts_with fence (fence ++ label_text l ++ [10%N] ++ rest))
      with true.
    change (drop 3 (fence ++ label_text l ++ [10%N] ++ rest))
      with (label_text l ++ [10%N] ++ rest).
    cbv beta iota zeta. rewrite skip_label_text.
    change (take_space (10%N :: rest)) with (10%N :: take_space rest).
    rewrite Hi. reflexivity.
Qed.

Lemma trim_spaces ws x :
  forallb is_space ws = true -> trim (ws ++ trimStart x) = trim x.
Proof.
  intros H. unfold trim. now rewrite (trimStart_spaces _ _ H), trimStart_idem.
Qed.

(** X20.  A text between an opening fence on its own line, bare or
    labelled [markdown] or [md], and a closing fence comes back trimmed,
    whatever it contains: the fences inside it are left alone. *)
Theorem fenced_text_is_unwrapped (l : FenceLabel) (body : text) :
  stripMarkdownCodeFences (in_markdown_fence l body) = trim body.
Proof.
  unfold stripMarkdownCodeFences, markdownFenceMatch, in_markdown_fence.
  destruct (after_start_fence_labelled l (body ++ fence))
    as (indent & Hsp & _ & ->).
  rewrite trimStart_app_fence', app_assoc.
  rewrite (before_closing_at_end fence backtick _ eq_refl backtick_not_space).
  exact (trim_spaces _ _ Hsp).
Qed.

Lemma take_space_trimmed x : trimStart x = x -> take_space x = [].
Proof.
  destruct x as [|c x]; [reflexivity|]. cbn [trimStart take_space].
  destruct (is_space c) eqn:E; [|reflexivity].
  intros H. exfalso.
  assert (Hl : (length (trimStart x) <= length x)%nat).
  { clear. induction x as [|d x IH]; [reflexivity|]. cbn [trimStart].
    destruct (is_space d); cbn [length]; lia. }
  rewrite H in Hl. cbn [length] in Hl. lia.
Qed.

(** X21.  A text that does not start with a fence and whose last
    character other than white space is not a backtick is returned as it
    is, white space included. *)
Theorem unfenced_text_is_kept (content : text) :
  starts_with fence content = false ->
  no_backtick_at_end content ->
  stripMarkdownCodeFences content = content.
Proof.
  intros Hs Hno. unfold stripMarkdownCodeFences, markdownFenceMatch.
  unfold after_start_fence. rewrite Hs.
  now rewrite (before_closing_none (10%N :: fence) content eq_refl Hno).
Qed.

(** X22.  A fence on one side only.  After an opening fence that is never
    closed, a text that does not begin with white space and whose last
    character other than white space is not a backtick is returned as it
    is, without the line of the fence.  Before a closing fence on a last
    line of its own, a text that does not start with a fence is returned
    as it is, without that line. *)
Theorem stray_fence_is_removed :
  (forall l body,
     trimStart body = body -> no_backtick_at_end body ->
     stripMarkdownCodeFences (fence ++ label_text l ++ [10%N] ++ body) = body)
  /\ (forall body,
        starts_with fence body = false ->
        stripMarkdownCodeFences (body ++ [10%N] ++ fence) = body).
Proof.
  split.
  - intros l body Hb Hno. unfold stripMarkdownCodeFences, markdownFenceMatch.
    destruct (after_start_fence_labelled l body) as (indent & _ & Hi & ->).
    rewrite (take_space_trimmed _ Hb) in Hi. injection Hi as <-.
    rewrite Hb. cbn [app].
    rewrite (before_closing_none fence body eq_refl Hno).
    now rewrite (before_closing_none (10%N :: fence) body eq_refl Hno).
  - intros body Hs. unfold stripMarkdownCodeFences, markdownFenceMatch.
    assert (Hc : starts_with fence (body ++ [10%N] ++ fence) = false).
    { destruct body as [|a [|b [|c body]]]; [reflexivity| | |exact Hs];
        unfold fence; cbn [app starts_with].
      - destruct (backtick =? a)%N; reflexivity.
      - destruct (backtick =? a)%N; [|reflexivity].
        destruct (backtick =? b)%N; reflexivity. }
    unfold after_start_fence. rewrite Hc.
    change (body ++ [10%N] ++ fence) with (body ++ (10%N :: fence)).
    now rewrite (before_closing_at_end (10%N :: fence) backtick _ eq_refl
                   backtick_not_space).
Qed.

(** ** Instances *)

Lemma pair_with_fst {A B} (p : A * B) (a : A) : p.1 = a -> p = (a, p.2).
Proof. destruct p. simpl. now intros ->. Qed.

Lemma keys_below_next_new_topic : keys_below_next new_topic.
Proof.
  intros j [b Hb]. change (lessons new_topic) with (∅ : gmap Z Lesson) in Hb.
  rewrite lookup_empty in Hb. discriminate.
Qed.

Lemma addConnection_removeConnection_witness :
  example_registry !! "3-d" = None
  /\ (SSE.removeConnection "3-d"
        (SSE.addConnection 0 "3-d" 3 (SSE.res (example_connection 3 false))
           example_registry).2).2
     = example_registry.
Proof.
  assert (H : example_registry !! "3-d" = None) by (vm_compute; reflexivity).
  split; [exact H|].
  exact (proj1 (proj2 (proj2 (proj2 (proj2
    (addConnection_removeConnection 0 "3-d" 3
       (SSE.res (example_connection 3 false)) example_registry H)))))).
Defined.

Lemma retry_counts_agree_witness :
  (retryFailedLessons 1 createSSEProgressCallbacks interrupted).1
  = Ok {| retried := 3; succeeded := 2; failed_again := 1 |}
  /\ 1 = Z.of_nat
           (length
              (with_status_in
                 (retryFailedLessons 1 createSSEProgressCallbacks
                    interrupted).2
                 failed (select_retryable 1 interrupted))).
Proof.
  assert (H : (retryFailedLessons 1 createSSEProgressCallbacks interrupted).1
              = Ok {| retried := 3; succeeded := 2; failed_again := 1 |})
    by (vm_compute; reflexivity).
  split; [exact H|].
  exact (proj1 (proj2 (proj2
    (retry_counts_agree 1 createSSEProgressCallbacks interrupted _ H)))).
Defined.

Lemma breakdown_inserts_pending_rows_witness :
  topics new_topic !! 1 = Some fresh_topic
  /\ isApiKeyConfigured new_topic = true
  /\ keys_below_next new_topic
  /\ (let run := breakdownTopic parse_two_lessons 1
                   createSSEProgressCallbacks new_topic in
      run.1 = Ok two_lessons_outline
      /\ next_lesson_id run.2 = 3
      /\ length (select_lessons 1 run.2) = 2%nat).
Proof.
  assert (H1 : topics new_topic !! 1 = Some fresh_topic) by reflexivity.
  assert (H2 : isApiKeyConfigured new_topic = true) by reflexivity.
  split; [exact H1|]. split; [exact H2|].
  split; [exact keys_below_next_new_topic|].
  pose proof (breakdown_inserts_pending_rows parse_two_lessons 1
                createSSEProgressCallbacks new_topic _ _
                (lit "hello world") two_lessons_outline
                [outline_entry 1 "The problem"; outline_entry 2 "The solution"]
                (Some "About lean startups") _
                H1 H2 eq_refl eq_refl keys_below_next_new_topic
                (pair_with_fst _ _ ltac:(vm_compute; reflexivity))
                eq_refl eq_refl eq_refl eq_refl) as H.
  cbv zeta in H |- *.
  destruct H as (Hr & _ & _ & _ & Hn & _ & Hl & _).
  split; [exact Hr|]. split; [exact Hn|exact Hl].
Defined.


Lemma callOpenAI_throws_after_budget_witness :
  quiet_observer (onRetry no_options)
  /\ (callOpenAI "lesson_content" no_options offline).1
     = Throw (OtherError "TypeError" "fetch failed")
  /\ length (calls (callOpenAI "lesson_content" no_options offline).2) = 4%nat.
Proof.
  assert (H1 : quiet_observer (onRetry no_options)).
  { intros g Hg. discriminate. }
  assert (H2 : (callOpenAI "lesson_content" no_options offline).1
               = Throw (OtherError "TypeError" "fetch failed"))
    by (vm_compute; reflexivity).
  split; [exact H1|]. split; [exact H2|].
  exact (proj2 (callOpenAI_throws_after_budget "lesson_content" no_options
                  offline _ H1 H2) eq_refl).
Defined.

Lemma generated_lesson_is_served_witness :
  lessons five_lessons !! 10 = Some (example_lesson 1 pending 0)
  /\ (generateSingleLesson example_topic (10, example_lesson 1 pending 0)
        (path_join CONTENT_DIR (slug example_topic))
        createSSEProgressCallbacks five_lessons).1 = Ok true
  /\ exists body script,
       answered lesson_request five_lessons
         (generateSingleLesson example_topic (10, example_lesson 1 pending 0)
            (path_join CONTENT_DIR (slug example_topic))
            createSSEProgressCallbacks five_lessons).2 body
       /\ files
            (generateSingleLesson example_topic
               (10, example_lesson 1 pending 0)
               (path_join CONTENT_DIR (slug example_topic))
               createSSEProgressCallbacks five_lessons).2
          !! path_join (path_join CONTENT_DIR (slug example_topic))
               (podcastFileName (example_lesson 1 pending 0))
          = Some script
       /\ get_lesson_content 10
         (generateSingleLesson example_topic (10, example_lesson 1 pending 0)
            (path_join CONTENT_DIR (slug example_topic))
            createSSEProgressCallbacks five_lessons).2
       = Json 200 {| content := read_back body;
                     content_word_count := countWords body |}
       /\ get_lesson_podcast 10
            (generateSingleLesson example_topic
               (10, example_lesson 1 pending 0)
               (path_join CONTENT_DIR (slug example_topic))
               createSSEProgressCallbacks five_lessons).2
          = Json 200 {| content := read_back script;
                        content_word_count := countWords script |}.
Proof.
  assert (H1 : lessons five_lessons !! 10 = Some (example_lesson 1 pending 0))
    by reflexivity.
  assert (H2 : (generateSingleLesson example_topic
                  (10, example_lesson 1 pending 0)
                  (path_join CONTENT_DIR (slug example_topic))
                  createSSEProgressCallbacks five_lessons).1 = Ok true)
    by (vm_compute; reflexivity).
  split; [exact H1|]. split; [exact H2|].
  destruct (generated_lesson_is_served example_topic 10
              (example_lesson 1 pending 0) (example_lesson 1 pending 0)
              createSSEProgressCallbacks five_lessons H1 H2)
    as (body & script & Ha & _ & _ & Hf & Hb & Hs & _).
  exists body, script. split; [exact Ha|]. split; [exact Hf|].
  split; [exact Hb|exact Hs].
Defined.

Lemma unfenced_text_is_kept_witness :
  starts_with fence (lit " plain `text` here ") = false
  /\ no_backtick_at_end (lit " plain `text` here ")
  /\ stripMarkdownCodeFences (lit " plain `text` here ")
     = lit " plain `text` here ".
Proof.
  assert (H1 : starts_with fence (lit " plain `text` here ") = false)
    by reflexivity.
  assert (H2 : no_backtick_at_end (lit " plain `text` here ")).
  { intros H. vm_compute in H. discriminate. }
  split; [exact H1|]. split; [exact H2|].
  exact (unfenced_text_is_kept _ H1 H2).
Defined.

Lemma stray_fence_is_removed_witness :
  trimStart (lit "# Title") = lit "# Title"
  /\ no_backtick_at_end (lit "# Title")
  /\ stripMarkdownCodeFences
       (fence ++ label_text LabelMarkdown ++ [10%N] ++ lit "# Title")
     = lit "# Title".
Proof.
  assert (H1 : trimStart (lit "# Title") = lit "# Title") by reflexivity.
  assert (H2 : no_backtick_at_end (lit "# Title")).
  { intros H. vm_compute in H. discriminate. }
  split; [exact H1|]. split; [exact H2|].
  exact (proj1 stray_fence_is_removed LabelMarkdown _ H1 H2).
Defined.

Lemma createSlug_idempotent_witness :
  well_formed_slug (lit "intro-to-c-2nd-ed")
  /\ createSlug (lit "intro-to-c-2nd-ed") = lit "intro-to-c-2nd-ed".
Proof.
  assert (H : well_formed_slug (lit "intro-to-c-2nd-ed")).
  { apply well_formed_of_shape; [reflexivity|].
    intros E. vm_compute in E. discriminate. }
  split; [exact H|]. exact (proj1 createSlug_idempotent _ H).
Defined.

Lemma createSlug_ignores_separators_and_case_witness :
  separator (lit " & ") /\ separator (lit "_")
  /\ createSlug (lit "R" ++ lit " & " ++ lit "D")
     = createSlug (lit "R" ++ lit "_" ++ lit "D").
Proof.
  assert (H1 : separator (lit " & ")).
  { split; [discriminate|]. repeat constructor. }
  assert (H2 : separator (lit "_")).
  { split; [discriminate|]. repeat constructor. }
  split; [exact H1|]. split; [exact H2|].
  exact (proj1 createSlug_ignores_separators_and_case _ _ _ _ H1 H2).
Defined.

Lemma retry_route_announces_what_is_retried_witness :
  exists body,
    (retry_route 1 stalled).1 = Json 200 body /\ lessonsToRetry body = 3.
Proof.
  assert (H : exists body, (retry_route 1 stalled).1 = Json 200 body)
    by (eexists; vm_compute; reflexivity).
  destruct H as [body H]. exists body. split; [exact H|].
  exact (proj1 (proj2
    (proj1 (retry_route_announces_what_is_retried 1 stalled) body H))).
Defined.

Lemma generate_route_outcomes_witness :
  (forall t v, parse_two_lessons t = Some v -> outline_as_driver v)
  /\ exists body t',
       (generate_route parse_two_lessons 1 new_topic).1 = Json 200 body
       /\ topics (generate_route parse_two_lessons 1 new_topic).2 !! 1
          = Some t'
       /\ (topic_status t' = completed \/ topic_status t' = failed).
Proof.
  assert (Hd : forall t v, parse_two_lessons t = Some v ->
                           outline_as_driver v).
  { intros t v [= <-]. split.
    - intros v Hv. vm_compute in Hv. injection Hv as <-. exact I.
    - intros entries He. vm_compute in He. injection He as <-.
      repeat (constructor; [vm_compute; auto|]). constructor. }
  split; [exact Hd|].
  assert (H : exists body,
            (generate_route parse_two_lessons 1 new_topic).1 = Json 200 body)
    by (eexists; vm_compute; reflexivity).
  destruct H as [body H].
  destruct (proj1 (generate_route_outcomes parse_two_lessons 1 new_topic Hd)
              body H)
    as (t' & Ht & [(_ & _ & Hs)|[(_ & [e He] & _)|[(_ & [e He] & _)|[He _]]]]).
  - exists body, t'. split; [exact H|]. split; [exact Ht|exact Hs].
  - vm_compute in He. discriminate.
  - vm_compute in He. discriminate.
  - vm_compute in He. discriminate.
Defined.
